(** * CBOE-emulator: limit order book, order-entry session and market-data receiver

    A shallow embedding of the matching engine of the venue
    ([include/order_entry/limit_order_book], [include/order_entry/system_account.hpp],
    [include/order_entry/connection.hpp]) and of the market-data subscriber
    ([include/data_feed/receiver.hpp]), followed by the properties of the
    specification that are checked against it.  The accounts of the venue
    ([include/order_entry/authorizer.hpp]), the client of a session
    ([include/order_entry/client.hpp]) and the sender of the feed
    ([include/data_feed/sender.hpp]) are embedded as well, with further
    properties of the code.

    Pointers are modelled by stable handles: an [Order*] by the uid under which
    the order is stored, an [Account*] by the key of the account in the
    [Authorizer], a [Connection*] by a session number, a [Limit*] by the price
    of the level.  Fixed-width integers are integers of [Z] with the
    wrap-around written where the code computes. *)

From Stdlib Require Import ZArith Lia.
From stdpp Require Import gmap strings list fin_maps.

Local Open Scope Z_scope.

(** ** Fixed-width arithmetic *)

(** [uint32_t]: [Quantity], [Count], [SequenceNumber]. *)
Definition wrap32 (z : Z) : Z := z mod 2 ^ 32.

(** [uint64_t]: [UID], [Price], [Volume]. *)
Definition wrap64 (z : Z) : Z := z mod 2 ^ 64.

(** [int64_t] in two's complement: [Shares], [Capital]. *)
Definition swrap64 (z : Z) : Z := (z + 2 ^ 63) mod 2 ^ 64 - 2 ^ 63.

(** The value an [int32_t] holds after an operation whose exact result is [z]. *)
Definition swrap32 (z : Z) : Z := (z + 2 ^ 31) mod 2 ^ 32 - 2 ^ 31.

Definition UINT64_MAX : Z := 2 ^ 64 - 1.

(** ** Exceptions and the state monad of the engine *)

Inductive Exception : Type :=
  | OutOfRange                 (* std::out_of_range thrown by [at] *)
  | Thrown (what : string)     (* [throw "..."] *)
  | NullPointer                (* a null or dangling pointer is dereferenced *)
  | OutOfFuel.                 (* the loop bound of the model is exhausted *)

(** The outcome of a computation over a state [S]: a value, or an exception;
    both with the state reached (an exception does not roll back what was
    written before it). *)
Inductive Result (S A : Type) : Type :=
  | Ok (a : A) (s : S)
  | Raise (e : Exception) (s : S).
Arguments Ok {S A} a s.
Arguments Raise {S A} e s.

Definition M (S A : Type) : Type := S -> Result S A.

Definition ret {S A} (a : A) : M S A := fun s => Ok a s.

Definition bind {S A B} (m : M S A) (k : A -> M S B) : M S B :=
  fun s => match m s with
           | Ok a s' => k a s'
           | Raise e s' => Raise e s'
           end.

Definition raise {S A} (e : Exception) : M S A := fun s => Raise e s.

Definition get {S} : M S S := fun s => Ok s s.

Definition put {S} (s : S) : M S unit := fun _ => Ok tt s.

Definition modify {S} (f : S -> S) : M S unit := fun s => Ok tt (f s).

(** Dereference of an optional value: [None] raises [e]. *)
Definition unwrap {S A} (e : Exception) (o : option A) : M S A :=
  match o with
  | Some a => ret a
  | None => raise e
  end.

Declare Scope monad_scope.
Delimit Scope monad_scope with monad.
Notation "'let*' x ':=' m 'in' k" := (bind m (fun x => k))
  (at level 10, x name, m at level 100, k at level 200, only parsing) : monad_scope.
Notation "'do' m 'then' k" := (bind m (fun _ => k))
  (at level 10, m at level 100, k at level 200, only parsing) : monad_scope.

(** ** Vocabulary for the properties *)

(** The state a computation ends in, whether it returns or throws. *)
Definition final {S A} (r : Result S A) : S :=
  match r with Ok _ s => s | Raise _ s => s end.

(** A computation leaves the projection [f] of the state as it is. *)
Definition stable {S X A} (f : S -> X) (p : M S A) : Prop :=
  forall s, f (final (p s)) = f s.

(** Partial correctness, with a postcondition for the thrown case. *)
Definition hoare {S A} (P : S -> Prop) (p : M S A) (Q : A -> S -> Prop) (R : S -> Prop) : Prop :=
  forall s, P s ->
    match p s with
    | Ok a s' => Q a s'
    | Raise _ s' => R s'
    end.

(** sums over the accounts *)
Definition sum_over {K V} `{Countable K} (f : V -> Z) (m : gmap K V) : Z :=
  map_fold (fun _ v acc => f v + acc) 0 m.

(** [P] holds of the value an optional value holds. *)
Definition holds {A} (P : A -> Prop) (x : option A) : Prop :=
  match x with
  | Some a => P a
  | None => False
  end.

#[export] Instance holds_dec {A} (P : A -> Prop) `{forall a, Decision (P a)} (x : option A) :
  Decision (holds P x).
Proof. destruct x; cbn; apply _. Defined.

Module OrderEntry.

(** ** [order_entry/limit_order_book/structures.hpp] *)

Inductive Side : Type := Sell | Buy.

#[export] Instance Side_eq_dec : EqDecision Side.
Proof. solve_decision. Defined.

(** [operator!] *)
Definition Side_not (s : Side) : Side :=
  match s with Sell => Buy | Buy => Sell end.

(** [struct Order].  [limit] is the price of the level the order rests in
    ([None] for [nullptr]); [account] is the key of the owning account. *)
Record Order : Type := mkOrder {
  uid : Z;
  side : Side;
  quantity : Z;
  price : Z;
  limit : option Z;
  account : string
}.

Definition set_quantity (o : Order) (q : Z) : Order :=
  mkOrder (uid o) (side o) q (price o) (limit o) (account o).

Definition set_limit (o : Order) (l : option Z) : Order :=
  mkOrder (uid o) (side o) (quantity o) (price o) l (account o).

(** [struct Limit].  The intrusive doubly-linked list between [order_head]
    and [order_tail] is the list [fifo] of uids, head first. *)
Record Limit : Type := mkLimit {
  key : Z;
  count : Z;
  volume : Z;
  fifo : list Z
}.

(** [Limit(Order* order)]; [u] is the pointer, [o] the order it points to. *)
Definition Limit_of_order (u : Z) (o : Order) : Limit :=
  mkLimit (price o) 1 (quantity o) [u].

(** [struct Account] *)
Record Account : Type := mkAccount {
  shares : Z;
  capital : Z;
  orders : gset Z
}.

Definition Account_default : Account := mkAccount 0 0 ∅.

(** [Account::limit] *)
Definition Account_limit (a : Account) (o : Order) : Account :=
  mkAccount (shares a) (capital a) (orders a ∪ {[uid o]}).

(** [Account::cancel] *)
Definition Account_cancel (a : Account) (o : Order) : Account :=
  mkAccount (shares a) (capital a) (orders a ∖ {[uid o]}).

(** [Account::fill].  [quantity * price] is a product of [uint64_t]; the sum
    with the signed balance is converted back to [int64_t]. *)
Definition Account_fill (a : Account) (s : Side) (q p : Z) : Account :=
  match s with
  | Sell => mkAccount (swrap64 (shares a - q))
                      (swrap64 (capital a + wrap64 (q * p)))
                      (orders a)
  | Buy => mkAccount (swrap64 (shares a + q))
                     (swrap64 (capital a - wrap64 (q * p)))
                     (orders a)
  end.

(** [Account::limit_fill] *)
Definition Account_limit_fill (a : Account) (lim mkt : Order) : Account :=
  Account_fill (Account_cancel a lim) (side lim) (quantity lim) (price lim).

(** [Account::limit_partial] *)
Definition Account_limit_partial (a : Account) (lim mkt : Order) : Account :=
  Account_fill a (side lim) (quantity mkt) (price lim).

(** [Account::market_fill] *)
Definition Account_market_fill (a : Account) (lim mkt : Order) : Account :=
  Account_fill a (side mkt) (quantity mkt) (price lim).

(** [Account::market_partial] *)
Definition Account_market_partial (a : Account) (lim mkt : Order) : Account :=
  Account_fill a (side mkt) (quantity lim) (price lim).

(** ** [order_entry/messages.hpp] *)

(** [enum class Side : char { Sell = 'S', Buy = 'B' }] of the wire protocol. *)
Inductive WireSide : Type := WireSell | WireBuy.

(** [enum class Side : bool { Sell = false, Buy = true }] *)
Definition Side_to_bool (s : Side) : bool :=
  match s with Sell => false | Buy => true end.

Definition Side_of_bool (b : bool) : Side := if b then Buy else Sell.

Definition side_to_bool (s : WireSide) : bool :=
  match s with WireBuy => true | WireSell => false end.

Definition side_to_LOB_side (s : WireSide) : Side := Side_of_bool (side_to_bool s).

Definition bool_to_side (b : bool) : WireSide := if b then WireBuy else WireSell.

Definition ORDER_PRICE_MARKET : Z := 0.
Definition ORDER_ID_MARKET : Z := 0.
Definition ORDER_ID_REJECTED : Z := 0.

Inductive Status : Type := Accepted | Rejected.

Inductive LoginResponseStatus : Type :=
  | LoginAccepted | NotAuthorized | AlreadyAuthorized | SessionInUse.

Inductive LogoutReason : Type :=
  | UserRequested | EndOfDay | Administrative | ProtocolViolation.

(** The messages a session sends; the header's sequence number is paired with
    the message when it is queued ([Connection::send]). *)
Inductive Response : Type :=
  | LoginResponse (status : LoginResponseStatus)
  | LogoutResponse (reason : LogoutReason)
  | OrderResponse (order_id : Z) (status : Status)
  | CancelResponse (order_id : Z) (status : Status)
  | ReplaceResponse (canceled new_order_id : Z) (status : Status)
  | PurgeResponse (status : Status)
  | TradeResponse (order_id price quantity leaves_quantity : Z) (side : WireSide).

Record OrderRequest : Type := mkOrderRequest {
  order_price : Z;
  order_quantity : Z;
  order_side : WireSide
}.

Record ReplaceRequest : Type := mkReplaceRequest {
  replace_order_id : Z;
  replace_price : Z;
  replace_quantity : Z;
  replace_side : WireSide
}.

(** ** [order_entry/system_account.hpp] *)

(** [struct SystemAccount : LOB::Account].  [handler] is the session the
    account is bound to ([None] for [nullptr]).  A plain [LOB::Account] behaves
    as a [SystemAccount] without handler. *)
Record SystemAccount : Type := mkSystemAccount {
  base : Account;
  username : string;
  password : string;
  handler : option nat;
  is_connected : bool
}.

Definition set_base (a : SystemAccount) (b : Account) : SystemAccount :=
  mkSystemAccount b (username a) (password a) (handler a) (is_connected a).

Definition set_session (a : SystemAccount) (h : option nat) (c : bool) : SystemAccount :=
  mkSystemAccount (base a) (username a) (password a) h c.

(** [SystemAccount(username, password)] *)
Definition SystemAccount_new (u p : string) : SystemAccount :=
  mkSystemAccount Account_default u p None false.

(** ** [order_entry/connection.hpp]: the state of a session *)

(** [class Connection].  [output_buffer] keeps every packet queued by [send],
    oldest first (the asynchronous write loop that drains it is not modelled). *)
Record Connection : Type := mkConnection {
  conn_account : option string;
  output_buffer : list (Z * Response);
  conn_sequence : Z
}.

Definition Connection_new : Connection := mkConnection None [] 0.

(** ** The limit tree *)

(** [struct LimitTree<side>]: the index of the active price levels of one side
    (the [PriceLimitMap limits] together with the search tree rooted at
    [root]), the cached [best] level, and the totals of the side. *)
Record LimitTree : Type := mkLimitTree {
  limits : gmap Z Limit;
  best : option Z;
  last_best_price : Z;
  tree_count : Z;
  tree_volume : Z
}.

Definition LimitTree_new : LimitTree := mkLimitTree ∅ None 0 0 0.

(** ** [order_entry/limit_order_book/limit_order_book.hpp]: the state *)

(** [class LimitOrderBook]; [order_map] is the [UIDOrderMap orders]. *)
Record LimitOrderBook : Type := mkLimitOrderBook {
  sells : LimitTree;
  buys : LimitTree;
  order_map : gmap Z Order;
  sequence : Z
}.

(** [LimitOrderBook()] *)
Definition LimitOrderBook_new : LimitOrderBook :=
  mkLimitOrderBook LimitTree_new LimitTree_new ∅ 1.

(** The memory of the server: the book, the accounts owned by the
    [Authorizer] and the sessions. *)
Record Memory : Type := mkMemory {
  book : LimitOrderBook;
  accounts : gmap string SystemAccount;
  connections : gmap nat Connection
}.

Definition tree_of (s : Side) (b : LimitOrderBook) : LimitTree :=
  match s with Sell => sells b | Buy => buys b end.

Definition set_tree (s : Side) (t : LimitTree) (b : LimitOrderBook) : LimitOrderBook :=
  match s with
  | Sell => mkLimitOrderBook t (buys b) (order_map b) (sequence b)
  | Buy => mkLimitOrderBook (sells b) t (order_map b) (sequence b)
  end.

Definition set_order_map (om : gmap Z Order) (b : LimitOrderBook) : LimitOrderBook :=
  mkLimitOrderBook (sells b) (buys b) om (sequence b).

Definition set_sequence (n : Z) (b : LimitOrderBook) : LimitOrderBook :=
  mkLimitOrderBook (sells b) (buys b) (order_map b) n.

Definition set_book (b : LimitOrderBook) (m : Memory) : Memory :=
  mkMemory b (accounts m) (connections m).

Definition set_accounts (a : gmap string SystemAccount) (m : Memory) : Memory :=
  mkMemory (book m) a (connections m).

Definition set_connections (c : gmap nat Connection) (m : Memory) : Memory :=
  mkMemory (book m) (accounts m) c.

Local Open Scope monad_scope.

(** Reads and writes through pointers. *)
Definition load_tree (s : Side) : M Memory LimitTree :=
  let* m := get in ret (tree_of s (book m)).

Definition store_tree (s : Side) (t : LimitTree) : M Memory unit :=
  modify (fun m => set_book (set_tree s t (book m)) m).

Definition load_order (u : Z) : M Memory Order :=
  let* m := get in unwrap NullPointer (order_map (book m) !! u).

Definition store_order (u : Z) (o : Order) : M Memory unit :=
  modify (fun m => set_book (set_order_map (<[u := o]> (order_map (book m))) (book m)) m).

Definition load_account (name : string) : M Memory SystemAccount :=
  let* m := get in unwrap NullPointer (accounts m !! name).

Definition store_account (name : string) (a : SystemAccount) : M Memory unit :=
  modify (fun m => set_accounts (<[name := a]> (accounts m)) m).

Definition load_connection (c : nat) : M Memory Connection :=
  let* m := get in unwrap NullPointer (connections m !! c).

Definition store_connection (c : nat) (x : Connection) : M Memory unit :=
  modify (fun m => set_connections (<[c := x]> (connections m)) m).

(** [Connection::send<T>]: the message takes the current sequence number,
    which is then incremented. *)
Definition Connection_send (c : nat) (r : Response) : M Memory unit :=
  let* x := load_connection c in
  store_connection c
    (mkConnection (conn_account x)
                  (output_buffer x ++ [(conn_sequence x, r)])
                  (wrap32 (conn_sequence x + 1))).

(** [Connection::trade] *)
Definition Connection_trade (c : nat) (order_id p size leaves_size : Z) (s : WireSide)
  : M Memory unit :=
  Connection_send c (TradeResponse order_id p size leaves_size s).

(** The virtual callbacks of the account an order points to, as overridden by
    [SystemAccount]: the bookkeeping of [LOB::Account], then a trade message
    to the handler if there is one. *)

(** [SystemAccount::limit_fill] *)
Definition SystemAccount_limit_fill (name : string) (lim mkt : Order) : M Memory unit :=
  let* a := load_account name in
  do store_account name (set_base a (Account_limit_fill (base a) lim mkt)) then
  match handler a with
  | None => ret tt
  | Some h => Connection_trade h (uid lim) (price lim) (quantity lim) 0
                               (bool_to_side (Side_to_bool (side lim)))
  end.

(** [SystemAccount::limit_partial] *)
Definition SystemAccount_limit_partial (name : string) (lim mkt : Order) : M Memory unit :=
  let* a := load_account name in
  do store_account name (set_base a (Account_limit_partial (base a) lim mkt)) then
  match handler a with
  | None => ret tt
  | Some h => Connection_trade h (uid lim) (price lim) (quantity mkt) (quantity lim)
                               (bool_to_side (Side_to_bool (side lim)))
  end.

(** [SystemAccount::market_fill] *)
Definition SystemAccount_market_fill (name : string) (lim mkt : Order) : M Memory unit :=
  let* a := load_account name in
  do store_account name (set_base a (Account_market_fill (base a) lim mkt)) then
  match handler a with
  | None => ret tt
  | Some h => Connection_trade h 0 (price lim) (quantity mkt) 0
                               (bool_to_side (Side_to_bool (side mkt)))
  end.

(** [SystemAccount::market_partial] *)
Definition SystemAccount_market_partial (name : string) (lim mkt : Order) : M Memory unit :=
  let* a := load_account name in
  do store_account name (set_base a (Account_market_partial (base a) lim mkt)) then
  match handler a with
  | None => ret tt
  | Some h => Connection_trade h 0 (price lim) (quantity lim) (quantity mkt)
                               (bool_to_side (Side_to_bool (side mkt)))
  end.

(** ** [order_entry/limit_order_book/limit_tree.hpp] *)

(** Modelled from the spec: the order among the prices of one side, absent
    with [limit_tree.hpp] ("min price for Sell, max for Buy", section 3). *)
Definition better (s : Side) (a b : Z) : bool :=
  match s with
  | Sell => a <? b
  | Buy => b <? a
  end.

(** Modelled from the spec: the update of the cached [best] pointer of
    [limit_tree.hpp] on an insertion ("updated on every insert that extends
    the extremum", section 4.1). *)
Definition set_best (s : Side) (cur : option Z) (p : Z) : option Z :=
  match cur with
  | None => Some p
  | Some b => if better s p b then Some p else Some b
  end.

(** Modelled from the spec: the recomputation of [best] of [limit_tree.hpp]
    after the best level is erased ("recomputed as the new extremum, which for
    an ordered index is the leftmost node for Sell or rightmost for Buy",
    section 4.1). *)
Definition find_best (s : Side) (ls : gmap Z Limit) : option Z :=
  map_fold (fun p _ acc => set_best s acc p) None ls.

(** Modelled from the spec: when a taker may trade against the best level of
    the tree of side [s], absent with [limit_tree.hpp] ("for a Buy taker:
    opposite_best <= price; for Sell taker: opposite_best >= price", section
    4.3; a taker without limit price, price 0, trades against any level,
    section 4.2). *)
Definition can_match (s : Side) (lim mkt : Z) : bool :=
  (mkt =? 0) ||
  match s with
  | Buy => mkt <=? lim
  | Sell => lim <=? mkt
  end.

(** Modelled from the spec: the removal of a node from the doubly-linked
    list of [doubly_linked_list.hpp] ("splice it out of its doubly-linked
    list", section 4.1). *)
Fixpoint DLL_remove (u : Z) (l : list Z) : list Z :=
  match l with
  | [] => []
  | x :: l' => if decide (x = u) then l' else x :: DLL_remove u l'
  end.

Definition keep_last_best (t : LimitTree) : Z :=
  match best t with
  | Some p => p
  | None => last_best_price t
  end.

(** Modelled from the spec: [LimitTree::limit] of [limit_tree.hpp] ("look up
    or create the Price-Level Node at order.price, append order to its FIFO,
    set order.limit = level. Update side totals", section 4.2; "volume +=
    order.quantity", "++count", section 4.1).  The order is entered in the
    order set of its account here, as [test_limit_tree.cpp] observes after
    [tree.limit]. *)
Definition LimitTree_limit (s : Side) (u : Z) : M Memory unit :=
  let* o := load_order u in
  let* t := load_tree s in
  let ls :=
    match limits t !! price o with
    | None => <[price o := Limit_of_order u o]> (limits t)
    | Some l =>
        <[price o := mkLimit (key l) (wrap32 (count l + 1))
                             (wrap64 (volume l + quantity o))
                             (fifo l ++ [u])]> (limits t)
    end in
  let b :=
    match limits t !! price o with
    | None => set_best s (best t) (price o)
    | Some _ => best t
    end in
  let t1 := mkLimitTree ls b (last_best_price t)
                        (wrap32 (tree_count t + 1))
                        (wrap64 (tree_volume t + quantity o)) in
  do store_tree s (mkLimitTree (limits t1) (best t1) (keep_last_best t1)
                               (tree_count t1) (tree_volume t1)) then
  do store_order u (set_limit o (Some (price o))) then
  let* a := load_account (account o) in
  store_account (account o) (set_base a (Account_limit (base a) o)).

(** Modelled from the spec: [LimitTree::remove] of [limit_tree.hpp], the part
    of a cancel that concerns the tree ("splice order out of its level's FIFO;
    if the level's count becomes 0 erase the level from the index; decrement
    side totals", section 4.2; "--count; volume -= order.quantity", section
    4.1; "on every erase that removes the extremum [best is] recomputed as the
    new extremum"). *)
Definition LimitTree_remove (s : Side) (u : Z) : M Memory unit :=
  let* o := load_order u in
  let* p := unwrap NullPointer (limit o) in
  let* t := load_tree s in
  let* l := unwrap NullPointer (limits t !! p) in
  let l' := mkLimit (key l) (wrap32 (count l - 1))
                    (wrap64 (volume l - quantity o))
                    (DLL_remove u (fifo l)) in
  let ls := if count l' =? 0 then delete p (limits t) else <[p := l']> (limits t) in
  let b :=
    if count l' =? 0
    then (if decide (best t = Some p) then find_best s ls else best t)
    else best t in
  let t1 := mkLimitTree ls b (last_best_price t)
                        (wrap32 (tree_count t - 1))
                        (wrap64 (tree_volume t - quantity o)) in
  store_tree s (mkLimitTree (limits t1) (best t1) (keep_last_best t1)
                            (tree_count t1) (tree_volume t1)).

(** Modelled from the spec: [LimitTree::cancel] of [limit_tree.hpp], the
    removal from the tree followed by the removal from the order set of the
    account ("erase from account's order set", section 4.3, which
    [LimitOrderBook::cancel] leaves to the tree). *)
Definition LimitTree_cancel (s : Side) (u : Z) : M Memory unit :=
  do LimitTree_remove s u then
  let* o := load_order u in
  let* a := load_account (account o) in
  store_account (account o) (set_base a (Account_cancel (base a) o)).

(** Modelled from the spec: [LimitTree::clear] of [limit_tree.hpp] ("erase
    every order, level, and tree node", section 4.3).  No level is left, so
    there is no best level and the totals of the levels are 0; the last best
    price is kept, as it persists after its level is removed (section 3). *)
Definition LimitTree_clear (s : Side) : M Memory unit :=
  let* t := load_tree s in
  store_tree s (mkLimitTree ∅ None (last_best_price t) 0 0).

(** Modelled from the spec: [LimitTree::volume_at] and [LimitTree::count_at]
    of [limit_tree.hpp], the volume and the number of orders of the level at a
    price, 0 without level (as [test_limit_tree.cpp] requires). *)
Definition LimitTree_volume_at (t : LimitTree) (p : Z) : Z :=
  match limits t !! p with
  | Some l => volume l
  | None => 0
  end.

Definition LimitTree_count_at (t : LimitTree) (p : Z) : Z :=
  match limits t !! p with
  | Some l => count l
  | None => 0
  end.

(** The number of orders queued in the levels of a tree: the bound of the
    matching loop. *)
Definition tree_size (t : LimitTree) : nat :=
  map_fold (fun _ l n => (length (fifo l) + n)%nat) 0%nat (limits t).

(** Modelled from the spec: the loop of [LimitTree::market] of
    [limit_tree.hpp] (section 4.2): liquidity is consumed "until taker's
    quantity reaches 0, or the side empties, or (if taker has a limit price)
    the best resting price would be worse than the taker's price"; each
    iteration takes the head of the best level.  The taker [order] is passed
    and returned by value.  When the head is consumed and the taker is not,
    the taker's remaining quantity is decremented before the callbacks (the
    trade message reports it as leaves quantity); when both are consumed the
    callbacks see the taker's quantity before it becomes 0, as
    [Account::market_fill] reads the traded quantity from it and
    [test_limit_tree.cpp] ("perfect match") requires. *)
Fixpoint LimitTree_market_loop (fuel : nat) (s : Side)
    (did_fill : Z -> M Memory unit) (order : Order) : M Memory Order :=
  match fuel with
  | O => raise OutOfFuel
  | S fuel' =>
    let* t := load_tree s in
    match best t with
    | None => ret order
    | Some p =>
      if (quantity order =? 0) || negb (can_match s p (price order))
      then ret order
      else
        let* l := unwrap NullPointer (limits t !! p) in
        let* u := unwrap NullPointer (head (fifo l)) in
        let* m := load_order u in
        if quantity m <=? quantity order then
          (* the head is consumed entirely *)
          let order' := set_quantity order (quantity order - quantity m) in
          do (if quantity order' =? 0
              then
                do SystemAccount_limit_fill (account m) m order then
                SystemAccount_market_fill (account order) m order
              else
                do SystemAccount_limit_fill (account m) m order' then
                SystemAccount_market_partial (account order') m order') then
          do LimitTree_remove s u then
          do did_fill u then
          LimitTree_market_loop fuel' s did_fill order'
        else
          (* the head has more than the taker wants *)
          let m' := set_quantity m (quantity m - quantity order) in
          do store_order u m' then
          do store_tree s
               (mkLimitTree
                  (<[p := mkLimit (key l) (count l)
                                  (wrap64 (volume l - quantity order))
                                  (fifo l)]> (limits t))
                  (best t) (last_best_price t) (tree_count t)
                  (wrap64 (tree_volume t - quantity order))) then
          do SystemAccount_limit_partial (account m') m' order then
          do SystemAccount_market_fill (account order) m' order then
          ret (set_quantity order 0)
    end
  end.

(** Modelled from the spec: [LimitTree::market] of [limit_tree.hpp]; the loop
    runs at most once per queued order, and once more to stop. *)
Definition LimitTree_market (s : Side) (did_fill : Z -> M Memory unit)
    (order : Order) : M Memory Order :=
  let* t := load_tree s in
  LimitTree_market_loop (S (tree_size t)) s did_fill order.

(** ** [order_entry/limit_order_book/limit_order_book.hpp]: the operations *)

(** [orders.emplace]: nothing is inserted when the key is present. *)
Definition UIDOrderMap_emplace (u : Z) (o : Order) : M Memory unit :=
  modify (fun m =>
    match order_map (book m) !! u with
    | Some _ => m
    | None => set_book (set_order_map (<[u := o]> (order_map (book m))) (book m)) m
    end).

(** [orders.erase] *)
Definition UIDOrderMap_erase (u : Z) : M Memory unit :=
  modify (fun m => set_book (set_order_map (delete u (order_map (book m))) (book m)) m).

(** [orders.at] *)
Definition UIDOrderMap_at (u : Z) : M Memory Order :=
  let* m := get in unwrap OutOfRange (order_map (book m) !! u).

(** [LimitOrderBook::get_sequence] *)
Definition LimitOrderBook_get_sequence : M Memory Z :=
  let* m := get in ret (sequence (book m)).

(** [LimitOrderBook::clear] *)
Definition LimitOrderBook_clear : M Memory unit :=
  do LimitTree_clear Sell then
  do LimitTree_clear Buy then
  modify (fun m => set_book (set_sequence 1 (set_order_map ∅ (book m))) m).

(** The tail of [limit_sell] and [limit_buy]: the order rests on its own side
    and the sequence is returned, then incremented ([return sequence++]). *)
Definition LimitOrderBook_rest (s : Side) (seq : Z) : M Memory Z :=
  do (let* _ := UIDOrderMap_at seq in LimitTree_limit s seq) then
  do modify (fun m => set_book (set_sequence (wrap64 (seq + 1)) (book m)) m) then
  ret seq.

(** The crossing part of [limit_sell] and [limit_buy]: the order stored under
    [seq] is matched against the tree of the opposite side [s].  The code
    matches it in place through [&orders.at(sequence)]; here the matched order
    is stored back after the loop, which is the same as long as no resting
    order has the uid [seq]. *)
Definition LimitOrderBook_cross (s : Side) (seq : Z) : M Memory Order :=
  let* o := UIDOrderMap_at seq in
  let* o' := LimitTree_market s UIDOrderMap_erase o in
  do store_order seq o' then
  UIDOrderMap_at seq.

(** [LimitOrderBook::limit_sell] *)
Definition LimitOrderBook_limit_sell (acct : string) (q p : Z) : M Memory Z :=
  let* seq := LimitOrderBook_get_sequence in
  do UIDOrderMap_emplace seq (mkOrder seq Sell q p None acct) then
  let* bids := load_tree Buy in
  match best bids with
  | Some k =>
      if p <=? k then
        let* o := LimitOrderBook_cross Buy seq in
        if quantity o =? 0
        then do UIDOrderMap_erase seq then ret 0
        else LimitOrderBook_rest Sell seq
      else LimitOrderBook_rest Sell seq
  | None => LimitOrderBook_rest Sell seq
  end.

(** [LimitOrderBook::limit_buy] *)
Definition LimitOrderBook_limit_buy (acct : string) (q p : Z) : M Memory Z :=
  let* seq := LimitOrderBook_get_sequence in
  do UIDOrderMap_emplace seq (mkOrder seq Buy q p None acct) then
  let* asks := load_tree Sell in
  match best asks with
  | Some k =>
      if k <=? p then
        let* o := LimitOrderBook_cross Sell seq in
        if quantity o =? 0
        then do UIDOrderMap_erase seq then ret 0
        else LimitOrderBook_rest Buy seq
      else LimitOrderBook_rest Buy seq
  | None => LimitOrderBook_rest Buy seq
  end.

(** [LimitOrderBook::limit] *)
Definition LimitOrderBook_limit (acct : string) (s : Side) (q p : Z) : M Memory Z :=
  match s with
  | Sell => LimitOrderBook_limit_sell acct q p
  | Buy => LimitOrderBook_limit_buy acct q p
  end.

(** [LimitOrderBook::has] *)
Definition LimitOrderBook_has (b : LimitOrderBook) (order_id : Z) : bool :=
  bool_decide (is_Some (order_map b !! order_id)).

(** [LimitOrderBook::get] *)
Definition LimitOrderBook_get (order_id : Z) : M Memory Order :=
  UIDOrderMap_at order_id.

(** [LimitOrderBook::cancel] *)
Definition LimitOrderBook_cancel (order_id : Z) : M Memory unit :=
  let* o := UIDOrderMap_at order_id in
  do LimitTree_cancel (side o) order_id then
  UIDOrderMap_erase order_id.

(** [LimitOrderBook::reduce].  [order->limit->volume] is the volume of the
    level of the order in the tree of its side. *)
Definition LimitOrderBook_reduce (order_id : Z) (q : Z) : M Memory unit :=
  let* o := UIDOrderMap_at order_id in
  if quantity o <? q
  then raise (Thrown "trying to remove more than available")
  else
    do store_order order_id (set_quantity o (quantity o - q)) then
    let* p := unwrap NullPointer (limit o) in
    let* t := load_tree (side o) in
    let* l := unwrap NullPointer (limits t !! p) in
    do store_tree (side o)
         (mkLimitTree
            (<[p := mkLimit (key l) (count l) (wrap64 (volume l - q)) (fifo l)]> (limits t))
            (best t) (last_best_price t) (tree_count t)
            (wrap64 (tree_volume t - q))) then
    if quantity o - q =? 0
    then do LimitTree_cancel (side o) order_id then UIDOrderMap_erase order_id
    else ret tt.

(** [LimitOrderBook::market_sell] *)
Definition LimitOrderBook_market_sell (acct : string) (q : Z) : M Memory unit :=
  let* seq := LimitOrderBook_get_sequence in
  let* _ := LimitTree_market Buy UIDOrderMap_erase (mkOrder seq Sell q 0 None acct) in
  ret tt.

(** [LimitOrderBook::market_buy] *)
Definition LimitOrderBook_market_buy (acct : string) (q : Z) : M Memory unit :=
  let* seq := LimitOrderBook_get_sequence in
  let* _ := LimitTree_market Sell UIDOrderMap_erase (mkOrder seq Buy q 0 None acct) in
  ret tt.

(** [LimitOrderBook::market] *)
Definition LimitOrderBook_market (acct : string) (s : Side) (q : Z) : M Memory unit :=
  match s with
  | Sell => LimitOrderBook_market_sell acct q
  | Buy => LimitOrderBook_market_buy acct q
  end.

(** [LimitOrderBook::best_sell] *)
Definition LimitOrderBook_best_sell (b : LimitOrderBook) : Z :=
  match best (sells b) with
  | None => 0
  | Some k => k
  end.

(** [LimitOrderBook::best_buy] *)
Definition LimitOrderBook_best_buy (b : LimitOrderBook) : Z :=
  match best (buys b) with
  | None => 0
  | Some k => k
  end.

(** [LimitOrderBook::best] *)
Definition LimitOrderBook_best (b : LimitOrderBook) (s : Side) : Z :=
  match s with
  | Sell => LimitOrderBook_best_sell b
  | Buy => LimitOrderBook_best_buy b
  end.

(** [LimitOrderBook::volume_sell(Price)], [volume_sell()], [volume_buy(Price)],
    [volume_buy()], [volume(Price)], [volume()] *)
Definition LimitOrderBook_volume_sell_at (b : LimitOrderBook) (p : Z) : Z :=
  LimitTree_volume_at (sells b) p.

Definition LimitOrderBook_volume_sell (b : LimitOrderBook) : Z := tree_volume (sells b).

Definition LimitOrderBook_volume_buy_at (b : LimitOrderBook) (p : Z) : Z :=
  LimitTree_volume_at (buys b) p.

Definition LimitOrderBook_volume_buy (b : LimitOrderBook) : Z := tree_volume (buys b).

Definition LimitOrderBook_volume_at (b : LimitOrderBook) (p : Z) : Z :=
  wrap64 (LimitTree_volume_at (buys b) p + LimitTree_volume_at (sells b) p).

Definition LimitOrderBook_volume (b : LimitOrderBook) : Z :=
  wrap64 (tree_volume (sells b) + tree_volume (buys b)).

(** [LimitOrderBook::count_at], [count_sell], [count_buy], [count] *)
Definition LimitOrderBook_count_at (b : LimitOrderBook) (p : Z) : Z :=
  wrap32 (LimitTree_count_at (buys b) p + LimitTree_count_at (sells b) p).

Definition LimitOrderBook_count_sell (b : LimitOrderBook) : Z := tree_count (sells b).

Definition LimitOrderBook_count_buy (b : LimitOrderBook) : Z := tree_count (buys b).

Definition LimitOrderBook_count (b : LimitOrderBook) : Z :=
  wrap32 (tree_count (sells b) + tree_count (buys b)).

(** [LimitOrderBook::does_cross].  [spread] is a [Quantity]; the subtraction
    and the sum are computed on [uint64_t]. *)
Definition LimitOrderBook_does_cross (this other : LimitOrderBook) (spread : Z) : bool :=
  if LimitOrderBook_best_sell this =? 0 then false
  else if wrap64 (UINT64_MAX - spread) <? LimitOrderBook_best_sell this then false
  else if wrap64 (LimitOrderBook_best_sell this + spread) <? LimitOrderBook_best_buy other
       then true
       else false.

(** ** [order_entry/authorizer.hpp] *)

(** [Authorizer::new_user] *)
Definition Authorizer_new_user (u p : string) : M Memory unit :=
  let* m := get in
  match accounts m !! u with
  | Some _ => raise (Thrown "username already exists in system")
  | None => store_account u (SystemAccount_new u p)
  end.

(** [Authorizer::size] *)
Definition Authorizer_size (m : Memory) : nat := size (accounts m).

(** [Authorizer::has_account] *)
Definition Authorizer_has_account (m : Memory) (u : string) : bool :=
  bool_decide (is_Some (accounts m !! u)).

(** [Authorizer::get_account]: [accounts.at] throws for a missing name; the
    pointer returned is the name. *)
Definition Authorizer_get_account (u : string) : M Memory string :=
  let* m := get in
  let* _ := unwrap OutOfRange (accounts m !! u) in
  ret u.

(** [Authorizer::is_valid] *)
Definition Authorizer_is_valid (m : Memory) (u p : string) : bool :=
  match accounts m !! u with
  | None => false
  | Some a => bool_decide (password a = p)
  end.

(** ** [order_entry/connection.hpp]: the handlers *)

(** [Connection::is_logged_in] *)
Definition Connection_is_logged_in (x : Connection) : bool :=
  bool_decide (is_Some (conn_account x)).

(** [Connection::logout] *)
Definition Connection_logout (c : nat) : M Memory unit :=
  let* x := load_connection c in
  match conn_account x with
  | None => ret tt
  | Some name =>
      let* a := load_account name in
      do store_account name (set_session a None false) then
      store_connection c (mkConnection None (output_buffer x) (conn_sequence x))
  end.

(** [Connection::handle(const Messages::LoginRequest&)] *)
Definition Connection_handle_LoginRequest (c : nat) (u p : string) : M Memory unit :=
  let* x := load_connection c in
  let* m := get in
  if Connection_is_logged_in x then
    Connection_send c (LoginResponse AlreadyAuthorized)
  else if negb (Authorizer_is_valid m u p) then
    Connection_send c (LoginResponse NotAuthorized)
  else
    let* a := unwrap OutOfRange (accounts m !! u) in
    if is_connected a then
      Connection_send c (LoginResponse SessionInUse)
    else
      do store_connection c (mkConnection (Some u) (output_buffer x) (conn_sequence x)) then
      do store_account u (set_session a (Some c) true) then
      Connection_send c (LoginResponse LoginAccepted).

(** [Connection::handle(const Messages::LogoutRequest&)] *)
Definition Connection_handle_LogoutRequest (c : nat) : M Memory unit :=
  let* x := load_connection c in
  if negb (Connection_is_logged_in x) then
    Connection_send c (LogoutResponse ProtocolViolation)
  else
    do Connection_logout c then
    Connection_send c (LogoutResponse UserRequested).

(** [Connection::handle(const Messages::OrderRequest&)] *)
Definition Connection_handle_OrderRequest (c : nat) (request : OrderRequest)
  : M Memory unit :=
  let* x := load_connection c in
  match conn_account x with
  | None => Connection_send c (OrderResponse ORDER_ID_REJECTED Rejected)
  | Some acct =>
      if order_price request =? ORDER_PRICE_MARKET then
        do LimitOrderBook_market acct (side_to_LOB_side (order_side request))
                                 (order_quantity request) then
        Connection_send c (OrderResponse ORDER_ID_MARKET Accepted)
      else
        let* u := LimitOrderBook_limit acct (side_to_LOB_side (order_side request))
                                       (order_quantity request) (order_price request) in
        Connection_send c (OrderResponse u Accepted)
  end.

(** The ownership test of the cancel and replace handlers: the user name of
    the account of the order is compared with the one of the session. *)
Definition Connection_owns (acct : string) (order_id : Z) : M Memory bool :=
  let* o := LimitOrderBook_get order_id in
  let* owner := load_account (account o) in
  let* me := load_account acct in
  ret (bool_decide (username owner = username me)).

(** [Connection::handle(const Messages::CancelRequest&)] *)
Definition Connection_handle_CancelRequest (c : nat) (order_id : Z) : M Memory unit :=
  let* x := load_connection c in
  match conn_account x with
  | None => Connection_send c (CancelResponse order_id Rejected)
  | Some acct =>
      let* m := get in
      if negb (LimitOrderBook_has (book m) order_id) then
        Connection_send c (CancelResponse order_id Rejected)
      else
        let* mine := Connection_owns acct order_id in
        if negb mine then
          Connection_send c (CancelResponse order_id Rejected)
        else
          do LimitOrderBook_cancel order_id then
          Connection_send c (CancelResponse order_id Accepted)
  end.

(** The second half of the replace handler: the new order is placed and the
    acceptance is sent. *)
Definition Connection_replace_place (c : nat) (acct : string) (canceled : Z)
    (request : ReplaceRequest) : M Memory unit :=
  let* u :=
    match replace_side request with
    | WireSell => LimitOrderBook_limit_sell acct (replace_quantity request)
                                            (replace_price request)
    | WireBuy => LimitOrderBook_limit_buy acct (replace_quantity request)
                                          (replace_price request)
    end in
  Connection_send c (ReplaceResponse canceled u Accepted).

(** [Connection::handle(const Messages::ReplaceRequest&)] *)
Definition Connection_handle_ReplaceRequest (c : nat) (request : ReplaceRequest)
  : M Memory unit :=
  let* x := load_connection c in
  match conn_account x with
  | None =>
      Connection_send c
        (ReplaceResponse (replace_order_id request) ORDER_ID_REJECTED Rejected)
  | Some acct =>
      let* m := get in
      if LimitOrderBook_has (book m) (replace_order_id request) then
        let* mine := Connection_owns acct (replace_order_id request) in
        if negb mine then
          Connection_send c
            (ReplaceResponse (replace_order_id request) ORDER_ID_REJECTED Rejected)
        else
          do LimitOrderBook_cancel (replace_order_id request) then
          Connection_replace_place c acct (replace_order_id request) request
      else
        Connection_replace_place c acct ORDER_ID_REJECTED request
  end.

(** The loop of the purge handler.  [account->orders] is a [std::set] of
    pointers, ordered by address: [first] stands for [*orders.begin()] and may
    be any function that picks an element of a set that is not empty.  The uid
    is read through the pointer.  Every turn cancels an order of the set, so
    the loop is bounded by the size of the set. *)
Fixpoint Connection_purge_loop (first : gset Z -> option Z) (fuel : nat) (acct : string)
  : M Memory unit :=
  match fuel with
  | O => raise OutOfFuel
  | S fuel' =>
      let* a := load_account acct in
      if bool_decide (size (orders (base a)) = 0%nat) then ret tt
      else
        let* ptr := unwrap NullPointer (first (orders (base a))) in
        let* o := load_order ptr in
        do LimitOrderBook_cancel (uid o) then
        Connection_purge_loop first fuel' acct
  end.

(** [Connection::handle(const Messages::PurgeRequest&)] *)
Definition Connection_handle_PurgeRequest (first : gset Z -> option Z) (c : nat)
  : M Memory unit :=
  let* x := load_connection c in
  match conn_account x with
  | None => Connection_send c (PurgeResponse Rejected)
  | Some acct =>
      let* a := load_account acct in
      do Connection_purge_loop first (S (size (orders (base a)))) acct then
      Connection_send c (PurgeResponse Accepted)
  end.

(** [Connection::handle(const Messages::Header&)]: a packet with an unknown
    message identifier. *)
Definition Connection_handle_Header (c : nat) : M Memory unit :=
  do Connection_logout c then
  Connection_send c (LogoutResponse ProtocolViolation).

(** The packets a session reads, by message identifier ([MessageID] of
    [order_entry/messages.hpp]); [UnknownRequest] stands for any other
    identifier. *)
Inductive ClientMessage : Type :=
  | LoginRequest (username password : string)
  | LogoutRequest
  | OrderRequestMessage (request : OrderRequest)
  | CancelRequest (order_id : Z)
  | ReplaceRequestMessage (request : ReplaceRequest)
  | PurgeRequest
  | UnknownRequest.

(** The dispatch of [Connection::read_buffer] on the message identifier. *)
Definition Connection_handle (first : gset Z -> option Z) (c : nat) (msg : ClientMessage)
  : M Memory unit :=
  match msg with
  | LoginRequest u p => Connection_handle_LoginRequest c u p
  | LogoutRequest => Connection_handle_LogoutRequest c
  | OrderRequestMessage request => Connection_handle_OrderRequest c request
  | CancelRequest order_id => Connection_handle_CancelRequest c order_id
  | ReplaceRequestMessage request => Connection_handle_ReplaceRequest c request
  | PurgeRequest => Connection_handle_PurgeRequest first c
  | UnknownRequest => Connection_handle_Header c
  end.

(** ** [order_entry/client.hpp] *)

(** [class Client]: what its handlers keep of the session.  [client_shares]
    is an [int32_t], [client_capital] an [int64_t]; [client_cerr] lists the
    lines written to [std::cerr].  The socket and the packet queues are not
    modelled. *)
Record Client : Type := mkClient {
  is_authorized : bool;
  active_orders : gset Z;
  client_shares : Z;
  client_capital : Z;
  client_cerr : list string
}.

Definition Client_new : Client := mkClient false ∅ 0 0 [].

Definition set_is_authorized (b : bool) (k : Client) : Client :=
  mkClient b (active_orders k) (client_shares k) (client_capital k) (client_cerr k).

Definition set_active_orders (s : gset Z) (k : Client) : Client :=
  mkClient (is_authorized k) s (client_shares k) (client_capital k) (client_cerr k).

Definition set_balance (sh cap : Z) (k : Client) : Client :=
  mkClient (is_authorized k) (active_orders k) sh cap (client_cerr k).

Definition Client_log (line : string) : M Client unit :=
  modify (fun k => mkClient (is_authorized k) (active_orders k) (client_shares k)
                            (client_capital k) (client_cerr k ++ [line])).

(** [Client::handle(const Messages::LoginResponse&)] *)
Definition Client_handle_LoginResponse (status : LoginResponseStatus) : M Client unit :=
  match status with
  | LoginAccepted => modify (set_is_authorized true)
  | NotAuthorized => modify (set_is_authorized false)
  | AlreadyAuthorized => modify (set_is_authorized true)
  | SessionInUse => modify (set_is_authorized false)
  end.

(** [Client::handle(const Messages::LogoutResponse&)] *)
Definition Client_handle_LogoutResponse (reason : LogoutReason) : M Client unit :=
  do modify (set_is_authorized false) then
  modify (set_active_orders ∅).

(** [Client::handle(const Messages::OrderResponse&)] *)
Definition Client_handle_OrderResponse (order_id : Z) (status : Status) : M Client unit :=
  match status with
  | Rejected => Client_log "Client::handle(OrderResponse) - order rejected"
  | Accepted =>
      if order_id =? 0 then ret tt
      else modify (fun k => set_active_orders (active_orders k ∪ {[order_id]}) k)
  end.

(** [Client::handle(const Messages::CancelResponse&)] *)
Definition Client_handle_CancelResponse (order_id : Z) (status : Status) : M Client unit :=
  match status with
  | Rejected => Client_log "Client::handle(CancelResponse) - cancel rejected"
  | Accepted => modify (fun k => set_active_orders (active_orders k ∖ {[order_id]}) k)
  end.

(** [Client::handle(const Messages::ReplaceResponse&)] *)
Definition Client_handle_ReplaceResponse (canceled new_order_id : Z) (status : Status)
  : M Client unit :=
  match status with
  | Rejected => Client_log "Client::handle(ReplaceResponse) - replace rejected"
  | Accepted =>
      do (if negb (canceled =? 0)
          then modify (fun k => set_active_orders (active_orders k ∖ {[canceled]}) k)
          else ret tt) then
      if negb (new_order_id =? 0)
      then modify (fun k => set_active_orders (active_orders k ∪ {[new_order_id]}) k)
      else ret tt
  end.

(** [Client::handle(const Messages::PurgeResponse&)] *)
Definition Client_handle_PurgeResponse (status : Status) : M Client unit :=
  match status with
  | Rejected => Client_log "Client::handle(PurgeResponse) - purge rejected"
  | Accepted => modify (set_active_orders ∅)
  end.

(** [Client::handle(const Messages::TradeResponse&)].  The quantity is a
    [uint32_t]: the new number of shares is computed on 32 bits; the product
    with the price and the new capital are computed on [uint64_t] and
    converted back. *)
Definition Client_handle_TradeResponse (order_id price quantity leaves_quantity : Z)
    (side : WireSide) : M Client unit :=
  do modify (fun k =>
       match side with
       | WireSell => set_balance (swrap32 (client_shares k - quantity))
                                 (swrap64 (client_capital k + wrap64 (quantity * price))) k
       | WireBuy => set_balance (swrap32 (client_shares k + quantity))
                                (swrap64 (client_capital k - wrap64 (quantity * price))) k
       end) then
  if negb (order_id =? 0) then
    if leaves_quantity =? 0
    then modify (fun k => set_active_orders (active_orders k ∖ {[order_id]}) k)
    else ret tt
  else ret tt.

(** [Client::handle(const Messages::Header&)]: a packet with an unknown
    message identifier. *)
Definition Client_handle_Header : M Client unit :=
  do modify (set_is_authorized false) then
  raise (Thrown "Client::handle(Header) - received message with invalid header").

(** The dispatch of [Client::read_buffer] on the message identifier. *)
Definition Client_handle (r : Response) : M Client unit :=
  match r with
  | LoginResponse status => Client_handle_LoginResponse status
  | LogoutResponse reason => Client_handle_LogoutResponse reason
  | OrderResponse order_id status => Client_handle_OrderResponse order_id status
  | CancelResponse order_id status => Client_handle_CancelResponse order_id status
  | ReplaceResponse canceled new_order_id status =>
      Client_handle_ReplaceResponse canceled new_order_id status
  | PurgeResponse status => Client_handle_PurgeResponse status
  | TradeResponse order_id price quantity leaves_quantity side =>
      Client_handle_TradeResponse order_id price quantity leaves_quantity side
  end.

(** ** Vocabulary for the properties of the order-entry side *)

(** The requests the book serves, and what a run of them returns: the uids
    of the limit orders, in order. *)
Inductive Request : Type :=
  | ReqLimit (acct : string) (s : Side) (q p : Z)
  | ReqMarket (acct : string) (s : Side) (q : Z)
  | ReqCancel (order_id : Z)
  | ReqReduce (order_id : Z) (q : Z).

Definition serve (r : Request) : M Memory (list Z) :=
  match r with
  | ReqLimit acct s q p => let* u := LimitOrderBook_limit acct s q p in ret [u]
  | ReqMarket acct s q => do LimitOrderBook_market acct s q then ret []
  | ReqCancel u => do LimitOrderBook_cancel u then ret []
  | ReqReduce u q => do LimitOrderBook_reduce u q then ret []
  end.

Fixpoint serve_all (rs : list Request) : M Memory (list Z) :=
  match rs with
  | [] => ret []
  | r :: rs' =>
      let* us := serve r in
      let* us' := serve_all rs' in
      ret (us ++ us')
  end.

(** The sequence number of the book: the next uid. *)
Definition seq_of (m : Memory) : Z := sequence (book m).

(** The order [u] is queued in a level of the side [s]. *)
Definition rests (m : Memory) (s : Side) (u : Z) : Prop :=
  exists p l, limits (tree_of s (book m)) !! p = Some l /\ u ∈ fifo l.

(** What every reachable book satisfies, and the conservation of the totals
    needs: the uids in use are below the sequence number, and an order queued
    on a side is an order of that side. *)
Definition engine_inv (m : Memory) : Prop :=
  (forall u, is_Some (order_map (book m) !! u) -> u < sequence (book m)) /\
  (forall s u, rests m s u -> u < sequence (book m)) /\
  (forall s u o, rests m s u -> order_map (book m) !! u = Some o -> side o = s).

(** From [m] to [m'] no order has entered a queue or the uid map, and the
    sequence number is the same: what matching and cancels do to the book. *)
Definition evolves (m m' : Memory) : Prop :=
  (forall s u, rests m' s u -> rests m s u) /\
  (forall u o', order_map (book m') !! u = Some o' ->
     exists o, order_map (book m) !! u = Some o /\ side o = side o') /\
  sequence (book m') = sequence (book m).

(** The sums over all accounts of the shares and of the capital, as exact
    integers, and as the 64-bit values a sum in [int64_t] holds. *)
Definition raw_shares (m : Memory) : Z := sum_over (fun a => shares (base a)) (accounts m).

Definition raw_capital (m : Memory) : Z := sum_over (fun a => capital (base a)) (accounts m).

Definition total_shares (m : Memory) : Z := swrap64 (raw_shares m).

Definition total_capital (m : Memory) : Z := swrap64 (raw_capital m).

(** An order queued on a side is an order of that side. *)
Definition sides_ok (m : Memory) : Prop :=
  forall s u o, rests m s u -> order_map (book m) !! u = Some o -> side o = s.

(** The sign of a fill on the shares of an account of the side [s]. *)
Definition sgn (s : Side) : Z := match s with Buy => 1 | Sell => -1 end.


(** The totals of [m] and [m'] agree modulo 2^64. *)
Definition conserved (m m' : Memory) : Prop :=
  wrap64 (raw_shares m') = wrap64 (raw_shares m) /\
  wrap64 (raw_capital m') = wrap64 (raw_capital m).

(** The open quantity of the orders of a queue. *)
Definition fifo_volume (om : gmap Z Order) (f : list Z) : Z :=
  foldr (fun u acc => match om !! u with Some o => quantity o + acc | None => acc end) 0 f.

(** The invariant of a level of the side [s] at the price [p]: a non-empty
    queue without repetition of orders of that side and price, whose length
    and open quantity are the count and the volume of the level. *)
Definition level_wf (s : Side) (om : gmap Z Order) (p : Z) (l : Limit) : Prop :=
  key l = p /\ fifo l <> [] /\ NoDup (fifo l) /\
  count l = Z.of_nat (length (fifo l)) /\ count l < 2 ^ 32 /\
  volume l = fifo_volume om (fifo l) /\ volume l < 2 ^ 64 /\
  Forall (fun u => holds (fun o => side o = s /\ price o = p) (om !! u)) (fifo l).

(** The invariant of the tree of the side [s]: well-formed levels, the best
    price cached, and the totals of the levels. *)
Definition tree_wf (s : Side) (om : gmap Z Order) (t : LimitTree) : Prop :=
  map_Forall (level_wf s om) (limits t) /\
  best t = find_best s (limits t) /\
  tree_count t = sum_over count (limits t) /\ tree_count t < 2 ^ 32 /\
  tree_volume t = sum_over volume (limits t) /\ tree_volume t < 2 ^ 64.

(** The invariant of an order stored under [u]: it was given the uid [u] by
    a limit request, it is queued in the level of its price on its side, and
    it is in the order set of its account. *)
Definition order_wf (m : Memory) (u : Z) (o : Order) : Prop :=
  uid o = u /\ 0 < u < sequence (book m) /\
  0 <= quantity o < 2 ^ 32 /\ 0 <= price o < 2 ^ 64 /\
  limit o = Some (price o) /\
  holds (fun l => u ∈ fifo l) (limits (tree_of (side o) (book m)) !! price o) /\
  holds (fun a => u ∈ orders (base a)) (accounts m !! account o).

(** The orders of the order set of an account are in the uid map, as orders
    of this account. *)
Definition account_wf (m : Memory) (name : string) (a : SystemAccount) : Prop :=
  set_Forall (fun u => holds (fun o => account o = name) (order_map (book m) !! u))
             (orders (base a)).

(** The invariant of the book, its uid map and its accounts. *)
Definition book_wf (m : Memory) : Prop :=
  0 < sequence (book m) < 2 ^ 64 /\
  tree_wf Sell (order_map (book m)) (sells (book m)) /\
  tree_wf Buy (order_map (book m)) (buys (book m)) /\
  map_Forall (order_wf m) (order_map (book m)) /\
  map_Forall (account_wf m) (accounts m).

#[export] Instance book_wf_dec m : Decision (book_wf m).
Proof.
  unfold book_wf, tree_wf, level_wf, order_wf, account_wf. apply _.
Defined.

(** Two accounts, one of them logged in on the session 7, and a new book. *)
Definition example_accounts : gmap string SystemAccount :=
  <["ann" := SystemAccount_new "ann" "pw-ann"]>
    (<["bob" := mkSystemAccount Account_default "bob" "pw-bob" (Some 7%nat) true]> ∅).

Definition example_memory : Memory :=
  mkMemory LimitOrderBook_new example_accounts
           (<[7%nat := mkConnection (Some "bob") [] 0]> ∅).

(** The state a computation leaves. *)
Definition exec {A} (p : M Memory A) (m : Memory) : Memory := final (p m).

(** A book with four resting orders that do not cross. *)
Definition resting_memory : Memory :=
  exec (do LimitOrderBook_limit "ann" Sell 50 100 then
        do LimitOrderBook_limit "bob" Sell 30 100 then
        do LimitOrderBook_limit "ann" Sell 10 105 then
        LimitOrderBook_limit "bob" Buy 20 90) example_memory.

(** The state [reduce] leaves when it takes [delta], less than the open
    quantity, from the order [o] stored under [order_id], queued in [l]. *)
Definition reduced (m : Memory) (order_id delta : Z) (o : Order) (l : Limit) : Memory :=
  let b := set_order_map (<[order_id := set_quantity o (quantity o - delta)]>
                            (order_map (book m))) (book m) in
  let t := tree_of (side o) (book m) in
  set_book
    (set_tree (side o)
       (mkLimitTree
          (<[price o := mkLimit (key l) (count l) (volume l - delta) (fifo l)]> (limits t))
          (best t) (last_best_price t) (tree_count t) (tree_volume t - delta)) b) m.

(** The state [cancel] leaves of the order [o] stored under [order_id],
    queued in [l], of the account [a]. *)
Definition canceled (m : Memory) (order_id : Z) (o : Order) (l : Limit) (a : SystemAccount)
  : Memory :=
  let s := side o in
  let t := tree_of s (book m) in
  let p := price o in
  let l' := mkLimit (key l) (wrap32 (count l - 1)) (wrap64 (volume l - quantity o))
                    (DLL_remove order_id (fifo l)) in
  let ls := if count l' =? 0 then delete p (limits t) else <[p := l']> (limits t) in
  let b := if count l' =? 0
           then (if decide (best t = Some p) then find_best s ls else best t)
           else best t in
  let t' := mkLimitTree ls b (match b with Some k => k | None => last_best_price t end)
                        (wrap32 (tree_count t - 1))
                        (wrap64 (tree_volume t - quantity o)) in
  mkMemory (set_order_map (delete order_id (order_map (book m))) (set_tree s t' (book m)))
           (<[account o := set_base a (Account_cancel (base a) o)]> (accounts m))
           (connections m).

(** The test of [limit_sell] and [limit_buy] fails: the opposite side is empty
    or its best price does not reach the price of the order. *)
Definition no_cross (s : Side) (p : Z) (b : LimitOrderBook) : Prop :=
  match best (tree_of (Side_not s) b) with
  | None => True
  | Some k => match s with
              | Sell => k < p
              | Buy => p < k
              end
  end.

(** The state a limit order that does not cross leaves: the order rests
    under the sequence number, which is then incremented. *)
Definition rested (m : Memory) (acct : string) (s : Side) (q p : Z) (a : SystemAccount)
  : Memory :=
  let u := sequence (book m) in
  let o := mkOrder u s q p None acct in
  let t := tree_of s (book m) in
  let ls := match limits t !! p with
            | None => <[p := Limit_of_order u o]> (limits t)
            | Some l => <[p := mkLimit (key l) (wrap32 (count l + 1))
                                       (wrap64 (volume l + q)) (fifo l ++ [u])]> (limits t)
            end in
  let b := match limits t !! p with
           | None => set_best s (best t) p
           | Some _ => best t
           end in
  let t' := mkLimitTree ls b (match b with Some k => k | None => last_best_price t end)
                        (wrap32 (tree_count t + 1)) (wrap64 (tree_volume t + q)) in
  mkMemory (set_sequence (wrap64 (u + 1))
              (set_order_map (<[u := set_limit o (Some p)]> (order_map (book m)))
                 (set_tree s t' (book m))))
           (<[acct := set_base a (Account_limit (base a) o)]> (accounts m))
           (connections m).

(** What the book queries show of a tree: its levels, best price and totals. *)
Definition same_tree (t t' : LimitTree) : Prop :=
  limits t' = limits t /\ best t' = best t /\
  tree_count t' = tree_count t /\ tree_volume t' = tree_volume t.

(** [k] is the best price among the levels [ls] of the side [s]. *)
Definition is_best (s : Side) (ls : gmap Z Limit) (k : Z) : Prop :=
  is_Some (ls !! k) /\ forall k', is_Some (ls !! k') -> better s k' k = false.

(** The order set of an account, by name. *)
Definition order_set (m : Memory) (n : string) : option (gset Z) :=
  (fun a => orders (base a)) <$> (accounts m !! n).

(** The handler of the account, if it has one, is a session that exists. *)
Definition session_ok (m : Memory) (a : SystemAccount) : Prop :=
  match handler a with
  | None => True
  | Some h => is_Some (connections m !! h)
  end.

#[export] Instance session_ok_dec m a : Decision (session_ok m a).
Proof. unfold session_ok. destruct (handler a); apply _. Defined.

(** Every account is bound to no session or to one that exists. *)
Definition sessions_ok (m : Memory) : Prop :=
  map_Forall (fun _ a => session_ok m a) (accounts m).

(** The state after a callback of the account [name]: the bookkeeping [F],
    then the message [r] to the handler, if any. *)
Definition notified (m : Memory) (name : string) (F : Account -> Account) (r : Response)
  : Memory :=
  match accounts m !! name with
  | None => m
  | Some a =>
      let m1 := set_accounts (<[name := set_base a (F (base a))]> (accounts m)) m in
      match handler a with
      | None => m1
      | Some h =>
          match connections m !! h with
          | None => m1
          | Some x =>
              set_connections
                (<[h := mkConnection (conn_account x)
                          (output_buffer x ++ [(conn_sequence x, r)])
                          (wrap32 (conn_sequence x + 1))]> (connections m1)) m1
          end
      end
  end.

(** The memory without the order stored under [n]. *)
Definition drop (n : Z) (m : Memory) : Memory :=
  set_book (set_order_map (delete n (order_map (book m))) (book m)) m.

(** The memory once [LimitTree::remove] has taken the order [u] out of the
    level [l] at the price [p] of the side [s]. *)
Definition removed (m : Memory) (s : Side) (u : Z) (o : Order) (p : Z) (l : Limit) : Memory :=
  let t := tree_of s (book m) in
  let l' := mkLimit (key l) (wrap32 (count l - 1)) (wrap64 (volume l - quantity o))
                    (DLL_remove u (fifo l)) in
  let ls := if count l' =? 0 then delete p (limits t) else <[p := l']> (limits t) in
  let b := if count l' =? 0
           then (if decide (best t = Some p) then find_best s ls else best t)
           else best t in
  set_book (set_tree s (mkLimitTree ls b (match b with Some k => k | None => last_best_price t end)
                          (wrap32 (tree_count t - 1))
                          (wrap64 (tree_volume t - quantity o))) (book m)) m.

(** The memory after the two callbacks of a fill. *)
Definition filled (m : Memory) (n1 : string) (F1 : Account -> Account) (r1 : Response)
    (n2 : string) (F2 : Account -> Account) (r2 : Response) : Memory :=
  notified (notified m n1 F1 r1) n2 F2 r2.

(** The memory once the head order [u] of the level [l] has given [delta]
    shares to a taker and keeps the rest. *)
Definition shrunk (m : Memory) (s : Side) (u : Z) (mo : Order) (p : Z) (l : Limit)
    (delta : Z) : Memory :=
  let t := tree_of s (book m) in
  set_book
    (set_tree s
       (mkLimitTree
          (<[p := mkLimit (key l) (count l) (wrap64 (volume l - delta)) (fifo l)]> (limits t))
          (best t) (last_best_price t) (tree_count t) (wrap64 (tree_volume t - delta)))
       (set_order_map (<[u := set_quantity mo (quantity mo - delta)]> (order_map (book m)))
          (book m))) m.

(** What the matching loop guarantees on a book that is well formed apart
    from the taker stored under [n]. *)
Definition loop_post (s : Side) (n : Z) (order : Order) (m : Memory)
    (order' : Order) (m' : Memory) : Prop :=
  book_wf (drop n m') /\ sessions_ok m' /\
  order_map (book m') !! n = order_map (book m) !! n /\
  sequence (book m') = sequence (book m) /\
  tree_of (Side_not s) (book m') = tree_of (Side_not s) (book m) /\
  (forall x, is_Some (accounts m !! x) -> is_Some (accounts m' !! x)) /\
  order' = set_quantity order (quantity order') /\
  0 <= quantity order' <= quantity order /\
  tree_count (tree_of s (book m')) <= tree_count (tree_of s (book m)).

(** The memory with the incoming order stored under the sequence number. *)
Definition emplaced (m : Memory) (o : Order) : Memory :=
  set_book (set_order_map (<[sequence (book m) := o]> (order_map (book m))) (book m)) m.

(** Whether [limit_sell] or [limit_buy] sends the order to the other side. *)
Definition crosses (s : Side) (p : Z) (b : LimitOrderBook) : bool :=
  match best (tree_of (Side_not s) b) with
  | None => false
  | Some k => match s with
              | Sell => p <=? k
              | Buy => k <=? p
              end
  end.

(** What an operation may add to the book: at most one order on a side, and
    one to the sequence number; the accounts stay. *)
Definition grows_by_one (m m' : Memory) : Prop :=
  (forall s, tree_count (tree_of s (book m')) <= tree_count (tree_of s (book m)) + 1) /\
  sequence (book m) <= sequence (book m') <= sequence (book m) + 1 /\
  (forall x, is_Some (accounts m !! x) -> is_Some (accounts m' !! x)).

(** A request the book can serve whatever it holds: a limit or market order
    of an existing account, with a quantity and a price of the wire types. *)
Definition admissible (m : Memory) (r : Request) : Prop :=
  match r with
  | ReqLimit acct _ q p => is_Some (accounts m !! acct) /\ 0 <= q < 2 ^ 32 /\ 0 <= p < 2 ^ 64
  | ReqMarket acct _ q => is_Some (accounts m !! acct) /\ 0 <= q < 2 ^ 32
  | ReqCancel _ => False
  | ReqReduce _ _ => False
  end.

#[export] Instance admissible_dec m r : Decision (admissible m r).
Proof. destruct r; cbn; apply _. Defined.

(** The book has room for [k] more orders. *)
Definition has_room (m : Memory) (k : Z) : Prop :=
  tree_count (sells (book m)) + k < 2 ^ 32 /\
  tree_count (buys (book m)) + k < 2 ^ 32 /\
  sequence (book m) + k < 2 ^ 64.

(** The messages sent to the session [h], oldest first. *)
Definition outbox (m : Memory) (h : nat) : list (Z * Response) :=
  match connections m !! h with
  | Some x => output_buffer x
  | None => []
  end.

(** The order [o] with another price. *)
Definition with_price (o : Order) (p : Z) : Order :=
  mkOrder (uid o) (side o) (quantity o) p (limit o) (account o).

(** The accounts are registered under their usernames, as
    [Authorizer::new_user] registers them. *)
Definition authorizer_wf (m : Memory) : Prop :=
  map_Forall (fun name a => username a = name) (accounts m).

(** A sell order resting at price 0, and a bid at 10 in another book. *)
Definition sell_at_zero : Memory := exec (LimitOrderBook_limit_sell "ann" 5 0) example_memory.

Definition buy_at_ten : Memory := exec (LimitOrderBook_limit_buy "bob" 5 10) example_memory.

(** A run with a limit order that rests, a limit order that is consumed on
    entry, a market order, a partial fill, a reduction and a cancel. *)
Definition trading_day : list Request :=
  [ ReqLimit "ann" Sell 50 100; ReqLimit "bob" Buy 20 100; ReqMarket "bob" Buy 10;
    ReqLimit "bob" Buy 40 99; ReqLimit "ann" Sell 60 99; ReqReduce 1 5;
    ReqLimit "bob" Buy 7 98; ReqCancel 4 ].



(** The book after "ann" bids 20 at 100. *)
Definition bid_resting : Memory := exec (LimitOrderBook_limit "ann" Buy 20 100) example_memory.


(** The amount a fill of [q] shares at the price [p] moves, with its sign for
    the side [s] of the account: [Account::fill] adds it to the capital. *)
Definition proceeds (s : Side) (q p : Z) : Z :=
  match s with
  | Sell => wrap64 (q * p)
  | Buy => - wrap64 (q * p)
  end.

(** The orders of the side [s] among the orders [om] of the uid map. *)
Definition orders_of (s : Side) (om : gmap Z Order) : gmap Z Order :=
  filter (fun uo => side uo.2 = s) om.

(** The memory once the session [c], in the state [x], has queued the
    response [r]. *)
Definition replied (m : Memory) (c : nat) (x : Connection) (r : Response) : Memory :=
  set_connections
    (<[c := mkConnection (conn_account x) (output_buffer x ++ [(conn_sequence x, r)])
                         (wrap32 (conn_sequence x + 1))]> (connections m)) m.

(** The memory with the account [a] registered under [name]. *)
Definition with_account (m : Memory) (name : string) (a : SystemAccount) : Memory :=
  set_accounts (<[name := a]> (accounts m)) m.

(** The memory with the session [c] in the state [x]. *)
Definition with_connection (m : Memory) (c : nat) (x : Connection) : Memory :=
  set_connections (<[c := x]> (connections m)) m.

(** The session [x] bound to the account [acct], or to none. *)
Definition bound_to (x : Connection) (acct : option string) : Connection :=
  mkConnection acct (output_buffer x) (conn_sequence x).

(** The sessions and the accounts refer to each other: a session logged in
    to an account is the handler of that account, which is marked connected;
    the handler of an account is a session logged in to it; an account is
    marked connected exactly when it has a handler. *)
Definition linked (m : Memory) : Prop :=
  (forall c x name, connections m !! c = Some x -> conn_account x = Some name ->
     exists a, accounts m !! name = Some a /\ handler a = Some c /\ is_connected a = true) /\
  (forall name a c, accounts m !! name = Some a -> handler a = Some c ->
     exists x, connections m !! c = Some x /\ conn_account x = Some name) /\
  (forall name a, accounts m !! name = Some a ->
     (is_connected a = true <-> is_Some (handler a))).

(** What the sessions and the accounts know of each other, and the names
    of the accounts. *)
Definition sessions_of (m : Memory)
  : gmap string (option nat * bool * string) * gmap nat (option string) :=
  ((fun a => (handler a, is_connected a, username a)) <$> accounts m,
   conn_account <$> connections m).

(** [first] picks an element of every set that is not empty. *)
Definition picks (first : gset Z -> option Z) : Prop :=
  forall s : gset Z, s <> ∅ -> exists u, first s = Some u /\ u ∈ s.

(** The least uid of a set: one way to pick. *)
Definition least (s : gset Z) : option Z := head (elements s).

(** The orders of the accounts other than [acct]. *)
Definition orders_of_others (acct : string) (om : gmap Z Order) : gmap Z Order :=
  filter (fun uo => account uo.2 <> acct) om.

(** The trade message to the owner of the resting order [mo]. *)
Definition maker_message (mo : Order) (size leaves : Z) : Response :=
  TradeResponse (uid mo) (price mo) size leaves (bool_to_side (Side_to_bool (side mo))).

(** The trade message to the owner of the incoming order [order], filled by
    the resting order [mo]. *)
Definition taker_message (mo order : Order) (size leaves : Z) : Response :=
  TradeResponse 0 (price mo) size leaves (bool_to_side (Side_to_bool (side order))).

(** The memory after a turn of the matching loop in which the incoming order
    [order] consumes the head [mo], stored under [u], of the level [l] at the
    price [p] of the side [s]: the two callbacks, the removal from the tree,
    the removal from the uid map. *)
Definition consumed (m : Memory) (s : Side) (u : Z) (mo : Order) (p : Z) (l : Limit)
    (order : Order) : Memory :=
  let order' := set_quantity order (quantity order - quantity mo) in
  let m1 :=
    if quantity order' =? 0
    then filled m (account mo) (fun b => Account_limit_fill b mo order)
                  (maker_message mo (quantity mo) 0)
                  (account order) (fun b => Account_market_fill b mo order)
                  (taker_message mo order (quantity order) 0)
    else filled m (account mo) (fun b => Account_limit_fill b mo order')
                  (maker_message mo (quantity mo) 0)
                  (account order') (fun b => Account_market_partial b mo order')
                  (taker_message mo order' (quantity mo) (quantity order')) in
  drop u (removed m1 s u mo p l).

(** The memory after the last turn of the matching loop when the head [mo]
    has more than the incoming order wants: the head keeps the rest, then the
    two callbacks. *)
Definition partly (m : Memory) (s : Side) (u : Z) (mo : Order) (p : Z) (l : Limit)
    (order : Order) : Memory :=
  let mo' := set_quantity mo (quantity mo - quantity order) in
  filled (shrunk m s u mo p l (quantity order))
         (account mo') (fun b => Account_limit_partial b mo' order)
         (maker_message mo' (quantity order) (quantity mo'))
         (account order) (fun b => Account_market_fill b mo' order)
         (taker_message mo' order (quantity order) 0).

(** The loop stops at once: the side is empty, the incoming order wants
    nothing, or the best price of the side does not match its price. *)
Definition stops (s : Side) (order : Order) (m : Memory) : Prop :=
  match best (tree_of s (book m)) with
  | None => True
  | Some p => (quantity order =? 0) || negb (can_match s p (price order)) = true
  end.

(** The runs of the matching loop of the side [s] on books that are well
    formed apart from the incoming order, stored under [n]: from the incoming
    order and the memory to the order returned and the memory left. *)
Inductive matching (s : Side) (n : Z) : Order -> Memory -> Order -> Memory -> Prop :=
  | matching_stop order m :
      book_wf (drop n m) -> sessions_ok m ->
      stops s order m ->
      matching s n order m order m
  | matching_consumed order m p l u mo order' m' :
      book_wf (drop n m) -> sessions_ok m ->
      is_Some (accounts m !! account order) ->
      best (tree_of s (book m)) = Some p ->
      (quantity order =? 0) || negb (can_match s p (price order)) = false ->
      limits (tree_of s (book m)) !! p = Some l ->
      head (fifo l) = Some u -> u <> n ->
      order_map (book m) !! u = Some mo ->
      quantity mo <= quantity order ->
      matching s n (set_quantity order (quantity order - quantity mo))
               (consumed m s u mo p l order) order' m' ->
      matching s n order m order' m'
  | matching_partial order m p l u mo :
      book_wf (drop n m) -> sessions_ok m ->
      is_Some (accounts m !! account order) ->
      best (tree_of s (book m)) = Some p ->
      (quantity order =? 0) || negb (can_match s p (price order)) = false ->
      limits (tree_of s (book m)) !! p = Some l ->
      head (fifo l) = Some u -> u <> n ->
      order_map (book m) !! u = Some mo ->
      quantity order < quantity mo ->
      book_wf (drop n (partly m s u mo p l order)) ->
      sessions_ok (partly m s u mo p l order) ->
      matching s n order m (set_quantity order 0) (partly m s u mo p l order).

(** The book is not crossed: when both sides have orders, the best bid is
    below the best ask. *)
Definition uncrossed (b : LimitOrderBook) : Prop :=
  match best (sells b), best (buys b) with
  | Some a, Some k => k < a
  | _, _ => True
  end.

(** The levels of the tree [t'] are levels of the tree [t]. *)
Definition levels_of (t' t : LimitTree) : Prop :=
  forall k, is_Some (limits t' !! k) -> is_Some (limits t !! k).

(** The client is in step with the account: it has the capital of the
    account, its shares as far as 32 bits hold them, and its open orders. *)
Definition in_step (k : Client) (a : Account) : Prop :=
  client_capital k = capital a /\
  client_shares k = swrap32 (shares a) /\
  active_orders k = orders a.

(** The client is in step with the account but for the orders [P], which the
    account has given up and the client has not yet been told of. *)
Definition in_step_but (P : gset Z) (k : Client) (a : Account) : Prop :=
  client_capital k = capital a /\
  client_shares k = swrap32 (shares a) /\
  active_orders k ∖ P = orders a.

(** The client reads the packets of a queue, oldest first. *)
Fixpoint Client_receive (rs : list (Z * Response)) : M Client unit :=
  match rs with
  | [] => ret tt
  | r :: rest => do Client_handle r.2 then Client_receive rest
  end.

(** A client in step with an account but for [P] is in step but for [P']
    with the account changed by [F], once it has handled the message [r]. *)
Definition mirrors (P P' : gset Z) (F : Account -> Account) (r : Response) : Prop :=
  forall k b, in_step_but P k b ->
    exists k', Client_handle r k = Ok tt k' /\ in_step_but P' k' (F b).

(** From [m] to [m'] the account [name], if it has a session, keeps it, the
    session has received [news], and a client in step with the account before
    is in step with it after it has read [news]. *)
Definition follows (P P' : gset Z) (name : string) (m m' : Memory) : Prop :=
  forall a h x,
    accounts m !! name = Some a -> handler a = Some h -> connections m !! h = Some x ->
    exists a' x' news,
      accounts m' !! name = Some a' /\ handler a' = Some h /\
      connections m' !! h = Some x' /\
      output_buffer x' = output_buffer x ++ news /\
      forall k, in_step_but P k (base a) ->
        exists k', Client_receive news k = Ok tt k' /\ in_step_but P' k' (base a').

(** From [m] to [m'] every account that has a session keeps it, and the
    clients that were in step with their accounts are in step again once they
    have read what their sessions have received. *)
Definition tracked (m m' : Memory) : Prop :=
  forall name a h x,
    accounts m !! name = Some a -> handler a = Some h -> connections m !! h = Some x ->
    exists a' x' news,
      accounts m' !! name = Some a' /\ handler a' = Some h /\
      connections m' !! h = Some x' /\
      output_buffer x' = output_buffer x ++ news /\
      forall k, in_step k (base a) ->
        exists k', Client_receive news k = Ok tt k' /\ in_step k' (base a').

(** No two accounts have the same session as handler. *)
Definition exclusive (m : Memory) : Prop :=
  forall n1 n2 a1 a2 h,
    accounts m !! n1 = Some a1 -> accounts m !! n2 = Some a2 ->
    handler a1 = Some h -> handler a2 = Some h -> n1 = n2.

(** The session [x] with one more response queued. *)
Definition sent (x : Connection) (r : Response) : Connection :=
  mkConnection (conn_account x) (output_buffer x ++ [(conn_sequence x, r)])
               (wrap32 (conn_sequence x + 1)).

(** The requests that trade: they leave the sessions as they are.  Their
    quantities and prices are those of the wire types. *)
Definition trading (msg : ClientMessage) : Prop :=
  match msg with
  | OrderRequestMessage r =>
      0 <= order_quantity r < 2 ^ 32 /\ 0 <= order_price r < 2 ^ 64
  | ReplaceRequestMessage r =>
      0 <= replace_quantity r < 2 ^ 32 /\ 0 <= replace_price r < 2 ^ 64
  | CancelRequest _ => True
  | PurgeRequest => True
  | LoginRequest _ _ => False
  | LogoutRequest => False
  | UnknownRequest => False
  end.

(** The responses [R u] to a limit order that returns [u] keep a client in
    step: [R 0] when nothing rests, [R u] when the order rests under [u]. *)
Definition good_reply (P : gset Z) (R : Z -> Response) : Prop :=
  mirrors P ∅ (fun b => b) (R 0) /\
  forall o, uid o <> 0 -> mirrors P ∅ (fun b => Account_limit b o) (R (uid o)).

(** The balances of the accounts: the shares and the capital of each. *)
Definition ledger (m : Memory) : gmap string (Z * Z) :=
  (fun a => (shares (base a), capital (base a))) <$> accounts m.








End OrderEntry.

Module DataFeed.

Local Open Scope monad_scope.

(** ** [data_feed/limit_order_book/structures.hpp] *)

Inductive Side : Type := Sell | Buy.

(** [struct Order]: the order of the mirror book has no account. *)
Record Order : Type := mkOrder {
  uid : Z;
  side : Side;
  quantity : Z;
  price : Z;
  limit : option Z
}.

Definition set_quantity (o : Order) (q : Z) : Order :=
  mkOrder (uid o) (side o) q (price o) (limit o).

Definition set_limit (o : Order) (l : option Z) : Order :=
  mkOrder (uid o) (side o) (quantity o) (price o) l.

(** [struct Limit] *)
Record Limit : Type := mkLimit {
  key : Z;
  count : Z;
  volume : Z;
  fifo : list Z
}.

(** [Limit(Order* order)]; [u] is the pointer, [o] the order it points to. *)
Definition Limit_of_order (u : Z) (o : Order) : Limit :=
  mkLimit (price o) 1 (quantity o) [u].

(** [struct LimitTree<side>] *)
Record LimitTree : Type := mkLimitTree {
  limits : gmap Z Limit;
  best : option Z;
  last_best_price : Z;
  tree_count : Z;
  tree_volume : Z
}.

Definition LimitTree_new : LimitTree := mkLimitTree ∅ None 0 0 0.

(** [class LimitOrderBook] of the mirror: no sequence, the uids come from the
    feed. *)
Record LimitOrderBook : Type := mkLimitOrderBook {
  sells : LimitTree;
  buys : LimitTree;
  order_map : gmap Z Order
}.

Definition LimitOrderBook_new : LimitOrderBook :=
  mkLimitOrderBook LimitTree_new LimitTree_new ∅.

Definition tree_of (s : Side) (b : LimitOrderBook) : LimitTree :=
  match s with Sell => sells b | Buy => buys b end.

Definition set_tree (s : Side) (t : LimitTree) (b : LimitOrderBook) : LimitOrderBook :=
  match s with
  | Sell => mkLimitOrderBook t (buys b) (order_map b)
  | Buy => mkLimitOrderBook (sells b) t (order_map b)
  end.

Definition set_order_map (om : gmap Z Order) (b : LimitOrderBook) : LimitOrderBook :=
  mkLimitOrderBook (sells b) (buys b) om.

Definition load_tree (s : Side) : M LimitOrderBook LimitTree :=
  let* b := get in ret (tree_of s b).

Definition store_tree (s : Side) (t : LimitTree) : M LimitOrderBook unit :=
  modify (set_tree s t).

Definition load_order (u : Z) : M LimitOrderBook Order :=
  let* b := get in unwrap NullPointer (order_map b !! u).

Definition store_order (u : Z) (o : Order) : M LimitOrderBook unit :=
  modify (fun b => set_order_map (<[u := o]> (order_map b)) b).

(** ** [data_feed/limit_order_book/limit_tree.hpp] *)

(** Modelled from the spec: the order among the prices of one side of the
    mirror, absent with [limit_tree.hpp] (section 3). *)
Definition better (s : Side) (a b : Z) : bool :=
  match s with
  | Sell => a <? b
  | Buy => b <? a
  end.

(** Modelled from the spec: the update of the cached [best] of
    [limit_tree.hpp] on an insertion (section 4.1). *)
Definition set_best (s : Side) (cur : option Z) (p : Z) : option Z :=
  match cur with
  | None => Some p
  | Some b => if better s p b then Some p else Some b
  end.

(** Modelled from the spec: the recomputation of [best] of [limit_tree.hpp]
    after the best level is erased (section 4.1). *)
Definition find_best (s : Side) (ls : gmap Z Limit) : option Z :=
  map_fold (fun p _ acc => set_best s acc p) None ls.

(** Modelled from the spec: when a taker may trade against the best level,
    absent with [limit_tree.hpp] (sections 4.2 and 4.3). *)
Definition can_match (s : Side) (lim mkt : Z) : bool :=
  (mkt =? 0) ||
  match s with
  | Buy => mkt <=? lim
  | Sell => lim <=? mkt
  end.

(** Modelled from the spec: the removal of a node of
    [doubly_linked_list.hpp] (section 4.1). *)
Fixpoint DLL_remove (u : Z) (l : list Z) : list Z :=
  match l with
  | [] => []
  | x :: l' => if decide (x = u) then l' else x :: DLL_remove u l'
  end.

Definition keep_last_best (t : LimitTree) : Z :=
  match best t with
  | Some p => p
  | None => last_best_price t
  end.

(** Modelled from the spec: [LimitTree::limit] of [limit_tree.hpp]
    (section 4.2). *)
Definition LimitTree_limit (s : Side) (u : Z) : M LimitOrderBook unit :=
  let* o := load_order u in
  let* t := load_tree s in
  let ls :=
    match limits t !! price o with
    | None => <[price o := Limit_of_order u o]> (limits t)
    | Some l =>
        <[price o := mkLimit (key l) (wrap32 (count l + 1))
                             (wrap64 (volume l + quantity o))
                             (fifo l ++ [u])]> (limits t)
    end in
  let b :=
    match limits t !! price o with
    | None => set_best s (best t) (price o)
    | Some _ => best t
    end in
  let t1 := mkLimitTree ls b (last_best_price t)
                        (wrap32 (tree_count t + 1))
                        (wrap64 (tree_volume t + quantity o)) in
  do store_tree s (mkLimitTree (limits t1) (best t1) (keep_last_best t1)
                               (tree_count t1) (tree_volume t1)) then
  store_order u (set_limit o (Some (price o))).

(** Modelled from the spec: [LimitTree::cancel] of [limit_tree.hpp]
    (section 4.2). *)
Definition LimitTree_cancel (s : Side) (u : Z) : M LimitOrderBook unit :=
  let* o := load_order u in
  let* p := unwrap NullPointer (limit o) in
  let* t := load_tree s in
  let* l := unwrap NullPointer (limits t !! p) in
  let l' := mkLimit (key l) (wrap32 (count l - 1))
                    (wrap64 (volume l - quantity o))
                    (DLL_remove u (fifo l)) in
  let ls := if count l' =? 0 then delete p (limits t) else <[p := l']> (limits t) in
  let b :=
    if count l' =? 0
    then (if decide (best t = Some p) then find_best s ls else best t)
    else best t in
  let t1 := mkLimitTree ls b (last_best_price t)
                        (wrap32 (tree_count t - 1))
                        (wrap64 (tree_volume t - quantity o)) in
  store_tree s (mkLimitTree (limits t1) (best t1) (keep_last_best t1)
                            (tree_count t1) (tree_volume t1)).

(** Modelled from the spec: [LimitTree::clear] of [limit_tree.hpp] ("erase
    every order, level, and tree node", section 4.3): no level, no best
    level, totals 0; the last best price is kept (section 3). *)
Definition LimitTree_clear (s : Side) : M LimitOrderBook unit :=
  let* t := load_tree s in
  store_tree s (mkLimitTree ∅ None (last_best_price t) 0 0).

Definition tree_size (t : LimitTree) : nat :=
  map_fold (fun _ l n => (length (fifo l) + n)%nat) 0%nat (limits t).

(** Modelled from the spec: the loop of [LimitTree::market] of
    [limit_tree.hpp] (section 4.2), without the account callbacks. *)
Fixpoint LimitTree_market_loop (fuel : nat) (s : Side)
    (did_fill : Z -> M LimitOrderBook unit) (order : Order) : M LimitOrderBook Order :=
  match fuel with
  | O => raise OutOfFuel
  | S fuel' =>
    let* t := load_tree s in
    match best t with
    | None => ret order
    | Some p =>
      if (quantity order =? 0) || negb (can_match s p (price order))
      then ret order
      else
        let* l := unwrap NullPointer (limits t !! p) in
        let* u := unwrap NullPointer (head (fifo l)) in
        let* m := load_order u in
        if quantity m <=? quantity order then
          do LimitTree_cancel s u then
          do did_fill u then
          LimitTree_market_loop fuel' s did_fill
            (set_quantity order (quantity order - quantity m))
        else
          do store_order u (set_quantity m (quantity m - quantity order)) then
          do store_tree s
               (mkLimitTree
                  (<[p := mkLimit (key l) (count l)
                                  (wrap64 (volume l - quantity order))
                                  (fifo l)]> (limits t))
                  (best t) (last_best_price t) (tree_count t)
                  (wrap64 (tree_volume t - quantity order))) then
          ret (set_quantity order 0)
    end
  end.

(** Modelled from the spec: [LimitTree::market] of [limit_tree.hpp]. *)
Definition LimitTree_market (s : Side) (did_fill : Z -> M LimitOrderBook unit)
    (order : Order) : M LimitOrderBook Order :=
  let* t := load_tree s in
  LimitTree_market_loop (S (tree_size t)) s did_fill order.

(** ** [data_feed/limit_order_book/limit_order_book.hpp] *)

Definition UIDOrderMap_emplace (u : Z) (o : Order) : M LimitOrderBook unit :=
  modify (fun b =>
    match order_map b !! u with
    | Some _ => b
    | None => set_order_map (<[u := o]> (order_map b)) b
    end).

Definition UIDOrderMap_erase (u : Z) : M LimitOrderBook unit :=
  modify (fun b => set_order_map (delete u (order_map b)) b).

Definition UIDOrderMap_at (u : Z) : M LimitOrderBook Order :=
  let* b := get in unwrap OutOfRange (order_map b !! u).

(** [LimitOrderBook::clear] *)
Definition LimitOrderBook_clear : M LimitOrderBook unit :=
  do LimitTree_clear Sell then
  do LimitTree_clear Buy then
  modify (set_order_map ∅).

Definition LimitOrderBook_rest (s : Side) (order_id : Z) : M LimitOrderBook unit :=
  let* _ := UIDOrderMap_at order_id in LimitTree_limit s order_id.

Definition LimitOrderBook_cross (s : Side) (order_id : Z) : M LimitOrderBook Order :=
  let* o := UIDOrderMap_at order_id in
  let* o' := LimitTree_market s UIDOrderMap_erase o in
  do store_order order_id o' then
  UIDOrderMap_at order_id.

(** [LimitOrderBook::limit_sell] *)
Definition LimitOrderBook_limit_sell (order_id q p : Z) : M LimitOrderBook unit :=
  do UIDOrderMap_emplace order_id (mkOrder order_id Sell q p None) then
  let* bids := load_tree Buy in
  match best bids with
  | Some k =>
      if p <=? k then
        let* o := LimitOrderBook_cross Buy order_id in
        if quantity o =? 0
        then UIDOrderMap_erase order_id
        else LimitOrderBook_rest Sell order_id
      else LimitOrderBook_rest Sell order_id
  | None => LimitOrderBook_rest Sell order_id
  end.

(** [LimitOrderBook::limit_buy] *)
Definition LimitOrderBook_limit_buy (order_id q p : Z) : M LimitOrderBook unit :=
  do UIDOrderMap_emplace order_id (mkOrder order_id Buy q p None) then
  let* asks := load_tree Sell in
  match best asks with
  | Some k =>
      if k <=? p then
        let* o := LimitOrderBook_cross Sell order_id in
        if quantity o =? 0
        then UIDOrderMap_erase order_id
        else LimitOrderBook_rest Buy order_id
      else LimitOrderBook_rest Buy order_id
  | None => LimitOrderBook_rest Buy order_id
  end.

(** [LimitOrderBook::limit] *)
Definition LimitOrderBook_limit (s : Side) (order_id q p : Z) : M LimitOrderBook unit :=
  match s with
  | Sell => LimitOrderBook_limit_sell order_id q p
  | Buy => LimitOrderBook_limit_buy order_id q p
  end.

(** [LimitOrderBook::has] *)
Definition LimitOrderBook_has (b : LimitOrderBook) (order_id : Z) : bool :=
  bool_decide (is_Some (order_map b !! order_id)).

(** [LimitOrderBook::cancel] *)
Definition LimitOrderBook_cancel (order_id : Z) : M LimitOrderBook unit :=
  let* o := UIDOrderMap_at order_id in
  do LimitTree_cancel (side o) order_id then
  UIDOrderMap_erase order_id.

(** [LimitOrderBook::reduce] *)
Definition LimitOrderBook_reduce (order_id : Z) (q : Z) : M LimitOrderBook unit :=
  let* o := UIDOrderMap_at order_id in
  if quantity o <? q
  then raise (Thrown "trying to remove more than available")
  else
    do store_order order_id (set_quantity o (quantity o - q)) then
    let* p := unwrap NullPointer (limit o) in
    let* t := load_tree (side o) in
    let* l := unwrap NullPointer (limits t !! p) in
    do store_tree (side o)
         (mkLimitTree
            (<[p := mkLimit (key l) (count l) (wrap64 (volume l - q)) (fifo l)]> (limits t))
            (best t) (last_best_price t) (tree_count t)
            (wrap64 (tree_volume t - q))) then
    if quantity o - q =? 0
    then do LimitTree_cancel (side o) order_id then UIDOrderMap_erase order_id
    else ret tt.

(** ** [data_feed/messages.hpp] *)

Inductive WireSide : Type := WireSell | WireBuy.

Definition side_to_LOB_side (s : WireSide) : Side :=
  match s with WireBuy => Buy | WireSell => Sell end.

(** The body of a packet, by [MessageID]; [Unknown] stands for any other
    identifier. *)
Inductive Message : Type :=
  | Clear
  | AddOrder (uid price quantity : Z) (side : WireSide)
  | DeleteOrder (uid : Z)
  | Trade (uid price quantity : Z) (side : WireSide)
  | StartOfSession
  | EndOfSession
  | Unknown.

(** A packet: the sequence number of its [Header] and its body. *)
Record Packet : Type := mkPacket {
  header_sequence : Z;
  body : Message
}.

(** ** [data_feed/receiver.hpp] *)

(** What the receiver writes to [std::cerr]. *)
Inductive LogLine : Type :=
  | OutOfSequence (got expected : Z)
  | DeleteNonExistent (uid : Z)
  | TradeNonExistent (uid : Z).

(** [class Receiver<Handler>].  [delivered] lists the messages passed to
    [handler.did_receive], oldest first; [cerr] the lines logged. *)
Record Receiver : Type := mkReceiver {
  book : LimitOrderBook;
  is_session_active : bool;
  last_sequence : Z;
  delivered : list Message;
  cerr : list LogLine
}.

Definition Receiver_new : Receiver :=
  mkReceiver LimitOrderBook_new false 0 [] [].

Definition set_book (b : LimitOrderBook) (r : Receiver) : Receiver :=
  mkReceiver b (is_session_active r) (last_sequence r) (delivered r) (cerr r).

Definition set_session_active (a : bool) (r : Receiver) : Receiver :=
  mkReceiver (book r) a (last_sequence r) (delivered r) (cerr r).

Definition set_last_sequence (n : Z) (r : Receiver) : Receiver :=
  mkReceiver (book r) (is_session_active r) n (delivered r) (cerr r).

Definition did_receive (msg : Message) : M Receiver unit :=
  modify (fun r => mkReceiver (book r) (is_session_active r) (last_sequence r)
                              (delivered r ++ [msg]) (cerr r)).

Definition log (l : LogLine) : M Receiver unit :=
  modify (fun r => mkReceiver (book r) (is_session_active r) (last_sequence r)
                              (delivered r) (cerr r ++ [l])).

(** An operation of the book run on the book of the receiver. *)
Definition on_book {A} (op : M LimitOrderBook A) : M Receiver A :=
  fun r => match op (book r) with
           | Ok a b => Ok a (set_book b r)
           | Raise e b => Raise e (set_book b r)
           end.

(** [Receiver::handle], one definition per message type. *)
Definition Receiver_handle (msg : Message) : M Receiver unit :=
  match msg with
  | StartOfSession =>
      do modify (set_session_active true) then did_receive msg
  | EndOfSession =>
      do modify (set_session_active false) then did_receive msg
  | Clear =>
      do on_book LimitOrderBook_clear then did_receive msg
  | AddOrder u p q s =>
      do on_book (LimitOrderBook_limit (side_to_LOB_side s) u q p) then did_receive msg
  | DeleteOrder u =>
      let* r := get in
      if negb (LimitOrderBook_has (book r) u)
      then log (DeleteNonExistent u)
      else do on_book (LimitOrderBook_cancel u) then did_receive msg
  | Trade u p q s =>
      let* r := get in
      if negb (LimitOrderBook_has (book r) u)
      then log (TradeNonExistent u)
      else do on_book (LimitOrderBook_reduce u q) then did_receive msg
  | Unknown => raise (Thrown "Receiver::handle(Header) - received message with invalid header")
  end.

(** The completion handler of [Receiver::read_message] for a packet received
    without error: the sequence check ([!= ++last_sequence]), then the
    dispatch on the message identifier. *)
Definition Receiver_read_message (pkt : Packet) : M Receiver unit :=
  let* r := get in
  let incremented := wrap32 (last_sequence r + 1) in
  do (if decide (header_sequence pkt = incremented)
      then modify (set_last_sequence incremented)
      else
        do log (OutOfSequence (header_sequence pkt) (wrap32 (incremented - 1))) then
        modify (set_last_sequence (header_sequence pkt))) then
  Receiver_handle (body pkt).

(** The packets of a feed, received in order. *)
Fixpoint Receiver_run (pkts : list Packet) : M Receiver unit :=
  match pkts with
  | [] => ret tt
  | pkt :: rest => do Receiver_read_message pkt then Receiver_run rest
  end.

(** ** [data_feed/sender.hpp] *)

(** [class Sender]: the sequence number of the next packet and the packets
    queued, oldest first (the asynchronous loop that drains the queue and the
    time stamps are not modelled). *)
Record Sender : Type := mkSender {
  sender_sequence : Z;
  sender_output : list Packet
}.

(** [SequenceNumber sequence = 1] *)
Definition Sender_new : Sender := mkSender 1 [].

(** [Sender::send<T>]: the packet takes the sequence number, which is then
    incremented ([sequence++] on [uint32_t]). *)
Definition Sender_send (msg : Message) : M Sender unit :=
  modify (fun s => mkSender (wrap32 (sender_sequence s + 1))
                            (sender_output s ++ [mkPacket (sender_sequence s) msg])).

(** ** Vocabulary for the properties of the receiver *)

(** What a downstream consumer sees of the receiver. *)
Definition view (r : Receiver) : LimitOrderBook * bool * list Message :=
  (book r, is_session_active r, delivered r).

(** How a run of the receiver ends: the exception thrown, if any, and what
    a consumer sees. *)
Definition outcome {A} (res : Result Receiver A) : option Exception * (LimitOrderBook * bool * list Message) :=
  match res with
  | Ok _ r => (None, view r)
  | Raise e r => (Some e, view r)
  end.

(** The packets applied in order without any sequence check. *)
Fixpoint Receiver_apply (msgs : list Message) : M Receiver unit :=
  match msgs with
  | [] => ret tt
  | msg :: rest => do Receiver_handle msg then Receiver_apply rest
  end.

(** What the completion handler has done when it ends in [res], started in
    [r], for a message whose handler runs the operation [op] on the mirror
    book: the book is the one the operation leaves; if the operation returns,
    the handler returns and the message is passed on; if it throws, the
    exception goes through and the message is not passed on. *)
Definition book_applied (op : M LimitOrderBook unit) (msg : Message) (r : Receiver)
    (res : Result Receiver unit) : Prop :=
  book (final res) = final (op (book r)) /\
  is_session_active (final res) = is_session_active r /\
  match op (book r) with
  | Ok _ _ => res = Ok tt (final res) /\ delivered (final res) = delivered r ++ [msg]
  | Raise e _ => res = Raise e (final res) /\ delivered (final res) = delivered r
  end.

(** The handler has returned and left the book, the session flag and the
    messages passed on as they were. *)
Definition passed_over (r : Receiver) (res : Result Receiver unit) : Prop :=
  res = Ok tt (final res) /\ view (final res) = view r.

(** The message [msg] has been applied to the receiver [r], with the result
    [res], as section 4.8 of the specification words it: the session flag is
    set or reset, the mirror book is cleared, the order is added under the uid
    of the feed, the order is canceled or reduced if the mirror holds it.  A
    message with an unknown identifier throws. *)
Definition applied (msg : Message) (r : Receiver) (res : Result Receiver unit) : Prop :=
  match msg with
  | StartOfSession =>
      res = Ok tt (final res) /\ book (final res) = book r /\
      is_session_active (final res) = true /\
      delivered (final res) = delivered r ++ [msg]
  | EndOfSession =>
      res = Ok tt (final res) /\ book (final res) = book r /\
      is_session_active (final res) = false /\
      delivered (final res) = delivered r ++ [msg]
  | Clear => book_applied LimitOrderBook_clear msg r res
  | AddOrder u p q s =>
      book_applied (LimitOrderBook_limit (side_to_LOB_side s) u q p) msg r res
  | DeleteOrder u =>
      if LimitOrderBook_has (book r) u
      then book_applied (LimitOrderBook_cancel u) msg r res
      else passed_over r res
  | Trade u p q s =>
      if LimitOrderBook_has (book r) u
      then book_applied (LimitOrderBook_reduce u q) msg r res
      else passed_over r res
  | Unknown => (exists e, res = Raise e (final res)) /\ view (final res) = view r
  end.

(** The line the sequence check of the packet [pkt] logs, if any. *)
Definition gap_lines (pkt : Packet) (r : Receiver) : list LogLine :=
  if decide (header_sequence pkt = wrap32 (last_sequence r + 1)) then []
  else [OutOfSequence (header_sequence pkt) (wrap32 (wrap32 (last_sequence r + 1) - 1))].

(** The line the handler of the message logs, if any: a uid the mirror does
    not hold. *)
Definition uid_lines (msg : Message) (r : Receiver) : list LogLine :=
  match msg with
  | DeleteOrder u => if LimitOrderBook_has (book r) u then [] else [DeleteNonExistent u]
  | Trade u _ _ _ => if LimitOrderBook_has (book r) u then [] else [TradeNonExistent u]
  | _ => []
  end.

(** The order [AddOrder u p q s] does not cross the mirror book [b]: the
    opposite side is empty or its best price does not reach [p]. *)
Definition rests_on_entry (s : WireSide) (p : Z) (b : LimitOrderBook) : Prop :=
  match s with
  | WireSell => forall k, best (buys b) = Some k -> k < p
  | WireBuy => forall k, best (sells b) = Some k -> p < k
  end.

(** The receiver after the sequence check of a packet. *)
Definition resync (pkt : Packet) (r : Receiver) : Receiver :=
  if decide (header_sequence pkt = wrap32 (last_sequence r + 1))
  then set_last_sequence (header_sequence pkt) r
  else set_last_sequence (header_sequence pkt)
         (mkReceiver (book r) (is_session_active r) (last_sequence r) (delivered r)
            (cerr r ++ [OutOfSequence (header_sequence pkt)
                          (wrap32 (wrap32 (last_sequence r + 1) - 1))])).

(** Messages sent one after the other. *)
Fixpoint Sender_send_all (msgs : list Message) : M Sender unit :=
  match msgs with
  | [] => ret tt
  | msg :: rest => do Sender_send msg then Sender_send_all rest
  end.

(** The packets of the messages [msgs], numbered from [n] as 32-bit numbers,
    and the number after them. *)
Fixpoint packets_from (n : Z) (msgs : list Message) : list Packet :=
  match msgs with
  | [] => []
  | msg :: rest => mkPacket n msg :: packets_from (wrap32 (n + 1)) rest
  end.

Fixpoint sequence_after (n : Z) (msgs : list Message) : Z :=
  match msgs with
  | [] => n
  | _ :: rest => sequence_after (wrap32 (n + 1)) rest
  end.

(** The log of the receiver reports no packet out of sequence. *)
Definition is_gap (l : LogLine) : bool :=
  match l with
  | OutOfSequence _ _ => true
  | _ => false
  end.

Definition in_sequence (r : Receiver) : Prop := existsb is_gap (cerr r) = false.

(** The uids the messages of a feed add. *)
Fixpoint added (msgs : list Message) : gset Z :=
  match msgs with
  | [] => ∅
  | AddOrder u _ _ _ :: rest => {[u]} ∪ added rest
  | _ :: rest => added rest
  end.

(** The uids of the book are among [K]. *)
Definition within (K : gset Z) (b : LimitOrderBook) : Prop :=
  dom (order_map b) ⊆ K.

(** A computation keeps the uids of the book among [K]. *)
Definition keeps {A} (K : gset Z) (p : M LimitOrderBook A) : Prop :=
  forall b, within K b -> within K (final (p b)).

End DataFeed.

(** * Properties *)

(** ** Computations *)

Section Stable.
Context {S X : Type} (f : S -> X).

Lemma stable_ret {A} (a : A) : stable f (@ret S A a).
Proof. intros s. reflexivity. Qed.

Lemma stable_raise {A} e : stable f (@raise S A e).
Proof. intros s. reflexivity. Qed.

Lemma stable_get : stable f (@get S).
Proof. intros s. reflexivity. Qed.

Lemma stable_unwrap {A} e (o : option A) : stable f (@unwrap S A e o).
Proof. destruct o; intros s; reflexivity. Qed.

Lemma stable_modify (g : S -> S) : (forall s, f (g s) = f s) -> stable f (modify g).
Proof. intros H s. apply H. Qed.

Lemma stable_bind {A B} (p : M S A) (k : A -> M S B) :
  stable f p -> (forall a, stable f (k a)) -> stable f (bind p k).
Proof.
  intros Hp Hk s. unfold bind. specialize (Hp s).
  destruct (p s) as [a s'|e s']; cbn in *; [|exact Hp].
  rewrite Hk. exact Hp.
Qed.

Lemma stable_if {A} (b : bool) (p q : M S A) :
  stable f p -> stable f q -> stable f (if b then p else q).
Proof. destruct b; auto. Qed.
End Stable.

Create HintDb stable discriminated.

Ltac stable_step :=
  lazymatch goal with
  | |- stable _ (bind _ _) => apply stable_bind; [|intros ?]
  | |- stable _ (ret _) => apply stable_ret
  | |- stable _ (raise _) => apply stable_raise
  | |- stable _ get => apply stable_get
  | |- stable _ (unwrap _ _) => apply stable_unwrap
  | |- stable _ (modify _) => apply stable_modify; intros ?; reflexivity
  | |- stable _ (if _ then _ else _) => apply stable_if
  | |- stable _ (match ?x with _ => _ end) => destruct x
  end.

Lemma hoare_bind {S A B} (P : S -> Prop) (p : M S A) (k : A -> M S B) Q1 Q R :
  hoare P p Q1 R -> (forall a, hoare (Q1 a) (k a) Q R) -> hoare P (bind p k) Q R.
Proof.
  intros Hp Hk s Hs. unfold bind. specialize (Hp s Hs).
  destruct (p s) as [a s'|e s']; [apply Hk, Hp | exact Hp].
Qed.

Lemma hoare_stable {S A X} (f : S -> X) (p : M S A) (c : X) :
  stable f p -> hoare (fun s => f s = c) p (fun _ s => f s = c) (fun s => f s = c).
Proof.
  intros Hp s Hs. specialize (Hp s). destruct (p s); cbn in Hp; congruence.
Qed.

Lemma hoare_weaken {S A} (P P' : S -> Prop) (p : M S A) (Q Q' : A -> S -> Prop) (R R' : S -> Prop) :
  hoare P' p Q' R' -> (forall s, P s -> P' s) -> (forall a s, Q' a s -> Q a s) ->
  (forall s, R' s -> R s) -> hoare P p Q R.
Proof.
  intros H HP HQ HR s Hs. specialize (H s (HP s Hs)). destruct (p s); auto.
Qed.

Lemma sum_over_empty {K V} `{Countable K} (f : V -> Z) : sum_over f (∅ : gmap K V) = 0.
Proof. unfold sum_over. apply map_fold_empty. Qed.

Lemma sum_over_insert_fresh {K V} `{Countable K} (f : V -> Z) (m : gmap K V) k v :
  m !! k = None -> sum_over f (<[k := v]> m) = f v + sum_over f m.
Proof.
  intros Hk. unfold sum_over. apply (map_fold_insert_L (fun _ v acc => f v + acc)); [|exact Hk].
  intros; lia.
Qed.

Lemma sum_over_delete {K V} `{Countable K} (f : V -> Z) (m : gmap K V) k v :
  m !! k = Some v -> sum_over f m = f v + sum_over f (delete k m).
Proof.
  intros Hk. rewrite <- (insert_delete_id m k v Hk) at 1.
  apply sum_over_insert_fresh. apply lookup_delete_eq.
Qed.

Lemma sum_over_insert {K V} `{Countable K} (f : V -> Z) (m : gmap K V) k v v' :
  m !! k = Some v -> sum_over f (<[k := v']> m) = sum_over f m - f v + f v'.
Proof.
  intros Hk. rewrite (sum_over_delete f m k v Hk).
  rewrite <- insert_delete_eq. rewrite sum_over_insert_fresh by apply lookup_delete_eq. lia.
Qed.

Lemma bind_Ok {S A B} (p : M S A) (k : A -> M S B) s b s' :
  bind p k s = Ok b s' -> exists a s1, p s = Ok a s1 /\ k a s1 = Ok b s'.
Proof. unfold bind. destruct (p s) as [a s1|]; [eauto|discriminate]. Qed.

Lemma ret_Ok {S A} (a b : A) (s s' : S) : ret a s = Ok b s' -> b = a /\ s' = s.
Proof. unfold ret. intros [= -> ->]. auto. Qed.

Lemma get_Ok {S} (s a s' : S) : get s = Ok a s' -> a = s /\ s' = s.
Proof. unfold get. intros [= -> ->]. auto. Qed.

Lemma modify_Ok {S} (f : S -> S) s a s' : modify f s = Ok a s' -> s' = f s.
Proof. unfold modify. intros [= _ ->]. auto. Qed.

Lemma unwrap_Ok {S A} e (o : option A) (s : S) a s' :
  unwrap e o s = Ok a s' -> o = Some a /\ s' = s.
Proof. destruct o; cbn; [intros [= -> ->]; auto | discriminate]. Qed.

Ltac minv1 :=
  match goal with
  | H : bind _ _ _ = Ok _ _ |- _ =>
      let a := fresh "a" in let s := fresh "m" in let H1 := fresh "E" in
      apply bind_Ok in H as (a & s & H1 & H)
  | H : ret _ _ = Ok _ _ |- _ => apply ret_Ok in H as [? ?]; subst
  | H : get _ = Ok _ _ |- _ => apply get_Ok in H as [? ?]; subst
  | H : modify _ _ = Ok _ _ |- _ => apply modify_Ok in H; subst
  | H : unwrap _ _ _ = Ok _ _ |- _ => apply unwrap_Ok in H as [? ?]; subst
  | H : raise _ _ = Ok _ _ |- _ => discriminate H
  end.

Ltac minv := repeat minv1.

Lemma swrap64_eqm z : exists k, swrap64 z = z + k * 2 ^ 64.
Proof.
  exists (- ((z + 2 ^ 63) / 2 ^ 64)). unfold swrap64.
  rewrite Z.mod_eq by lia. lia.
Qed.

Lemma wrap64_eqm z : exists k, wrap64 z = z + k * 2 ^ 64.
Proof.
  exists (- (z / 2 ^ 64)). unfold wrap64. rewrite Z.mod_eq by lia. lia.
Qed.

Lemma wrap64_shift x k : wrap64 (x + k * 2 ^ 64) = wrap64 x.
Proof. unfold wrap64. apply Z_mod_plus_full. Qed.

Lemma swrap64_wrap64 x y : wrap64 x = wrap64 y -> swrap64 x = swrap64 y.
Proof.
  unfold wrap64, swrap64. intros H.
  rewrite (Z.add_mod x), (Z.add_mod y) by lia. rewrite H. reflexivity.
Qed.

Lemma stable_Ok {S X A} (f : S -> X) (p : M S A) s a s' :
  stable f p -> p s = Ok a s' -> f s' = f s.
Proof. intros H E. specialize (H s). rewrite E in H. exact H. Qed.


Lemma holds_inv {A} (P : A -> Prop) (x : option A) :
  holds P x -> exists a, x = Some a /\ P a.
Proof. destruct x; cbn; [eauto|contradiction]. Qed.

Lemma sum_over_nonneg {K V} `{Countable K} (f : V -> Z) (m : gmap K V) :
  map_Forall (fun _ v => 0 <= f v) m -> 0 <= sum_over f m.
Proof.
  induction m as [|k v m Hk IH] using map_ind; intros Hall.
  - rewrite sum_over_empty. lia.
  - rewrite sum_over_insert_fresh by exact Hk.
    apply map_Forall_insert in Hall as [Hv Hall]; [|exact Hk].
    specialize (IH Hall). lia.
Qed.

Lemma sum_over_ge {K V} `{Countable K} (f : V -> Z) (m : gmap K V) k v :
  map_Forall (fun _ v => 0 <= f v) m -> m !! k = Some v -> f v <= sum_over f m.
Proof.
  intros Hall Hk. rewrite (sum_over_delete f m k v Hk).
  assert (0 <= sum_over f (delete k m)); [|lia].
  apply sum_over_nonneg. intros k' v' Hk'. apply lookup_delete_Some in Hk' as [_ Hk'].
  exact (Hall k' v' Hk').
Qed.

Lemma wrap64_sub_0 x : wrap64 (wrap64 x - 0) = wrap64 x.
Proof. unfold wrap64. rewrite Z.sub_0_r. apply Z.mod_mod. lia. Qed.

Lemma wrap32_inc_dec x : 0 <= x < 2 ^ 32 -> wrap32 (wrap32 (x + 1) - 1) = x.
Proof.
  intros Hx. unfold wrap32. rewrite Zminus_mod_idemp_l.
  replace (x + 1 - 1) with x by lia. apply Z.mod_small. exact Hx.
Qed.

Lemma wrap64_add_sub x q : 0 <= x < 2 ^ 64 -> wrap64 (wrap64 (x + q) - q) = x.
Proof.
  intros Hx. unfold wrap64. rewrite Zminus_mod_idemp_l.
  replace (x + q - q) with x by lia. apply Z.mod_small. exact Hx.
Qed.

Lemma wrap32_small x : 0 <= x < 2 ^ 32 -> wrap32 x = x.
Proof. apply Z.mod_small. Qed.

Lemma wrap64_small x : 0 <= x < 2 ^ 64 -> wrap64 x = x.
Proof. apply Z.mod_small. Qed.

Lemma bind_run {S A B} (p : M S A) (k : A -> M S B) s a s1 :
  p s = Ok a s1 -> bind p k s = k a s1.
Proof. intros H. unfold bind. rewrite H. reflexivity. Qed.

Lemma sum_over_ext {K V} `{Countable K} (f g : V -> Z) (m : gmap K V) :
  map_Forall (fun _ v => f v = g v) m -> sum_over f m = sum_over g m.
Proof.
  induction m as [|k v m Hk IH] using map_ind; intros Hall.
  - rewrite !sum_over_empty. reflexivity.
  - rewrite !sum_over_insert_fresh by exact Hk.
    apply map_Forall_insert in Hall as [Hv Hall]; [|exact Hk].
    rewrite Hv, IH by exact Hall. reflexivity.
Qed.

Lemma sum_over_le_scaled {K V} `{Countable K} (f g : V -> Z) (c : Z) (m : gmap K V) :
  map_Forall (fun _ v => f v <= g v * c) m -> sum_over f m <= sum_over g m * c.
Proof.
  induction m as [|k v m Hk IH] using map_ind; intros Hall.
  - rewrite !sum_over_empty. lia.
  - rewrite !sum_over_insert_fresh by exact Hk.
    apply map_Forall_insert in Hall as [Hv Hall]; [|exact Hk].
    specialize (IH Hall). lia.
Qed.

(** * The order-entry side *)

Module OrderEntryFacts.
Import OrderEntry.
Local Open Scope monad_scope.

(** ** The sequence number *)

(** The operations that do not touch the sequence number. *)

Lemma seq_load_tree s : stable seq_of (load_tree s).
Proof. unfold load_tree. repeat stable_step. Qed.

Lemma seq_store_tree s t : stable seq_of (store_tree s t).
Proof. unfold store_tree. apply stable_modify. intros m. destruct s; reflexivity. Qed.

Lemma seq_load_order u : stable seq_of (load_order u).
Proof. unfold load_order. repeat stable_step. Qed.

Lemma seq_store_order u o : stable seq_of (store_order u o).
Proof. unfold store_order. repeat stable_step. Qed.

Lemma seq_load_account n : stable seq_of (load_account n).
Proof. unfold load_account. repeat stable_step. Qed.

Lemma seq_store_account n a : stable seq_of (store_account n a).
Proof. unfold store_account. repeat stable_step. Qed.

Lemma seq_send c r : stable seq_of (Connection_send c r).
Proof. unfold Connection_send, load_connection, store_connection. repeat stable_step. Qed.

#[local] Hint Resolve seq_load_tree seq_store_tree seq_load_order seq_store_order
  seq_load_account seq_store_account seq_send : stable.

Ltac stable_auto :=
  repeat first [ stable_step | solve [eauto with stable] ].

Lemma seq_limit_fill n l k : stable seq_of (SystemAccount_limit_fill n l k).
Proof. unfold SystemAccount_limit_fill, Connection_trade. stable_auto. Qed.

Lemma seq_limit_partial n l k : stable seq_of (SystemAccount_limit_partial n l k).
Proof. unfold SystemAccount_limit_partial, Connection_trade. stable_auto. Qed.

Lemma seq_market_fill n l k : stable seq_of (SystemAccount_market_fill n l k).
Proof. unfold SystemAccount_market_fill, Connection_trade. stable_auto. Qed.

Lemma seq_market_partial n l k : stable seq_of (SystemAccount_market_partial n l k).
Proof. unfold SystemAccount_market_partial, Connection_trade. stable_auto. Qed.

#[local] Hint Resolve seq_limit_fill seq_limit_partial seq_market_fill seq_market_partial : stable.

Lemma seq_tree_limit s u : stable seq_of (LimitTree_limit s u).
Proof. unfold LimitTree_limit. stable_auto. Qed.

Lemma seq_tree_remove s u : stable seq_of (LimitTree_remove s u).
Proof. unfold LimitTree_remove. stable_auto. Qed.

#[local] Hint Resolve seq_tree_limit seq_tree_remove : stable.

Lemma seq_tree_cancel s u : stable seq_of (LimitTree_cancel s u).
Proof. unfold LimitTree_cancel. stable_auto. Qed.

Lemma seq_erase u : stable seq_of (UIDOrderMap_erase u).
Proof. unfold UIDOrderMap_erase. stable_auto. Qed.

Lemma seq_at u : stable seq_of (UIDOrderMap_at u).
Proof. unfold UIDOrderMap_at. stable_auto. Qed.

Lemma seq_emplace u o : stable seq_of (UIDOrderMap_emplace u o).
Proof. unfold UIDOrderMap_emplace. apply stable_modify. intros m.
  destruct (order_map (book m) !! u); reflexivity. Qed.

#[local] Hint Resolve seq_tree_cancel seq_erase seq_at seq_emplace : stable.

Lemma seq_market_loop fuel s f o :
  (forall u, stable seq_of (f u)) -> stable seq_of (LimitTree_market_loop fuel s f o).
Proof.
  intros Hf. revert o. induction fuel as [|fuel IH]; intros o; cbn [LimitTree_market_loop].
  - stable_auto.
  - stable_auto.
Qed.

Lemma seq_tree_market s f o :
  (forall u, stable seq_of (f u)) -> stable seq_of (LimitTree_market s f o).
Proof. intros. unfold LimitTree_market. stable_auto. now apply seq_market_loop. Qed.

#[local] Hint Resolve seq_tree_market : stable.

Lemma seq_cross s q : stable seq_of (LimitOrderBook_cross s q).
Proof. unfold LimitOrderBook_cross. stable_auto. Qed.

Lemma seq_market a s q : stable seq_of (LimitOrderBook_market a s q).
Proof. unfold LimitOrderBook_market, LimitOrderBook_market_sell, LimitOrderBook_market_buy,
  LimitOrderBook_get_sequence. destruct s; stable_auto. Qed.

Lemma seq_cancel u : stable seq_of (LimitOrderBook_cancel u).
Proof. unfold LimitOrderBook_cancel. stable_auto. Qed.

Lemma seq_reduce u q : stable seq_of (LimitOrderBook_reduce u q).
Proof. unfold LimitOrderBook_reduce. stable_auto. Qed.

Lemma rest_sequence s n :
  hoare (fun m => seq_of m = n) (LimitOrderBook_rest s n)
        (fun u m' => u = n /\ seq_of m' = wrap64 (n + 1)) (fun m' => seq_of m' = n).
Proof.
  unfold LimitOrderBook_rest.
  eapply hoare_bind.
  { apply (hoare_stable seq_of). stable_auto. }
  intros a m Hm. cbn. split; reflexivity.
Qed.

Lemma limit_side_sequence (s : Side) (seq : Z) (crosses : LimitTree -> bool) :
  hoare (fun m => seq_of m = seq)
    (let* t := load_tree (Side_not s) in
     if crosses t then
       let* o := LimitOrderBook_cross (Side_not s) seq in
       if quantity o =? 0
       then do UIDOrderMap_erase seq then ret 0
       else LimitOrderBook_rest s seq
     else LimitOrderBook_rest s seq)
    (fun u m' => (u = 0 /\ seq_of m' = seq) \/ (u = seq /\ seq_of m' = wrap64 (seq + 1)))
    (fun m' => seq_of m' = seq).
Proof.
  eapply hoare_bind; [apply (hoare_stable seq_of); stable_auto|].
  intros t. cbn beta.
  assert (Hrest : hoare (fun m => seq_of m = seq) (LimitOrderBook_rest s seq)
    (fun u m' => (u = 0 /\ seq_of m' = seq) \/ (u = seq /\ seq_of m' = wrap64 (seq + 1)))
    (fun m' => seq_of m' = seq)).
  { eapply hoare_weaken; [apply rest_sequence|..]; cbn; auto. }
  destruct (crosses t); [|exact Hrest].
  eapply hoare_bind; [apply (hoare_stable seq_of); apply seq_cross|].
  intros o. cbn beta. destruct (quantity o =? 0); [|exact Hrest].
  eapply hoare_bind; [apply (hoare_stable seq_of); stable_auto|].
  intros a m Hm. unfold ret; cbn beta iota. left. auto.
Qed.

Lemma limit_sequence acct s q p :
  forall n, hoare (fun m => seq_of m = n) (LimitOrderBook_limit acct s q p)
    (fun u m' => (u = 0 /\ seq_of m' = n) \/ (u = n /\ seq_of m' = wrap64 (n + 1)))
    (fun m' => seq_of m' = n).
Proof.
  intros n m Hm.
  pose proof (limit_side_sequence s n) as H.
  destruct s; cbn [LimitOrderBook_limit];
    unfold LimitOrderBook_limit_sell, LimitOrderBook_limit_buy, LimitOrderBook_get_sequence.
  - specialize (H (fun t => match best t with Some k => p <=? k | None => false end)).
    cbn [Side_not] in H.
    unfold bind at 1 2. cbn [get ret]. fold (seq_of m). rewrite Hm.
    unfold bind at 1.
    pose proof (seq_emplace n (mkOrder n Sell q p None acct) m) as He.
    destruct (UIDOrderMap_emplace n (mkOrder n Sell q p None acct) m) as [[] m1|e m1] eqn:E;
      cbn in He; [|congruence].
    specialize (H m1 ltac:(congruence)).
    unfold bind in *. destruct (load_tree Buy m1) as [t m2|]; [|exact H].
    destruct (best t) as [k|]; [destruct (p <=? k)|]; exact H.
  - specialize (H (fun t => match best t with Some k => k <=? p | None => false end)).
    cbn [Side_not] in H.
    unfold bind at 1 2. cbn [get ret]. fold (seq_of m). rewrite Hm.
    unfold bind at 1.
    pose proof (seq_emplace n (mkOrder n Buy q p None acct) m) as He.
    destruct (UIDOrderMap_emplace n (mkOrder n Buy q p None acct) m) as [[] m1|e m1] eqn:E;
      cbn in He; [|congruence].
    specialize (H m1 ltac:(congruence)).
    unfold bind in *. destruct (load_tree Sell m1) as [t m2|]; [|exact H].
    destruct (best t) as [k|]; [destruct (k <=? p)|]; exact H.
Qed.

Lemma serve_sequence r :
  forall n, hoare (fun m => seq_of m = n) (serve r)
    (fun us m' => (filter (fun u => u <> 0) us = [] /\ seq_of m' = n) \/
                  (n <> 0 -> filter (fun u => u <> 0) us = [n]) /\ seq_of m' = wrap64 (n + 1))
    (fun m' => seq_of m' = n).
Proof.
  intros n. destruct r as [acct s q p|acct s q|u|u q]; cbn [serve].
  - eapply hoare_bind; [apply limit_sequence|].
    intros u m [[-> Hm]|[-> Hm]]; unfold ret; cbn beta iota.
    + left. split; [reflexivity|exact Hm].
    + right. split; [|exact Hm]. intros Hn.
      rewrite filter_cons_True by exact Hn. reflexivity.
  - eapply hoare_bind; [apply (hoare_stable seq_of), seq_market|].
    intros a m Hm. unfold ret; cbn beta iota. left. auto.
  - eapply hoare_bind; [apply (hoare_stable seq_of), seq_cancel|].
    intros a m Hm. unfold ret; cbn beta iota. left. auto.
  - eapply hoare_bind; [apply (hoare_stable seq_of), seq_reduce|].
    intros a m Hm. unfold ret; cbn beta iota. left. auto.
Qed.

Lemma uids_of_run (rs : list Request) (m m' : Memory) (uids : list Z) :
  1 <= seq_of m ->
  seq_of m + Z.of_nat (length rs) < 2 ^ 64 ->
  serve_all rs m = Ok uids m' ->
  filter (fun u => u <> 0) uids = seqZ (seq_of m) (seq_of m' - seq_of m) /\
  seq_of m <= seq_of m' <= seq_of m + Z.of_nat (length rs).
Proof.
  revert m uids. induction rs as [|r rs IH]; intros m uids Hlo Hhi Hrun.
  - cbn in Hrun. injection Hrun as <- <-. rewrite Z.sub_diag. cbn. split; [reflexivity|lia].
  - cbn [serve_all] in Hrun. unfold bind at 1 in Hrun.
    pose proof (serve_sequence r (seq_of m) m eq_refl) as Hr.
    destruct (serve r m) as [us m1|] eqn:E; [|discriminate].
    unfold bind at 1 in Hrun.
    destruct (serve_all rs m1) as [us' m2|] eqn:E'; [|discriminate].
    cbn in Hrun. injection Hrun as <- <-.
    cbn [length] in Hhi. rewrite filter_app.
    destruct Hr as [[Hus Hs]|[Hus Hs]].
    + destruct (IH m1 us') as [IH1 IH2]; [lia|lia|exact E'|].
      rewrite Hus, IH1. rewrite Hs in *. cbn [length]. split; [reflexivity|lia].
    + unfold wrap64 in Hs. rewrite Z.mod_small in Hs by lia.
      destruct (IH m1 us') as [IH1 IH2]; [lia|lia|exact E'|].
      rewrite Hus by lia. rewrite IH1. rewrite Hs in *. cbn [length]. split; [|lia].
      rewrite (seqZ_cons (seq_of m)) by lia. cbn. f_equal. f_equal; lia.
Qed.

Ltac prims :=
  unfold load_tree, store_tree, load_order, store_order, load_account, store_account,
    load_connection, store_connection, UIDOrderMap_at, UIDOrderMap_erase,
    LimitOrderBook_get_sequence in *.

(** ** Orders only leave the book during matching and cancels *)

Lemma evolves_refl m : evolves m m.
Proof. split; [auto|split; [eauto|auto]]. Qed.

Lemma evolves_trans m1 m2 m3 : evolves m1 m2 -> evolves m2 m3 -> evolves m1 m3.
Proof.
  intros (A1 & B1 & C1) (A2 & B2 & C2). split; [auto|split; [|congruence]].
  intros u o3 H3. destruct (B2 u o3 H3) as (o2 & H2 & E2).
  destruct (B1 u o2 H2) as (o1 & H1 & E1). exists o1. split; [auto|congruence].
Qed.


(** Changes that leave the book alone. *)
Lemma evolves_same_book m m' : book m' = book m -> evolves m m'.
Proof.
  intros E. unfold evolves, rests. rewrite E. split; [auto|split; [eauto|auto]].
Qed.

Lemma DLL_remove_subset u x l : x ∈ DLL_remove u l -> x ∈ l.
Proof.
  induction l as [|y l IH]; cbn; [auto|].
  destruct (decide (y = u)); [intros; now right|].
  intros [->|H]%elem_of_cons; [now left|right; auto].
Qed.

(** A tree whose queues are parts of the queues of the current tree. *)
Lemma evolves_store_tree m s t :
  (forall p l' u, limits t !! p = Some l' -> u ∈ fifo l' ->
     exists l, limits (tree_of s (book m)) !! p = Some l /\ u ∈ fifo l) ->
  evolves m (set_book (set_tree s t (book m)) m).
Proof.
  intros H. split; [|split; [destruct s; cbn; eauto|destruct s; reflexivity]].
  intros s' u (p & l' & Hl' & Hu). unfold rests.
  destruct s, s'; cbn in *; eauto.
Qed.

Lemma evolves_erase m u :
  evolves m (set_book (set_order_map (delete u (order_map (book m))) (book m)) m).
Proof.
  split; [auto|split; [|reflexivity]].
  cbn. intros u' o' H. apply lookup_delete_Some in H as [_ H]. eauto.
Qed.

Lemma evolves_store_order m u o o' :
  order_map (book m) !! u = Some o -> side o' = side o ->
  evolves m (set_book (set_order_map (<[u := o']> (order_map (book m))) (book m)) m).
Proof.
  intros Ho Hs. split; [auto|split; [|reflexivity]].
  cbn. intros u' o'' H. destruct (decide (u = u')) as [<-|Hne].
  - rewrite lookup_insert_eq in H. injection H as <-. eauto.
  - rewrite lookup_insert_ne in H by exact Hne. eauto.
Qed.

Lemma remove_evolves s u m a m' :
  LimitTree_remove s u m = Ok a m' -> evolves m m'.
Proof.
  unfold LimitTree_remove. prims. intros H. minv.
  apply evolves_store_tree. cbn [limits]. intros p l' x Hl' Hx.
  match type of Hl' with (if ?c then _ else _) !! _ = _ => destruct c end.
  - apply lookup_delete_Some in Hl' as [_ Hl']. eauto.
  - destruct (decide (a1 = p)) as [->|Hne].
    + rewrite lookup_insert_eq in Hl'. injection Hl' as <-. cbn in Hx.
      eauto using DLL_remove_subset.
    + rewrite lookup_insert_ne in Hl' by exact Hne. eauto.
Qed.


(** ** The totals of the accounts *)

Lemma fill_shares a s q p :
  exists k, shares (Account_fill a s q p) = shares a + sgn s * q + k * 2 ^ 64.
Proof.
  destruct s; cbn [Account_fill shares sgn].
  - destruct (swrap64_eqm (shares a - q)) as [k ->]. exists k. lia.
  - destruct (swrap64_eqm (shares a + q)) as [k ->]. exists k. lia.
Qed.

Lemma fill_capital a s q p :
  exists k, capital (Account_fill a s q p) = capital a - sgn s * (q * p) + k * 2 ^ 64.
Proof.
  destruct s; cbn [Account_fill capital sgn].
  - destruct (swrap64_eqm (capital a + wrap64 (q * p))) as [k ->].
    destruct (wrap64_eqm (q * p)) as [k' ->]. exists (k + k'). lia.
  - destruct (swrap64_eqm (capital a - wrap64 (q * p))) as [k ->].
    destruct (wrap64_eqm (q * p)) as [k' ->]. exists (k - k'). lia.
Qed.

(** The effect of a store of the account [name], whose bookkeeping part became
    the result of a fill, on the sums. *)
Lemma store_fill_totals m m' name a a0 s q p :
  accounts m !! name = Some a ->
  shares a0 = shares (base a) -> capital a0 = capital (base a) ->
  accounts m' = <[name := set_base a (Account_fill a0 s q p)]> (accounts m) ->
  wrap64 (raw_shares m') = wrap64 (raw_shares m + sgn s * q) /\
  wrap64 (raw_capital m') = wrap64 (raw_capital m - sgn s * (q * p)).
Proof.
  intros Ha Hs Hc Hm'. unfold raw_shares, raw_capital. rewrite Hm'.
  rewrite !(sum_over_insert _ _ _ _ _ Ha). cbn [base set_base].
  destruct (fill_shares a0 s q p) as [k ->]. destruct (fill_capital a0 s q p) as [k' ->].
  rewrite Hs, Hc. split.
  - etransitivity; [|apply (wrap64_shift _ k)]. f_equal. lia.
  - etransitivity; [|apply (wrap64_shift _ k')]. f_equal. lia.
Qed.

Lemma send_book c r m a m' : Connection_send c r m = Ok a m' ->
  book m' = book m /\ accounts m' = accounts m.
Proof. unfold Connection_send. prims. intros H. minv. auto. Qed.

Ltac callback_totals :=
  let H := fresh "H" in
  let Hacc := fresh "Hacc" in
  prims; intros H; minv;
  match goal with
  | E : accounts ?m !! ?name = Some ?a |- _ =>
      destruct (handler a);
      [ apply send_book in H as [-> Hacc];
        (split; [ reflexivity | eapply store_fill_totals; [exact E | | | exact Hacc]; reflexivity ])
      | apply ret_Ok in H as [_ ->];
        (split; [ reflexivity | eapply store_fill_totals; [exact E | | | reflexivity]; reflexivity ]) ]
  end.

Lemma limit_fill_totals name lim mkt m a m' :
  SystemAccount_limit_fill name lim mkt m = Ok a m' ->
  book m' = book m /\
  wrap64 (raw_shares m') = wrap64 (raw_shares m + sgn (side lim) * quantity lim) /\
  wrap64 (raw_capital m') = wrap64 (raw_capital m - sgn (side lim) * (quantity lim * price lim)).
Proof. unfold SystemAccount_limit_fill, Connection_trade, Account_limit_fill. callback_totals. Qed.

Lemma limit_partial_totals name lim mkt m a m' :
  SystemAccount_limit_partial name lim mkt m = Ok a m' ->
  book m' = book m /\
  wrap64 (raw_shares m') = wrap64 (raw_shares m + sgn (side lim) * quantity mkt) /\
  wrap64 (raw_capital m') = wrap64 (raw_capital m - sgn (side lim) * (quantity mkt * price lim)).
Proof. unfold SystemAccount_limit_partial, Connection_trade, Account_limit_partial. callback_totals. Qed.

Lemma market_fill_totals name lim mkt m a m' :
  SystemAccount_market_fill name lim mkt m = Ok a m' ->
  book m' = book m /\
  wrap64 (raw_shares m') = wrap64 (raw_shares m + sgn (side mkt) * quantity mkt) /\
  wrap64 (raw_capital m') = wrap64 (raw_capital m - sgn (side mkt) * (quantity mkt * price lim)).
Proof. unfold SystemAccount_market_fill, Connection_trade, Account_market_fill. callback_totals. Qed.

Lemma market_partial_totals name lim mkt m a m' :
  SystemAccount_market_partial name lim mkt m = Ok a m' ->
  book m' = book m /\
  wrap64 (raw_shares m') = wrap64 (raw_shares m + sgn (side mkt) * quantity lim) /\
  wrap64 (raw_capital m') = wrap64 (raw_capital m - sgn (side mkt) * (quantity lim * price lim)).
Proof. unfold SystemAccount_market_partial, Connection_trade, Account_market_partial. callback_totals. Qed.

(** ** The matching loop conserves the totals *)

Lemma sgn_opposite s : sgn s + sgn (Side_not s) = 0.
Proof. destruct s; reflexivity. Qed.

Lemma sides_ok_evolves m m' : sides_ok m -> evolves m m' -> sides_ok m'.
Proof.
  intros I (A & B & _) s u o' Hr Ho'.
  destruct (B u o' Ho') as (o & Ho & <-). eapply I; eauto.
Qed.

Lemma acc_load_tree s : stable accounts (load_tree s).
Proof. unfold load_tree. repeat stable_step. Qed.

Lemma acc_store_tree s t : stable accounts (store_tree s t).
Proof. unfold store_tree. apply stable_modify. intros m. destruct s; reflexivity. Qed.

Lemma acc_load_order u : stable accounts (load_order u).
Proof. unfold load_order. repeat stable_step. Qed.

Lemma acc_store_order u o : stable accounts (store_order u o).
Proof. unfold store_order. repeat stable_step. Qed.

Lemma acc_erase u : stable accounts (UIDOrderMap_erase u).
Proof. unfold UIDOrderMap_erase. repeat stable_step. Qed.

Lemma acc_remove s u : stable accounts (LimitTree_remove s u).
Proof.
  unfold LimitTree_remove.
  repeat first [stable_step | apply acc_load_tree | apply acc_store_tree | apply acc_load_order].
Qed.

Lemma totals_same_accounts m m' :
  accounts m' = accounts m ->
  raw_shares m' = raw_shares m /\ raw_capital m' = raw_capital m.
Proof. unfold raw_shares, raw_capital. intros ->. auto. Qed.

Lemma load_tree_Ok s m t m' : load_tree s m = Ok t m' -> t = tree_of s (book m) /\ m' = m.
Proof. unfold load_tree, bind, get, ret. intros [= <- <-]. auto. Qed.

Lemma store_tree_Ok s t m a m' :
  store_tree s t m = Ok a m' -> m' = set_book (set_tree s t (book m)) m.
Proof. unfold store_tree, modify. intros [= _ <-]. auto. Qed.

Lemma load_order_Ok u m o m' :
  load_order u m = Ok o m' -> order_map (book m) !! u = Some o /\ m' = m.
Proof.
  unfold load_order, bind, get. intros H. apply unwrap_Ok in H as [? ?]. auto.
Qed.

Lemma store_order_Ok u o m a m' :
  store_order u o m = Ok a m' ->
  m' = set_book (set_order_map (<[u := o]> (order_map (book m))) (book m)) m.
Proof. unfold store_order, modify. intros [= _ <-]. auto. Qed.



Lemma erase_Ok u m a m' :
  UIDOrderMap_erase u m = Ok a m' ->
  m' = set_book (set_order_map (delete u (order_map (book m))) (book m)) m.
Proof. unfold UIDOrderMap_erase, modify. intros [= _ <-]. auto. Qed.


Lemma nets_out T T1 T2 d1 d2 :
  wrap64 T1 = wrap64 (T + d1) -> wrap64 T2 = wrap64 (T1 + d2) -> d1 + d2 = 0 ->
  wrap64 T2 = wrap64 T.
Proof.
  intros H1 H2 Hd. rewrite H2.
  destruct (wrap64_eqm T1) as [k1 Hk1]. rewrite H1 in Hk1.
  destruct (wrap64_eqm (T + d1)) as [k3 Hk3].
  rewrite <- (wrap64_shift T (k3 - k1)). f_equal. lia.
Qed.

Lemma market_loop_spec fuel s : forall order m o' m',
  sides_ok m -> side order = Side_not s ->
  LimitTree_market_loop fuel s UIDOrderMap_erase order m = Ok o' m' ->
  evolves m m' /\
  wrap64 (raw_shares m') = wrap64 (raw_shares m) /\
  wrap64 (raw_capital m') = wrap64 (raw_capital m) /\
  side o' = side order /\ uid o' = uid order /\ account o' = account order /\
  price o' = price order.
Proof.
  induction fuel as [|fuel IH]; intros order m o' m' Hsides Hside H;
    cbn [LimitTree_market_loop] in H; [discriminate H|].
  apply bind_Ok in H as (t & m0 & Et & H).
  apply load_tree_Ok in Et as [-> ->].
  destruct (best (tree_of s (book m))) as [p|] eqn:Ebest;
    [|apply ret_Ok in H as [-> ->]; auto 10 using evolves_refl].
  destruct ((quantity order =? 0) || negb (can_match s p (price order)));
    [apply ret_Ok in H as [-> ->]; auto 10 using evolves_refl|].
  apply bind_Ok in H as (l & m0 & El & H). apply unwrap_Ok in El as [El ->].
  apply bind_Ok in H as (u & m0 & Eu & H). apply unwrap_Ok in Eu as [Eu ->].
  apply bind_Ok in H as (mk & m0 & Emk & H). apply load_order_Ok in Emk as [Emk ->].
  assert (Hrest : rests m s u).
  { exists p, l. split; [exact El|]. destruct (fifo l); [discriminate|].
    injection Eu as ->. now left. }
  assert (Hmk : side mk = s) by (eapply Hsides; eauto).
  pose proof (sgn_opposite s) as Hsg.
  destruct (quantity mk <=? quantity order).
  - (* head consumed *)
    apply bind_Ok in H as (x1 & m1 & Ecb & H).
    apply bind_Ok in H as (x2 & m2 & Erm & H).
    apply bind_Ok in H as (x3 & m3 & Eer & H).
    assert (Hcb : book m1 = book m /\
                  wrap64 (raw_shares m1) = wrap64 (raw_shares m) /\
                  wrap64 (raw_capital m1) = wrap64 (raw_capital m)).
    { destruct (quantity (set_quantity order (quantity order - quantity mk)) =? 0) eqn:Eq.
      - cbn [quantity set_quantity] in Eq. apply Z.eqb_eq in Eq.
        apply bind_Ok in Ecb as (y & m0 & E1 & E2).
        apply limit_fill_totals in E1 as (B1 & S1 & C1).
        apply market_fill_totals in E2 as (B2 & S2 & C2).
        rewrite Hmk in *. rewrite Hside in *.
        split; [congruence|]. split.
        + eapply nets_out; [exact S1|exact S2|nia].
        + eapply nets_out; [exact C1|exact C2|nia].
      - apply bind_Ok in Ecb as (y & m0 & E1 & E2).
        apply limit_fill_totals in E1 as (B1 & S1 & C1).
        apply market_partial_totals in E2 as (B2 & S2 & C2).
        cbn [side set_quantity] in *.
        rewrite Hmk in *. rewrite Hside in *.
        split; [congruence|]. split.
        + eapply nets_out; [exact S1|exact S2|nia].
        + eapply nets_out; [exact C1|exact C2|nia]. }
    destruct Hcb as (B1 & S1 & C1).
    assert (Ev1 : evolves m m1) by (apply evolves_same_book; exact B1).
    assert (Ev2 : evolves m1 m2) by (eapply remove_evolves; exact Erm).
    assert (Ev3 : evolves m2 m3).
    { apply erase_Ok in Eer as ->. apply evolves_erase. }
    assert (Ev : evolves m m3) by eauto using evolves_trans.
    pose proof (stable_Ok accounts _ _ _ _ (acc_remove s u) Erm) as A2.
    pose proof (stable_Ok accounts _ _ _ _ (acc_erase u) Eer) as A3.
    destruct (totals_same_accounts m3 m1) as [T1 T2]; [congruence|].
    apply IH in H as (Ev' & S' & C' & ? & ? & ? & ?);
      [|eapply sides_ok_evolves; eauto|exact Hside].
    cbn [side uid account price set_quantity] in *.
    split; [eapply evolves_trans; eassumption|]. repeat split; congruence.
  - (* head has more *)
    apply bind_Ok in H as (x1 & m1 & Eso & H).
    apply bind_Ok in H as (x2 & m2 & Est & H).
    apply bind_Ok in H as (x3 & m3 & E1 & H).
    apply bind_Ok in H as (x4 & m4 & E2 & H).
    apply ret_Ok in H as [-> ->].
    apply limit_partial_totals in E1 as (B3 & S3 & C3).
    apply market_fill_totals in E2 as (B4 & S4 & C4).
    cbn [side quantity price set_quantity] in *.
    pose proof (stable_Ok accounts _ _ _ _ (acc_store_order _ _) Eso) as A1.
    pose proof (stable_Ok accounts _ _ _ _ (acc_store_tree _ _) Est) as A2.
    assert (Ev1 : evolves m m1).
    { apply store_order_Ok in Eso as ->.
      apply (evolves_store_order m u mk); [exact Emk|reflexivity]. }
    assert (Ev2 : evolves m1 m2).
    { apply store_tree_Ok in Est as ->.
      apply evolves_store_tree. intros p' l' x Hl' Hx. cbn [limits] in Hl'.
      apply store_order_Ok in Eso as ->.
      replace (tree_of s (book (set_book (set_order_map
                 (<[u:=set_quantity mk (quantity mk - quantity order)]>
                    (order_map (book m))) (book m)) m)))
        with (tree_of s (book m)) by (destruct s; reflexivity).
      destruct (decide (p = p')) as [<-|Hne].
      - rewrite lookup_insert_eq in Hl'. injection Hl' as <-. cbn [fifo] in Hx. eauto.
      - rewrite lookup_insert_ne in Hl' by exact Hne. eauto. }
    destruct (totals_same_accounts m2 m) as [T1 T2]; [congruence|].
    assert (Ev : evolves m m4).
    { eapply evolves_trans; [exact Ev1|]. eapply evolves_trans; [exact Ev2|].
      apply evolves_same_book. congruence. }
    rewrite Hmk in *. rewrite Hside in *.
    split; [exact Ev|]. repeat split; try reflexivity.
    + rewrite T1. eapply nets_out; [exact S3|exact S4|nia].
    + rewrite T2. eapply nets_out; [exact C3|exact C4|nia].
Qed.



Lemma engine_inv_sides m : engine_inv m -> sides_ok m.
Proof. intros (_ & _ & H). exact H. Qed.












Lemma Side_not_involutive s : Side_not (Side_not s) = s.
Proof. destruct s; reflexivity. Qed.

Lemma tree_market_spec s order m o' m' :
  sides_ok m -> side order = Side_not s ->
  LimitTree_market s UIDOrderMap_erase order m = Ok o' m' ->
  evolves m m' /\ conserved m m' /\ side o' = side order.
Proof.
  intros Hs Ho H. unfold LimitTree_market in H.
  apply bind_Ok in H as (t & m0 & Et & H). apply load_tree_Ok in Et as [-> ->].
  apply market_loop_spec in H as (Ev & S & C & Hside & _); auto.
  split; [exact Ev|]. split; [split; assumption|exact Hside].
Qed.








Lemma engine_inv_new accts conns :
  engine_inv (mkMemory LimitOrderBook_new accts conns).
Proof.
  split; [|split].
  - cbn. intros u [o Ho]. rewrite lookup_empty in Ho. discriminate.
  - intros s u (p & l & Hl & _). destruct s; cbn in Hl; rewrite lookup_empty in Hl;
      discriminate.
  - intros s u o (p & l & Hl & _). destruct s; cbn in Hl; rewrite lookup_empty in Hl;
      discriminate.
Qed.




(** ** Well-formed books *)

Lemma wf_tree m s : book_wf m -> tree_wf s (order_map (book m)) (tree_of s (book m)).
Proof. intros (_ & Hs & Hb & _). destruct s; assumption. Qed.

Lemma wf_order m u o : book_wf m -> order_map (book m) !! u = Some o -> order_wf m u o.
Proof. intros (_ & _ & _ & Ho & _) H. exact (Ho u o H). Qed.

Lemma wf_level m s p l :
  book_wf m -> limits (tree_of s (book m)) !! p = Some l ->
  level_wf s (order_map (book m)) p l.
Proof. intros Hwf H. destruct (wf_tree m s Hwf) as (Hl & _). exact (Hl p l H). Qed.

Lemma wf_order_level m u o :
  book_wf m -> order_map (book m) !! u = Some o ->
  exists l, limits (tree_of (side o) (book m)) !! price o = Some l /\ u ∈ fifo l.
Proof.
  intros Hwf H. destruct (wf_order m u o Hwf H) as (_ & _ & _ & _ & _ & Hl & _).
  apply holds_inv in Hl. exact Hl.
Qed.

Lemma wf_order_account m u o :
  book_wf m -> order_map (book m) !! u = Some o ->
  exists a, accounts m !! account o = Some a /\ u ∈ orders (base a).
Proof.
  intros Hwf H. destruct (wf_order m u o Hwf H) as (_ & _ & _ & _ & _ & _ & Ha).
  apply holds_inv in Ha. exact Ha.
Qed.

Lemma fifo_volume_nonneg (om : gmap Z Order) f :
  (forall u o, om !! u = Some o -> 0 <= quantity o) -> 0 <= fifo_volume om f.
Proof.
  intros Hq. unfold fifo_volume. induction f as [|x f IH]; cbn [foldr]; [lia|].
  destruct (om !! x) as [o|] eqn:E; [specialize (Hq x o E); lia|exact IH].
Qed.

Lemma fifo_volume_ge (om : gmap Z Order) f u o :
  (forall u o, om !! u = Some o -> 0 <= quantity o) ->
  u ∈ f -> om !! u = Some o -> quantity o <= fifo_volume om f.
Proof.
  intros Hq Hu Ho. induction f as [|x f IH]; [inversion Hu|].
  pose proof (fifo_volume_nonneg om f Hq) as Hnn. unfold fifo_volume in *. cbn [foldr].
  apply elem_of_cons in Hu as [<-|Hu].
  - rewrite Ho. lia.
  - specialize (IH Hu). destruct (om !! x) as [ox|] eqn:E; [specialize (Hq x ox E)|]; lia.
Qed.

Lemma wf_quantities m : book_wf m ->
  forall u o, order_map (book m) !! u = Some o -> 0 <= quantity o.
Proof. intros Hwf u o H. destruct (wf_order m u o Hwf H) as (_ & _ & ? & _). lia. Qed.

Lemma wf_level_volume m s p l :
  book_wf m -> limits (tree_of s (book m)) !! p = Some l ->
  0 <= volume l <= tree_volume (tree_of s (book m)) /\ tree_volume (tree_of s (book m)) < 2 ^ 64.
Proof.
  intros Hwf Hl. destruct (wf_tree m s Hwf) as (Hls & _ & _ & _ & Hv & Hvb).
  assert (Hnn : map_Forall (fun _ l => 0 <= volume l) (limits (tree_of s (book m)))).
  { intros p' l' Hl'. destruct (Hls p' l' Hl') as (_ & _ & _ & _ & _ & -> & _).
    apply fifo_volume_nonneg, wf_quantities, Hwf. }
  split; [split|exact Hvb].
  - exact (Hnn p l Hl).
  - rewrite Hv. apply (sum_over_ge volume _ p l); assumption.
Qed.

Lemma wf_order_volume m u o l :
  book_wf m -> order_map (book m) !! u = Some o ->
  limits (tree_of (side o) (book m)) !! price o = Some l ->
  quantity o <= volume l.
Proof.
  intros Hwf Ho Hl.
  destruct (wf_order_level m u o Hwf Ho) as (l' & Hl' & Hu).
  assert (l' = l) by congruence. subst l'.
  destruct (wf_level m _ _ _ Hwf Hl) as (_ & _ & _ & _ & _ & -> & _).
  eapply fifo_volume_ge; eauto using wf_quantities.
Qed.

(** ** [reduce] *)

Lemma reduce_partial m order_id delta o :
  book_wf m -> order_map (book m) !! order_id = Some o ->
  0 <= delta < quantity o ->
  exists l, limits (tree_of (side o) (book m)) !! price o = Some l /\
    LimitOrderBook_reduce order_id delta m = Ok tt (reduced m order_id delta o l).
Proof.
  intros Hwf Ho Hd.
  destruct (wf_order_level m order_id o Hwf Ho) as (l & Hl & Hu).
  exists l. split; [exact Hl|].
  pose proof (wf_order_volume m order_id o l Hwf Ho Hl) as Hv.
  destruct (wf_level_volume m (side o) (price o) l Hwf Hl) as ((Hv0 & Hvt) & Hvb).
  destruct (wf_order m order_id o Hwf Ho) as (_ & _ & _ & _ & Hlim & _).
  unfold LimitOrderBook_reduce, UIDOrderMap_at, store_order, load_tree, store_tree,
    bind, get, unwrap, ret, modify.
  rewrite Ho. cbn. rewrite (proj2 (Z.ltb_ge _ _)) by lia.
  rewrite Hlim. cbn.
  replace (tree_of (side o) (set_order_map _ (book m))) with (tree_of (side o) (book m))
    by (destruct (side o); reflexivity).
  rewrite Hl. cbn.
  rewrite (proj2 (Z.eqb_neq _ _)) by lia.
  unfold reduced, wrap64. rewrite !Z.mod_small by lia. reflexivity.
Qed.

Lemma reduce_excess m order_id delta o :
  order_map (book m) !! order_id = Some o -> quantity o < delta ->
  LimitOrderBook_reduce order_id delta m
    = Raise (Thrown "trying to remove more than available") m.
Proof.
  intros Ho Hd. unfold LimitOrderBook_reduce, UIDOrderMap_at, bind, get, unwrap, ret.
  rewrite Ho. cbn. rewrite (proj2 (Z.ltb_lt _ _)) by lia. reflexivity.
Qed.

Lemma cancel_run m order_id o l a :
  order_map (book m) !! order_id = Some o ->
  limit o = Some (price o) ->
  limits (tree_of (side o) (book m)) !! price o = Some l ->
  accounts m !! account o = Some a ->
  LimitOrderBook_cancel order_id m = Ok tt (canceled m order_id o l a).
Proof.
  intros Ho Hlim Hl Ha.
  unfold LimitOrderBook_cancel, LimitTree_cancel, LimitTree_remove, UIDOrderMap_at,
    UIDOrderMap_erase, load_order, load_tree, store_tree, load_account, store_account,
    bind, get, unwrap, ret, modify.
  repeat (progress (rewrite ?Ho, ?Hlim, ?Hl, ?Ha; cbn)).
  replace (order_map (set_tree (side o) _ (book m))) with (order_map (book m))
    by (destruct (side o); reflexivity).
  repeat (progress (rewrite ?Ho, ?Hlim, ?Hl, ?Ha; cbn)).
  unfold canceled, keep_last_best. cbn.
  f_equal. f_equal. destruct (side o); reflexivity.
Qed.

Ltac msimpl :=
  cbn [book accounts connections sells buys order_map sequence limits best
       last_best_price tree_count tree_volume key count volume fifo uid side quantity
       price limit account base username password handler is_connected conn_account
       output_buffer conn_sequence shares capital orders set_book set_accounts
       set_connections set_order_map set_sequence set_quantity set_limit
       set_base keep_last_best raise].

Lemma reduce_full_run m order_id o l a :
  order_map (book m) !! order_id = Some o ->
  limit o = Some (price o) ->
  limits (tree_of (side o) (book m)) !! price o = Some l ->
  accounts m !! account o = Some a ->
  LimitOrderBook_reduce order_id (quantity o) m = Ok tt (canceled m order_id o l a).
Proof.
  intros Ho Hlim Hl Ha.
  unfold LimitOrderBook_reduce, LimitTree_cancel, LimitTree_remove, UIDOrderMap_at,
    UIDOrderMap_erase, load_order, store_order, load_tree, store_tree, load_account,
    store_account, bind, get, unwrap, ret, modify.
  assert (Ht : forall om, tree_of (side o) (set_order_map om (book m)) = tree_of (side o) (book m))
    by (intros; destruct (side o); reflexivity).
  assert (Ht2 : forall t b, tree_of (side o) (set_tree (side o) t b) = t)
    by (intros; destruct (side o); reflexivity).
  assert (Hom : forall t b, order_map (set_tree (side o) t b) = order_map b)
    by (intros; destruct (side o); reflexivity).
  repeat first
    [ progress msimpl | rewrite Hom | rewrite Ht | rewrite Ht2 | rewrite lookup_insert_eq
    | rewrite Ho | rewrite Hlim | rewrite Hl | rewrite Ha
    | rewrite Z.sub_diag | rewrite Z.eqb_refl | rewrite Z.ltb_irrefl ].
  unfold canceled, keep_last_best. msimpl.
  rewrite !wrap64_sub_0, !delete_insert_eq, !insert_insert_eq.
  f_equal. f_equal.
  destruct (side o); reflexivity.
Qed.

Lemma DLL_remove_NoDup u l : NoDup l -> u ∉ DLL_remove u l.
Proof.
  induction 1 as [|x l Hx Hnd IH]; cbn; [apply not_elem_of_nil|].
  destruct (decide (x = u)) as [->|Hne]; [exact Hx|].
  intros [->|H]%elem_of_cons; [congruence|contradiction].
Qed.

Lemma wf_rests_order m s u o :
  book_wf m -> rests m s u -> order_map (book m) !! u = Some o ->
  side o = s /\ exists l, limits (tree_of s (book m)) !! price o = Some l /\ u ∈ fifo l.
Proof.
  intros Hwf (p & l & Hl & Hu) Ho.
  destruct (wf_level m s p l Hwf Hl) as (_ & _ & _ & _ & _ & _ & _ & Hall).
  rewrite Forall_forall in Hall. specialize (Hall u Hu). rewrite Ho in Hall.
  destruct Hall as [Hs Hp]. split; [exact Hs|]. exists l. rewrite Hp. auto.
Qed.

Lemma tree_of_set_same s t b om : tree_of s (set_order_map om (set_tree s t b)) = t.
Proof. destruct s; reflexivity. Qed.

Lemma tree_of_set_other s s' t b om :
  s' <> s -> tree_of s' (set_order_map om (set_tree s t b)) = tree_of s' b.
Proof. destruct s, s'; intros H; try contradiction; reflexivity. Qed.

Lemma Side_eq_or_not (s s' : Side) : s = s' \/ s <> s'.
Proof. destruct (decide (s = s')); auto. Qed.

Lemma canceled_gone m order_id o l a :
  book_wf m ->
  order_map (book m) !! order_id = Some o ->
  limits (tree_of (side o) (book m)) !! price o = Some l ->
  accounts m !! account o = Some a ->
  let m' := canceled m order_id o l a in
  order_map (book m') !! order_id = None /\
  (forall s, ~ rests m' s order_id) /\
  (exists a', accounts m' !! account o = Some a' /\ order_id ∉ orders (base a')).
Proof.
  intros Hwf Ho Hl Ha m'.
  destruct (wf_order m order_id o Hwf Ho) as (Huid & _).
  split; [|split].
  - unfold m', canceled. cbn [book order_map set_order_map]. apply lookup_delete_eq.
  - intros s (p & l' & Hl' & Hu).
    destruct (wf_level m _ _ _ Hwf Hl) as (_ & _ & Hnd & _).
    unfold m', canceled in Hl'. cbn [book] in Hl'.
    destruct (Side_eq_or_not s (side o)) as [->|Hne].
    + rewrite tree_of_set_same in Hl'. cbn [limits count] in Hl'.
      assert (Hin : rests m (side o) order_id \/ (p = price o /\ order_id ∈ DLL_remove order_id (fifo l))).
      { destruct (wrap32 (count l - 1) =? 0).
        - apply lookup_delete_Some in Hl' as [_ Hl']. left. exists p, l'. auto.
        - destruct (decide (price o = p)) as [<-|Hp].
          + rewrite lookup_insert_eq in Hl'. injection Hl' as <-. right. auto.
          + rewrite lookup_insert_ne in Hl' by exact Hp. left. exists p, l'. auto. }
      destruct Hin as [Hr|[-> Hin]].
      * destruct (wrap32 (count l - 1) =? 0).
        -- apply lookup_delete_Some in Hl' as [Hp Hl'].
           destruct (wf_level m _ _ _ Hwf Hl') as (_ & _ & _ & _ & _ & _ & _ & Hall).
           rewrite Forall_forall in Hall. specialize (Hall _ Hu). rewrite Ho in Hall.
           destruct Hall as [_ Hpp]. congruence.
        -- destruct (decide (price o = p)) as [<-|Hp].
           ++ rewrite lookup_insert_eq in Hl'. injection Hl' as <-. cbn [fifo] in Hu.
              exact (DLL_remove_NoDup _ _ Hnd Hu).
           ++ rewrite lookup_insert_ne in Hl' by exact Hp.
              destruct (wf_level m _ _ _ Hwf Hl') as (_ & _ & _ & _ & _ & _ & _ & Hall).
              rewrite Forall_forall in Hall. specialize (Hall _ Hu). rewrite Ho in Hall.
              destruct Hall as [_ Hpp]. congruence.
      * exact (DLL_remove_NoDup _ _ Hnd Hin).
    + rewrite tree_of_set_other in Hl' by exact Hne.
      destruct (wf_level m _ _ _ Hwf Hl') as (_ & _ & _ & _ & _ & _ & _ & Hall).
      rewrite Forall_forall in Hall. specialize (Hall _ Hu). rewrite Ho in Hall.
      destruct Hall as [Hs _]. congruence.
  - unfold m', canceled. cbn [accounts]. rewrite lookup_insert_eq. eexists. split; [reflexivity|].
    cbn [base set_base Account_cancel orders]. rewrite Huid.
    intros [_ H]%elem_of_difference. apply H, elem_of_singleton. reflexivity.
Qed.

(** ** A limit order, then its cancel *)

Lemma limit_run m acct s q p a :
  order_map (book m) !! sequence (book m) = None ->
  no_cross s p (book m) ->
  accounts m !! acct = Some a ->
  LimitOrderBook_limit acct s q p m = Ok (sequence (book m)) (rested m acct s q p a).
Proof.
  intros Hfresh Hnc Ha.
  assert (Hrest :
    LimitOrderBook_rest s (sequence (book m))
      (set_book (set_order_map (<[sequence (book m) := mkOrder (sequence (book m)) s q p None acct]>
          (order_map (book m))) (book m)) m)
    = Ok (sequence (book m)) (rested m acct s q p a)).
  {
    unfold LimitOrderBook_rest, LimitTree_limit, UIDOrderMap_at, load_order, store_order,
      load_tree, store_tree, load_account, store_account, bind, get, unwrap, ret, modify.
    assert (Ht : forall om, tree_of s (set_order_map om (book m)) = tree_of s (book m))
      by (intros; destruct s; reflexivity).
    assert (Hom : forall t b, order_map (set_tree s t b) = order_map b)
      by (intros; destruct s; reflexivity).
    repeat first
      [ progress msimpl | rewrite Hom | rewrite Ht | rewrite lookup_insert_eq | rewrite Ha ].
    unfold rested, keep_last_best. msimpl. rewrite !insert_insert_eq.
    f_equal. f_equal. destruct s; reflexivity. }
  unfold no_cross in Hnc.
  destruct s; cbn [Side_not tree_of] in Hnc;
    unfold LimitOrderBook_limit, LimitOrderBook_limit_sell, LimitOrderBook_limit_buy,
      LimitOrderBook_get_sequence, UIDOrderMap_emplace, load_tree;
    unfold bind at 1 2 3 4; unfold get, ret, modify at 1; msimpl; rewrite Hfresh;
    unfold bind at 1; cbn [tree_of]; msimpl.
  - destruct (best (buys (book m))) as [k|]; [|exact Hrest].
    rewrite (proj2 (Z.leb_gt _ _)) by lia. exact Hrest.
  - destruct (best (sells (book m))) as [k|]; [|exact Hrest].
    rewrite (proj2 (Z.leb_gt _ _)) by lia. exact Hrest.
Qed.

Lemma wf_fresh m : book_wf m -> order_map (book m) !! sequence (book m) = None.
Proof.
  intros Hwf. destruct (order_map (book m) !! sequence (book m)) as [o|] eqn:E; [|reflexivity].
  destruct (wf_order m _ o Hwf E) as (_ & ? & _). lia.
Qed.

Lemma wf_fresh_fifo m s p l :
  book_wf m -> limits (tree_of s (book m)) !! p = Some l -> sequence (book m) ∉ fifo l.
Proof.
  intros Hwf Hl Hin.
  destruct (wf_level m s p l Hwf Hl) as (_ & _ & _ & _ & _ & _ & _ & Hall).
  rewrite Forall_forall in Hall. specialize (Hall _ Hin).
  rewrite (wf_fresh m Hwf) in Hall. exact Hall.
Qed.

Lemma wf_fresh_account m acct a :
  book_wf m -> accounts m !! acct = Some a -> sequence (book m) ∉ orders (base a).
Proof.
  intros Hwf Ha Hin. destruct Hwf as (Hs & Hts & Htb & Hos & Has).
  specialize (Has acct a Ha _ Hin). cbn beta in Has.
  destruct (order_map (book m) !! sequence (book m)) as [o|] eqn:E; [|exact Has].
  destruct (Hos _ o E) as (_ & ? & _). lia.
Qed.

Lemma DLL_remove_app u f : u ∉ f -> DLL_remove u (f ++ [u]) = f.
Proof.
  induction f as [|x f IH]; intros Hu; cbn.
  - destruct (decide (u = u)); [reflexivity|congruence].
  - destruct (decide (x = u)) as [->|Hne]; [exfalso; apply Hu; left|].
    rewrite IH; [reflexivity|]. intros H. apply Hu. right. exact H.
Qed.

Lemma wf_level_count m s p l :
  book_wf m -> limits (tree_of s (book m)) !! p = Some l -> 1 <= count l < 2 ^ 32.
Proof.
  intros Hwf Hl. destruct (wf_level m s p l Hwf Hl) as (_ & Hne & _ & Hc & Hb & _).
  split; [|exact Hb]. rewrite Hc. destruct (fifo l); [congruence|cbn [length]; lia].
Qed.

Lemma wf_tree_totals m s :
  book_wf m ->
  0 <= tree_count (tree_of s (book m)) < 2 ^ 32 /\
  0 <= tree_volume (tree_of s (book m)) < 2 ^ 64.
Proof.
  intros Hwf. destruct (wf_tree m s Hwf) as (Hls & _ & Hc & Hcb & Hv & Hvb).
  split; (split; [|assumption]).
  - rewrite Hc. apply sum_over_nonneg. intros p l Hl.
    pose proof (wf_level_count m s p l Hwf Hl). lia.
  - rewrite Hv. apply sum_over_nonneg. intros p l Hl.
    pose proof (wf_level_volume m s p l Hwf Hl). lia.
Qed.

Lemma limit_cancel_tree m s (q p : Z) (acct : string) (l1 : Limit) (t1 tc : LimitTree) :
  book_wf m ->
  let u := sequence (book m) in
  let o := mkOrder u s q p None acct in
  let t := tree_of s (book m) in
  limits t1 = match limits t !! p with
            | None => <[p := Limit_of_order u o]> (limits t)
            | Some l => <[p := mkLimit (key l) (wrap32 (count l + 1))
                                       (wrap64 (volume l + q)) (fifo l ++ [u])]> (limits t)
            end ->
  best t1 = match limits t !! p with
           | None => set_best s (best t) p
           | Some _ => best t
           end ->
  tree_count t1 = wrap32 (tree_count t + 1) ->
  tree_volume t1 = wrap64 (tree_volume t + q) ->
  limits t1 !! p = Some l1 ->
  let l' := mkLimit (key l1) (wrap32 (count l1 - 1)) (wrap64 (volume l1 - q))
                    (DLL_remove u (fifo l1)) in
  let ls := if count l' =? 0 then delete p (limits t1) else <[p := l']> (limits t1) in
  let b := if count l' =? 0
           then (if decide (best t1 = Some p) then find_best s ls else best t1)
           else best t1 in
  limits tc = ls -> best tc = b ->
  tree_count tc = wrap32 (tree_count t1 - 1) ->
  tree_volume tc = wrap64 (tree_volume t1 - q) ->
  same_tree t tc.
Proof.
  intros Hwf u o t Hls Hb Hc Hv Hl1 l' ls b Hlsc Hbc Hcc Hvc.
  destruct (wf_tree_totals m s Hwf) as (Hcr & Hvr).
  destruct (wf_tree m s Hwf) as (_ & Hbest & _).
  fold t in Hcr, Hvr, Hbest.
  assert (Hcount : tree_count tc = tree_count t)
    by (rewrite Hcc, Hc; apply wrap32_inc_dec; exact Hcr).
  assert (Hvol : tree_volume tc = tree_volume t)
    by (rewrite Hvc, Hv; apply wrap64_add_sub; exact Hvr).
  unfold same_tree. rewrite Hlsc, Hbc, Hcount, Hvol.
  subst ls b l'. cbn [count].
  destruct (limits t !! p) as [l|] eqn:El.
  - pose proof (wf_level_count m s p l Hwf El) as Hlc.
    pose proof (wf_level_volume m s p l Hwf El) as Hlv.
    pose proof (wf_fresh_fifo m s p l Hwf El) as Hfr.
    rewrite Hls in Hl1. rewrite lookup_insert_eq in Hl1. injection Hl1 as <-.
    cbn [count volume fifo key].
    rewrite wrap32_inc_dec by lia. rewrite (proj2 (Z.eqb_neq _ _)) by lia.
    rewrite wrap64_add_sub by lia. rewrite DLL_remove_app by exact Hfr.
    rewrite Hls, Hb, insert_insert_eq.
    split; [|auto]. apply insert_id. rewrite El. destruct l; reflexivity.
  - rewrite Hls in Hl1. rewrite lookup_insert_eq in Hl1. injection Hl1 as <-.
    cbn [Limit_of_order count]. change (wrap32 (1 - 1) =? 0) with true. cbn iota.
    rewrite Hls, Hb.
    rewrite delete_insert_id by exact El.
    split; [reflexivity|]. split; [|auto].
    destruct (decide (set_best s (best t) p = Some p)) as [E|E]; [symmetry; exact Hbest|].
    unfold set_best in *. destruct (best t) as [k|]; [|congruence].
    destruct (better s p k); congruence.
Qed.

Lemma tree_of_seq_same s t b om n :
  tree_of s (set_sequence n (set_order_map om (set_tree s t b))) = t.
Proof. destruct s; reflexivity. Qed.

Lemma tree_of_seq_other s s' t b om n :
  s' <> s -> tree_of s' (set_sequence n (set_order_map om (set_tree s t b))) = tree_of s' b.
Proof. destruct s, s'; intros H; try contradiction; reflexivity. Qed.

Lemma rested_level m acct s q p a :
  exists l1, limits (tree_of s (book (rested m acct s q p a))) !! p = Some l1.
Proof.
  unfold rested. cbn [book]. 
  rewrite tree_of_seq_same.
  cbn [limits]. destruct (limits (tree_of s (book m)) !! p); rewrite lookup_insert_eq; eauto.
Qed.

(** C8.  In a well-formed book, a limit order that does not cross rests
    under the current sequence number [u]; canceling [u] next gives back the
    levels, best prices, counts and volumes of both sides, the uid map, the
    accounts (shares, capital and order sets, which do not hold [u]) and the
    sessions.  Only the sequence number has advanced. *)
Theorem limit_then_cancel (m : Memory) (acct : string) (s : Side) (q p : Z)
    (a : SystemAccount) :
  book_wf m ->
  accounts m !! acct = Some a ->
  no_cross s p (book m) ->
  let u := sequence (book m) in
  (exists m1 m2,
    LimitOrderBook_limit acct s q p m = Ok u m1 /\
    order_map (book m1) !! u = Some (mkOrder u s q p (Some p) acct) /\
    LimitOrderBook_cancel u m1 = Ok tt m2 /\
    (forall s', same_tree (tree_of s' (book m)) (tree_of s' (book m2))) /\
    order_map (book m2) = order_map (book m) /\
    accounts m2 = accounts m /\
    (u ∉ orders (base a)) /\
    connections m2 = connections m /\
    sequence (book m2) = wrap64 (u + 1)).
Proof.
  intros Hwf Ha Hnc u.
  pose proof (wf_fresh m Hwf) as Hfresh.
  pose proof (wf_fresh_account m acct a Hwf Ha) as Hfa.
  destruct (rested_level m acct s q p a) as (l1 & Hl1).
  set (o1 := mkOrder u s q p (Some p) acct).
  set (a1 := set_base a (Account_limit (base a) (mkOrder u s q p None acct))).
  assert (Ho1 : order_map (book (rested m acct s q p a)) !! u = Some o1).
  { unfold rested. cbn [book]. destruct s; cbn; apply lookup_insert_eq. }
  assert (Ha1 : accounts (rested m acct s q p a) !! account o1 = Some a1).
  { unfold rested. cbn [accounts o1 account]. apply lookup_insert_eq. }
  exists (rested m acct s q p a), (canceled (rested m acct s q p a) u o1 l1 a1).
  split; [exact (limit_run m acct s q p a Hfresh Hnc Ha)|].
  split; [exact Ho1|].
  split; [exact (cancel_run _ u o1 l1 a1 Ho1 eq_refl Hl1 Ha1)|].
  split; [|split; [|split; [|split; [|split]]]].
  - intros s'. destruct (Side_eq_or_not s' s) as [->|Hne].
    + eapply (limit_cancel_tree m s q p acct l1
                (tree_of s (book (rested m acct s q p a)))); try exact Hwf; try exact Hl1;
        unfold canceled; cbn [book o1 side price quantity]; rewrite ?tree_of_set_same;
        try reflexivity;
        unfold rested; cbn [book]; rewrite tree_of_seq_same; reflexivity.
    + unfold canceled. cbn [book o1 side]. rewrite tree_of_set_other by exact Hne.
      unfold rested. cbn [book].
      rewrite tree_of_seq_other by exact Hne.
      unfold same_tree. auto.
  - unfold canceled, rested. cbn [book]. destruct s; cbn [set_tree set_order_map set_sequence order_map];
      rewrite delete_insert_eq; apply delete_id; exact Hfresh.
  - unfold canceled. cbn [accounts o1 account]. unfold rested. cbn [accounts].
    rewrite insert_insert_eq. apply insert_id. rewrite Ha. f_equal.
    subst a1 o1 u. destruct a as [[sh ca os] un pw h c].
    unfold set_base, Account_cancel, Account_limit.
    cbn [base shares capital orders uid username password handler is_connected].
    f_equal. f_equal. cbn [base orders] in Hfa.
    apply leibniz_equiv. intros x.
    rewrite elem_of_difference, elem_of_union, elem_of_singleton. split.
    + intros H. split; [left; exact H|]. intros ->. contradiction.
    + intros [Hin Hx]. destruct Hin as [H|H]; [exact H|contradiction].
  - exact Hfa.
  - reflexivity.
  - unfold canceled, rested. cbn [book]. destruct s; reflexivity.
Qed.

(** ** The best price of a side *)

Lemma better_antisym s a b : better s a b = false -> better s b a = false -> a = b.
Proof. destruct s; cbn; intros H1%Z.ltb_ge H2%Z.ltb_ge; lia. Qed.

Lemma better_trans_false s a b c :
  better s a b = false -> better s b c = false -> better s a c = false.
Proof. destruct s; cbn; intros H1%Z.ltb_ge H2%Z.ltb_ge; apply Z.ltb_ge; lia. Qed.

Lemma better_irrefl s a : better s a a = false.
Proof. destruct s; cbn; apply Z.ltb_irrefl. Qed.

Lemma better_total s a b : better s a b = true -> better s b a = false.
Proof. destruct s; cbn; intros H%Z.ltb_lt; apply Z.ltb_ge; lia. Qed.

Lemma is_best_unique s ls k1 k2 : is_best s ls k1 -> is_best s ls k2 -> k1 = k2.
Proof. intros [H1 B1] [H2 B2]. apply (better_antisym s); auto. Qed.

Lemma find_best_cases s ls :
  match find_best s ls with
  | None => ls = ∅
  | Some k => is_best s ls k
  end.
Proof.
  unfold find_best.
  apply (map_fold_weak_ind
           (fun r m => match r with None => m = ∅ | Some k => is_best s m k end)).
  - reflexivity.
  - intros p l m r Hp IH. unfold set_best. destruct r as [b|].
    + destruct IH as [Hb Hall]. destruct (better s p b) eqn:E.
      * split; [rewrite lookup_insert_eq; eauto|].
        intros k' Hk'. destruct (decide (k' = p)) as [->|Hne]; [apply better_irrefl|].
        rewrite lookup_insert_ne in Hk' by congruence.
        eapply better_trans_false; [apply Hall, Hk'|apply better_total, E].
      * split.
        { destruct (decide (b = p)) as [->|Hne]; [rewrite lookup_insert_eq; eauto|].
          rewrite lookup_insert_ne by congruence. exact Hb. }
        intros k' Hk'. destruct (decide (k' = p)) as [->|Hne]; [exact E|].
        rewrite lookup_insert_ne in Hk' by congruence. apply Hall, Hk'.
    + subst m. split; [rewrite lookup_insert_eq; eauto|].
      intros k' Hk'. destruct (decide (k' = p)) as [->|Hne]; [apply better_irrefl|].
      rewrite lookup_insert_ne, lookup_empty in Hk' by congruence. destruct Hk'; discriminate.
Qed.

Lemma find_best_Some s ls k : find_best s ls = Some k <-> is_best s ls k.
Proof.
  pose proof (find_best_cases s ls) as H. split.
  - intros E. rewrite E in H. exact H.
  - intros Hk. destruct (find_best s ls) as [k'|].
    + f_equal. eapply is_best_unique; eauto.
    + subst ls. destruct Hk as [[? Hk] _]. rewrite lookup_empty in Hk. discriminate.
Qed.

Lemma find_best_None s ls : find_best s ls = None <-> ls = ∅.
Proof.
  pose proof (find_best_cases s ls) as H. split.
  - intros E. rewrite E in H. exact H.
  - intros ->. apply map_fold_empty.
Qed.

(** The best price depends on the prices of the levels only. *)
Lemma find_best_dom s (ls ls' : gmap Z Limit) :
  (forall k, is_Some (ls !! k) <-> is_Some (ls' !! k)) -> find_best s ls' = find_best s ls.
Proof.
  intros Hdom. pose proof (find_best_cases s ls) as H.
  destruct (find_best s ls) as [k|].
  - apply find_best_Some. destruct H as [Hk Hall]. split; [apply Hdom, Hk|].
    intros k' Hk'. apply Hall, Hdom, Hk'.
  - apply find_best_None. subst ls. apply map_empty. intros k.
    destruct (ls' !! k) eqn:E; [|reflexivity].
    destruct (proj2 (Hdom k)) as [? Hx]; [eauto|]. rewrite lookup_empty in Hx. discriminate.
Qed.

Lemma find_best_update s ls p (l l' : Limit) :
  ls !! p = Some l -> find_best s (<[p := l']> ls) = find_best s ls.
Proof.
  intros Hp. apply find_best_dom. intros k. destruct (decide (k = p)) as [->|Hne].
  - rewrite lookup_insert_eq, Hp. split; eauto.
  - rewrite lookup_insert_ne by congruence. reflexivity.
Qed.

Lemma find_best_insert s ls p (l : Limit) :
  ls !! p = None -> find_best s (<[p := l]> ls) = set_best s (find_best s ls) p.
Proof.
  intros Hp. pose proof (find_best_cases s ls) as H.
  unfold set_best.
  destruct (find_best s ls) as [b|].
  - destruct H as [Hb Hall]. destruct (better s p b) eqn:E; apply find_best_Some.
    + split; [rewrite lookup_insert_eq; eauto|].
      intros k' Hk'. destruct (decide (k' = p)) as [->|Hne]; [apply better_irrefl|].
      rewrite lookup_insert_ne in Hk' by congruence.
      eapply better_trans_false; [apply Hall, Hk'|apply better_total, E].
    + split.
      { rewrite lookup_insert_ne; [exact Hb|]. intros ->. rewrite Hp in Hb.
        destruct Hb; discriminate. }
      intros k' Hk'. destruct (decide (k' = p)) as [->|Hne]; [exact E|].
      rewrite lookup_insert_ne in Hk' by congruence. apply Hall, Hk'.
  - subst ls. apply find_best_Some. split; [rewrite lookup_insert_eq; eauto|].
    intros k' Hk'. destruct (decide (k' = p)) as [->|Hne]; [apply better_irrefl|].
    rewrite lookup_insert_ne, lookup_empty in Hk' by congruence. destruct Hk'; discriminate.
Qed.

Lemma find_best_delete_other s ls p b :
  find_best s ls = Some b -> b <> p -> find_best s (delete p ls) = Some b.
Proof.
  intros [Hb Hall]%find_best_Some Hne. apply find_best_Some. split.
  - rewrite lookup_delete_ne by congruence. exact Hb.
  - intros k' [x Hk']. apply lookup_delete_Some in Hk' as [_ Hk']. apply Hall. eauto.
Qed.

(** ** The volume of a queue *)
Lemma fifo_volume_cons (om : gmap Z Order) x f :
  fifo_volume om (x :: f)
  = match om !! x with Some o => quantity o + fifo_volume om f | None => fifo_volume om f end.
Proof. reflexivity. Qed.

Lemma fifo_volume_ext (om om' : gmap Z Order) f :
  (forall u, u ∈ f -> om' !! u = om !! u) -> fifo_volume om' f = fifo_volume om f.
Proof.
  induction f as [|x f IH]; intros H; [reflexivity|].
  rewrite !fifo_volume_cons, H by (left). rewrite IH; [reflexivity|].
  intros u Hu. apply H. right. exact Hu.
Qed.

Lemma fifo_volume_app (om : gmap Z Order) f u o :
  om !! u = Some o -> fifo_volume om (f ++ [u]) = fifo_volume om f + quantity o.
Proof.
  intros Ho. induction f as [|x f IH]; cbn [app].
  - rewrite fifo_volume_cons, Ho. unfold fifo_volume. cbn. lia.
  - rewrite !fifo_volume_cons, IH. destruct (om !! x); lia.
Qed.

Lemma fifo_volume_remove (om : gmap Z Order) f u o :
  NoDup f -> u ∈ f -> om !! u = Some o ->
  fifo_volume om (DLL_remove u f) = fifo_volume om f - quantity o.
Proof.
  intros Hnd Hu Ho. induction Hnd as [|x f Hx Hnd IH]; [inversion Hu|].
  cbn [DLL_remove]. destruct (decide (x = u)) as [->|Hne].
  - rewrite fifo_volume_cons, Ho. lia.
  - apply elem_of_cons in Hu as [->|Hu]; [congruence|].
    rewrite !fifo_volume_cons, IH by exact Hu. destruct (om !! x); lia.
Qed.

Lemma fifo_volume_update (om : gmap Z Order) f u o o' :
  NoDup f -> u ∈ f -> om !! u = Some o ->
  fifo_volume (<[u := o']> om) f = fifo_volume om f - quantity o + quantity o'.
Proof.
  intros Hnd Hu Ho. induction Hnd as [|x f Hx Hnd IH]; [inversion Hu|].
  rewrite !fifo_volume_cons. destruct (decide (x = u)) as [->|Hne].
  - rewrite lookup_insert_eq, Ho.
    rewrite (fifo_volume_ext om (<[u := o']> om) f); [lia|].
    intros v Hv. apply lookup_insert_ne. intros ->. contradiction.
  - apply elem_of_cons in Hu as [->|Hu]; [congruence|].
    rewrite lookup_insert_ne by congruence. rewrite IH by exact Hu.
    destruct (om !! x); lia.
Qed.

Lemma DLL_remove_other u x f : x ∈ f -> x <> u -> x ∈ DLL_remove u f.
Proof.
  induction f as [|y f IH]; intros Hx Hne; [inversion Hx|].
  cbn [DLL_remove]. apply elem_of_cons in Hx as [->|Hx].
  - destruct (decide (y = u)); [contradiction|left].
  - destruct (decide (y = u)); [exact Hx|right; auto].
Qed.

Lemma DLL_remove_length u f :
  u ∈ f -> Z.of_nat (length (DLL_remove u f)) = Z.of_nat (length f) - 1.
Proof.
  induction f as [|y f IH]; intros Hu; [inversion Hu|].
  cbn [DLL_remove]. destruct (decide (y = u)) as [->|Hne]; cbn [length]; [lia|].
  apply elem_of_cons in Hu as [->|Hu]; [congruence|]. rewrite Nat2Z.inj_succ, IH by exact Hu. lia.
Qed.

Lemma DLL_remove_NoDup_keep u f : NoDup f -> NoDup (DLL_remove u f).
Proof.
  induction 1 as [|y f Hy Hnd IH]; cbn [DLL_remove]; [constructor|].
  destruct (decide (y = u)); [exact Hnd|]. constructor; [|exact IH].
  intros H. apply Hy. eapply DLL_remove_subset, H.
Qed.

(** ** Levels and orders under a change of the uid map *)
Lemma level_wf_ext s (om om' : gmap Z Order) p l :
  (forall u, u ∈ fifo l -> om' !! u = om !! u) -> level_wf s om p l -> level_wf s om' p l.
Proof.
  intros H (Hk & Hne & Hnd & Hc & Hcb & Hv & Hvb & Hall).
  repeat (split; [assumption|]). split; [|split; [assumption|]].
  - rewrite Hv. symmetry. apply fifo_volume_ext. exact H.
  - rewrite Forall_forall in *. intros u Hu. rewrite H by exact Hu. apply Hall, Hu.
Qed.

(** ** Well-formedness is kept when an order leaves, shrinks or enters *)

Lemma level_wf_in s om p l u :
  level_wf s om p l -> u ∈ fifo l -> exists o, om !! u = Some o /\ side o = s /\ price o = p.
Proof.
  intros (_ & _ & _ & _ & _ & _ & _ & Hall) Hu. rewrite Forall_forall in Hall.
  specialize (Hall u Hu). apply holds_inv in Hall as (o & Ho & Hs & Hp). eauto.
Qed.

Lemma level_wf_count s om p l : level_wf s om p l -> 1 <= count l < 2 ^ 32.
Proof.
  intros (_ & Hne & _ & Hc & Hb & _). split; [|exact Hb].
  rewrite Hc. destruct (fifo l); [congruence|cbn [length]; lia].
Qed.

Lemma tree_wf_volumes s om t :
  (forall u o, om !! u = Some o -> 0 <= quantity o) -> tree_wf s om t ->
  map_Forall (fun _ l => 0 <= volume l) (limits t).
Proof.
  intros Hq (Hls & _) p l Hl. destruct (Hls p l Hl) as (_ & _ & _ & _ & _ & -> & _).
  apply fifo_volume_nonneg, Hq.
Qed.

Lemma tree_wf_counts s om t :
  tree_wf s om t -> map_Forall (fun _ l => 0 <= count l) (limits t).
Proof. intros (Hls & _) p l Hl. pose proof (level_wf_count _ _ _ _ (Hls p l Hl)). lia. Qed.

(** The tree of the side [s] once the order [u] has left its level. *)
Lemma removed_tree_wf s om t p l u o lbp :
  (forall u o, om !! u = Some o -> 0 <= quantity o) ->
  tree_wf s om t -> limits t !! p = Some l -> u ∈ fifo l -> om !! u = Some o ->
  let l' := mkLimit (key l) (wrap32 (count l - 1)) (wrap64 (volume l - quantity o))
                    (DLL_remove u (fifo l)) in
  let ls := if count l' =? 0 then delete p (limits t) else <[p := l']> (limits t) in
  let b := if count l' =? 0
           then (if decide (best t = Some p) then find_best s ls else best t)
           else best t in
  tree_wf s (delete u om)
    (mkLimitTree ls b lbp (wrap32 (tree_count t - 1)) (wrap64 (tree_volume t - quantity o))).
Proof.
  intros Hq Hwf Hl Hu Ho.
  pose proof (tree_wf_volumes s om t Hq Hwf) as Hvols.
  pose proof (tree_wf_counts s om t Hwf) as Hcnts.
  destruct Hwf as (Hls & Hbest & Hc & Hcb & Hv & Hvb).
  pose proof (Hls p l Hl) as Hlw.
  pose proof (level_wf_count _ _ _ _ Hlw) as Hlc.
  destruct Hlw as (Hk & Hne & Hnd & Hcl & _ & Hvl & Hvlb & Hall).
  assert (Hqo : quantity o <= volume l) by (rewrite Hvl; eapply fifo_volume_ge; eauto).
  assert (Hq0 : 0 <= quantity o) by eauto.
  assert (Hcle : count l <= tree_count t) by (rewrite Hc; apply (sum_over_ge count _ p l); auto).
  assert (Hvle : volume l <= tree_volume t)
    by (rewrite Hv; apply (sum_over_ge volume _ p l); auto).
  assert (Hother : forall p' l0, limits t !! p' = Some l0 -> p' <> p -> u ∉ fifo l0).
  { intros p' l0 Hl0 Hne' Hin.
    destruct (level_wf_in _ _ _ _ _ (Hls p' l0 Hl0) Hin) as (o1 & Ho1 & _ & Hp1).
    destruct (level_wf_in _ _ _ _ _ (Hls p l Hl) Hu) as (o2 & Ho2 & _ & Hp2). congruence. }
  assert (Hkeep : forall p' l0, limits t !! p' = Some l0 -> p' <> p ->
                    level_wf s (delete u om) p' l0).
  { intros p' l0 Hl0 Hne'. apply (level_wf_ext s om); [|exact (Hls p' l0 Hl0)].
    intros x Hx. apply lookup_delete_ne. intros <-. exact (Hother p' l0 Hl0 Hne' Hx). }
  intros l' ls b. subst l' ls b. cbn [count].
  rewrite (wrap32_small (count l - 1)) by lia.
  rewrite (wrap32_small (tree_count t - 1)) by lia.
  rewrite (wrap64_small (volume l - quantity o)) by lia.
  rewrite (wrap64_small (tree_volume t - quantity o)) by lia.
  destruct (Z.eqb_spec (count l - 1) 0) as [E|E].
  - (* the level is erased *)
    assert (Hf : fifo l = [u]).
    { destruct (fifo l) as [|x [|y f]] eqn:Ef; cbn [length] in Hcl; [congruence| |lia].
      apply list_elem_of_singleton in Hu. congruence. }
    assert (Hvq : volume l = quantity o).
    { rewrite Hvl, Hf, fifo_volume_cons, Ho. unfold fifo_volume. cbn. lia. }
    unfold tree_wf. cbn [limits best tree_count tree_volume].
    split; [|split; [|split; [|split; [|split]]]].
    + intros p' l0 Hl0. apply lookup_delete_Some in Hl0 as [Hne' Hl0]. apply Hkeep; auto.
    + destruct (decide (best t = Some p)) as [_|Hb]; [reflexivity|].
      rewrite Hbest in *. destruct (find_best s (limits t)) as [k|] eqn:Ek.
      * symmetry. apply find_best_delete_other; congruence.
      * apply find_best_None in Ek. rewrite Ek, lookup_empty in Hl. discriminate.
    + rewrite Hc, (sum_over_delete count _ p l Hl). lia.
    + lia.
    + rewrite Hv, (sum_over_delete volume _ p l Hl). lia.
    + lia.
  - (* the level stays *)
    assert (Hlen : Z.of_nat (length (DLL_remove u (fifo l))) = count l - 1)
      by (rewrite DLL_remove_length by exact Hu; lia).
    unfold tree_wf. cbn [limits best tree_count tree_volume].
    split; [|split; [|split; [|split; [|split]]]].
    + intros p' l0 Hl0. apply lookup_insert_Some in Hl0 as [[<- <-]|[Hne' Hl0]];
        [|apply Hkeep; auto].
      unfold level_wf. cbn [key count volume fifo].
      split; [exact Hk|]. split.
      { intros Hnil. rewrite Hnil in Hlen. cbn in Hlen. lia. }
      split; [apply DLL_remove_NoDup_keep, Hnd|]. split; [lia|]. split; [lia|].
      split; [|split; [lia|]].
      * rewrite (fifo_volume_ext om (delete u om)).
        -- rewrite (fifo_volume_remove om (fifo l) u o); auto. lia.
        -- intros x Hx. apply lookup_delete_ne. intros <-.
           exact (DLL_remove_NoDup _ _ Hnd Hx).
      * rewrite Forall_forall in *. intros x Hx.
        rewrite lookup_delete_ne.
        -- apply Hall. eapply DLL_remove_subset, Hx.
        -- intros <-. exact (DLL_remove_NoDup _ _ Hnd Hx).
    + rewrite Hbest. symmetry. eapply find_best_update, Hl.
    + rewrite Hc, (sum_over_insert count _ p l _ Hl). cbn [count]. lia.
    + lia.
    + rewrite Hv, (sum_over_insert volume _ p l _ Hl). cbn [volume]. lia.
    + lia.
Qed.

Lemma tree_wf_ext s (om om' : gmap Z Order) t :
  (forall p l u, limits t !! p = Some l -> u ∈ fifo l -> om' !! u = om !! u) ->
  tree_wf s om t -> tree_wf s om' t.
Proof.
  intros H (Hls & Hrest). split; [|exact Hrest].
  intros p l Hl. apply (level_wf_ext s om); [|exact (Hls p l Hl)].
  intros u Hu. eapply H; eauto.
Qed.

Lemma holds_order_set (P : gset Z -> Prop) m n :
  holds (fun a => P (orders (base a))) (accounts m !! n) <-> holds P (order_set m n).
Proof. unfold order_set. destruct (accounts m !! n); reflexivity. Qed.

Lemma book_wf_trees m :
  book_wf m <->
  0 < sequence (book m) < 2 ^ 64 /\
  (forall s, tree_wf s (order_map (book m)) (tree_of s (book m))) /\
  map_Forall (order_wf m) (order_map (book m)) /\
  map_Forall (account_wf m) (accounts m).
Proof.
  unfold book_wf. split.
  - intros (A & B & C & D & E). split; [exact A|]. split; [|split; assumption].
    intros s. destruct s; assumption.
  - intros (A & B & D & E). split; [exact A|].
    split; [apply (B Sell)|]. split; [apply (B Buy)|]. split; assumption.
Qed.

(** The book once the order [u] has left it: its level, the uid map and the
    order set of its account. *)
Lemma remove_order_wf m m' u o l lbp :
  book_wf m ->
  order_map (book m) !! u = Some o ->
  limits (tree_of (side o) (book m)) !! price o = Some l ->
  let s := side o in
  let p := price o in
  let t := tree_of s (book m) in
  let l' := mkLimit (key l) (wrap32 (count l - 1)) (wrap64 (volume l - quantity o))
                    (DLL_remove u (fifo l)) in
  let ls := if count l' =? 0 then delete p (limits t) else <[p := l']> (limits t) in
  let b := if count l' =? 0
           then (if decide (best t = Some p) then find_best s ls else best t)
           else best t in
  sequence (book m') = sequence (book m) ->
  order_map (book m') = delete u (order_map (book m)) ->
  tree_of s (book m')
    = mkLimitTree ls b lbp (wrap32 (tree_count t - 1)) (wrap64 (tree_volume t - quantity o)) ->
  (forall s', s' <> s -> tree_of s' (book m') = tree_of s' (book m)) ->
  (forall n, order_set m' n
             = if decide (n = account o) then (fun os => os ∖ {[u]}) <$> order_set m n
               else order_set m n) ->
  book_wf m'.
Proof.
  intros Hwf Ho Hl s p t l' ls b Hseq Hom Ht Hts Hos.
  pose proof (wf_quantities m Hwf) as Hq.
  pose proof (wf_order_level m u o Hwf Ho) as (lu & Hlu & Hu).
  assert (lu = l) by (unfold s, p in *; congruence). subst lu. clear Hlu.
  pose proof (wf_level m s p l Hwf Hl) as Hlw.
  pose proof (level_wf_count _ _ _ _ Hlw) as Hlc.
  apply book_wf_trees in Hwf as (Hs & Htrees & Hords & Haccs).
  apply book_wf_trees. split; [rewrite Hseq; exact Hs|]. split; [|split].
  - intros s'. rewrite Hom. destruct (Side_eq_or_not s' s) as [->|Hne].
    + rewrite Ht. apply removed_tree_wf; auto.
    + rewrite Hts by exact Hne. apply (tree_wf_ext s' (order_map (book m))); [|apply Htrees].
      intros p0 l0 x Hl0 Hx. apply lookup_delete_ne. intros <-.
      destruct (Htrees s') as (Hls & _).
      destruct (level_wf_in _ _ _ _ _ (Hls p0 l0 Hl0) Hx) as (o1 & Ho1 & Hs1 & _).
      apply Hne. unfold s. congruence.
  - rewrite Hom. intros u' o' Ho'. apply lookup_delete_Some in Ho' as [Hne Ho'].
    destruct (Hords u' o' Ho') as (H1 & H2 & H3 & H4 & H5 & H6 & H7).
    unfold order_wf. rewrite Hseq.
    repeat (split; [assumption|]). split.
    + (* the level of [o'] still holds [u'] *)
      apply holds_inv in H6 as (l1 & Hl1 & Hu1).
      destruct (Side_eq_or_not (side o') s) as [Es|Es].
      * rewrite Es, Ht. cbn [limits]. rewrite Es in Hl1. fold t in Hl1.
        destruct (decide (price o' = p)) as [Ep|Ep].
        -- rewrite Ep in *. assert (l1 = l) by (unfold t, s, p in *; congruence). subst l1.
           assert (Hlen : 2 <= count l).
           { destruct Hlw as (_ & _ & Hnd & Hcl & _). rewrite Hcl.
             destruct (fifo l) as [|x [|y f]] eqn:Ef; cbn [length]; [inversion Hu| |lia].
             apply list_elem_of_singleton in Hu, Hu1. congruence. }
           subst ls l'. cbn [count]. rewrite (wrap32_small (count l - 1)) by lia.
           rewrite (proj2 (Z.eqb_neq _ _)) by lia.
           rewrite lookup_insert_eq. cbn [holds fifo].
           apply DLL_remove_other; [exact Hu1|congruence].
        -- subst ls. destruct (count l' =? 0).
           ++ rewrite lookup_delete_ne by congruence. rewrite Hl1. exact Hu1.
           ++ rewrite lookup_insert_ne by congruence. rewrite Hl1. exact Hu1.
      * rewrite Hts by exact Es. rewrite Hl1. exact Hu1.
    + apply holds_order_set. apply holds_order_set in H7. rewrite Hos.
      destruct (decide (account o' = account o)) as [Ea|Ea]; [|exact H7].
      destruct (order_set m (account o')) as [os|]; [|contradiction].
      cbn [fmap option_fmap option_map holds] in *.
      apply elem_of_difference. split; [exact H7|].
      intros Hx%elem_of_singleton. congruence.
  - intros n a' Ha'. unfold account_wf. rewrite Hom.
    assert (Hset : order_set m' n = Some (orders (base a')))
      by (unfold order_set; rewrite Ha'; reflexivity).
    rewrite Hos in Hset. intros x Hx.
    destruct (decide (n = account o)) as [En|En].
    + destruct (order_set m n) as [os|] eqn:Eos; [|discriminate].
      cbn in Hset. injection Hset as Hset. rewrite <- Hset in Hx.
      apply elem_of_difference in Hx as [Hx Hxu].
      rewrite lookup_delete_ne by (intros <-; apply Hxu, elem_of_singleton; reflexivity).
      unfold order_set in Eos. destruct (accounts m !! n) as [a|] eqn:Ea; [|discriminate].
      injection Eos as <-. exact (Haccs n a Ea x Hx).
    + unfold order_set in Hset. destruct (accounts m !! n) as [a|] eqn:Ea; [|discriminate].
      injection Hset as Hset. rewrite <- Hset in Hx.
      pose proof (Haccs n a Ea x Hx) as Hh. cbn beta in Hh.
      rewrite lookup_delete_ne; [exact Hh|].
      intros <-. rewrite Ho in Hh. cbn in Hh. congruence.
Qed.

Lemma account_wf_order_set m m' :
  (forall n, order_set m' n = order_set m n) ->
  (forall x n, holds (fun o => account o = n) (order_map (book m) !! x) ->
               holds (fun o => account o = n) (order_map (book m') !! x)) ->
  map_Forall (account_wf m) (accounts m) -> map_Forall (account_wf m') (accounts m').
Proof.
  intros Hos Hom Haccs n a' Ha' x Hx.
  assert (Hset : order_set m' n = Some (orders (base a')))
    by (unfold order_set; rewrite Ha'; reflexivity).
  rewrite Hos in Hset. unfold order_set in Hset.
  destruct (accounts m !! n) as [a|] eqn:Ea; [|discriminate].
  injection Hset as Hset. rewrite <- Hset in Hx. apply Hom. exact (Haccs n a Ea x Hx).
Qed.

(** The book once the open quantity of the order [u] has shrunk by [delta]. *)
Lemma shrink_order_wf m m' u o l delta v' tv' lbp :
  book_wf m ->
  order_map (book m) !! u = Some o ->
  limits (tree_of (side o) (book m)) !! price o = Some l ->
  0 <= delta <= quantity o ->
  let s := side o in
  let p := price o in
  let t := tree_of s (book m) in
  v' = volume l - delta -> tv' = tree_volume t - delta ->
  sequence (book m') = sequence (book m) ->
  order_map (book m') = <[u := set_quantity o (quantity o - delta)]> (order_map (book m)) ->
  tree_of s (book m')
    = mkLimitTree (<[p := mkLimit (key l) (count l) v' (fifo l)]> (limits t))
                  (best t) lbp (tree_count t) tv' ->
  (forall s', s' <> s -> tree_of s' (book m') = tree_of s' (book m)) ->
  (forall n, order_set m' n = order_set m n) ->
  book_wf m'.
Proof.
  intros Hwf Ho Hl Hd s p t -> -> Hseq Hom Ht Hts Hos.
  pose proof (wf_quantities m Hwf) as Hq.
  pose proof (wf_order_level m u o Hwf Ho) as (lu & Hlu & Hu).
  assert (lu = l) by (unfold s, p in *; congruence). subst lu. clear Hlu.
  pose proof (wf_level m s p l Hwf Hl) as Hlw.
  pose proof (wf_order m u o Hwf Ho) as Huw.
  apply book_wf_trees in Hwf as (Hs & Htrees & Hords & Haccs).
  set (o2 := set_quantity o (quantity o - delta)) in *.
  assert (Hsame : forall x, x <> u -> order_map (book m') !! x = order_map (book m) !! x)
    by (intros x Hx; rewrite Hom; apply lookup_insert_ne; congruence).
  apply book_wf_trees. split; [rewrite Hseq; exact Hs|]. split; [|split].
  - intros s'. destruct (Side_eq_or_not s' s) as [->|Hne].
    + rewrite Ht. pose proof (Htrees s) as Htw. fold t in Htw.
      pose proof (tree_wf_volumes s _ t Hq Htw) as Hvols.
      destruct Htw as (Hls & Hbest & Hc & Hcb & Hv & Hvb).
      destruct Hlw as (Hk & Hne & Hnd & Hcl & Hclb & Hvl & Hvlb & Hall).
      assert (Hqo : quantity o <= volume l) by (rewrite Hvl; eapply fifo_volume_ge; eauto).
      assert (Hvle : volume l <= tree_volume t)
        by (rewrite Hv; apply (sum_over_ge volume _ p l); auto).
      unfold tree_wf. cbn [limits best tree_count tree_volume].
      split; [|split; [|split; [|split; [|split]]]].
      * intros p' l0 Hl0. apply lookup_insert_Some in Hl0 as [[<- <-]|[Hne' Hl0]].
        -- unfold level_wf. cbn [key count volume fifo].
           repeat (split; [assumption|]). split; [|split; [lia|]].
           ++ rewrite Hom, (fifo_volume_update _ _ u o o2 Hnd Hu Ho), Hvl.
              unfold o2. cbn [set_quantity quantity]. lia.
           ++ rewrite Forall_forall in *. intros x Hx. specialize (Hall x Hx).
              destruct (decide (x = u)) as [->|Hxu].
              ** rewrite Hom, lookup_insert_eq. rewrite Ho in Hall. exact Hall.
              ** rewrite Hsame by exact Hxu. exact Hall.
        -- apply (level_wf_ext s (order_map (book m))); [|exact (Hls p' l0 Hl0)].
           intros x Hx. apply Hsame. intros ->.
           destruct (level_wf_in _ _ _ _ _ (Hls p' l0 Hl0) Hx) as (o1 & Ho1 & _ & Hp1).
           unfold p in *. congruence.
      * rewrite Hbest. symmetry. eapply find_best_update, Hl.
      * rewrite Hc, (sum_over_insert count _ p l _ Hl). cbn [count]. unfold t, s. lia.
      * exact Hcb.
      * rewrite Hv, (sum_over_insert volume _ p l _ Hl). cbn [volume]. unfold t, s. lia.
      * lia.
    + rewrite Hts by exact Hne.
      apply (tree_wf_ext s' (order_map (book m))); [|apply Htrees].
      intros p0 l0 x Hl0 Hx. apply Hsame. intros ->.
      destruct (Htrees s') as (Hls & _).
      destruct (level_wf_in _ _ _ _ _ (Hls p0 l0 Hl0) Hx) as (o1 & Ho1 & Hs1 & _).
      apply Hne. unfold s. congruence.
  - assert (Hlevel : forall u' o', order_map (book m) !! u' = Some o' ->
              holds (fun l => u' ∈ fifo l)
                    (limits (tree_of (side o') (book m')) !! price o')).
    { intros u' o' Ho'. destruct (Hords u' o' Ho') as (_ & _ & _ & _ & _ & H6 & _).
      destruct (Side_eq_or_not (side o') s) as [Es|Es].
      - rewrite Es, Ht. cbn [limits]. rewrite Es in H6. fold t in H6.
        destruct (decide (price o' = p)) as [Ep|Ep].
        + rewrite Ep in *. rewrite lookup_insert_eq. unfold t, s, p in *.
          rewrite Hl in H6. exact H6.
        + rewrite lookup_insert_ne by congruence. exact H6.
      - rewrite Hts by exact Es. exact H6. }
    rewrite Hom. intros u' o' Ho'. apply lookup_insert_Some in Ho' as [[<- <-]|[Hne Ho']].
    + destruct Huw as (H1 & H2 & H3 & H4 & H5 & H6 & H7).
      unfold order_wf. rewrite Hseq. unfold o2. cbn [set_quantity uid quantity price limit side account].
      split; [exact H1|]. split; [exact H2|]. split; [lia|]. split; [exact H4|].
      split; [exact H5|]. split; [exact (Hlevel u o Ho)|].
      apply holds_order_set. rewrite Hos. apply holds_order_set. exact H7.
    + destruct (Hords u' o' Ho') as (H1 & H2 & H3 & H4 & H5 & H6 & H7).
      unfold order_wf. rewrite Hseq.
      repeat (split; [assumption|]). split; [exact (Hlevel u' o' Ho')|].
      apply holds_order_set. rewrite Hos. apply holds_order_set. exact H7.
  - apply (account_wf_order_set m m' Hos); [|exact Haccs].
    intros x n Hh. destruct (decide (x = u)) as [->|Hxu].
    + rewrite Hom, lookup_insert_eq. rewrite Ho in Hh. exact Hh.
    + rewrite Hsame by exact Hxu. exact Hh.
Qed.

(** The book once a new order rests under the current sequence number. *)
Lemma add_order_wf m m' acct s q p a lbp :
  book_wf m ->
  accounts m !! acct = Some a ->
  0 <= q < 2 ^ 32 -> 0 <= p < 2 ^ 64 ->
  let u := sequence (book m) in
  let o := mkOrder u s q p (Some p) acct in
  let t := tree_of s (book m) in
  let ls := match limits t !! p with
            | None => <[p := mkLimit p 1 q [u]]> (limits t)
            | Some l => <[p := mkLimit (key l) (wrap32 (count l + 1))
                                       (wrap64 (volume l + q)) (fifo l ++ [u])]> (limits t)
            end in
  let b := match limits t !! p with
           | None => set_best s (best t) p
           | Some _ => best t
           end in
  tree_count t + 1 < 2 ^ 32 -> tree_volume t + q < 2 ^ 64 -> u + 1 < 2 ^ 64 ->
  sequence (book m') = wrap64 (u + 1) ->
  order_map (book m') = <[u := o]> (order_map (book m)) ->
  tree_of s (book m')
    = mkLimitTree ls b lbp (wrap32 (tree_count t + 1)) (wrap64 (tree_volume t + q)) ->
  (forall s', s' <> s -> tree_of s' (book m') = tree_of s' (book m)) ->
  (forall n, order_set m' n
             = if decide (n = acct) then (fun os => os ∪ {[u]}) <$> order_set m n
               else order_set m n) ->
  book_wf m'.
Proof.
  intros Hwf Ha Hqr Hpr u o t ls b Hcap Hvcap Hscap Hseq Hom Ht Hts Hos.
  pose proof (wf_quantities m Hwf) as Hq.
  pose proof (wf_fresh m Hwf) as Hfresh. fold u in Hfresh.
  apply book_wf_trees in Hwf as (Hs & Htrees & Hords & Haccs). fold u in Hs.
  assert (Hsame : forall x, x <> u -> order_map (book m') !! x = order_map (book m) !! x)
    by (intros x Hx; rewrite Hom; apply lookup_insert_ne; congruence).
  assert (Hold : forall s' p0 l0 x, limits (tree_of s' (book m)) !! p0 = Some l0 ->
                   x ∈ fifo l0 -> x <> u).
  { intros s' p0 l0 x Hl0 Hx ->. destruct (Htrees s') as (Hls & _).
    destruct (level_wf_in _ _ _ _ _ (Hls p0 l0 Hl0) Hx) as (o1 & Ho1 & _). congruence. }
  assert (Hou : order_map (book m') !! u = Some o) by (rewrite Hom; apply lookup_insert_eq).
  rewrite wrap64_small in Hseq by lia.
  rewrite (wrap32_small (tree_count t + 1)) in Ht.
  2:{ pose proof (tree_wf_counts s _ t (Htrees s)) as Hc0.
      destruct (Htrees s) as (_ & _ & Hc & _). fold t in Hc.
      assert (0 <= tree_count t) by (rewrite Hc; apply sum_over_nonneg; exact Hc0). lia. }
  pose proof (tree_wf_volumes s _ t Hq (Htrees s)) as Hvols.
  pose proof (tree_wf_counts s _ t (Htrees s)) as Hcnts.
  assert (Htv0 : 0 <= tree_volume t).
  { destruct (Htrees s) as (_ & _ & _ & _ & Hv & _). fold t in Hv. rewrite Hv.
    apply sum_over_nonneg. exact Hvols. }
  rewrite (wrap64_small (tree_volume t + q)) in Ht by lia.
  apply book_wf_trees. split; [rewrite Hseq; lia|]. split; [|split].
  - intros s'. destruct (Side_eq_or_not s' s) as [->|Hne].
    + rewrite Ht. destruct (Htrees s) as (Hls & Hbest & Hc & Hcb & Hv & Hvb).
      fold t in Hls, Hbest, Hc, Hv.
      assert (Hkeep : forall p' l0, limits t !! p' = Some l0 ->
                        level_wf s (order_map (book m')) p' l0).
      { intros p' l0 Hl0. apply (level_wf_ext s (order_map (book m))); [|exact (Hls p' l0 Hl0)].
        intros x Hx. apply Hsame. eapply Hold; eauto. }
      unfold tree_wf. cbn [limits best tree_count tree_volume]. subst ls b.
      destruct (limits t !! p) as [l|] eqn:El.
      * pose proof (Hls p l El) as Hlw. pose proof (level_wf_count _ _ _ _ Hlw) as Hlc.
        destruct Hlw as (Hk & Hne & Hnd & Hcl & _ & Hvl & Hvlb & Hall).
        assert (Hcle : count l <= tree_count t)
          by (rewrite Hc; apply (sum_over_ge count _ p l); auto).
        assert (Hvle : volume l <= tree_volume t)
          by (rewrite Hv; apply (sum_over_ge volume _ p l); auto).
        assert (Hv0 : 0 <= volume l) by exact (Hvols p l El).
        rewrite (wrap32_small (count l + 1)) by lia.
        rewrite (wrap64_small (volume l + q)) by lia.
        split; [|split; [|split; [|split; [|split]]]].
        -- intros p' l0 Hl0. apply lookup_insert_Some in Hl0 as [[<- <-]|[Hne' Hl0]];
             [|apply Hkeep; exact Hl0].
           unfold level_wf. cbn [key count volume fifo].
           split; [exact Hk|]. split; [destruct (fifo l); discriminate|].
           split.
           { apply NoDup_app. split; [exact Hnd|]. split; [|apply NoDup_singleton].
             intros x Hx Hx'%list_elem_of_singleton. eapply Hold; eauto. }
           split; [rewrite length_app, Nat2Z.inj_add; cbn [length]; lia|].
           split; [lia|]. split; [|split; [lia|]].
           ++ rewrite (fifo_volume_app _ _ u o Hou).
              rewrite (fifo_volume_ext (order_map (book m))).
              ** rewrite Hvl. reflexivity.
              ** intros x Hx. apply Hsame. eapply Hold; eauto.
           ++ apply Forall_app. split.
              ** rewrite Forall_forall in *. intros x Hx.
                 rewrite Hsame by (eapply Hold; eauto). apply Hall, Hx.
              ** constructor; [|constructor]. rewrite Hou. cbn. auto.
        -- rewrite Hbest. symmetry. eapply find_best_update, El.
        -- rewrite Hc, (sum_over_insert count _ p l _ El). cbn [count]. lia.
        -- lia.
        -- rewrite Hv, (sum_over_insert volume _ p l _ El). cbn [volume]. lia.
        -- lia.
      * split; [|split; [|split; [|split; [|split]]]].
        -- intros p' l0 Hl0. apply lookup_insert_Some in Hl0 as [[<- <-]|[Hne' Hl0]];
             [|apply Hkeep; exact Hl0].
           unfold level_wf. cbn [key count volume fifo length].
           split; [reflexivity|]. split; [discriminate|]. split; [apply NoDup_singleton|].
           split; [reflexivity|]. split; [lia|]. split; [|split; [lia|]].
           ++ rewrite fifo_volume_cons, Hou. unfold fifo_volume. cbn. lia.
           ++ constructor; [|constructor]. rewrite Hou. cbn. auto.
        -- rewrite Hbest. symmetry. apply find_best_insert, El.
        -- rewrite Hc, (sum_over_insert_fresh count _ p _ El). cbn [count]. lia.
        -- lia.
        -- rewrite Hv, (sum_over_insert_fresh volume _ p _ El). cbn [volume]. lia.
        -- lia.
    + rewrite Hts by exact Hne.
      apply (tree_wf_ext s' (order_map (book m))); [|apply Htrees].
      intros p0 l0 x Hl0 Hx. apply Hsame. eapply Hold; eauto.
  - rewrite Hom. intros u' o' Ho'. apply lookup_insert_Some in Ho' as [[<- <-]|[Hne Ho']].
    + unfold order_wf. rewrite Hseq. cbn [uid quantity price limit side account o].
      split; [reflexivity|]. split; [lia|]. split; [exact Hqr|]. split; [exact Hpr|].
      split; [reflexivity|]. split.
      * rewrite Ht. cbn [limits]. subst ls. destruct (limits t !! p) as [l|];
          rewrite lookup_insert_eq; cbn [holds fifo].
        -- apply elem_of_app. right. left.
        -- left.
      * apply holds_order_set. rewrite Hos. rewrite decide_True by reflexivity.
        unfold order_set. rewrite Ha. cbn. apply elem_of_union. right.
        apply elem_of_singleton. reflexivity.
    + destruct (Hords u' o' Ho') as (H1 & H2 & H3 & H4 & H5 & H6 & H7).
      unfold order_wf. rewrite Hseq. split; [exact H1|]. split; [lia|].
      repeat (split; [assumption|]). split.
      * apply holds_inv in H6 as (l1 & Hl1 & Hu1).
        destruct (Side_eq_or_not (side o') s) as [Es|Es].
        -- rewrite Es, Ht. cbn [limits]. rewrite Es in Hl1. fold t in Hl1. subst ls.
           destruct (decide (price o' = p)) as [Ep|Ep].
           ++ rewrite Ep in *. rewrite Hl1. rewrite lookup_insert_eq. cbn [holds fifo].
              apply elem_of_app. left. exact Hu1.
           ++ destruct (limits t !! p); rewrite lookup_insert_ne by congruence;
                rewrite Hl1; exact Hu1.
        -- rewrite Hts by exact Es. rewrite Hl1. exact Hu1.
      * apply holds_order_set. apply holds_order_set in H7. rewrite Hos.
        destruct (decide (account o' = acct)) as [Ea|Ea]; [|exact H7].
        destruct (order_set m (account o')) as [os|]; [|contradiction].
        cbn [fmap option_fmap option_map holds] in *.
        apply elem_of_union. left. exact H7.
  - intros n a' Ha'. unfold account_wf.
    assert (Hset : order_set m' n = Some (orders (base a')))
      by (unfold order_set; rewrite Ha'; reflexivity).
    rewrite Hos in Hset. intros x Hx.
    assert (Hin : forall a0, accounts m !! n = Some a0 -> x ∈ orders (base a0) ->
              holds (fun o0 => account o0 = n) (order_map (book m') !! x)).
    { intros a0 Ea0 Hx0. pose proof (Haccs n a0 Ea0 x Hx0) as Hh. cbn beta in Hh.
      rewrite Hsame; [exact Hh|]. intros ->. rewrite Hfresh in Hh. exact Hh. }
    unfold order_set in Hset. destruct (accounts m !! n) as [a0|] eqn:Ea0.
    2:{ destruct (decide (n = acct)); discriminate. }
    destruct (decide (n = acct)) as [En|En].
    + cbn in Hset. injection Hset as Hset. rewrite <- Hset in Hx.
      apply elem_of_union in Hx as [Hx|Hx%elem_of_singleton].
      * eapply Hin; eauto.
      * subst x. rewrite Hou. cbn. congruence.
    + injection Hset as Hset. rewrite <- Hset in Hx. eapply Hin; eauto.
Qed.

(** ** [cancel], [reduce] and a resting limit order keep the book well formed *)

Lemma order_set_insert n a accts conns b k :
  order_set (mkMemory b (<[k := a]> accts) conns) n
  = if decide (n = k) then Some (orders (base a)) else order_set (mkMemory b accts conns) n.
Proof.
  unfold order_set. cbn [accounts]. destruct (decide (n = k)) as [->|Hne].
  - rewrite lookup_insert_eq. reflexivity.
  - rewrite lookup_insert_ne by congruence. reflexivity.
Qed.

Lemma canceled_wf m u o l a :
  book_wf m ->
  order_map (book m) !! u = Some o ->
  limits (tree_of (side o) (book m)) !! price o = Some l ->
  accounts m !! account o = Some a ->
  book_wf (canceled m u o l a).
Proof.
  intros Hwf Ho Hl Ha.
  destruct (wf_order m u o Hwf Ho) as (Huid & _).
  eapply (remove_order_wf m _ u o l); try eassumption.
  - unfold canceled. cbn [book]. destruct (side o); reflexivity.
  - unfold canceled. cbn [book]. destruct (side o); reflexivity.
  - unfold canceled. cbn [book]. rewrite tree_of_set_same. reflexivity.
  - intros s' Hne. unfold canceled. cbn [book]. apply tree_of_set_other. exact Hne.
  - intros n. unfold canceled. rewrite order_set_insert.
    destruct (decide (n = account o)) as [->|Hne].
    + unfold order_set. cbn [accounts]. rewrite Ha. cbn. rewrite Huid. reflexivity.
    + reflexivity.
Qed.

Theorem cancel_wf m u :
  book_wf m -> is_Some (order_map (book m) !! u) ->
  exists m', LimitOrderBook_cancel u m = Ok tt m' /\ book_wf m'.
Proof.
  intros Hwf [o Ho].
  destruct (wf_order_level m u o Hwf Ho) as (l & Hl & _).
  destruct (wf_order_account m u o Hwf Ho) as (a & Ha & _).
  destruct (wf_order m u o Hwf Ho) as (_ & _ & _ & _ & Hlim & _).
  exists (canceled m u o l a). split.
  - apply cancel_run; assumption.
  - apply canceled_wf; assumption.
Qed.

Lemma reduced_wf m u delta o l :
  book_wf m ->
  order_map (book m) !! u = Some o ->
  limits (tree_of (side o) (book m)) !! price o = Some l ->
  0 <= delta <= quantity o ->
  book_wf (reduced m u delta o l).
Proof.
  intros Hwf Ho Hl Hd.
  eapply (shrink_order_wf m _ u o l delta (volume l - delta)
            (tree_volume (tree_of (side o) (book m)) - delta)
            (last_best_price (tree_of (side o) (book m)))); try eassumption; try reflexivity.
  - unfold reduced. cbn [book set_book]. destruct (side o); reflexivity.
  - unfold reduced. cbn [book set_book]. destruct (side o); reflexivity.
  - unfold reduced. cbn [book set_book]. destruct (side o); reflexivity.
  - intros s' Hne. unfold reduced. cbn [book set_book].
    destruct (side o), s'; try contradiction; reflexivity.
Qed.

Theorem reduce_wf m u delta o :
  book_wf m -> order_map (book m) !! u = Some o -> 0 <= delta <= quantity o ->
  exists m', LimitOrderBook_reduce u delta m = Ok tt m' /\ book_wf m'.
Proof.
  intros Hwf Ho Hd.
  destruct (wf_order_level m u o Hwf Ho) as (l & Hl & _).
  destruct (wf_order_account m u o Hwf Ho) as (a & Ha & _).
  destruct (wf_order m u o Hwf Ho) as (_ & _ & _ & _ & Hlim & _).
  destruct (Z.eq_dec delta (quantity o)) as [->|Hne].
  - exists (canceled m u o l a). split.
    + apply reduce_full_run; assumption.
    + apply canceled_wf; assumption.
  - destruct (reduce_partial m u delta o Hwf Ho) as (l' & Hl' & Hrun); [lia|].
    assert (l' = l) by congruence. subst l'.
    exists (reduced m u delta o l). split; [exact Hrun|].
    apply reduced_wf; assumption.
Qed.

Lemma rested_wf m acct s q p a :
  book_wf m ->
  accounts m !! acct = Some a ->
  0 <= q < 2 ^ 32 -> 0 <= p < 2 ^ 64 ->
  tree_count (tree_of s (book m)) + 1 < 2 ^ 32 ->
  tree_volume (tree_of s (book m)) + q < 2 ^ 64 ->
  sequence (book m) + 1 < 2 ^ 64 ->
  book_wf (rested m acct s q p a).
Proof.
  intros Hwf Ha Hq Hp Hc Hv Hs.
  eapply (add_order_wf m _ acct s q p a); try eassumption.
  - unfold rested. cbn [book]. destruct s; reflexivity.
  - unfold rested. cbn [book]. destruct s; reflexivity.
  - unfold rested. cbn [book]. rewrite tree_of_seq_same. reflexivity.
  - intros s' Hne. unfold rested. cbn [book]. apply tree_of_seq_other. exact Hne.
  - intros n. unfold rested. rewrite order_set_insert.
    destruct (decide (n = acct)) as [->|Hne].
    + unfold order_set. cbn [accounts]. rewrite Ha. reflexivity.
    + reflexivity.
Qed.

Lemma sessions_ok_at m n a h :
  sessions_ok m -> accounts m !! n = Some a -> handler a = Some h ->
  is_Some (connections m !! h).
Proof. intros Hs Ha Hh. specialize (Hs n a Ha). unfold session_ok in Hs. rewrite Hh in Hs. exact Hs. Qed.

Lemma sessions_ok_intro m :
  (forall n a h, accounts m !! n = Some a -> handler a = Some h ->
                 is_Some (connections m !! h)) -> sessions_ok m.
Proof.
  intros H n a Ha. unfold session_ok. destruct (handler a) as [h|] eqn:Eh; [|exact I].
  exact (H n a h Ha Eh).
Qed.

(** ** The callbacks of a fill *)

Lemma notify_run name F r m :
  is_Some (accounts m !! name) -> sessions_ok m ->
  (let* a := load_account name in
   do store_account name (set_base a (F (base a))) then
   match handler a with
   | None => ret tt
   | Some h => Connection_send h r
   end) m = Ok tt (notified m name F r).
Proof.
  intros [a Ha] Hs. unfold notified, load_account, store_account, Connection_send,
    load_connection, store_connection, bind, get, unwrap, ret, modify.
  rewrite Ha. cbn [set_accounts accounts connections].
  destruct (handler a) as [h|] eqn:Eh; [|reflexivity].
  destruct (sessions_ok_at m name a h Hs Ha Eh) as [x Hx].
  change (connections (set_accounts _ m)) with (connections m). rewrite Hx. reflexivity.
Qed.

Section Notified.

Context (m : Memory) (name : string) (F : Account -> Account) (r : Response)
        (a : SystemAccount).

Hypothesis Ha : accounts m !! name = Some a.

Lemma notified_book : book (notified m name F r) = book m.
Proof.
  unfold notified. rewrite Ha. destruct (handler a); [|reflexivity].
  destruct (connections m !! _); reflexivity.
Qed.

Lemma notified_accounts :
  accounts (notified m name F r) = <[name := set_base a (F (base a))]> (accounts m).
Proof.
  unfold notified. rewrite Ha. destruct (handler a); [|reflexivity].
  destruct (connections m !! _); reflexivity.
Qed.

Lemma notified_connections h :
  is_Some (connections m !! h) -> is_Some (connections (notified m name F r) !! h).
Proof.
  intros Hh. unfold notified. rewrite Ha. destruct (handler a) as [h'|]; [|exact Hh].
  destruct (connections m !! h') eqn:E; [|exact Hh].
  cbn [set_connections connections set_accounts].
  destruct (decide (h = h')) as [->|Hne].
  - rewrite lookup_insert_eq. eauto.
  - rewrite lookup_insert_ne by congruence. exact Hh.
Qed.

Lemma notified_sessions : sessions_ok m -> sessions_ok (notified m name F r).
Proof.
  intros Hs. apply sessions_ok_intro. intros n a' h Ha' Hh.
  rewrite notified_accounts in Ha'. apply notified_connections.
  apply lookup_insert_Some in Ha' as [[<- <-]|[Hne Ha']].
  - apply (sessions_ok_at m name a h Hs Ha). exact Hh.
  - apply (sessions_ok_at m n a' h Hs Ha' Hh).
Qed.

Lemma notified_order_set n :
  order_set (notified m name F r) n
  = if decide (n = name) then Some (orders (F (base a))) else order_set m n.
Proof.
  unfold order_set. rewrite notified_accounts. destruct (decide (n = name)) as [->|Hne].
  - rewrite lookup_insert_eq. reflexivity.
  - rewrite lookup_insert_ne by congruence. reflexivity.
Qed.

Lemma notified_dom x :
  is_Some (accounts m !! x) -> is_Some (accounts (notified m name F r) !! x).
Proof.
  intros Hx. rewrite notified_accounts. destruct (decide (x = name)) as [->|Hne].
  - rewrite lookup_insert_eq. eauto.
  - rewrite lookup_insert_ne by congruence. exact Hx.
Qed.

End Notified.

Lemma limit_fill_run name lim mkt m :
  is_Some (accounts m !! name) -> sessions_ok m ->
  SystemAccount_limit_fill name lim mkt m
  = Ok tt (notified m name (fun b => Account_limit_fill b lim mkt)
             (TradeResponse (uid lim) (price lim) (quantity lim) 0
                (bool_to_side (Side_to_bool (side lim))))).
Proof. intros Ha Hs. exact (notify_run name _ _ m Ha Hs). Qed.

Lemma limit_partial_run name lim mkt m :
  is_Some (accounts m !! name) -> sessions_ok m ->
  SystemAccount_limit_partial name lim mkt m
  = Ok tt (notified m name (fun b => Account_limit_partial b lim mkt)
             (TradeResponse (uid lim) (price lim) (quantity mkt) (quantity lim)
                (bool_to_side (Side_to_bool (side lim))))).
Proof. intros Ha Hs. exact (notify_run name _ _ m Ha Hs). Qed.

Lemma market_fill_run name lim mkt m :
  is_Some (accounts m !! name) -> sessions_ok m ->
  SystemAccount_market_fill name lim mkt m
  = Ok tt (notified m name (fun b => Account_market_fill b lim mkt)
             (TradeResponse 0 (price lim) (quantity mkt) 0
                (bool_to_side (Side_to_bool (side mkt))))).
Proof. intros Ha Hs. exact (notify_run name _ _ m Ha Hs). Qed.

Lemma market_partial_run name lim mkt m :
  is_Some (accounts m !! name) -> sessions_ok m ->
  SystemAccount_market_partial name lim mkt m
  = Ok tt (notified m name (fun b => Account_market_partial b lim mkt)
             (TradeResponse 0 (price lim) (quantity lim) (quantity mkt)
                (bool_to_side (Side_to_bool (side mkt))))).
Proof. intros Ha Hs. exact (notify_run name _ _ m Ha Hs). Qed.

(** ** One turn of the matching loop *)

Lemma remove_run s u m o p l :
  order_map (book m) !! u = Some o -> limit o = Some p ->
  limits (tree_of s (book m)) !! p = Some l ->
  LimitTree_remove s u m = Ok tt (removed m s u o p l).
Proof.
  intros Ho Hlim Hl.
  unfold LimitTree_remove, load_order, load_tree, store_tree, bind, get, unwrap, ret, modify.
  rewrite Ho, Hlim. cbn. rewrite Hl. reflexivity.
Qed.

Section Filled.

Context (m : Memory) (n1 n2 : string) (F1 F2 : Account -> Account) (r1 r2 : Response).

Hypothesis H1 : is_Some (accounts m !! n1).

Hypothesis H2 : is_Some (accounts m !! n2).

Lemma filled_mid : is_Some (accounts (notified m n1 F1 r1) !! n2).
Proof. destruct H1 as [a1 Ha1]. apply (notified_dom m n1 F1 r1 a1 Ha1). exact H2. Qed.

Lemma filled_book : book (filled m n1 F1 r1 n2 F2 r2) = book m.
Proof.
  destruct H1 as [a1 Ha1]. destruct filled_mid as [a2 Ha2]. unfold filled.
  rewrite (notified_book _ n2 F2 r2 a2 Ha2). apply (notified_book m n1 F1 r1 a1 Ha1).
Qed.

Lemma filled_sessions : sessions_ok m -> sessions_ok (filled m n1 F1 r1 n2 F2 r2).
Proof.
  intros Hs. destruct H1 as [a1 Ha1]. destruct filled_mid as [a2 Ha2]. unfold filled.
  apply (notified_sessions _ n2 F2 r2 a2 Ha2).
  apply (notified_sessions m n1 F1 r1 a1 Ha1). exact Hs.
Qed.

Lemma filled_dom x :
  is_Some (accounts m !! x) -> is_Some (accounts (filled m n1 F1 r1 n2 F2 r2) !! x).
Proof.
  intros Hx. destruct H1 as [a1 Ha1]. destruct filled_mid as [a2 Ha2]. unfold filled.
  apply (notified_dom _ n2 F2 r2 a2 Ha2). apply (notified_dom m n1 F1 r1 a1 Ha1). exact Hx.
Qed.

Lemma filled_order_set (G : gset Z -> gset Z) n :
  (forall b, orders (F1 b) = G (orders b)) -> (forall b, orders (F2 b) = orders b) ->
  order_set (filled m n1 F1 r1 n2 F2 r2) n
  = if decide (n = n1) then G <$> order_set m n else order_set m n.
Proof.
  intros HF1 HF2. destruct H1 as [a1 Ha1]. destruct filled_mid as [a2 Ha2]. unfold filled.
  rewrite (notified_order_set _ n2 F2 r2 a2 Ha2), HF2.
  assert (Hmid : forall x, order_set (notified m n1 F1 r1) x
                  = if decide (x = n1) then G <$> order_set m x else order_set m x).
  { intros x. rewrite (notified_order_set m n1 F1 r1 a1 Ha1).
    destruct (decide (x = n1)) as [->|]; [|reflexivity].
    unfold order_set. rewrite Ha1. cbn. rewrite HF1. reflexivity. }
  destruct (decide (n = n2)) as [->|Hne]; [|apply Hmid].
  rewrite <- Hmid. unfold order_set. rewrite Ha2. reflexivity.
Qed.

End Filled.

Lemma fill_orders a s q p : orders (Account_fill a s q p) = orders a.
Proof. destruct s; reflexivity. Qed.

Lemma loop_consumed fuel s order m p l u mo :
  best (tree_of s (book m)) = Some p ->
  (quantity order =? 0) || negb (can_match s p (price order)) = false ->
  limits (tree_of s (book m)) !! p = Some l ->
  head (fifo l) = Some u ->
  order_map (book m) !! u = Some mo ->
  limit mo = Some p ->
  quantity mo <= quantity order ->
  is_Some (accounts m !! account mo) -> is_Some (accounts m !! account order) ->
  sessions_ok m ->
  exists F1 r1 F2 r2,
    (forall b, orders (F1 b) = orders b ∖ {[uid mo]}) /\
    (forall b, orders (F2 b) = orders b) /\
    LimitTree_market_loop (S fuel) s UIDOrderMap_erase order m
    = LimitTree_market_loop fuel s UIDOrderMap_erase
        (set_quantity order (quantity order - quantity mo))
        (drop u (removed (filled m (account mo) F1 r1 (account order) F2 r2) s u mo p l)).
Proof.
  intros Hbest Hgo Hl Hhead Ho Hlim Hle Ham Hat Hs.
  set (order' := set_quantity order (quantity order - quantity mo)).
  assert (Hstep : forall F1 r1 F2 r2 (cb : M Memory unit),
    cb m = Ok tt (filled m (account mo) F1 r1 (account order) F2 r2) ->
    (do cb then
     do LimitTree_remove s u then
     do UIDOrderMap_erase u then
     LimitTree_market_loop fuel s UIDOrderMap_erase order') m
    = LimitTree_market_loop fuel s UIDOrderMap_erase order'
        (drop u (removed (filled m (account mo) F1 r1 (account order) F2 r2) s u mo p l))).
  { intros F1 r1 F2 r2 cb Hcb. rewrite (bind_run _ _ _ _ _ Hcb).
    assert (Hb : book (filled m (account mo) F1 r1 (account order) F2 r2) = book m)
      by (apply filled_book; assumption).
    rewrite (bind_run _ _ _ _ _ (remove_run s u _ mo p l
               ltac:(rewrite Hb; exact Ho) Hlim ltac:(rewrite Hb; exact Hl))).
    reflexivity. }
  assert (Hloop : LimitTree_market_loop (S fuel) s UIDOrderMap_erase order m
    = (do (if quantity order' =? 0
           then do SystemAccount_limit_fill (account mo) mo order then
                SystemAccount_market_fill (account order) mo order
           else do SystemAccount_limit_fill (account mo) mo order' then
                SystemAccount_market_partial (account order') mo order') then
       do LimitTree_remove s u then
       do UIDOrderMap_erase u then
       LimitTree_market_loop fuel s UIDOrderMap_erase order') m).
  { cbn [LimitTree_market_loop]. unfold load_tree at 1. unfold bind at 1 2. unfold get, ret.
    rewrite Hbest, Hgo. unfold bind at 1. unfold unwrap at 1. rewrite Hl. unfold ret.
    unfold bind at 1. unfold unwrap at 1. rewrite Hhead. unfold ret.
    unfold bind at 1. unfold load_order, bind at 1, get, unwrap at 1. rewrite Ho. unfold ret.
    rewrite (proj2 (Z.leb_le _ _) Hle). reflexivity. }
  rewrite Hloop.
  destruct (quantity order' =? 0).
  - eexists _, _, _, _. split; [|split; [|apply Hstep]].
    3:{ rewrite (bind_run _ _ _ _ _ (limit_fill_run _ mo order m Ham Hs)).
        rewrite market_fill_run; [reflexivity| |].
        - destruct Ham as [a1 Ha1]. apply (notified_dom m _ _ _ a1 Ha1). exact Hat.
        - destruct Ham as [a1 Ha1]. apply (notified_sessions m _ _ _ a1 Ha1). exact Hs. }
    + intros b. unfold Account_limit_fill. rewrite fill_orders. reflexivity.
    + intros b. unfold Account_market_fill. apply fill_orders.
  - eexists _, _, _, _. split; [|split; [|apply Hstep]].
    3:{ rewrite (bind_run _ _ _ _ _ (limit_fill_run _ mo order' m Ham Hs)).
        rewrite market_partial_run; [reflexivity| |].
        - destruct Ham as [a1 Ha1]. apply (notified_dom m _ _ _ a1 Ha1). exact Hat.
        - destruct Ham as [a1 Ha1]. apply (notified_sessions m _ _ _ a1 Ha1). exact Hs. }
    + intros b. unfold Account_limit_fill. rewrite fill_orders. reflexivity.
    + intros b. unfold Account_market_partial. apply fill_orders.
Qed.

Lemma loop_partial fuel s order m p l u mo :
  best (tree_of s (book m)) = Some p ->
  (quantity order =? 0) || negb (can_match s p (price order)) = false ->
  limits (tree_of s (book m)) !! p = Some l ->
  head (fifo l) = Some u ->
  order_map (book m) !! u = Some mo ->
  quantity order < quantity mo ->
  is_Some (accounts m !! account mo) -> is_Some (accounts m !! account order) ->
  sessions_ok m ->
  exists F1 r1 F2 r2,
    (forall b, orders (F1 b) = orders b) /\
    (forall b, orders (F2 b) = orders b) /\
    LimitTree_market_loop (S fuel) s UIDOrderMap_erase order m
    = Ok (set_quantity order 0)
         (filled (shrunk m s u mo p l (quantity order))
                 (account mo) F1 r1 (account order) F2 r2).
Proof.
  intros Hbest Hgo Hl Hhead Ho Hlt Ham Hat Hs.
  set (mo' := set_quantity mo (quantity mo - quantity order)).
  set (m1 := shrunk m s u mo p l (quantity order)).
  assert (Hloop : LimitTree_market_loop (S fuel) s UIDOrderMap_erase order m
    = (do SystemAccount_limit_partial (account mo') mo' order then
       do SystemAccount_market_fill (account order) mo' order then
       ret (set_quantity order 0)) m1).
  { cbn [LimitTree_market_loop]. unfold load_tree at 1. unfold bind at 1 2. unfold get, ret.
    rewrite Hbest, Hgo. unfold bind at 1. unfold unwrap at 1. rewrite Hl. unfold ret.
    unfold bind at 1. unfold unwrap at 1. rewrite Hhead. unfold ret.
    unfold bind at 1. unfold load_order, bind at 1, get, unwrap at 1. rewrite Ho. unfold ret.
    rewrite (proj2 (Z.leb_gt _ _) Hlt).
    unfold bind at 1. unfold store_order at 1, modify at 1.
    unfold bind at 1. unfold store_tree at 1, modify at 1.
    subst m1 mo'. unfold shrunk. rewrite Hbest. reflexivity. }
  rewrite Hloop.
  assert (Ham1 : is_Some (accounts m1 !! account mo')) by exact Ham.
  assert (Hat1 : is_Some (accounts m1 !! account order)) by exact Hat.
  assert (Hs1 : sessions_ok m1) by exact Hs.
  pose proof (limit_partial_run _ mo' order m1 Ham1 Hs1) as E1.
  match type of E1 with _ = Ok tt ?x => set (m2 := x) in * end.
  assert (Hat2 : is_Some (accounts m2 !! account order)).
  { destruct Ham1 as [a1 Ha1]. unfold m2. apply (notified_dom m1 _ _ _ a1 Ha1). exact Hat1. }
  assert (Hs2 : sessions_ok m2).
  { destruct Ham1 as [a1 Ha1]. unfold m2. apply (notified_sessions m1 _ _ _ a1 Ha1). exact Hs1. }
  pose proof (market_fill_run (account order) mo' order m2 Hat2 Hs2) as E2.
  eexists _, _, _, _. split; [|split].
  3:{ rewrite (bind_run _ _ _ _ _ E1), (bind_run _ _ _ _ _ E2). reflexivity. }
  - intros b. unfold Account_limit_partial. apply fill_orders.
  - intros b. unfold Account_market_fill. apply fill_orders.
Qed.

Lemma loop_stop fuel s order m :
  match best (tree_of s (book m)) with
  | None => True
  | Some p => (quantity order =? 0) || negb (can_match s p (price order)) = true
  end ->
  LimitTree_market_loop (S fuel) s UIDOrderMap_erase order m = Ok order m.
Proof.
  intros H. cbn [LimitTree_market_loop]. unfold load_tree at 1. unfold bind at 1 2.
  unfold get, ret. destruct (best (tree_of s (book m))); [rewrite H|]; reflexivity.
Qed.

(** ** The matching loop returns and keeps the book well formed *)

Lemma tree_of_set_order_map s om b : tree_of s (set_order_map om b) = tree_of s b.
Proof. destruct s; reflexivity. Qed.

Lemma tree_of_set_tree s t b : tree_of s (set_tree s t b) = t.
Proof. destruct s; reflexivity. Qed.

Lemma tree_of_set_tree_other s s' t b : s' <> s -> tree_of s' (set_tree s t b) = tree_of s' b.
Proof. destruct s, s'; intros H; try contradiction; reflexivity. Qed.

Lemma order_map_set_tree s t b : order_map (set_tree s t b) = order_map b.
Proof. destruct s; reflexivity. Qed.

Lemma sequence_set_tree s t b : sequence (set_tree s t b) = sequence b.
Proof. destruct s; reflexivity. Qed.

Lemma order_set_same m m' n : accounts m' = accounts m -> order_set m' n = order_set m n.
Proof. unfold order_set. intros ->. reflexivity. Qed.

Lemma sessions_ok_same m m' :
  accounts m' = accounts m -> connections m' = connections m ->
  sessions_ok m -> sessions_ok m'.
Proof.
  intros Ha Hc Hs. apply sessions_ok_intro. intros n a h Hn Hh. rewrite Hc.
  rewrite Ha in Hn. exact (sessions_ok_at m n a h Hs Hn Hh).
Qed.

Lemma tree_size_sum (ls : gmap Z Limit) :
  Z.of_nat (map_fold (fun _ l n => (length (fifo l) + n)%nat) 0%nat ls)
  = sum_over (fun l => Z.of_nat (length (fifo l))) ls.
Proof.
  induction ls as [|p l ls Hp IH] using map_ind.
  - rewrite map_fold_empty, sum_over_empty. reflexivity.
  - rewrite sum_over_insert_fresh by exact Hp.
    rewrite (map_fold_insert_L (fun _ l n => (length (fifo l) + n)%nat)); [|intros; lia|exact Hp].
    rewrite Nat2Z.inj_add, IH. reflexivity.
Qed.

Lemma tree_size_count s om t : tree_wf s om t -> Z.of_nat (tree_size t) = tree_count t.
Proof.
  intros (Hls & _ & Hc & _). unfold tree_size. rewrite tree_size_sum, Hc.
  apply sum_over_ext. intros p l Hl. destruct (Hls p l Hl) as (_ & _ & _ & -> & _).
  reflexivity.
Qed.

(** The state after the head order of the best level has been consumed. *)
Lemma consumed_wf m n s u mo p l n2 F1 r1 F2 r2 :
  book_wf (drop n m) ->
  u <> n ->
  order_map (book m) !! u = Some mo ->
  side mo = s -> price mo = p ->
  limits (tree_of s (book m)) !! p = Some l ->
  is_Some (accounts m !! account mo) -> is_Some (accounts m !! n2) ->
  (forall b, orders (F1 b) = orders b ∖ {[uid mo]}) ->
  (forall b, orders (F2 b) = orders b) ->
  book_wf (drop n (drop u (removed (filled m (account mo) F1 r1 n2 F2 r2) s u mo p l))).
Proof.
  intros Hwf Hun Ho Hside Hprice Hl Ha1 Ha2 HF1 HF2.
  assert (Ho' : order_map (book (drop n m)) !! u = Some mo).
  { unfold drop. cbn [book set_book set_order_map order_map].
    rewrite lookup_delete_ne by congruence. exact Ho. }
  destruct (wf_order _ u mo Hwf Ho') as (Huid & _).
  set (mf := filled m (account mo) F1 r1 n2 F2 r2).
  assert (Hb : book mf = book m) by (apply filled_book; assumption).
  subst s p.
  eapply (remove_order_wf (drop n m) _ u mo l); try eassumption.
  - unfold drop, removed. cbn [book set_book set_order_map sequence].
    rewrite sequence_set_tree, Hb. reflexivity.
  - unfold drop, removed. cbn [book set_book set_order_map order_map].
    rewrite order_map_set_tree, Hb. apply delete_delete.
  - unfold drop, removed. cbn [book set_book]. rewrite !tree_of_set_order_map.
    rewrite tree_of_set_tree, Hb. reflexivity.
  - intros s' Hne. unfold drop, removed. cbn [book set_book]. rewrite !tree_of_set_order_map.
    rewrite tree_of_set_tree_other by exact Hne. rewrite Hb. reflexivity.
  - intros x. rewrite (order_set_same mf _ x) by reflexivity.
    rewrite (order_set_same m (drop n m) x) by reflexivity.
    unfold mf. rewrite (filled_order_set m _ _ _ _ _ _ Ha1 Ha2 (fun os => os ∖ {[uid mo]}) x HF1 HF2).
    rewrite Huid. reflexivity.
Qed.

(** The state after the head order of the best level has been filled in part. *)
Lemma partial_wf m n s u mo p l delta n2 F1 r1 F2 r2 :
  book_wf (drop n m) ->
  u <> n ->
  order_map (book m) !! u = Some mo ->
  side mo = s -> price mo = p ->
  limits (tree_of s (book m)) !! p = Some l ->
  0 <= delta <= quantity mo ->
  is_Some (accounts m !! account mo) -> is_Some (accounts m !! n2) ->
  (forall b, orders (F1 b) = orders b) ->
  (forall b, orders (F2 b) = orders b) ->
  book_wf (drop n (filled (shrunk m s u mo p l delta) (account mo) F1 r1 n2 F2 r2)).
Proof.
  intros Hwf Hun Ho Hside Hprice Hl Hd Ha1 Ha2 HF1 HF2.
  assert (Ho' : order_map (book (drop n m)) !! u = Some mo).
  { unfold drop. cbn [book set_book set_order_map order_map].
    rewrite lookup_delete_ne by congruence. exact Ho. }
  subst s p.
  assert (Hl' : limits (tree_of (side mo) (book (drop n m))) !! price mo = Some l) by exact Hl.
  pose proof (wf_order_volume _ u mo l Hwf Ho' Hl') as Hqv.
  pose proof (wf_level_volume _ _ _ l Hwf Hl') as ((Hv0 & Hvt) & Hvb).
  change (tree_of (side mo) (book (drop n m))) with (tree_of (side mo) (book m)) in Hvt, Hvb.
  set (m1 := shrunk m (side mo) u mo (price mo) l delta).
  set (mf := filled m1 (account mo) F1 r1 n2 F2 r2).
  assert (Hb : book mf = book m1) by (apply filled_book; assumption).
  eapply (shrink_order_wf (drop n m) _ u mo l delta (volume l - delta)
            (tree_volume (tree_of (side mo) (book m)) - delta)
            (last_best_price (tree_of (side mo) (book m)))); try eassumption; try reflexivity.
  - unfold drop. cbn [book set_book set_order_map sequence]. rewrite Hb.
    unfold m1, shrunk. cbn [book set_book]. rewrite sequence_set_tree. reflexivity.
  - unfold drop. cbn [book set_book set_order_map order_map]. rewrite Hb.
    unfold m1, shrunk. cbn [book set_book]. rewrite order_map_set_tree.
    cbn [set_order_map order_map]. apply delete_insert_ne. congruence.
  - unfold drop. cbn [book set_book]. rewrite !tree_of_set_order_map, Hb.
    unfold m1, shrunk. cbn [book set_book]. rewrite tree_of_set_tree.
    rewrite !wrap64_small by lia. reflexivity.
  - intros s' Hne. unfold drop. cbn [book set_book]. rewrite !tree_of_set_order_map, Hb.
    unfold m1, shrunk. cbn [book set_book].
    rewrite tree_of_set_tree_other by exact Hne. apply tree_of_set_order_map.
  - intros x. rewrite (order_set_same mf _ x) by reflexivity.
    rewrite (order_set_same m (drop n m) x) by reflexivity.
    unfold mf. rewrite (filled_order_set m1 _ _ _ _ _ _ Ha1 Ha2 (fun os => os) x HF1 HF2).
    rewrite (order_set_same m m1 x) by reflexivity.
    destruct (decide _); [|reflexivity]. destruct (order_set m x); reflexivity.
Qed.

Lemma Side_not_neq s : Side_not s <> s.
Proof. destruct s; discriminate. Qed.

Lemma set_quantity_same o : o = set_quantity o (quantity o).
Proof. destruct o; reflexivity. Qed.

Lemma market_loop_wf fuel : forall s n order m,
  book_wf (drop n m) -> sessions_ok m -> is_Some (accounts m !! account order) ->
  0 <= quantity order ->
  (tree_size (tree_of s (book m)) < fuel)%nat ->
  exists order' m',
    LimitTree_market_loop fuel s UIDOrderMap_erase order m = Ok order' m' /\
    loop_post s n order m order' m'.
Proof.
  induction fuel as [|fuel IH]; intros s n order m Hwf Hs Hat Hq Hfuel; [lia|].
  assert (Hstop : LimitTree_market_loop (S fuel) s UIDOrderMap_erase order m = Ok order m ->
                  exists order' m',
                    LimitTree_market_loop (S fuel) s UIDOrderMap_erase order m = Ok order' m' /\
                    loop_post s n order m order' m').
  { intros E. exists order, m. split; [exact E|].
    unfold loop_post. split; [exact Hwf|]. split; [exact Hs|].
    split; [reflexivity|]. split; [reflexivity|]. split; [reflexivity|].
    split; [auto|]. split; [apply set_quantity_same|]. split; lia. }
  pose proof (wf_tree (drop n m) s Hwf) as Htw.
  change (tree_of s (book (drop n m))) with (tree_of s (book m)) in Htw.
  change (order_map (book (drop n m))) with (delete n (order_map (book m))) in Htw.
  destruct (best (tree_of s (book m))) as [p|] eqn:Hbest.
  2:{ apply Hstop, loop_stop. rewrite Hbest. exact I. }
  destruct ((quantity order =? 0) || negb (can_match s p (price order))) eqn:Hgo.
  { apply Hstop, loop_stop. rewrite Hbest. exact Hgo. }
  (* the head of the best level *)
  assert (Hl : is_Some (limits (tree_of s (book m)) !! p)).
  { destruct Htw as (_ & Hb & _). rewrite Hbest in Hb. symmetry in Hb.
    apply find_best_Some in Hb as [Hp _]. exact Hp. }
  destruct Hl as [l Hl].
  pose proof (proj1 Htw p l Hl) as Hlw.
  destruct (fifo l) as [|u f] eqn:Ef; [destruct Hlw as (_ & Hne & _); congruence|].
  assert (Hhead : head (fifo l) = Some u) by (rewrite Ef; reflexivity).
  assert (Hu : u ∈ fifo l) by (rewrite Ef; left).
  destruct (level_wf_in _ _ _ _ _ Hlw Hu) as (mo & Ho' & Hside & Hprice).
  apply lookup_delete_Some in Ho' as [Hnu Ho].
  assert (Hun : u <> n) by congruence.
  assert (Hod : order_map (book (drop n m)) !! u = Some mo).
  { unfold drop. cbn [book set_book set_order_map order_map].
    rewrite lookup_delete_ne by congruence. exact Ho. }
  destruct (wf_order _ u mo Hwf Hod) as (_ & _ & Hqm & _ & Hlim & _ & Hacc).
  rewrite Hprice in Hlim.
  apply holds_inv in Hacc as (am & Ham & _).
  change (accounts (drop n m)) with (accounts m) in Ham.
  assert (Ham' : is_Some (accounts m !! account mo)) by eauto.
  pose proof (tree_size_count _ _ _ Htw) as Hsize.
  pose proof (level_wf_count _ _ _ _ Hlw) as Hlc.
  assert (Hcle : count l <= tree_count (tree_of s (book m))).
  { destruct Htw as (_ & _ & Hc & _). rewrite Hc.
    apply (sum_over_ge count _ p l); [|exact Hl]. eapply tree_wf_counts. exact (wf_tree _ s Hwf). }
  destruct (Z_le_gt_dec (quantity mo) (quantity order)) as [Hle|Hgt].
  - (* the head is consumed *)
    destruct (loop_consumed fuel s order m p l u mo Hbest Hgo Hl Hhead Ho Hlim Hle Ham' Hat Hs)
      as (F1 & r1 & F2 & r2 & HF1 & HF2 & E).
    set (m4 := drop u (removed (filled m (account mo) F1 r1 (account order) F2 r2) s u mo p l))
      in *.
    set (order1 := set_quantity order (quantity order - quantity mo)) in *.
    assert (Hb : book (filled m (account mo) F1 r1 (account order) F2 r2) = book m)
      by (apply filled_book; assumption).
    assert (Hwf4 : book_wf (drop n m4))
      by (apply consumed_wf; assumption).
    assert (Hs4 : sessions_ok m4).
    { apply (sessions_ok_same (filled m (account mo) F1 r1 (account order) F2 r2));
        [reflexivity|reflexivity|]. apply filled_sessions; assumption. }
    assert (Hdom4 : forall x, is_Some (accounts m !! x) -> is_Some (accounts m4 !! x)).
    { intros x Hx. apply (filled_dom m _ _ F1 F2 r1 r2 Ham' Hat x Hx). }
    assert (Ht4 : tree_count (tree_of s (book m4)) = tree_count (tree_of s (book m)) - 1).
    { unfold m4, drop, removed. cbn [book set_book]. rewrite tree_of_set_order_map.
      rewrite tree_of_set_tree, Hb. cbn [tree_count]. apply wrap32_small.
      destruct Htw as (_ & _ & _ & Hcb & _). lia. }
    pose proof (wf_tree (drop n m4) s Hwf4) as Htw4.
    change (tree_of s (book (drop n m4))) with (tree_of s (book m4)) in Htw4.
    pose proof (tree_size_count _ _ _ Htw4) as Hsize4.
    destruct (IH s n order1 m4) as (order' & m' & E' & Hpost); try assumption.
    + apply Hdom4. exact Hat.
    + unfold order1. cbn [set_quantity quantity]. lia.
    + lia.
    + exists order', m'. split; [rewrite E; exact E'|].
      destruct Hpost as (P1 & P2 & P3 & P4 & P5 & P6 & P7 & P8 & P9).
      unfold loop_post. split; [exact P1|]. split; [exact P2|].
      split; [|split; [|split; [|split; [|split; [|split]]]]].
      * rewrite P3. unfold m4, drop, removed. cbn [book set_book set_order_map order_map].
        rewrite order_map_set_tree, Hb. apply lookup_delete_ne. exact Hun.
      * rewrite P4. unfold m4, drop, removed. cbn [book set_book set_order_map sequence].
        rewrite sequence_set_tree, Hb. reflexivity.
      * rewrite P5. unfold m4, drop, removed. cbn [book set_book].
        rewrite tree_of_set_order_map, tree_of_set_tree_other by apply Side_not_neq.
        rewrite Hb. reflexivity.
      * intros x Hx. apply P6, Hdom4, Hx.
      * rewrite P7. unfold order1. destruct order; reflexivity.
      * unfold order1 in P8. cbn [set_quantity quantity] in P8. lia.
      * lia.
  - (* the head keeps a part *)
    destruct (loop_partial fuel s order m p l u mo Hbest Hgo Hl Hhead Ho ltac:(lia) Ham' Hat Hs)
      as (F1 & r1 & F2 & r2 & HF1 & HF2 & E).
    set (m1 := shrunk m s u mo p l (quantity order)) in *.
    assert (Ham1 : is_Some (accounts m1 !! account mo)) by exact Ham'.
    assert (Hat1 : is_Some (accounts m1 !! account order)) by exact Hat.
    assert (Hb : book (filled m1 (account mo) F1 r1 (account order) F2 r2) = book m1)
      by (apply filled_book; assumption).
    eexists _, _. split; [exact E|].
    unfold loop_post. split; [|split; [|split; [|split; [|split; [|split; [|split; [|split]]]]]]].
    + apply (partial_wf m n s u mo p l (quantity order)); try assumption. lia.
    + apply filled_sessions; assumption.
    + rewrite Hb. unfold m1, shrunk. cbn [book set_book]. rewrite order_map_set_tree.
      cbn [set_order_map order_map]. apply lookup_insert_ne. exact Hun.
    + rewrite Hb. unfold m1, shrunk. cbn [book set_book]. rewrite sequence_set_tree. reflexivity.
    + rewrite Hb. unfold m1, shrunk. cbn [book set_book].
      rewrite tree_of_set_tree_other by apply Side_not_neq. apply tree_of_set_order_map.
    + intros x Hx. apply (filled_dom m1 _ _ F1 F2 r1 r2 Ham1 Hat1 x Hx).
    + reflexivity.
    + cbn [set_quantity quantity]. lia.
    + rewrite Hb. unfold m1, shrunk. cbn [book set_book]. rewrite tree_of_set_tree.
      cbn [tree_count]. lia.
Qed.

(** ** [limit] and [market] return and keep the book well formed *)

Lemma memory_eq m m' :
  sells (book m') = sells (book m) -> buys (book m') = buys (book m) ->
  order_map (book m') = order_map (book m) -> sequence (book m') = sequence (book m) ->
  accounts m' = accounts m -> connections m' = connections m -> m' = m.
Proof.
  destruct m as [[] ? ?], m' as [[] ? ?]. cbn. intros; subst. reflexivity.
Qed.

Lemma drop_fresh n m : order_map (book m) !! n = None -> drop n m = m.
Proof.
  intros H. apply memory_eq; try reflexivity.
  unfold drop. cbn. apply delete_id. exact H.
Qed.

Lemma drop_emplaced m o :
  order_map (book m) !! sequence (book m) = None -> drop (sequence (book m)) (emplaced m o) = m.
Proof.
  intros H. apply memory_eq; try reflexivity.
  unfold drop, emplaced. cbn. apply delete_insert_id. exact H.
Qed.

Lemma limit_cases acct s q p m :
  order_map (book m) !! sequence (book m) = None ->
  let seq := sequence (book m) in
  LimitOrderBook_limit acct s q p m
  = (if crosses s p (book m) then
       let* o := LimitOrderBook_cross (Side_not s) seq in
       if quantity o =? 0
       then do UIDOrderMap_erase seq then ret 0
       else LimitOrderBook_rest s seq
     else LimitOrderBook_rest s seq) (emplaced m (mkOrder seq s q p None acct)).
Proof.
  intros Hfresh seq. unfold crosses.
  destruct s; unfold LimitOrderBook_limit, LimitOrderBook_limit_sell, LimitOrderBook_limit_buy,
    LimitOrderBook_get_sequence, UIDOrderMap_emplace, load_tree;
    unfold bind at 1 2 3 4; unfold get, ret, modify at 1; msimpl; rewrite Hfresh;
    unfold bind at 1; cbn [tree_of Side_not]; msimpl.
  - destruct (best (buys (book m))) as [k|]; [|reflexivity].
    destruct (p <=? k); reflexivity.
  - destruct (best (sells (book m))) as [k|]; [|reflexivity].
    destruct (k <=? p); reflexivity.
Qed.

Lemma rest_run m s q p acct a :
  order_map (book m) !! sequence (book m) = Some (mkOrder (sequence (book m)) s q p None acct) ->
  accounts m !! acct = Some a ->
  LimitOrderBook_rest s (sequence (book m)) m
  = Ok (sequence (book m)) (rested (drop (sequence (book m)) m) acct s q p a).
Proof.
  intros Ho Ha.
  unfold LimitOrderBook_rest, LimitTree_limit, UIDOrderMap_at, load_order, store_order,
    load_tree, store_tree, load_account, store_account, bind, get, unwrap, ret, modify.
  assert (Hom : forall t b, order_map (set_tree s t b) = order_map b)
    by (intros; destruct s; reflexivity).
  repeat first
    [ progress msimpl | rewrite Hom | rewrite lookup_insert_eq | rewrite Ho | rewrite Ha ].
  f_equal. unfold rested, drop, keep_last_best. msimpl.
  rewrite !tree_of_set_order_map. 
  apply memory_eq; msimpl; try reflexivity; try (destruct s; reflexivity).
  rewrite insert_delete_eq. reflexivity.
Qed.

Lemma fifo_volume_le (om : gmap Z Order) f :
  (forall u o, om !! u = Some o -> 0 <= quantity o < 2 ^ 32) ->
  fifo_volume om f <= Z.of_nat (length f) * (2 ^ 32 - 1).
Proof.
  intros Hq. induction f as [|x f IH]; [unfold fifo_volume; cbn; lia|].
  rewrite fifo_volume_cons. cbn [length]. rewrite Nat2Z.inj_succ.
  destruct (om !! x) as [o|] eqn:E; [specialize (Hq x o E)|]; lia.
Qed.

Lemma wf_volume_bound m s :
  book_wf m ->
  0 <= tree_count (tree_of s (book m)) /\
  tree_volume (tree_of s (book m)) <= tree_count (tree_of s (book m)) * (2 ^ 32 - 1).
Proof.
  intros Hwf. pose proof (wf_tree m s Hwf) as Htw.
  pose proof (tree_wf_counts _ _ _ Htw) as Hcnts.
  destruct Htw as (Hls & _ & Hc & _ & Hv & _). split.
  - rewrite Hc. apply sum_over_nonneg. exact Hcnts.
  - rewrite Hc, Hv. apply sum_over_le_scaled. intros p l Hl.
    destruct (Hls p l Hl) as (_ & _ & _ & -> & _ & -> & _).
    apply fifo_volume_le. intros u o Ho.
    destruct (wf_order m u o Hwf Ho) as (_ & _ & Hq & _). exact Hq.
Qed.

Lemma tree_market_wf s n order m :
  book_wf (drop n m) -> sessions_ok m -> is_Some (accounts m !! account order) ->
  0 <= quantity order ->
  exists order' m',
    LimitTree_market s UIDOrderMap_erase order m = Ok order' m' /\
    loop_post s n order m order' m'.
Proof.
  intros Hwf Hs Ha Hq.
  destruct (market_loop_wf (S (tree_size (tree_of s (book m)))) s n order m Hwf Hs Ha Hq)
    as (order' & m' & E & Hpost); [lia|].
  exists order', m'. split; [|exact Hpost]. exact E.
Qed.

Lemma Side_other s s' : s' <> s -> s' = Side_not s.
Proof. destruct s, s'; intros H; try reflexivity; contradiction. Qed.

Lemma loop_post_counts s n order m order' m' :
  loop_post s n order m order' m' ->
  forall s', tree_count (tree_of s' (book m')) <= tree_count (tree_of s' (book m)).
Proof.
  intros (_ & _ & _ & _ & P5 & _ & _ & _ & P9) s'.
  destruct (Side_eq_or_not s' s) as [->|Hne]; [exact P9|].
  rewrite (Side_other s s' Hne). rewrite P5. lia.
Qed.

(** On a well-formed book a market order of an existing account is matched
    to the end: the operation returns, and the book is well formed again. *)
Theorem market_wf m acct s q :
  book_wf m -> sessions_ok m -> is_Some (accounts m !! acct) -> 0 <= q ->
  exists m', LimitOrderBook_market acct s q m = Ok tt m' /\
    book_wf m' /\ sessions_ok m' /\ grows_by_one m m'.
Proof.
  intros Hwf Hs Ha Hq.
  pose proof (wf_fresh m Hwf) as Hfresh.
  set (n := sequence (book m)) in *.
  destruct (tree_market_wf (Side_not s) n (mkOrder n s q 0 None acct) m)
    as (order' & m' & E & Hpost); try assumption.
  { rewrite drop_fresh by exact Hfresh. exact Hwf. }
  pose proof (loop_post_counts _ _ _ _ _ _ Hpost) as Hcnt.
  destruct Hpost as (P1 & P2 & P3 & P4 & _ & P6 & _).
  exists m'. split; [|split; [|split; [exact P2|]]].
  - destruct s; unfold LimitOrderBook_market, LimitOrderBook_market_sell,
      LimitOrderBook_market_buy, LimitOrderBook_get_sequence;
      unfold bind at 1 2; unfold get, ret; fold n; cbn [Side_not] in E;
      rewrite (bind_run _ _ _ _ _ E); reflexivity.
  - rewrite drop_fresh in P1; [exact P1|]. rewrite P3. exact Hfresh.
  - split; [|split; [|exact P6]].
    + intros s'. specialize (Hcnt s'). lia.
    + rewrite P4. fold n. lia.
Qed.

(** On a well-formed book with room for one more order, a limit order of an
    existing account returns, and the book is well formed again. *)
Theorem limit_wf m acct s q p :
  book_wf m -> sessions_ok m -> is_Some (accounts m !! acct) ->
  0 <= q < 2 ^ 32 -> 0 <= p < 2 ^ 64 ->
  tree_count (tree_of s (book m)) + 1 < 2 ^ 32 ->
  sequence (book m) + 1 < 2 ^ 64 ->
  exists u m', LimitOrderBook_limit acct s q p m = Ok u m' /\
    book_wf m' /\ sessions_ok m' /\ grows_by_one m m'.
Proof.
  intros Hwf Hs [a Ha] Hq Hp Hc Hseq.
  pose proof (wf_fresh m Hwf) as Hfresh.
  pose proof (proj1 Hwf) as Hs0.
  destruct (wf_volume_bound m s Hwf) as (Hc0 & Hvb).
  assert (Hv : tree_volume (tree_of s (book m)) + q < 2 ^ 64).
  { assert ((tree_count (tree_of s (book m)) + 1) * (2 ^ 32 - 1) < 2 ^ 32 * 2 ^ 32) by nia.
    change (2 ^ 64) with (2 ^ 32 * 2 ^ 32). lia. }
  rewrite (limit_cases acct s q p m Hfresh). cbn zeta.
  set (n := sequence (book m)) in *.
  set (o := mkOrder n s q p None acct).
  set (m0 := emplaced m o).
  assert (Hrest : forall m1 q1 a1,
            sequence (book m1) = n ->
            order_map (book m1) !! n = Some (mkOrder n s q1 p None acct) ->
            accounts m1 !! acct = Some a1 ->
            book_wf (drop n m1) -> sessions_ok m1 -> 0 <= q1 <= q ->
            tree_of s (book m1) = tree_of s (book m) ->
            tree_count (tree_of (Side_not s) (book m1))
              <= tree_count (tree_of (Side_not s) (book m)) ->
            (forall x, is_Some (accounts m !! x) -> is_Some (accounts m1 !! x)) ->
            exists u m', LimitOrderBook_rest s n m1 = Ok u m' /\
              book_wf m' /\ sessions_ok m' /\ grows_by_one m m').
  { intros m1 q1 a1 Hn Ho1 Ha1 Hwf1 Hs1 Hq1 Ht1 Hto Hdom.
    assert (Hts : tree_of s (book (drop n m1)) = tree_of s (book m)).
    { unfold drop. cbn [book set_book]. rewrite tree_of_set_order_map. exact Ht1. }
    exists n, (rested (drop n m1) acct s q1 p a1). split; [|split; [|split]].
    - rewrite <- Hn in *. apply rest_run; assumption.
    - apply rested_wf; try assumption; try lia.
      + rewrite Hts. exact Hc.
      + rewrite Hts. lia.
      + change (sequence (book (drop n m1))) with (sequence (book m1)). rewrite Hn. exact Hseq.
    - apply sessions_ok_intro. intros x a' h Hx Hh. unfold rested in Hx. cbn [accounts] in Hx.
      change (connections (rested (drop n m1) acct s q1 p a1)) with (connections m1).
      apply lookup_insert_Some in Hx as [[<- <-]|[Hne Hx]].
      + apply (sessions_ok_at m1 acct a1 h Hs1 Ha1). exact Hh.
      + apply (sessions_ok_at m1 x a' h Hs1 Hx Hh).
    - split; [|split].
      + intros s'. unfold rested. cbn [book]. destruct (Side_eq_or_not s' s) as [->|Hne].
        * rewrite tree_of_seq_same. cbn [tree_count]. rewrite Hts.
          rewrite wrap32_small by lia. lia.
        * rewrite tree_of_seq_other by exact Hne. unfold drop. cbn [book set_book].
          rewrite tree_of_set_order_map.
          rewrite (Side_other s s' Hne). lia.
      + unfold rested. cbn [book]. destruct s; cbn [set_tree set_order_map set_sequence sequence];
          change (sequence (book (drop n m1))) with (sequence (book m1)); rewrite Hn;
          rewrite wrap64_small by (unfold n in *; lia); unfold n; lia.
      + intros x Hx. unfold rested. cbn [accounts].
        destruct (decide (x = acct)) as [->|Hne].
        * rewrite lookup_insert_eq. eauto.
        * rewrite lookup_insert_ne by congruence. apply Hdom, Hx. }
  assert (Hm0 : drop n m0 = m) by (apply drop_emplaced; exact Hfresh).
  assert (Ho0 : order_map (book m0) !! n = Some o) by apply lookup_insert_eq.
  destruct (crosses s p (book m)).
  2:{ apply (Hrest m0 q a eq_refl Ho0 Ha);
        [rewrite Hm0; exact Hwf | exact Hs | lia | apply tree_of_set_order_map | | auto].
      unfold m0, emplaced. cbn [book set_book]. rewrite tree_of_set_order_map. lia. }
  (* the order crosses *)
  destruct (tree_market_wf (Side_not s) n o m0) as (o' & m1 & E & Hpost); try assumption.
  { rewrite Hm0. exact Hwf. }
  { exists a. exact Ha. }
  { cbn. lia. }
  pose proof (loop_post_counts _ _ _ _ _ _ Hpost) as Hcnt.
  destruct Hpost as (P1 & P2 & P3 & P4 & P5 & P6 & P7 & P8 & P9).
  set (m2 := set_book (set_order_map (<[n := o']> (order_map (book m1))) (book m1)) m1).
  assert (Ecross : LimitOrderBook_cross (Side_not s) n m0 = Ok o' m2).
  { unfold LimitOrderBook_cross, UIDOrderMap_at.
    unfold bind at 1 2. unfold get, unwrap. rewrite Ho0. unfold ret.
    rewrite (bind_run _ _ _ _ _ E). unfold store_order, modify, bind. fold m2.
    unfold m2. cbn [book set_book set_order_map order_map]. rewrite lookup_insert_eq.
    reflexivity. }
  rewrite (bind_run _ _ _ _ _ Ecross).
  assert (Hd2 : drop n m2 = drop n m1).
  { apply memory_eq; try reflexivity. unfold drop, m2. cbn. apply delete_insert_eq. }
  destruct (P6 acct ltac:(eauto)) as [a1 Ha1].
  assert (Hside : Side_not (Side_not s) = s) by (destruct s; reflexivity).
  rewrite Hside in P5.
  assert (Hm0t : forall s', tree_of s' (book m0) = tree_of s' (book m))
    by (intros s'; apply tree_of_set_order_map).
  destruct (Z.eqb_spec (quantity o') 0) as [E0|E0].
  - exists 0, (drop n m1). split; [|split; [exact P1|split]].
    + unfold bind, UIDOrderMap_erase, modify, ret. f_equal. exact Hd2.
    + apply (sessions_ok_same m1); [reflexivity|reflexivity|exact P2].
    + split; [|split].
      * intros s'. unfold drop. cbn [book set_book]. rewrite tree_of_set_order_map.
        specialize (Hcnt s'). rewrite Hm0t in Hcnt. lia.
      * change (sequence (book (drop n m1))) with (sequence (book m1)). rewrite P4.
        change (sequence (book m0)) with n. lia.
      * intros x Hx. apply P6. exact Hx.
  - apply (Hrest m2 (quantity o') a1 P4).
    + unfold m2. cbn [book set_book set_order_map order_map]. rewrite lookup_insert_eq.
      rewrite P7. reflexivity.
    + exact Ha1.
    + rewrite Hd2. exact P1.
    + exact P2.
    + cbn [quantity o] in P8. exact P8.
    + unfold m2. cbn [book set_book]. rewrite tree_of_set_order_map, P5. apply Hm0t.
    + unfold m2. cbn [book set_book]. rewrite tree_of_set_order_map.
      rewrite <- (Hm0t (Side_not s)). exact P9.
    + intros x Hx. apply P6. exact Hx.
Qed.

(** ** Runs of requests *)

Lemma wf_engine_inv m : book_wf m -> engine_inv m.
Proof.
  intros Hwf. split; [|split].
  - intros u [o Ho]. destruct (wf_order m u o Hwf Ho) as (_ & ? & _). lia.
  - intros s u (p & l & Hl & Hu).
    destruct (level_wf_in _ _ _ _ _ (wf_level m s p l Hwf Hl) Hu) as (o & Ho & _).
    destruct (wf_order m u o Hwf Ho) as (_ & ? & _). lia.
  - intros s u o (p & l & Hl & Hu) Ho.
    destruct (level_wf_in _ _ _ _ _ (wf_level m s p l Hwf Hl) Hu) as (o' & Ho' & Hs & _).
    congruence.
Qed.

Lemma new_wf accts conns :
  map_Forall (fun _ a => orders (base a) = ∅) accts ->
  book_wf (mkMemory LimitOrderBook_new accts conns).
Proof.
  intros Hempty. apply book_wf_trees. cbn [book accounts].
  split; [cbn; lia|]. split; [|split].
  - intros s.
    assert (Ht : tree_of s LimitOrderBook_new = LimitTree_new) by (destruct s; reflexivity).
    rewrite Ht. unfold tree_wf, LimitTree_new. cbn [limits best tree_count tree_volume].
    split; [intros p l Hl; rewrite lookup_empty in Hl; discriminate|].
    rewrite (proj2 (find_best_None s ∅) eq_refl), !sum_over_empty. repeat split; lia.
  - intros u o Ho. unfold LimitOrderBook_new in Ho. cbn [order_map] in Ho.
    rewrite lookup_empty in Ho. discriminate.
  - intros n a Ha x Hx. rewrite (Hempty n a Ha) in Hx. apply not_elem_of_empty in Hx.
    contradiction.
Qed.

Lemma has_room_tree m k s : has_room m k -> tree_count (tree_of s (book m)) + k < 2 ^ 32.
Proof. intros (A & B & _). destruct s; assumption. Qed.

Lemma serve_returns r m :
  book_wf m -> sessions_ok m -> admissible m r -> has_room m 1 ->
  exists us m', serve r m = Ok us m' /\ book_wf m' /\ sessions_ok m' /\ grows_by_one m m'.
Proof.
  intros Hwf Hs Hr Hroom. destruct r as [acct s q p|acct s q|u|u q]; cbn in Hr; try contradiction.
  - destruct Hr as (Ha & Hq & Hp).
    destruct (limit_wf m acct s q p Hwf Hs Ha Hq Hp (has_room_tree m 1 s Hroom))
      as (u & m' & E & Hwf' & Hs' & Hg); [apply Hroom|].
    exists [u], m'. split; [|auto]. cbn [serve]. rewrite (bind_run _ _ _ _ _ E). reflexivity.
  - destruct Hr as (Ha & Hq).
    destruct (market_wf m acct s q Hwf Hs Ha ltac:(lia)) as (m' & E & Hwf' & Hs' & Hg).
    exists [], m'. split; [|auto]. cbn [serve]. rewrite (bind_run _ _ _ _ _ E). reflexivity.
Qed.

Lemma admissible_grows m m' r : grows_by_one m m' -> admissible m r -> admissible m' r.
Proof.
  intros (_ & _ & Hdom) Hr. destruct r; cbn in *; try contradiction.
  - destruct Hr as (Ha & Hq). split; [apply Hdom, Ha|exact Hq].
  - destruct Hr as (Ha & Hq). split; [apply Hdom, Ha|exact Hq].
Qed.

Lemma has_room_grows m m' k :
  0 <= k -> grows_by_one m m' -> has_room m (k + 1) -> has_room m' k.
Proof.
  intros Hk (Hc & Hs & _) (A & B & C). pose proof (Hc Sell) as HS. pose proof (Hc Buy) as HB.
  cbn [tree_of] in HS, HB. unfold has_room. lia.
Qed.

Lemma has_room_less m k k' : 0 <= k' <= k -> has_room m k -> has_room m k'.
Proof. unfold has_room. lia. Qed.

(** A run of limit and market orders on a well-formed book with room for them
    is served to the end. *)
Lemma serve_all_returns rs : forall m,
  book_wf m -> sessions_ok m -> Forall (admissible m) rs ->
  has_room m (Z.of_nat (length rs)) ->
  exists uids m', serve_all rs m = Ok uids m' /\ book_wf m' /\ sessions_ok m'.
Proof.
  induction rs as [|r rs IH]; intros m Hwf Hs Hrs Hroom.
  - exists [], m. auto.
  - apply Forall_cons in Hrs as [Hr Hrs]. cbn [length] in Hroom.
    rewrite Nat2Z.inj_succ in Hroom.
    destruct (serve_returns r m Hwf Hs Hr) as (us & m1 & E & Hwf1 & Hs1 & Hg).
    { eapply has_room_less; [|exact Hroom]. lia. }
    destruct (IH m1 Hwf1 Hs1) as (us' & m' & E' & Hwf' & Hs').
    { eapply Forall_impl; [exact Hrs|]. intros x. apply admissible_grows, Hg. }
    { apply (has_room_grows m); [lia|exact Hg|]. 
      replace (Z.of_nat (length rs) + 1) with (Z.succ (Z.of_nat (length rs))) by lia.
      exact Hroom. }
    exists (us ++ us'), m'. split; [|auto]. cbn [serve_all].
    rewrite (bind_run _ _ _ _ _ E), (bind_run _ _ _ _ _ E'). reflexivity.
Qed.


(** C2 (as amended).  Over any run of requests that the book serves, the
    uids that the limit requests return, once the zeros of the orders consumed
    on entry are left out, are the consecutive numbers from the sequence number
    before the run up to the one after it: they increase strictly, no uid is
    returned twice, and there is no gap.  An order consumed on entry returns 0
    and does not advance the counter.  And a run of limit and market orders of
    existing accounts on a well-formed book with room for them is served. *)
Theorem uids_consecutive (rs : list Request) (m : Memory) :
  1 <= seq_of m ->
  seq_of m + Z.of_nat (length rs) < 2 ^ 64 ->
  (forall uids m', serve_all rs m = Ok uids m' ->
     filter (fun u => u <> 0) uids = seqZ (seq_of m) (seq_of m' - seq_of m) /\
     seq_of m <= seq_of m' <= seq_of m + Z.of_nat (length rs)) /\
  (book_wf m -> sessions_ok m -> Forall (admissible m) rs ->
   has_room m (Z.of_nat (length rs)) ->
   exists uids m', serve_all rs m = Ok uids m').
Proof.
  intros Hlo Hhi. split.
  - intros uids m' E. exact (uids_of_run rs m m' uids Hlo Hhi E).
  - intros Hwf Hs Hrs Hroom.
    destruct (serve_all_returns rs m Hwf Hs Hrs Hroom) as (uids & m' & E & _).
    eauto.
Qed.

Ltac mrun :=
  repeat (first
    [ progress cbn [bind ret raise get put modify unwrap]
    | progress unfold bind, ret, raise, get, put, modify, unwrap ]).

(** ** Trade messages *)

(** C4 (as amended).  The trade message of a maker-side fill
    ([limit_fill], [limit_partial]) carries the uid of the maker order; the
    trade message of a taker-side fill ([market_fill], [market_partial]) carries
    the order id 0, whatever the taker order is. *)
Lemma trade_ids (name : string) (a : SystemAccount) (h : nat) (x : Connection)
    (lim mkt : Order) (m : Memory) :
  accounts m !! name = Some a ->
  handler a = Some h ->
  connections m !! h = Some x ->
  (exists m', SystemAccount_limit_fill name lim mkt m = Ok tt m' /\
     outbox m' h = outbox m h ++
       [(conn_sequence x, TradeResponse (uid lim) (price lim) (quantity lim) 0
                            (bool_to_side (Side_to_bool (side lim))))]) /\
  (exists m', SystemAccount_limit_partial name lim mkt m = Ok tt m' /\
     outbox m' h = outbox m h ++
       [(conn_sequence x, TradeResponse (uid lim) (price lim) (quantity mkt) (quantity lim)
                            (bool_to_side (Side_to_bool (side lim))))]) /\
  (exists m', SystemAccount_market_fill name lim mkt m = Ok tt m' /\
     outbox m' h = outbox m h ++
       [(conn_sequence x, TradeResponse 0 (price lim) (quantity mkt) 0
                            (bool_to_side (Side_to_bool (side mkt))))]) /\
  (exists m', SystemAccount_market_partial name lim mkt m = Ok tt m' /\
     outbox m' h = outbox m h ++
       [(conn_sequence x, TradeResponse 0 (price lim) (quantity lim) (quantity mkt)
                            (bool_to_side (Side_to_bool (side mkt))))]).
Proof.
  intros Ha Hh Hx.
  unfold SystemAccount_limit_fill, SystemAccount_limit_partial,
    SystemAccount_market_fill, SystemAccount_market_partial,
    Connection_trade, Connection_send, load_account, store_account,
    load_connection, store_connection, outbox.
  mrun. rewrite Ha. cbn. rewrite Hh. cbn. rewrite Hx. cbn.
  repeat split; eexists; (split; [reflexivity|]); cbn;
    rewrite lookup_insert_eq; reflexivity.
Qed.

(** ** The replace request *)


(** ** The properties at concrete books *)


(** C2, counterexample to the gaps: the second order is consumed on entry
    and returns 0, the counter stays at 2, and the third order is given the
    uid 2 that the consumed order had reserved. *)
Lemma consumed_uid_is_reused :
  exists m1 m2 m3,
    LimitOrderBook_limit "ann" Sell 10 100 example_memory = Ok 1 m1 /\
    sequence (book m1) = 2 /\
    LimitOrderBook_limit "bob" Buy 10 100 m1 = Ok 0 m2 /\
    sequence (book m2) = 2 /\
    LimitOrderBook_limit "ann" Sell 5 100 m2 = Ok 2 m3 /\
    sequence (book m3) = 3.
Proof.
  eexists _, _, _.
  split; [vm_compute; reflexivity|]. split; [reflexivity|].
  split; [vm_compute; reflexivity|]. split; [reflexivity|].
  split; [vm_compute; reflexivity|]. reflexivity.
Qed.

(** C2, the theorem at a run of eight requests, one of them consumed on
    entry. *)
Lemma uids_consecutive_witness :
  let m' := exec (serve_all trading_day) example_memory in
  filter (fun u => u <> 0) [1; 0; 2; 3; 4]
    = seqZ (seq_of example_memory) (seq_of m' - seq_of example_memory) /\
  seq_of example_memory <= seq_of m'
    <= seq_of example_memory + Z.of_nat (length trading_day).
Proof.
  apply (proj1 (uids_consecutive trading_day example_memory
                  ltac:(unfold seq_of; simpl; lia) ltac:(unfold seq_of; simpl; lia))).
  vm_compute. reflexivity.
Defined.

(** C4, counterexample: "bob" sells 40 at 100 against a resting bid of 20;
    the order is a limit order, it rests with the uid 2 for the remaining 20,
    and the report of its fill carries the order id 0, not 2. *)
Lemma crossing_limit_taker_gets_zero :
  exists m',
    LimitOrderBook_limit "bob" Sell 40 100 bid_resting = Ok 2 m' /\
    order_map (book m') !! 2 = Some (mkOrder 2 Sell 20 100 (Some 100) "bob") /\
    outbox bid_resting 7 = [] /\
    outbox m' 7 = [(0, TradeResponse 0 100 20 20 WireSell)].
Proof. eexists. split; [vm_compute; reflexivity|]. vm_compute. auto. Qed.

(** C3.  In each of the four fill callbacks the capital of the account
    moves by the traded quantity times the price of the resting (maker) order
    [lim]; and neither the bookkeeping nor the trade message of a callback
    depends on the price the taker [mkt] submitted. *)
Theorem fills_at_maker_price (a : Account) (name : string) (lim mkt : Order) (p' : Z)
    (m : Memory) :
  (capital (Account_limit_fill a lim mkt)
     = swrap64 (capital a + proceeds (side lim) (quantity lim) (price lim)) /\
   capital (Account_limit_partial a lim mkt)
     = swrap64 (capital a + proceeds (side lim) (quantity mkt) (price lim)) /\
   capital (Account_market_fill a lim mkt)
     = swrap64 (capital a + proceeds (side mkt) (quantity mkt) (price lim)) /\
   capital (Account_market_partial a lim mkt)
     = swrap64 (capital a + proceeds (side mkt) (quantity lim) (price lim))) /\
  (SystemAccount_limit_fill name lim (with_price mkt p') m
     = SystemAccount_limit_fill name lim mkt m /\
   SystemAccount_limit_partial name lim (with_price mkt p') m
     = SystemAccount_limit_partial name lim mkt m /\
   SystemAccount_market_fill name lim (with_price mkt p') m
     = SystemAccount_market_fill name lim mkt m /\
   SystemAccount_market_partial name lim (with_price mkt p') m
     = SystemAccount_market_partial name lim mkt m).
Proof.
  split.
  - unfold Account_limit_fill, Account_limit_partial, Account_market_fill,
      Account_market_partial, Account_fill, proceeds.
    repeat split; destruct (side lim), (side mkt); cbn [capital Account_cancel];
      f_equal; lia.
  - repeat split; reflexivity.
Qed.

(** C4, the theorem at the account "bob", bound to the session 7. *)
Lemma trade_ids_witness :
  let lim := mkOrder 1 Buy 20 100 (Some 100) "ann" in
  let mkt := mkOrder 2 Sell 40 100 None "bob" in
  let m := example_memory in
  (exists m', SystemAccount_limit_fill "bob" lim mkt m = Ok tt m' /\
     outbox m' 7 = outbox m 7 ++
       [(0, TradeResponse (uid lim) (price lim) (quantity lim) 0
                            (bool_to_side (Side_to_bool (side lim))))]) /\
  (exists m', SystemAccount_limit_partial "bob" lim mkt m = Ok tt m' /\
     outbox m' 7 = outbox m 7 ++
       [(0, TradeResponse (uid lim) (price lim) (quantity mkt) (quantity lim)
                            (bool_to_side (Side_to_bool (side lim))))]) /\
  (exists m', SystemAccount_market_fill "bob" lim mkt m = Ok tt m' /\
     outbox m' 7 = outbox m 7 ++
       [(0, TradeResponse 0 (price lim) (quantity mkt) 0
                            (bool_to_side (Side_to_bool (side mkt))))]) /\
  (exists m', SystemAccount_market_partial "bob" lim mkt m = Ok tt m' /\
     outbox m' 7 = outbox m 7 ++
       [(0, TradeResponse 0 (price lim) (quantity lim) (quantity mkt)
                            (bool_to_side (Side_to_bool (side mkt))))]).
Proof.
  exact (trade_ids "bob" (mkSystemAccount Account_default "bob" "pw-bob" (Some 7%nat) true)
           7%nat (mkConnection (Some "bob") [] 0)
           (mkOrder 1 Buy 20 100 (Some 100) "ann") (mkOrder 2 Sell 40 100 None "bob")
           example_memory eq_refl eq_refl eq_refl).
Defined.

(** C6, counterexample: the best sell level exists, at the price 0, the
    sum 0 + 0 is below the best bid 10 of the other book, and the result is
    false. *)
Lemma sell_at_zero_never_crosses :
  best (sells (book sell_at_zero)) = Some 0 /\
  best (buys (book buy_at_ten)) = Some 10 /\
  LimitOrderBook_best_sell (book sell_at_zero) + 0 < LimitOrderBook_best_buy (book buy_at_ten) /\
  LimitOrderBook_does_cross (book sell_at_zero) (book buy_at_ten) 0 = false.
Proof. vm_compute. auto. Qed.

(** C6 (as amended).  [does_cross] returns true exactly when [best_sell()]
    of this book is not 0 and the exact sum of it and the spread is below
    [best_buy()] of the other book; when the sum exceeds the largest price the
    result is false.  ([best_sell()] is 0 on an empty side and also when the
    best level is at the price 0.) *)
Theorem does_cross_iff (this other : LimitOrderBook) (spread : Z) :
  0 <= LimitOrderBook_best_sell this < 2 ^ 64 ->
  0 <= LimitOrderBook_best_buy other < 2 ^ 64 ->
  0 <= spread < 2 ^ 32 ->
  (LimitOrderBook_does_cross this other spread = true <->
     LimitOrderBook_best_sell this <> 0 /\
     LimitOrderBook_best_sell this + spread < LimitOrderBook_best_buy other) /\
  (UINT64_MAX < LimitOrderBook_best_sell this + spread ->
     LimitOrderBook_does_cross this other spread = false).
Proof.
  intros Hs Hb Hq. unfold LimitOrderBook_does_cross, wrap64, UINT64_MAX in *.
  rewrite (Z.mod_small (2 ^ 64 - 1 - spread)) by lia.
  destruct (Z.eqb_spec (LimitOrderBook_best_sell this) 0) as [E|E].
  { split; [|reflexivity]. split; [discriminate | intros [? _]; contradiction]. }
  destruct (Z.ltb_spec (2 ^ 64 - 1 - spread) (LimitOrderBook_best_sell this)) as [O|O].
  { split; [|reflexivity]. split; [discriminate | intros (_ & ?); lia]. }
  rewrite Z.mod_small by lia.
  destruct (Z.ltb_spec (LimitOrderBook_best_sell this + spread) (LimitOrderBook_best_buy other)).
  - split; [|lia]. split; [intros _; split; lia | reflexivity].
  - split; [|reflexivity]. split; [discriminate | intros (_ & ?); lia].
Qed.

(** C6, the theorem at a book whose best ask is 100 and a book whose best bid
    is 100. *)
Lemma does_cross_iff_witness :
  (LimitOrderBook_does_cross (book resting_memory) (book bid_resting) 0 = true <->
     LimitOrderBook_best_sell (book resting_memory) <> 0 /\
     LimitOrderBook_best_sell (book resting_memory) + 0
       < LimitOrderBook_best_buy (book bid_resting)) /\
  (UINT64_MAX < LimitOrderBook_best_sell (book resting_memory) + 0 ->
     LimitOrderBook_does_cross (book resting_memory) (book bid_resting) 0 = false).
Proof.
  apply (does_cross_iff (book resting_memory) (book bid_resting) 0); vm_compute;
    split; (discriminate || reflexivity).
Defined.

Lemma find_best_empty s : find_best s ∅ = None.
Proof. unfold find_best. apply map_fold_empty. Qed.

(** C10.  [best_sell()], [best_buy()] and [best(side)] return 0 when the
    side has no best level, in particular on a side without levels of a
    well-formed book and on a new book; a book whose best sell level is at the
    price 0 answers 0 as well. *)
Theorem best_of_empty_side (b : LimitOrderBook) :
  (best (sells b) = None -> LimitOrderBook_best_sell b = 0) /\
  (best (buys b) = None -> LimitOrderBook_best_buy b = 0) /\
  (forall s, best (tree_of s b) = None -> LimitOrderBook_best b s = 0) /\
  (forall m s, book_wf m -> limits (tree_of s (book m)) = ∅ ->
     LimitOrderBook_best (book m) s = 0) /\
  (forall s, LimitOrderBook_best LimitOrderBook_new s = 0) /\
  is_Some (limits (sells (book sell_at_zero)) !! 0) /\
  LimitOrderBook_best_sell (book sell_at_zero) = LimitOrderBook_best_sell LimitOrderBook_new.
Proof.
  assert (H : forall b s, best (tree_of s b) = None -> LimitOrderBook_best b s = 0).
  { intros b' s. unfold LimitOrderBook_best, LimitOrderBook_best_sell, LimitOrderBook_best_buy.
    destruct s; cbn [tree_of]; intros ->; reflexivity. }
  split; [exact (H b Sell)|]. split; [exact (H b Buy)|]. split; [exact (H b)|].
  split; [|split; [|split]].
  - intros m s Hwf Hempty. apply H.
    destruct (wf_tree m s Hwf) as (_ & -> & _). rewrite Hempty. apply find_best_empty.
  - intros s. destruct s; reflexivity.
  - vm_compute. eauto.
  - vm_compute. reflexivity.
Qed.

Lemma reduced_view m order_id delta o l :
  let m' := reduced m order_id delta o l in
  order_map (book m') !! order_id = Some (set_quantity o (quantity o - delta)) /\
  limits (tree_of (side o) (book m')) !! price o
    = Some (mkLimit (key l) (count l) (volume l - delta) (fifo l)) /\
  tree_volume (tree_of (side o) (book m')) = tree_volume (tree_of (side o) (book m)) - delta /\
  tree_count (tree_of (side o) (book m')) = tree_count (tree_of (side o) (book m)) /\
  accounts m' = accounts m.
Proof.
  unfold reduced. cbn [book set_book accounts].
  assert (Ht : forall t b, tree_of (side o) (set_tree (side o) t b) = t)
    by (intros; destruct (side o); reflexivity).
  assert (Hom : forall t b, order_map (set_tree (side o) t b) = order_map b)
    by (intros; destruct (side o); reflexivity).
  rewrite Ht, Hom. cbn [limits tree_volume tree_count set_order_map order_map].
  rewrite !lookup_insert_eq. auto.
Qed.

(** C5.  For an order [o] stored under [order_id] in a well-formed book:
    reducing by less than its quantity subtracts [delta] from the quantity of
    the order, from the volume of its level and from the volume of its side,
    and leaves counts and accounts as they are; reducing by exactly its
    quantity does what [cancel] does, after which the order is in no level,
    not in the uid map and not in the order set of its account; in both cases
    the book is well formed again.  Reducing by more raises the exception and
    leaves the whole state unchanged. *)
Theorem reduce_three_cases (m : Memory) (order_id delta : Z) (o : Order) :
  book_wf m ->
  order_map (book m) !! order_id = Some o ->
  0 <= delta ->
  exists l a,
    limits (tree_of (side o) (book m)) !! price o = Some l /\
    accounts m !! account o = Some a /\
    (delta < quantity o ->
       exists m', LimitOrderBook_reduce order_id delta m = Ok tt m' /\
         order_map (book m') !! order_id = Some (set_quantity o (quantity o - delta)) /\
         limits (tree_of (side o) (book m')) !! price o
           = Some (mkLimit (key l) (count l) (volume l - delta) (fifo l)) /\
         tree_volume (tree_of (side o) (book m'))
           = tree_volume (tree_of (side o) (book m)) - delta /\
         tree_count (tree_of (side o) (book m')) = tree_count (tree_of (side o) (book m)) /\
         accounts m' = accounts m /\
         book_wf m') /\
    (delta = quantity o ->
       LimitOrderBook_reduce order_id delta m = LimitOrderBook_cancel order_id m /\
       exists m', LimitOrderBook_reduce order_id delta m = Ok tt m' /\
         book_wf m' /\
         order_map (book m') !! order_id = None /\
         (forall s, ~ rests m' s order_id) /\
         (exists a', accounts m' !! account o = Some a' /\ order_id ∉ orders (base a'))) /\
    (quantity o < delta ->
       LimitOrderBook_reduce order_id delta m
         = Raise (Thrown "trying to remove more than available") m).
Proof.
  intros Hwf Ho Hd.
  destruct (wf_order_level m order_id o Hwf Ho) as (l & Hl & Hu).
  destruct (wf_order_account m order_id o Hwf Ho) as (a & Ha & Hau).
  destruct (wf_order m order_id o Hwf Ho) as (_ & _ & _ & _ & Hlim & _).
  exists l, a. split; [exact Hl|]. split; [exact Ha|]. split; [|split].
  - intros Hlt. destruct (reduce_partial m order_id delta o Hwf Ho) as (l' & Hl' & H); [lia|].
    replace l' with l in H by congruence.
    exists (reduced m order_id delta o l). split; [exact H|].
    pose proof (reduced_view m order_id delta o l) as (V1 & V2 & V3 & V4 & V5).
    repeat (split; [assumption|]). apply reduced_wf; try assumption. lia.
  - intros ->. rewrite (reduce_full_run m order_id o l a Ho Hlim Hl Ha).
    rewrite (cancel_run m order_id o l a Ho Hlim Hl Ha). split; [reflexivity|].
    eexists. split; [reflexivity|]. split; [apply canceled_wf; assumption|].
    apply canceled_gone; assumption.
  - intros Hgt. exact (reduce_excess m order_id delta o Ho Hgt).
Qed.

(** C5, the theorem at the order 1 (50 shares) of a book with four resting
    orders. *)
Lemma reduce_three_cases_witness :
  exists l a,
    limits (tree_of Sell (book resting_memory)) !! 100 = Some l /\
    accounts resting_memory !! "ann" = Some a /\
    (20 < 50 ->
       exists m', LimitOrderBook_reduce 1 20 resting_memory = Ok tt m' /\
         order_map (book m') !! 1 = Some (mkOrder 1 Sell 30 100 (Some 100) "ann") /\
         limits (tree_of Sell (book m')) !! 100
           = Some (mkLimit (key l) (count l) (volume l - 20) (fifo l)) /\
         tree_volume (tree_of Sell (book m'))
           = tree_volume (tree_of Sell (book resting_memory)) - 20 /\
         tree_count (tree_of Sell (book m')) = tree_count (tree_of Sell (book resting_memory)) /\
         accounts m' = accounts resting_memory /\
         book_wf m') /\
    (20 = 50 ->
       LimitOrderBook_reduce 1 20 resting_memory = LimitOrderBook_cancel 1 resting_memory /\
       exists m', LimitOrderBook_reduce 1 20 resting_memory = Ok tt m' /\
         book_wf m' /\
         order_map (book m') !! 1 = None /\
         (forall s, ~ rests m' s 1) /\
         (exists a', accounts m' !! "ann" = Some a' /\ 1 ∉ orders (base a'))) /\
    (50 < 20 ->
       LimitOrderBook_reduce 1 20 resting_memory
         = Raise (Thrown "trying to remove more than available") resting_memory).
Proof.
  apply (reduce_three_cases resting_memory 1 20 (mkOrder 1 Sell 50 100 (Some 100) "ann")).
  - apply (bool_decide_unpack _). vm_compute. exact I.
  - vm_compute. reflexivity.
  - lia.
Defined.

(** C8, the theorem at a bid of 5 at 95 on a book with four resting orders. *)
Lemma limit_then_cancel_witness :
  let u := sequence (book resting_memory) in
  (exists m1 m2,
    LimitOrderBook_limit "ann" Buy 5 95 resting_memory = Ok u m1 /\
    order_map (book m1) !! u = Some (mkOrder u Buy 5 95 (Some 95) "ann") /\
    LimitOrderBook_cancel u m1 = Ok tt m2 /\
    (forall s', same_tree (tree_of s' (book resting_memory)) (tree_of s' (book m2))) /\
    order_map (book m2) = order_map (book resting_memory) /\
    accounts m2 = accounts resting_memory /\
    (u ∉ orders (base (mkSystemAccount (mkAccount 0 0 {[1; 3]}) "ann" "pw-ann" None false))) /\
    connections m2 = connections resting_memory /\
    sequence (book m2) = wrap64 (u + 1)).
Proof.
  apply (limit_then_cancel resting_memory "ann" Buy 5 95
           (mkSystemAccount (mkAccount 0 0 {[1; 3]}) "ann" "pw-ann" None false)).
  - apply (bool_decide_unpack _). vm_compute. exact I.
  - vm_compute. reflexivity.
  - vm_compute. reflexivity.
Defined.


(** ** Requests on an order the book does not hold *)
Lemma at_missing m u :
  order_map (book m) !! u = None -> UIDOrderMap_at u m = Raise OutOfRange m.
Proof.
  intros H. unfold UIDOrderMap_at, bind, get, unwrap. rewrite H. reflexivity.
Qed.

(** X1.  For an order id the book does not hold, [has] answers false, and
    [get], [cancel] and [reduce] throw [std::out_of_range] (from [orders.at])
    before anything is changed: the state at the throw is the state before
    the call. *)
Theorem missing_order_raises (m : Memory) (order_id q : Z) :
  order_map (book m) !! order_id = None ->
  LimitOrderBook_has (book m) order_id = false /\
  LimitOrderBook_get order_id m = Raise OutOfRange m /\
  LimitOrderBook_cancel order_id m = Raise OutOfRange m /\
  LimitOrderBook_reduce order_id q m = Raise OutOfRange m.
Proof.
  intros H. split; [|split; [|split]].
  - unfold LimitOrderBook_has. apply bool_decide_eq_false. rewrite H.
    intros [x Hx]. discriminate.
  - unfold LimitOrderBook_get. apply at_missing, H.
  - unfold LimitOrderBook_cancel, bind. rewrite (at_missing m order_id H). reflexivity.
  - unfold LimitOrderBook_reduce, bind. rewrite (at_missing m order_id H). reflexivity.
Qed.

(** X1, the theorem at the uid 9, which a book with four resting orders does
    not hold. *)
Lemma missing_order_raises_witness :
  order_map (book resting_memory) !! 9 = None /\
  LimitOrderBook_has (book resting_memory) 9 = false /\
  LimitOrderBook_get 9 resting_memory = Raise OutOfRange resting_memory /\
  LimitOrderBook_cancel 9 resting_memory = Raise OutOfRange resting_memory /\
  LimitOrderBook_reduce 9 3 resting_memory = Raise OutOfRange resting_memory.
Proof.
  split; [vm_compute; reflexivity|].
  apply (missing_order_raises resting_memory 9 3). vm_compute. reflexivity.
Defined.

(** ** What a cancel leaves alone *)
Lemma canceled_frame m u o l a :
  book_wf m ->
  order_map (book m) !! u = Some o ->
  limits (tree_of (side o) (book m)) !! price o = Some l ->
  accounts m !! account o = Some a ->
  let m' := canceled m u o l a in
  (forall u', u' <> u -> order_map (book m') !! u' = order_map (book m) !! u') /\
  (forall n, n <> account o -> accounts m' !! n = accounts m !! n) /\
  accounts m' !! account o
    = Some (mkSystemAccount (mkAccount (shares (base a)) (capital (base a))
                                       (orders (base a) ∖ {[u]}))
                            (username a) (password a) (handler a) (is_connected a)) /\
  tree_of (Side_not (side o)) (book m') = tree_of (Side_not (side o)) (book m) /\
  tree_count (tree_of (side o) (book m')) = tree_count (tree_of (side o) (book m)) - 1 /\
  tree_volume (tree_of (side o) (book m')) = tree_volume (tree_of (side o) (book m)) - quantity o /\
  sequence (book m') = sequence (book m) /\
  connections m' = connections m.
Proof.
  intros Hwf Ho Hl Ha m'.
  destruct (wf_order m u o Hwf Ho) as (Hu & _ & Hq & _).
  pose proof (wf_tree m (side o) Hwf) as (_ & _ & Hc & Hcb & Hv & Hvb).
  pose proof (wf_level m (side o) (price o) l Hwf Hl) as Hlw.
  pose proof (level_wf_count _ _ _ _ Hlw) as Hlc.
  pose proof (wf_level_volume m (side o) (price o) l Hwf Hl) as [Hlv Htv].
  pose proof (wf_order_volume m u o l Hwf Ho Hl) as Hov.
  assert (Hcle : count l <= tree_count (tree_of (side o) (book m))).
  { rewrite Hc. apply (sum_over_ge count _ (price o) l); [|exact Hl].
    eapply tree_wf_counts. exact (wf_tree _ (side o) Hwf). }
  unfold m', canceled. cbn [book accounts connections].
  split; [|split; [|split; [|split; [|split; [|split; [|split]]]]]].
  - intros u' Hne. cbn [set_order_map order_map]. apply lookup_delete_ne. congruence.
  - intros n Hne. apply lookup_insert_ne. congruence.
  - rewrite lookup_insert_eq. unfold set_base, Account_cancel. rewrite Hu. reflexivity.
  - rewrite tree_of_set_order_map. apply tree_of_set_tree_other, Side_not_neq.
  - rewrite tree_of_set_order_map, tree_of_set_tree. cbn [tree_count].
    apply wrap32_small. lia.
  - rewrite tree_of_set_order_map, tree_of_set_tree. cbn [tree_volume].
    apply wrap64_small. lia.
  - destruct (side o); reflexivity.
  - reflexivity.
Qed.

(** X2.  A cancel of an order the book holds returns and keeps the book well
    formed; it takes that order, and only that order, out of the uid map; it
    moves no shares and no capital, changes no other account than by taking
    the uid out of the order set of the owner, leaves the opposite side, the
    sequence number and every session (so: no message is sent) as they are, and
    takes one order and the open quantity of the order off the totals of its
    side. *)
Theorem cancel_touches_one_order (m : Memory) (u : Z) (o : Order) :
  book_wf m ->
  order_map (book m) !! u = Some o ->
  exists m' a,
    LimitOrderBook_cancel u m = Ok tt m' /\ book_wf m' /\
    LimitOrderBook_has (book m') u = false /\
    (forall u', u' <> u -> order_map (book m') !! u' = order_map (book m) !! u') /\
    accounts m !! account o = Some a /\
    (forall n, n <> account o -> accounts m' !! n = accounts m !! n) /\
    accounts m' !! account o
      = Some (mkSystemAccount (mkAccount (shares (base a)) (capital (base a))
                                         (orders (base a) ∖ {[u]}))
                              (username a) (password a) (handler a) (is_connected a)) /\
    tree_of (Side_not (side o)) (book m') = tree_of (Side_not (side o)) (book m) /\
    tree_count (tree_of (side o) (book m')) = tree_count (tree_of (side o) (book m)) - 1 /\
    tree_volume (tree_of (side o) (book m'))
      = tree_volume (tree_of (side o) (book m)) - quantity o /\
    sequence (book m') = sequence (book m) /\
    connections m' = connections m.
Proof.
  intros Hwf Ho.
  destruct (wf_order_level m u o Hwf Ho) as (l & Hl & _).
  destruct (wf_order_account m u o Hwf Ho) as (a & Ha & _).
  destruct (wf_order m u o Hwf Ho) as (_ & _ & _ & _ & Hlim & _).
  exists (canceled m u o l a), a.
  split; [exact (cancel_run m u o l a Ho Hlim Hl Ha)|].
  split; [exact (canceled_wf m u o l a Hwf Ho Hl Ha)|].
  split.
  { unfold LimitOrderBook_has. apply bool_decide_eq_false.
    destruct (canceled_gone m u o l a Hwf Ho Hl Ha) as (Hg & _). rewrite Hg.
    intros [x Hx]. discriminate. }
  pose proof (canceled_frame m u o l a Hwf Ho Hl Ha) as (F1 & F2 & F3 & F4 & F5 & F6 & F7 & F8).
  split; [exact F1|]. split; [exact Ha|]. split; [exact F2|]. split; [exact F3|].
  split; [exact F4|]. split; [exact F5|]. split; [exact F6|]. split; [exact F7|exact F8].
Qed.

(** X2, the theorem at the order 2 of a book with four resting orders. *)
Lemma cancel_touches_one_order_witness :
  exists m' a,
    LimitOrderBook_cancel 2 resting_memory = Ok tt m' /\ book_wf m' /\
    LimitOrderBook_has (book m') 2 = false /\
    (forall u', u' <> 2 -> order_map (book m') !! u' = order_map (book resting_memory) !! u') /\
    accounts resting_memory !! "bob" = Some a /\
    (forall n, n <> "bob" -> accounts m' !! n = accounts resting_memory !! n) /\
    accounts m' !! "bob"
      = Some (mkSystemAccount (mkAccount (shares (base a)) (capital (base a))
                                         (orders (base a) ∖ {[2]}))
                              (username a) (password a) (handler a) (is_connected a)) /\
    tree_of Buy (book m') = tree_of Buy (book resting_memory) /\
    tree_count (tree_of Sell (book m')) = tree_count (tree_of Sell (book resting_memory)) - 1 /\
    tree_volume (tree_of Sell (book m'))
      = tree_volume (tree_of Sell (book resting_memory)) - 30 /\
    sequence (book m') = sequence (book resting_memory) /\
    connections m' = connections resting_memory.
Proof.
  apply (cancel_touches_one_order resting_memory 2 (mkOrder 2 Sell 30 100 (Some 100) "bob")).
  - apply (bool_decide_unpack _). vm_compute. exact I.
  - vm_compute. reflexivity.
Defined.

(** ** A market order never rests *)
(** X3.  A market order on a well-formed book returns and keeps the book well
    formed.  It never rests: its own side of the book and the sequence number
    are as before (no uid is consumed), every order the book holds afterwards
    was held before, on the same side, and no queue has gained an order.  The
    totals of shares and of capital over the accounts are as before. *)
Theorem market_order_never_rests (m : Memory) (acct : string) (s : Side) (q : Z) :
  book_wf m -> sessions_ok m -> is_Some (accounts m !! acct) -> 0 <= q ->
  exists m',
    LimitOrderBook_market acct s q m = Ok tt m' /\ book_wf m' /\ sessions_ok m' /\
    tree_of s (book m') = tree_of s (book m) /\
    sequence (book m') = sequence (book m) /\
    (forall u o', order_map (book m') !! u = Some o' ->
       exists o, order_map (book m) !! u = Some o /\ side o = side o') /\
    (forall s' u, rests m' s' u -> rests m s' u) /\
    total_shares m' = total_shares m /\ total_capital m' = total_capital m.
Proof.
  intros Hwf Hs Hacct Hq.
  assert (Hdrop : drop (sequence (book m)) m = m).
  { unfold drop. apply memory_eq; try reflexivity.
    cbn [book set_book set_order_map order_map]. apply delete_id, wf_fresh, Hwf. }
  set (n := sequence (book m)).
  set (order := mkOrder n s q 0 None acct).
  destruct (tree_market_wf (Side_not s) n order m) as (order' & m' & E & Hpost).
  { unfold n. rewrite Hdrop. exact Hwf. }
  { exact Hs. }
  { exact Hacct. }
  { exact Hq. }
  destruct Hpost as (P1 & P2 & P3 & P4 & P5 & P6 & P7 & P8 & P9).
  rewrite Side_not_involutive in P5.
  assert (Hrun : LimitOrderBook_market acct s q m = Ok tt m').
  { destruct s; unfold LimitOrderBook_market, LimitOrderBook_market_sell,
      LimitOrderBook_market_buy, LimitOrderBook_get_sequence;
      unfold bind at 1; unfold bind at 1; unfold get, ret; fold n; fold order;
      unfold bind; cbn [Side_not] in E; rewrite E; reflexivity. }
  destruct (tree_market_spec (Side_not s) order m order' m') as (Hev & Hcons & _).
  { apply engine_inv_sides, wf_engine_inv, Hwf. }
  { unfold order. cbn [side]. symmetry. apply Side_not_involutive. }
  { exact E. }
  destruct Hev as (Hr & Hm & Hseq). destruct Hcons as [Hsh Hcap].
  assert (Hfresh' : order_map (book m') !! n = None).
  { rewrite P3. apply wf_fresh, Hwf. }
  assert (Hdrop' : drop n m' = m').
  { unfold drop. apply memory_eq; try reflexivity.
    cbn [book set_book set_order_map order_map]. apply delete_id, Hfresh'. }
  exists m'. split; [exact Hrun|]. split; [rewrite <- Hdrop'; exact P1|].
  split; [exact P2|]. split; [exact P5|]. split; [exact Hseq|].
  split; [exact Hm|]. split; [exact Hr|].
  unfold total_shares, total_capital. split.
  - apply swrap64_wrap64, Hsh.
  - apply swrap64_wrap64, Hcap.
Qed.

(** X3, the theorem at a market order that buys 60 from a book with four
    resting orders. *)
Lemma market_order_never_rests_witness :
  exists m',
    LimitOrderBook_market "bob" Buy 60 resting_memory = Ok tt m' /\ book_wf m' /\
    sessions_ok m' /\
    tree_of Buy (book m') = tree_of Buy (book resting_memory) /\
    sequence (book m') = sequence (book resting_memory) /\
    (forall u o', order_map (book m') !! u = Some o' ->
       exists o, order_map (book resting_memory) !! u = Some o /\ side o = side o') /\
    (forall s' u, rests m' s' u -> rests resting_memory s' u) /\
    total_shares m' = total_shares resting_memory /\
    total_capital m' = total_capital resting_memory.
Proof.
  apply (market_order_never_rests resting_memory "bob" Buy 60).
  - apply (bool_decide_unpack _). vm_compute. exact I.
  - apply (bool_decide_unpack _). vm_compute. exact I.
  - vm_compute. eauto.
  - lia.
Defined.

(** ** The best price is the extreme price of the resting orders *)
Lemma wf_best_level m s k :
  book_wf m -> best (tree_of s (book m)) = Some k ->
  is_best s (limits (tree_of s (book m))) k.
Proof.
  intros Hwf Hb. destruct (wf_tree m s Hwf) as (_ & Hbest & _).
  apply find_best_Some. rewrite <- Hbest. exact Hb.
Qed.

Lemma wf_best_order m u o :
  book_wf m -> order_map (book m) !! u = Some o ->
  exists k, best (tree_of (side o) (book m)) = Some k /\ better (side o) (price o) k = false.
Proof.
  intros Hwf Ho. destruct (wf_order_level m u o Hwf Ho) as (l & Hl & _).
  destruct (best (tree_of (side o) (book m))) as [k|] eqn:Hb.
  - exists k. split; [reflexivity|].
    destruct (wf_best_level m (side o) k Hwf Hb) as [_ Hmax]. apply Hmax. eauto.
  - destruct (wf_tree m (side o) Hwf) as (_ & Hbest & _). rewrite Hb in Hbest.
    symmetry in Hbest. apply find_best_None in Hbest. rewrite Hbest in Hl.
    rewrite lookup_empty in Hl. discriminate.
Qed.

(** X5.  On a well-formed book [best_sell] is the lowest price of the sell
    orders the book holds and [best_buy] the highest price of its buy orders:
    no order of the side has a better price, and an order of the side rests at
    that price.  A side has no best price exactly when the book holds no order
    of that side. *)
Theorem best_is_extreme_price (m : Memory) :
  book_wf m ->
  (forall u o, order_map (book m) !! u = Some o -> side o = Sell ->
     LimitOrderBook_best_sell (book m) <= price o) /\
  (forall u o, order_map (book m) !! u = Some o -> side o = Buy ->
     price o <= LimitOrderBook_best_buy (book m)) /\
  (forall s k, best (tree_of s (book m)) = Some k ->
     LimitOrderBook_best (book m) s = k /\
     exists u o, order_map (book m) !! u = Some o /\ side o = s /\ price o = k) /\
  (forall s, best (tree_of s (book m)) = None <->
     forall u o, order_map (book m) !! u = Some o -> side o <> s).
Proof.
  intros Hwf. split; [|split; [|split]].
  - intros u o Ho Hs. destruct (wf_best_order m u o Hwf Ho) as (k & Hb & Hk).
    rewrite Hs in Hb, Hk. cbn [tree_of] in Hb. unfold LimitOrderBook_best_sell.
    rewrite Hb. cbn [better] in Hk. lia.
  - intros u o Ho Hs. destruct (wf_best_order m u o Hwf Ho) as (k & Hb & Hk).
    rewrite Hs in Hb, Hk. cbn [tree_of] in Hb. unfold LimitOrderBook_best_buy.
    rewrite Hb. cbn [better] in Hk. lia.
  - intros s k Hb. split.
    { destruct s; cbn [tree_of] in Hb;
        unfold LimitOrderBook_best, LimitOrderBook_best_sell, LimitOrderBook_best_buy;
        rewrite Hb; reflexivity. }
    destruct (wf_best_level m s k Hwf Hb) as [[l Hl] _].
    pose proof (wf_level m s k l Hwf Hl) as Hlw.
    destruct (fifo l) as [|u f] eqn:Ef; [destruct Hlw as (_ & Hne & _); congruence|].
    assert (Hu : u ∈ fifo l) by (rewrite Ef; left).
    destruct (level_wf_in _ _ _ _ _ Hlw Hu) as (o & Ho & Hside & Hprice).
    exists u, o. auto.
  - intros s. split.
    + intros Hb u o Ho Hs. destruct (wf_best_order m u o Hwf Ho) as (k & Hb' & _).
      rewrite Hs in Hb'. congruence.
    + intros Hnone. destruct (best (tree_of s (book m))) as [k|] eqn:Hb; [|reflexivity].
      destruct (wf_best_level m s k Hwf Hb) as [[l Hl] _].
      pose proof (wf_level m s k l Hwf Hl) as Hlw.
      destruct (fifo l) as [|u f] eqn:Ef; [destruct Hlw as (_ & Hne & _); congruence|].
      assert (Hu : u ∈ fifo l) by (rewrite Ef; left).
      destruct (level_wf_in _ _ _ _ _ Hlw Hu) as (o & Ho & Hside & Hprice).
      exfalso. exact (Hnone u o Ho Hside).
Qed.

(** X5, the theorem at a book with four resting orders. *)
Lemma best_is_extreme_price_witness :
  (forall u o, order_map (book resting_memory) !! u = Some o -> side o = Sell ->
     LimitOrderBook_best_sell (book resting_memory) <= price o) /\
  (forall u o, order_map (book resting_memory) !! u = Some o -> side o = Buy ->
     price o <= LimitOrderBook_best_buy (book resting_memory)) /\
  (forall s k, best (tree_of s (book resting_memory)) = Some k ->
     LimitOrderBook_best (book resting_memory) s = k /\
     exists u o, order_map (book resting_memory) !! u = Some o /\ side o = s /\ price o = k) /\
  (forall s, best (tree_of s (book resting_memory)) = None <->
     forall u o, order_map (book resting_memory) !! u = Some o -> side o <> s).
Proof.
  apply (best_is_extreme_price resting_memory).
  apply (bool_decide_unpack _). vm_compute. exact I.
Defined.

(** ** The totals of the book count the orders it holds *)
Lemma wf_no_orders_no_levels m s :
  book_wf m -> order_map (book m) = ∅ -> limits (tree_of s (book m)) = ∅.
Proof.
  intros Hwf Hom. apply map_empty. intros p.
  destruct (limits (tree_of s (book m)) !! p) as [l|] eqn:Hl; [|reflexivity].
  pose proof (wf_level m s p l Hwf Hl) as Hlw.
  destruct (fifo l) as [|u f] eqn:Ef; [destruct Hlw as (_ & Hne & _); congruence|].
  assert (Hu : u ∈ fifo l) by (rewrite Ef; left).
  destruct (level_wf_in _ _ _ _ _ Hlw Hu) as (o & Ho & _).
  rewrite Hom, lookup_empty in Ho. discriminate.
Qed.

Lemma orders_of_delete_same s om u o :
  om !! u = Some o -> side o = s ->
  size (orders_of s om) = S (size (orders_of s (delete u om))) /\
  sum_over quantity (orders_of s om) = quantity o + sum_over quantity (orders_of s (delete u om)).
Proof.
  intros Ho Hs. unfold orders_of. rewrite map_filter_delete.
  assert (Hin : filter (fun uo : Z * Order => side uo.2 = s) om !! u = Some o).
  { apply map_lookup_filter_Some. split; [exact Ho|exact Hs]. }
  split.
  - rewrite map_size_delete, Hin.
    assert (size (filter (fun uo : Z * Order => side uo.2 = s) om) <> 0%nat); [|lia].
    apply map_size_non_empty_iff. intros E. rewrite E, lookup_empty in Hin. discriminate.
  - apply sum_over_delete. exact Hin.
Qed.

Lemma orders_of_delete_other s om u o :
  om !! u = Some o -> side o <> s -> orders_of s (delete u om) = orders_of s om.
Proof.
  intros Ho Hs. unfold orders_of. rewrite map_filter_delete. apply delete_id.
  apply map_lookup_filter_None. right. intros o' Ho' Hs'. cbn in Hs'. congruence.
Qed.

Lemma totals_by_size (n : nat) : forall m,
  size (order_map (book m)) = n -> book_wf m ->
  forall s,
    tree_count (tree_of s (book m)) = Z.of_nat (size (orders_of s (order_map (book m)))) /\
    tree_volume (tree_of s (book m)) = sum_over quantity (orders_of s (order_map (book m))).
Proof.
  induction n as [|n IH]; intros m Hn Hwf s.
  - apply map_size_empty_iff in Hn.
    destruct (wf_tree m s Hwf) as (_ & _ & Hc & _ & Hv & _).
    rewrite Hc, Hv, (wf_no_orders_no_levels m s Hwf Hn), Hn. unfold orders_of.
    rewrite map_filter_empty, map_size_empty, !sum_over_empty. split; reflexivity.
  - assert (Hne : order_map (book m) <> ∅).
    { apply map_size_non_empty_iff. lia. }
    destruct (map_choose _ Hne) as (u & o & Ho).
    destruct (wf_order_level m u o Hwf Ho) as (l & Hl & _).
    destruct (wf_order_account m u o Hwf Ho) as (a & Ha & _).
    pose proof (canceled_wf m u o l a Hwf Ho Hl Ha) as Hwf'.
    pose proof (canceled_frame m u o l a Hwf Ho Hl Ha) as (_ & _ & _ & F4 & F5 & F6 & _).
    set (m' := canceled m u o l a) in *.
    assert (Hom' : order_map (book m') = delete u (order_map (book m))).
    { unfold m', canceled. cbn [book]. destruct (side o); reflexivity. }
    assert (Hn' : size (order_map (book m')) = n).
    { rewrite Hom', map_size_delete, Ho. lia. }
    destruct (IH m' Hn' Hwf' s) as [Hc' Hv']. rewrite Hom' in Hc', Hv'.
    destruct (decide (side o = s)) as [Hs|Hs].
    + destruct (orders_of_delete_same s _ u o Ho Hs) as [Hsz Hsum].
      rewrite <- Hs. rewrite <- Hs in Hc', Hv', Hsz, Hsum. rewrite Hsz, Hsum. split; lia.
    + rewrite (orders_of_delete_other s _ u o Ho Hs) in Hc', Hv'.
      rewrite (Side_other (side o) s) in Hc', Hv' by congruence.
      rewrite F4 in Hc', Hv'. rewrite (Side_other (side o) s) by congruence.
      split; assumption.
Qed.

Lemma sides_partition (om : gmap Z Order) :
  size om = (size (orders_of Sell om) + size (orders_of Buy om))%nat /\
  sum_over quantity om
    = sum_over quantity (orders_of Sell om) + sum_over quantity (orders_of Buy om).
Proof.
  induction om as [|u o om Hu _ IH] using map_first_key_ind.
  - unfold orders_of. rewrite !map_filter_empty, map_size_empty, !sum_over_empty.
    split; reflexivity.
  - destruct IH as [IH1 IH2].
    rewrite map_size_insert_None by exact Hu.
    rewrite sum_over_insert_fresh by exact Hu.
    assert (Hin : <[u := o]> om !! u = Some o) by apply lookup_insert_eq.
    assert (Hdel : delete u (<[u := o]> om) = om) by (apply delete_insert_id; exact Hu).
    destruct (side o) eqn:Hs.
    + destruct (orders_of_delete_same Sell _ u o Hin Hs) as [A1 A2].
      pose proof (orders_of_delete_other Buy _ u o Hin ltac:(congruence)) as A3.
      rewrite Hdel in A1, A2, A3. rewrite A1, A2, <- A3. split; lia.
    + destruct (orders_of_delete_same Buy _ u o Hin Hs) as [A1 A2].
      pose proof (orders_of_delete_other Sell _ u o Hin ltac:(congruence)) as A3.
      rewrite Hdel in A1, A2, A3. rewrite A1, A2, <- A3. split; lia.
Qed.

(** X6.  On a well-formed book the totals the queries report are those of the
    orders the book holds: [count_sell] and [count_buy] are the numbers of sell
    and of buy orders in the uid map, [volume_sell] and [volume_buy] the sums
    of their open quantities, and [count] and [volume] the number of all
    orders and the sum of all open quantities, on 32 and on 64 bits. *)
Theorem totals_count_the_orders (m : Memory) :
  book_wf m ->
  let om := order_map (book m) in
  LimitOrderBook_count_sell (book m) = Z.of_nat (size (orders_of Sell om)) /\
  LimitOrderBook_count_buy (book m) = Z.of_nat (size (orders_of Buy om)) /\
  LimitOrderBook_volume_sell (book m) = sum_over quantity (orders_of Sell om) /\
  LimitOrderBook_volume_buy (book m) = sum_over quantity (orders_of Buy om) /\
  LimitOrderBook_count (book m) = wrap32 (Z.of_nat (size om)) /\
  LimitOrderBook_volume (book m) = wrap64 (sum_over quantity om).
Proof.
  intros Hwf om.
  destruct (totals_by_size _ m eq_refl Hwf Sell) as [Cs Vs].
  destruct (totals_by_size _ m eq_refl Hwf Buy) as [Cb Vb].
  cbn [tree_of] in Cs, Vs, Cb, Vb.
  destruct (sides_partition om) as [Hsize Hsum].
  unfold LimitOrderBook_count_sell, LimitOrderBook_count_buy, LimitOrderBook_volume_sell,
    LimitOrderBook_volume_buy, LimitOrderBook_count, LimitOrderBook_volume.
  fold om in Cs, Vs, Cb, Vb.
  split; [exact Cs|]. split; [exact Cb|]. split; [exact Vs|]. split; [exact Vb|].
  split; f_equal.
  - rewrite Cs, Cb, Hsize. lia.
  - rewrite Vs, Vb, Hsum. reflexivity.
Qed.

(** X6, the theorem at a book with four resting orders. *)
Lemma totals_count_the_orders_witness :
  let om := order_map (book resting_memory) in
  LimitOrderBook_count_sell (book resting_memory) = Z.of_nat (size (orders_of Sell om)) /\
  LimitOrderBook_count_buy (book resting_memory) = Z.of_nat (size (orders_of Buy om)) /\
  LimitOrderBook_volume_sell (book resting_memory) = sum_over quantity (orders_of Sell om) /\
  LimitOrderBook_volume_buy (book resting_memory) = sum_over quantity (orders_of Buy om) /\
  LimitOrderBook_count (book resting_memory) = wrap32 (Z.of_nat (size om)) /\
  LimitOrderBook_volume (book resting_memory) = wrap64 (sum_over quantity om).
Proof.
  apply (totals_count_the_orders resting_memory).
  apply (bool_decide_unpack _). vm_compute. exact I.
Defined.

(** ** The authorizer *)
Lemma with_account_wf m u a :
  book_wf m -> accounts m !! u = None -> orders (base a) = ∅ ->
  book_wf (with_account m u a).
Proof.
  intros (Hseq & Hs & Hb & Ho & Ha) Hu He.
  unfold book_wf, with_account. cbn [book set_accounts accounts].
  split; [exact Hseq|]. split; [exact Hs|]. split; [exact Hb|]. split.
  - intros k o Hk. destruct (Ho k o Hk) as (H1 & H2 & H3 & H4 & H5 & H6 & H7).
    unfold order_wf. cbn [book set_accounts accounts].
    split; [exact H1|]. split; [exact H2|]. split; [exact H3|]. split; [exact H4|].
    split; [exact H5|]. split; [exact H6|].
    apply holds_inv in H7 as (b & Hb' & Hin).
    rewrite lookup_insert_ne by (intros ->; congruence). rewrite Hb'. exact Hin.
  - intros n b Hn. apply lookup_insert_Some in Hn as [[<- <-]|[_ Hn]].
    + unfold account_wf. rewrite He. intros x Hx. apply elem_of_empty in Hx. contradiction.
    + exact (Ha n b Hn).
Qed.

(** X7.  [new_user] with a name that is not registered adds an account with
    that name and password, no shares, no capital, no order and no session:
    the number of accounts grows by one, [has_account] and [get_account] find
    it, [is_valid] accepts that password and no other for it, and answers as
    before for every other name; the book is not touched and stays well
    formed.  With a name that is registered, [new_user] throws and changes
    nothing: the password of the account is not replaced. *)
Theorem new_user_registers_once (m : Memory) (u p : string) :
  (accounts m !! u = None ->
   exists m',
     Authorizer_new_user u p m = Ok tt m' /\
     accounts m' !! u = Some (SystemAccount_new u p) /\
     Authorizer_size m' = S (Authorizer_size m) /\
     Authorizer_has_account m' u = true /\
     Authorizer_get_account u m' = Ok u m' /\
     (forall p', Authorizer_is_valid m' u p' = bool_decide (p = p')) /\
     (forall u' p', u' <> u ->
        Authorizer_is_valid m' u' p' = Authorizer_is_valid m u' p' /\
        Authorizer_has_account m' u' = Authorizer_has_account m u') /\
     book m' = book m /\ connections m' = connections m /\
     (authorizer_wf m -> authorizer_wf m') /\
     (book_wf m -> book_wf m')) /\
  (is_Some (accounts m !! u) ->
   Authorizer_new_user u p m = Raise (Thrown "username already exists in system") m).
Proof.
  split.
  - intros Hu. exists (with_account m u (SystemAccount_new u p)).
    split; [|split; [|split; [|split; [|split; [|split; [|split; [|split; [|split; [|split]]]]]]]]].
    + unfold Authorizer_new_user, bind, get, store_account, modify. rewrite Hu. reflexivity.
    + apply lookup_insert_eq.
    + unfold Authorizer_size, with_account. cbn [accounts set_accounts].
      apply map_size_insert_None. exact Hu.
    + unfold Authorizer_has_account, with_account. cbn [accounts set_accounts].
      apply bool_decide_eq_true. rewrite lookup_insert_eq. eauto.
    + unfold Authorizer_get_account, bind, get, unwrap, ret, with_account.
      cbn [accounts set_accounts]. rewrite lookup_insert_eq. reflexivity.
    + intros p'. unfold Authorizer_is_valid, with_account. cbn [accounts set_accounts].
      rewrite lookup_insert_eq. reflexivity.
    + intros u' p' Hne. unfold Authorizer_is_valid, Authorizer_has_account, with_account.
      cbn [accounts set_accounts]. rewrite lookup_insert_ne by congruence. split; reflexivity.
    + reflexivity.
    + reflexivity.
    + intros Hwf n a Hn. unfold with_account in Hn. cbn [accounts set_accounts] in Hn.
      apply lookup_insert_Some in Hn as [[<- <-]|[_ Hn]].
      * reflexivity.
      * exact (Hwf n a Hn).
    + intros Hwf. apply with_account_wf; [exact Hwf|exact Hu|reflexivity].
  - intros [a Ha]. unfold Authorizer_new_user, bind, get. rewrite Ha. reflexivity.
Qed.

(** ** Responses *)
Lemma send_run c r m x :
  connections m !! c = Some x -> Connection_send c r m = Ok tt (replied m c x r).
Proof.
  intros Hc. unfold Connection_send, load_connection, store_connection, bind, get, unwrap,
    ret, modify. rewrite Hc. reflexivity.
Qed.

Lemma replied_outbox m c x r :
  outbox (replied m c x r) c = output_buffer x ++ [(conn_sequence x, r)].
Proof. unfold outbox, replied. cbn [connections set_connections]. rewrite lookup_insert_eq. reflexivity. Qed.

(** ** Login *)
Lemma login_unfold c u p m x :
  connections m !! c = Some x ->
  Connection_handle_LoginRequest c u p m =
    (if Connection_is_logged_in x then Connection_send c (LoginResponse AlreadyAuthorized)
     else if negb (Authorizer_is_valid m u p)
          then Connection_send c (LoginResponse NotAuthorized)
          else
            let* a := unwrap OutOfRange (accounts m !! u) in
            if is_connected a then Connection_send c (LoginResponse SessionInUse)
            else
              do store_connection c (mkConnection (Some u) (output_buffer x) (conn_sequence x)) then
              do store_account u (set_session a (Some c) true) then
              Connection_send c (LoginResponse LoginAccepted)) m.
Proof.
  intros Hc. unfold Connection_handle_LoginRequest, load_connection. unfold bind at 1 2.
  unfold get at 1, unwrap at 1. rewrite Hc. unfold ret. unfold bind at 1. unfold get at 1.
  reflexivity.
Qed.

Lemma login_accepted_run c u p m x a :
  connections m !! c = Some x -> conn_account x = None ->
  accounts m !! u = Some a -> password a = p -> is_connected a = false ->
  Connection_handle_LoginRequest c u p m
  = Ok tt (replied (with_account (with_connection m c (bound_to x (Some u)))
                                 u (set_session a (Some c) true))
                   c (bound_to x (Some u)) (LoginResponse LoginAccepted)).
Proof.
  intros Hc Hout Ha Hp Hconn. rewrite (login_unfold c u p m x Hc).
  unfold Connection_is_logged_in.
  rewrite bool_decide_eq_false_2 by (rewrite Hout; intros [? ?]; discriminate).
  unfold Authorizer_is_valid. rewrite Ha, (bool_decide_eq_true_2 _ Hp). cbn [negb].
  unfold bind at 1. unfold unwrap, ret. rewrite Hconn.
  unfold bind at 1. unfold store_connection, modify.
  unfold bind at 1. unfold store_account, modify.
  apply send_run. cbn [connections set_accounts set_connections]. apply lookup_insert_eq.
Qed.

Lemma login_refused_run c u p m x :
  connections m !! c = Some x ->
  (is_Some (conn_account x) \/ Authorizer_is_valid m u p = false \/
   exists a, accounts m !! u = Some a /\ is_connected a = true) ->
  exists status, Connection_handle_LoginRequest c u p m
                 = Ok tt (replied m c x (LoginResponse status)).
Proof.
  intros Hc H. rewrite (login_unfold c u p m x Hc). unfold Connection_is_logged_in.
  destruct (decide (is_Some (conn_account x))) as [Hin|Hout].
  { rewrite bool_decide_eq_true_2 by exact Hin. eexists. apply send_run, Hc. }
  rewrite bool_decide_eq_false_2 by exact Hout.
  destruct (Authorizer_is_valid m u p) eqn:Hv; cbn [negb].
  2:{ eexists. apply send_run, Hc. }
  destruct H as [Hin|[Hbad|(a & Ha & Hconn)]]; [contradiction|discriminate|].
  unfold bind, unwrap, ret. rewrite Ha, Hconn. eexists. apply send_run, Hc.
Qed.

(** X8.  The four outcomes of a login request on the session [c].  On a
    session that is logged in the answer is [AlreadyAuthorized], whatever the
    credentials.  Otherwise, with an unknown name or a wrong password the
    answer is [NotAuthorized]; with valid credentials of an account that is
    connected, [SessionInUse].  In these three cases nothing but the queue of
    responses of the session changes.  With valid credentials of an account
    that is not connected the session is bound to the account, the account to
    the session, the account is marked connected and the answer is
    [Accepted].  The book is never touched. *)
Theorem login_cases (c : nat) (u p : string) (m : Memory) (x : Connection) :
  connections m !! c = Some x ->
  (is_Some (conn_account x) ->
     Connection_handle_LoginRequest c u p m
       = Ok tt (replied m c x (LoginResponse AlreadyAuthorized))) /\
  (conn_account x = None -> Authorizer_is_valid m u p = false ->
     Connection_handle_LoginRequest c u p m
       = Ok tt (replied m c x (LoginResponse NotAuthorized))) /\
  (forall a, conn_account x = None -> accounts m !! u = Some a -> password a = p ->
     is_connected a = true ->
     Connection_handle_LoginRequest c u p m
       = Ok tt (replied m c x (LoginResponse SessionInUse))) /\
  (forall a, conn_account x = None -> accounts m !! u = Some a -> password a = p ->
     is_connected a = false ->
     Connection_handle_LoginRequest c u p m
       = Ok tt (replied (with_account (with_connection m c (bound_to x (Some u)))
                                      u (set_session a (Some c) true))
                        c (bound_to x (Some u)) (LoginResponse LoginAccepted))).
Proof.
  intros Hc. rewrite (login_unfold c u p m x Hc). unfold Connection_is_logged_in.
  split; [|split; [|split]].
  - intros Hin. rewrite bool_decide_eq_true_2 by exact Hin. apply send_run, Hc.
  - intros Hout Hbad. rewrite bool_decide_eq_false_2 by (rewrite Hout; intros [? ?]; discriminate).
    rewrite Hbad. cbn [negb]. apply send_run, Hc.
  - intros a Hout Ha Hp Hconn.
    rewrite bool_decide_eq_false_2 by (rewrite Hout; intros [? ?]; discriminate).
    unfold Authorizer_is_valid. rewrite Ha, (bool_decide_eq_true_2 _ Hp). cbn [negb].
    unfold bind, unwrap, ret. rewrite Hconn. apply send_run, Hc.
  - intros a Hout Ha Hp Hconn.
    rewrite bool_decide_eq_false_2 by (rewrite Hout; intros [? ?]; discriminate).
    unfold Authorizer_is_valid. rewrite Ha, (bool_decide_eq_true_2 _ Hp). cbn [negb].
    unfold bind at 1. unfold unwrap, ret. rewrite Hconn.
    unfold bind at 1. unfold store_connection, modify.
    unfold bind at 1. unfold store_account, modify.
    apply send_run. cbn [connections set_accounts set_connections]. apply lookup_insert_eq.
Qed.

(** X8, the theorem at a new session on which "ann" logs in. *)
Lemma login_cases_witness :
  let m := with_connection example_memory 3%nat Connection_new in
  (is_Some (conn_account Connection_new) ->
     Connection_handle_LoginRequest 3 "ann" "pw-ann" m
       = Ok tt (replied m 3 Connection_new (LoginResponse AlreadyAuthorized))) /\
  (conn_account Connection_new = None -> Authorizer_is_valid m "ann" "pw-ann" = false ->
     Connection_handle_LoginRequest 3 "ann" "pw-ann" m
       = Ok tt (replied m 3 Connection_new (LoginResponse NotAuthorized))) /\
  (forall a, conn_account Connection_new = None -> accounts m !! "ann" = Some a ->
     password a = "pw-ann" -> is_connected a = true ->
     Connection_handle_LoginRequest 3 "ann" "pw-ann" m
       = Ok tt (replied m 3 Connection_new (LoginResponse SessionInUse))) /\
  (forall a, conn_account Connection_new = None -> accounts m !! "ann" = Some a ->
     password a = "pw-ann" -> is_connected a = false ->
     Connection_handle_LoginRequest 3 "ann" "pw-ann" m
       = Ok tt (replied (with_account (with_connection m 3 (bound_to Connection_new (Some "ann")))
                                      "ann" (set_session a (Some 3%nat) true))
                        3 (bound_to Connection_new (Some "ann")) (LoginResponse LoginAccepted))).
Proof.
  apply (login_cases 3 "ann" "pw-ann"
           (with_connection example_memory 3%nat Connection_new) Connection_new).
  vm_compute. reflexivity.
Defined.

(** ** Logout *)
Lemma logout_run c m x name a :
  connections m !! c = Some x -> conn_account x = Some name ->
  accounts m !! name = Some a ->
  Connection_logout c m
  = Ok tt (with_connection (with_account m name (set_session a None false))
                           c (bound_to x None)).
Proof.
  intros Hc Hx Ha. unfold Connection_logout, load_connection, load_account, store_account,
    store_connection, bind, get, unwrap, ret, modify. rewrite Hc, Hx, Ha. reflexivity.
Qed.

Lemma logout_idle c m x :
  connections m !! c = Some x -> conn_account x = None -> Connection_logout c m = Ok tt m.
Proof.
  intros Hc Hx. unfold Connection_logout, load_connection, bind, get, unwrap, ret.
  rewrite Hc, Hx. reflexivity.
Qed.

(** X9.  The end of a session.  A logout request on a session that is not
    logged in is answered with [ProtocolViolation] and changes nothing else.
    On a session logged in to an account, the logout request and a packet with
    an unknown message identifier do the same thing, apart from the reason
    they report ([UserRequested], [ProtocolViolation]): the account loses its
    handler and its connected flag and the session its account.  The book,
    the balances and the order set of the account are not touched: the orders
    of the account stay in the book. *)
Theorem logout_cases (c : nat) (m : Memory) (x : Connection) :
  connections m !! c = Some x ->
  (conn_account x = None ->
     Connection_handle_LogoutRequest c m
       = Ok tt (replied m c x (LogoutResponse ProtocolViolation)) /\
     Connection_handle_Header c m
       = Ok tt (replied m c x (LogoutResponse ProtocolViolation))) /\
  (forall name a, conn_account x = Some name -> accounts m !! name = Some a ->
     let m' := with_connection (with_account m name (set_session a None false))
                               c (bound_to x None) in
     Connection_handle_LogoutRequest c m
       = Ok tt (replied m' c (bound_to x None) (LogoutResponse UserRequested)) /\
     Connection_handle_Header c m
       = Ok tt (replied m' c (bound_to x None) (LogoutResponse ProtocolViolation)) /\
     book m' = book m /\
     base <$> accounts m' = base <$> accounts m).
Proof.
  intros Hc. split.
  - intros Hx. split.
    + unfold Connection_handle_LogoutRequest, load_connection. unfold bind at 1 2.
      unfold get, unwrap, ret. rewrite Hc. unfold Connection_is_logged_in.
      rewrite bool_decide_eq_false_2 by (rewrite Hx; intros [? ?]; discriminate).
      cbn [negb]. apply send_run, Hc.
    + unfold Connection_handle_Header, bind. rewrite (logout_idle c m x Hc Hx).
      apply send_run, Hc.
  - intros name a Hx Ha m'.
    assert (Hc' : connections m' !! c = Some (bound_to x None)).
    { unfold m', with_connection. cbn [connections set_connections]. apply lookup_insert_eq. }
    split; [|split; [|split]].
    + unfold Connection_handle_LogoutRequest, load_connection. unfold bind at 1 2.
      unfold get, unwrap, ret. rewrite Hc. unfold Connection_is_logged_in.
      rewrite bool_decide_eq_true_2 by (rewrite Hx; eauto).
      cbn [negb]. unfold bind. rewrite (logout_run c m x name a Hc Hx Ha).
      apply send_run, Hc'.
    + unfold Connection_handle_Header, bind. rewrite (logout_run c m x name a Hc Hx Ha).
      apply send_run, Hc'.
    + reflexivity.
    + unfold m', with_connection, with_account. cbn [accounts set_connections set_accounts].
      rewrite fmap_insert. apply insert_id. rewrite lookup_fmap, Ha. reflexivity.
Qed.

(** X9, the theorem at the session of "bob". *)
Lemma logout_cases_witness :
  (conn_account (mkConnection (Some "bob") [] 0) = None ->
     Connection_handle_LogoutRequest 7 example_memory
       = Ok tt (replied example_memory 7 (mkConnection (Some "bob") [] 0)
                        (LogoutResponse ProtocolViolation)) /\
     Connection_handle_Header 7 example_memory
       = Ok tt (replied example_memory 7 (mkConnection (Some "bob") [] 0)
                        (LogoutResponse ProtocolViolation))) /\
  (forall name a, conn_account (mkConnection (Some "bob") [] 0) = Some name ->
     accounts example_memory !! name = Some a ->
     let m' := with_connection (with_account example_memory name (set_session a None false))
                               7 (bound_to (mkConnection (Some "bob") [] 0) None) in
     Connection_handle_LogoutRequest 7 example_memory
       = Ok tt (replied m' 7 (bound_to (mkConnection (Some "bob") [] 0) None)
                        (LogoutResponse UserRequested)) /\
     Connection_handle_Header 7 example_memory
       = Ok tt (replied m' 7 (bound_to (mkConnection (Some "bob") [] 0) None)
                        (LogoutResponse ProtocolViolation)) /\
     book m' = book example_memory /\
     base <$> accounts m' = base <$> accounts example_memory).
Proof.
  apply (logout_cases 7 example_memory (mkConnection (Some "bob") [] 0)).
  vm_compute. reflexivity.
Defined.

(** ** The book never touches the sessions *)
Create HintDb ses discriminated.

Lemma ses_load_tree s : stable sessions_of (load_tree s).
Proof. unfold load_tree. repeat stable_step. Qed.

Lemma ses_store_tree s t : stable sessions_of (store_tree s t).
Proof. unfold store_tree. apply stable_modify. intros m. reflexivity. Qed.

Lemma ses_load_order u : stable sessions_of (load_order u).
Proof. unfold load_order. repeat stable_step. Qed.

Lemma ses_store_order u o : stable sessions_of (store_order u o).
Proof. unfold store_order. repeat stable_step. Qed.

Lemma ses_load_account n : stable sessions_of (load_account n).
Proof. unfold load_account. repeat stable_step. Qed.

Lemma ses_load_connection c : stable sessions_of (load_connection c).
Proof. unfold load_connection. repeat stable_step. Qed.

Lemma ses_erase u : stable sessions_of (UIDOrderMap_erase u).
Proof. unfold UIDOrderMap_erase. repeat stable_step. Qed.

Lemma ses_at u : stable sessions_of (UIDOrderMap_at u).
Proof. unfold UIDOrderMap_at. repeat stable_step. Qed.

Lemma ses_emplace u o : stable sessions_of (UIDOrderMap_emplace u o).
Proof.
  unfold UIDOrderMap_emplace. apply stable_modify. intros m.
  destruct (order_map (book m) !! u); reflexivity.
Qed.

Lemma ses_get_sequence : stable sessions_of LimitOrderBook_get_sequence.
Proof. unfold LimitOrderBook_get_sequence. repeat stable_step. Qed.

Lemma ses_send c r : stable sessions_of (Connection_send c r).
Proof.
  intros m. unfold Connection_send, load_connection, store_connection, bind, get, unwrap, ret,
    modify. destruct (connections m !! c) as [x|] eqn:Hc; [|reflexivity].
  cbn [final]. unfold sessions_of. cbn [accounts connections set_connections]. f_equal.
  rewrite fmap_insert. cbn [conn_account]. apply insert_id. rewrite lookup_fmap, Hc. reflexivity.
Qed.

#[local] Hint Resolve ses_load_tree ses_store_tree ses_load_order ses_store_order
  ses_load_account ses_load_connection ses_erase ses_at ses_emplace ses_get_sequence
  ses_send : ses.

(** An account is loaded and stored back with another [LOB::Account] part. *)
Lemma ses_update {A} name (G : SystemAccount -> Account) (k : SystemAccount -> M Memory A) :
  (forall a, stable sessions_of (k a)) ->
  stable sessions_of
    (let* a := load_account name in do store_account name (set_base a (G a)) then k a).
Proof.
  intros Hk m. unfold load_account, store_account, bind, get, unwrap, ret, modify.
  destruct (accounts m !! name) as [a|] eqn:Ha; [|reflexivity].
  fold (bind (fun m0 => Ok tt m0) (fun _ : unit => k a)).
  set (m1 := set_accounts (<[name := set_base a (G a)]> (accounts m)) m).
  assert (H1 : sessions_of m1 = sessions_of m).
  { unfold sessions_of, m1. cbn [accounts connections set_accounts]. f_equal.
    rewrite fmap_insert. cbn [handler is_connected username set_base]. apply insert_id.
    rewrite lookup_fmap, Ha. reflexivity. }
  rewrite <- H1. exact (Hk a m1).
Qed.

Lemma ses_update_last name (G : SystemAccount -> Account) :
  stable sessions_of (let* a := load_account name in store_account name (set_base a (G a))).
Proof.
  intros m. unfold load_account, store_account, bind, get, unwrap, ret, modify.
  destruct (accounts m !! name) as [a|] eqn:Ha; [|reflexivity].
  cbn [final]. unfold sessions_of. cbn [accounts connections set_accounts]. f_equal.
  rewrite fmap_insert. cbn [handler is_connected username set_base]. apply insert_id.
  rewrite lookup_fmap, Ha. reflexivity.
Qed.

Ltac ses_auto :=
  repeat first [ stable_step | solve [eauto with ses] ].

Lemma ses_limit_fill n l k : stable sessions_of (SystemAccount_limit_fill n l k).
Proof.
  unfold SystemAccount_limit_fill, Connection_trade.
  apply (ses_update n (fun a => Account_limit_fill (base a) l k)). intros a. ses_auto.
Qed.

Lemma ses_limit_partial n l k : stable sessions_of (SystemAccount_limit_partial n l k).
Proof.
  unfold SystemAccount_limit_partial, Connection_trade.
  apply (ses_update n (fun a => Account_limit_partial (base a) l k)). intros a. ses_auto.
Qed.

Lemma ses_market_fill n l k : stable sessions_of (SystemAccount_market_fill n l k).
Proof.
  unfold SystemAccount_market_fill, Connection_trade.
  apply (ses_update n (fun a => Account_market_fill (base a) l k)). intros a. ses_auto.
Qed.

Lemma ses_market_partial n l k : stable sessions_of (SystemAccount_market_partial n l k).
Proof.
  unfold SystemAccount_market_partial, Connection_trade.
  apply (ses_update n (fun a => Account_market_partial (base a) l k)). intros a. ses_auto.
Qed.

#[local] Hint Resolve ses_limit_fill ses_limit_partial ses_market_fill ses_market_partial : ses.

Lemma ses_tree_limit s u : stable sessions_of (LimitTree_limit s u).
Proof.
  unfold LimitTree_limit. apply stable_bind; [ses_auto|]. intros o.
  apply stable_bind; [ses_auto|]. intros t. cbv zeta.
  apply stable_bind; [ses_auto|]. intros _.
  apply stable_bind; [ses_auto|]. intros _.
  apply (ses_update_last (account o) (fun a => Account_limit (base a) o)).
Qed.

Lemma ses_tree_remove s u : stable sessions_of (LimitTree_remove s u).
Proof. unfold LimitTree_remove. ses_auto. Qed.

#[local] Hint Resolve ses_tree_limit ses_tree_remove : ses.

Lemma ses_tree_cancel s u : stable sessions_of (LimitTree_cancel s u).
Proof.
  unfold LimitTree_cancel. apply stable_bind; [ses_auto|]. intros _.
  apply stable_bind; [ses_auto|]. intros o.
  apply (ses_update_last (account o) (fun a => Account_cancel (base a) o)).
Qed.

#[local] Hint Resolve ses_tree_cancel : ses.

Lemma ses_market_loop fuel : forall s order,
  stable sessions_of (LimitTree_market_loop fuel s UIDOrderMap_erase order).
Proof.
  induction fuel as [|fuel IH]; intros s order; cbn [LimitTree_market_loop].
  - apply stable_raise.
  - ses_auto.
Qed.

#[local] Hint Resolve ses_market_loop : ses.

Lemma ses_tree_market s order :
  stable sessions_of (LimitTree_market s UIDOrderMap_erase order).
Proof. unfold LimitTree_market. ses_auto. Qed.

#[local] Hint Resolve ses_tree_market : ses.

Lemma ses_rest s n : stable sessions_of (LimitOrderBook_rest s n).
Proof. unfold LimitOrderBook_rest. ses_auto. Qed.

Lemma ses_cross s n : stable sessions_of (LimitOrderBook_cross s n).
Proof. unfold LimitOrderBook_cross. ses_auto. Qed.

#[local] Hint Resolve ses_rest ses_cross : ses.

Lemma ses_limit_sell acct q p : stable sessions_of (LimitOrderBook_limit_sell acct q p).
Proof. unfold LimitOrderBook_limit_sell. ses_auto. Qed.

Lemma ses_limit_buy acct q p : stable sessions_of (LimitOrderBook_limit_buy acct q p).
Proof. unfold LimitOrderBook_limit_buy. ses_auto. Qed.

#[local] Hint Resolve ses_limit_sell ses_limit_buy : ses.

Lemma ses_limit acct s q p : stable sessions_of (LimitOrderBook_limit acct s q p).
Proof. destruct s; unfold LimitOrderBook_limit; ses_auto. Qed.

Lemma ses_market acct s q : stable sessions_of (LimitOrderBook_market acct s q).
Proof.
  destruct s; unfold LimitOrderBook_market, LimitOrderBook_market_sell,
    LimitOrderBook_market_buy; ses_auto.
Qed.

Lemma ses_cancel u : stable sessions_of (LimitOrderBook_cancel u).
Proof. unfold LimitOrderBook_cancel. ses_auto. Qed.

Lemma ses_reduce u q : stable sessions_of (LimitOrderBook_reduce u q).
Proof. unfold LimitOrderBook_reduce. ses_auto. Qed.

#[local] Hint Resolve ses_limit ses_market ses_cancel ses_reduce : ses.

Lemma ses_purge_loop first fuel : forall acct,
  stable sessions_of (Connection_purge_loop first fuel acct).
Proof.
  induction fuel as [|fuel IH]; intros acct; cbn [Connection_purge_loop].
  - apply stable_raise.
  - ses_auto.
Qed.

#[local] Hint Resolve ses_purge_loop : ses.

Lemma ses_order_request c request :
  stable sessions_of (Connection_handle_OrderRequest c request).
Proof. unfold Connection_handle_OrderRequest. ses_auto. Qed.

Lemma ses_cancel_request c order_id :
  stable sessions_of (Connection_handle_CancelRequest c order_id).
Proof.
  unfold Connection_handle_CancelRequest, Connection_owns, LimitOrderBook_get. ses_auto.
Qed.

Lemma ses_replace_request c request :
  stable sessions_of (Connection_handle_ReplaceRequest c request).
Proof.
  unfold Connection_handle_ReplaceRequest, Connection_replace_place, Connection_owns,
    LimitOrderBook_get.
  destruct (replace_side request); ses_auto.
Qed.

Lemma ses_purge_request first c :
  stable sessions_of (Connection_handle_PurgeRequest first c).
Proof. unfold Connection_handle_PurgeRequest. ses_auto. Qed.

(** ** The sessions and the accounts stay linked *)
Lemma linked_view m m' : sessions_of m' = sessions_of m -> linked m -> linked m'.
Proof.
  unfold sessions_of. intros Hv (L1 & L2 & L3).
  injection Hv as Ha Hc.
  assert (HA : forall name a', accounts m' !! name = Some a' ->
            exists a, accounts m !! name = Some a /\ handler a = handler a' /\
                      is_connected a = is_connected a').
  { intros name a' H. pose proof (f_equal (fun f => f !! name) Ha) as E. cbn in E.
    rewrite !lookup_fmap, H in E. destruct (accounts m !! name) as [a|]; [|discriminate].
    cbn in E. injection E as E1 E2 E3. eauto. }
  assert (HA' : forall name a, accounts m !! name = Some a ->
            exists a', accounts m' !! name = Some a' /\ handler a = handler a' /\
                       is_connected a = is_connected a').
  { intros name a H. pose proof (f_equal (fun f => f !! name) Ha) as E. cbn in E.
    rewrite !lookup_fmap, H in E. destruct (accounts m' !! name) as [a'|]; [|discriminate].
    cbn in E. injection E as E1 E2 E3. eauto. }
  assert (HC : forall c x', connections m' !! c = Some x' ->
            exists x, connections m !! c = Some x /\ conn_account x = conn_account x').
  { intros c x' H. pose proof (f_equal (fun f => f !! c) Hc) as E. cbn in E.
    rewrite !lookup_fmap, H in E. destruct (connections m !! c) as [x|]; [|discriminate].
    cbn in E. injection E as E1. eauto. }
  assert (HC' : forall c x, connections m !! c = Some x ->
            exists x', connections m' !! c = Some x' /\ conn_account x = conn_account x').
  { intros c x H. pose proof (f_equal (fun f => f !! c) Hc) as E. cbn in E.
    rewrite !lookup_fmap, H in E. destruct (connections m' !! c) as [x'|]; [|discriminate].
    cbn in E. injection E as E1. eauto. }
  split; [|split].
  - intros c x' name Hx' Hn. destruct (HC c x' Hx') as (x & Hx & Ex).
    destruct (L1 c x name Hx ltac:(congruence)) as (a & Hacc & Hh & Hconn).
    destruct (HA' name a Hacc) as (a' & Hacc' & Eh & Ec).
    exists a'. split; [exact Hacc'|]. split; congruence.
  - intros name a' c Hacc' Hh. destruct (HA name a' Hacc') as (a & Hacc & Eh & Ec).
    destruct (L2 name a c Hacc ltac:(congruence)) as (x & Hx & Hn).
    destruct (HC' c x Hx) as (x' & Hx' & Ex).
    exists x'. split; [exact Hx'|congruence].
  - intros name a' Hacc'. destruct (HA name a' Hacc') as (a & Hacc & Eh & Ec).
    rewrite <- Eh, <- Ec. exact (L3 name a Hacc).
Qed.

Lemma linked_replied m c x r :
  connections m !! c = Some x -> linked m -> linked (replied m c x r).
Proof.
  intros Hc. apply linked_view. unfold sessions_of, replied.
  cbn [accounts connections set_connections]. f_equal.
  rewrite fmap_insert. cbn [conn_account]. apply insert_id. rewrite lookup_fmap, Hc. reflexivity.
Qed.

Lemma linked_login m c x u a :
  connections m !! c = Some x -> conn_account x = None ->
  accounts m !! u = Some a -> is_connected a = false ->
  linked m ->
  linked (with_account (with_connection m c (bound_to x (Some u))) u (set_session a (Some c) true)).
Proof.
  intros Hc Hout Ha Hconn (L1 & L2 & L3).
  assert (Hnoh : handler a = None).
  { destruct (handler a) as [h|] eqn:Hh; [|reflexivity].
    pose proof (proj2 (L3 u a Ha) ltac:(rewrite Hh; eauto)). congruence. }
  unfold linked, with_account, with_connection.
  cbn [accounts connections set_accounts set_connections].
  split; [|split].
  - intros c' x' name Hx' Hn. apply lookup_insert_Some in Hx' as [[<- <-]|[Hne Hx']].
    + cbn [bound_to conn_account] in Hn. injection Hn as <-.
      exists (set_session a (Some c) true). rewrite lookup_insert_eq. auto.
    + destruct (L1 c' x' name Hx' Hn) as (a' & Ha' & Hh' & Hc').
      assert (name <> u) by (intros ->; congruence).
      exists a'. rewrite lookup_insert_ne by congruence. auto.
  - intros name a' c' Ha' Hh'. apply lookup_insert_Some in Ha' as [[<- <-]|[Hne Ha']].
    + cbn [set_session handler] in Hh'. injection Hh' as <-.
      exists (bound_to x (Some u)). rewrite lookup_insert_eq. auto.
    + destruct (L2 name a' c' Ha' Hh') as (x' & Hx' & Hn).
      assert (c' <> c) by (intros ->; congruence).
      exists x'. rewrite lookup_insert_ne by congruence. auto.
  - intros name a' Ha'. apply lookup_insert_Some in Ha' as [[<- <-]|[Hne Ha']].
    + cbn [set_session handler is_connected]. split; eauto.
    + exact (L3 name a' Ha').
Qed.

Lemma linked_logout m c x name a :
  connections m !! c = Some x -> conn_account x = Some name ->
  accounts m !! name = Some a ->
  linked m ->
  linked (with_connection (with_account m name (set_session a None false)) c (bound_to x None)).
Proof.
  intros Hc Hx Ha (L1 & L2 & L3).
  destruct (L1 c x name Hc Hx) as (a0 & Ha0 & Hh0 & Hc0).
  assert (a0 = a) by congruence. subst a0.
  unfold linked, with_account, with_connection.
  cbn [accounts connections set_accounts set_connections].
  split; [|split].
  - intros c' x' name' Hx' Hn. apply lookup_insert_Some in Hx' as [[<- <-]|[Hne Hx']].
    + cbn [bound_to conn_account] in Hn. discriminate.
    + destruct (L1 c' x' name' Hx' Hn) as (a' & Ha' & Hh' & Hc').
      assert (name' <> name) by (intros ->; congruence).
      exists a'. rewrite lookup_insert_ne by congruence. auto.
  - intros name' a' c' Ha' Hh'. apply lookup_insert_Some in Ha' as [[<- <-]|[Hne Ha']].
    + cbn [set_session handler] in Hh'. discriminate.
    + destruct (L2 name' a' c' Ha' Hh') as (x' & Hx' & Hn).
      assert (c' <> c) by (intros ->; congruence).
      exists x'. rewrite lookup_insert_ne by congruence. auto.
  - intros name' a' Ha'. apply lookup_insert_Some in Ha' as [[<- <-]|[Hne Ha']].
    + cbn [set_session handler is_connected]. split; [discriminate|intros [? ?]; discriminate].
    + exact (L3 name' a' Ha').
Qed.

Lemma linked_login_request c u p m :
  linked m -> linked (final (Connection_handle_LoginRequest c u p m)).
Proof.
  intros HL. destruct (connections m !! c) as [x|] eqn:Hc.
  2:{ unfold Connection_handle_LoginRequest, load_connection, bind, get, unwrap.
      rewrite Hc. exact HL. }
  destruct (decide (is_Some (conn_account x))) as [Hin|Hout].
  { destruct (login_refused_run c u p m x Hc (or_introl Hin)) as (st & E).
    rewrite E. apply linked_replied; assumption. }
  destruct (Authorizer_is_valid m u p) eqn:Hv.
  2:{ destruct (login_refused_run c u p m x Hc (or_intror (or_introl Hv))) as (st & E).
      rewrite E. apply linked_replied; assumption. }
  unfold Authorizer_is_valid in Hv. destruct (accounts m !! u) as [a|] eqn:Ha; [|discriminate].
  apply bool_decide_eq_true in Hv.
  destruct (is_connected a) eqn:Hconn.
  { destruct (login_refused_run c u p m x Hc) as (st & E).
    { right. right. exists a. rewrite Ha. auto. }
    rewrite E. apply linked_replied; assumption. }
  assert (Hnone : conn_account x = None).
  { destruct (conn_account x); [exfalso; apply Hout; eauto|reflexivity]. }
  rewrite (login_accepted_run c u p m x a Hc Hnone Ha Hv Hconn). cbn [final].
  apply linked_replied.
  - unfold with_account, with_connection. cbn [connections set_accounts set_connections].
    apply lookup_insert_eq.
  - apply linked_login; assumption.
Qed.

Lemma linked_logout_then c r m :
  linked m -> linked (final ((do Connection_logout c then Connection_send c r) m)).
Proof.
  intros HL. destruct (connections m !! c) as [x|] eqn:Hc.
  2:{ unfold Connection_logout, load_connection, bind, get, unwrap. rewrite Hc. exact HL. }
  destruct (conn_account x) as [name|] eqn:Hx.
  - destruct (proj1 HL c x name Hc Hx) as (a & Ha & _).
    unfold bind. rewrite (logout_run c m x name a Hc Hx Ha).
    rewrite (send_run c r _ (bound_to x None)).
    2:{ unfold with_connection. cbn [connections set_connections]. apply lookup_insert_eq. }
    cbn [final]. apply linked_replied.
    + unfold with_connection. cbn [connections set_connections]. apply lookup_insert_eq.
    + apply linked_logout; assumption.
  - unfold bind. rewrite (logout_idle c m x Hc Hx), (send_run c r m x Hc). cbn [final].
    apply linked_replied; assumption.
Qed.

Lemma linked_logout_request c m :
  linked m -> linked (final (Connection_handle_LogoutRequest c m)).
Proof.
  intros HL. destruct (connections m !! c) as [x|] eqn:Hc.
  2:{ unfold Connection_handle_LogoutRequest, load_connection, bind, get, unwrap.
      rewrite Hc. exact HL. }
  unfold Connection_handle_LogoutRequest, load_connection. unfold bind at 1 2.
  unfold get, unwrap, ret. rewrite Hc.
  destruct (negb (Connection_is_logged_in x)).
  - rewrite (send_run c _ m x Hc). apply linked_replied; assumption.
  - apply linked_logout_then, HL.
Qed.

(** X10.  The handlers of a session keep the sessions and the accounts
    linked, whatever the packet and whether the handler returns or throws: a
    session logged in to an account is the handler of that account, the handler
    of an account is a session logged in to it, and an account is marked
    connected exactly when it has a handler.  The same holds for the logout of
    a closed connection.  So an account is never logged in on two sessions,
    and two accounts never share a session. *)
Theorem sessions_stay_linked (first : gset Z -> option Z) (c : nat) (msg : ClientMessage)
    (m : Memory) :
  linked m ->
  linked (final (Connection_handle first c msg m)) /\
  linked (final (Connection_logout c m)) /\
  (forall c1 c2 x1 x2 name,
     connections m !! c1 = Some x1 -> connections m !! c2 = Some x2 ->
     conn_account x1 = Some name -> conn_account x2 = Some name -> c1 = c2) /\
  (forall n1 n2 a1 a2 h,
     accounts m !! n1 = Some a1 -> accounts m !! n2 = Some a2 ->
     handler a1 = Some h -> handler a2 = Some h -> n1 = n2).
Proof.
  intros HL. split; [|split; [|split]].
  - destruct msg; cbn [Connection_handle].
    + apply linked_login_request, HL.
    + apply linked_logout_request, HL.
    + apply (linked_view m); [apply ses_order_request|exact HL].
    + apply (linked_view m); [apply ses_cancel_request|exact HL].
    + apply (linked_view m); [apply ses_replace_request|exact HL].
    + apply (linked_view m); [apply ses_purge_request|exact HL].
    + unfold Connection_handle_Header. apply linked_logout_then, HL.
  - destruct (connections m !! c) as [x|] eqn:Hc.
    2:{ unfold Connection_logout, load_connection, bind, get, unwrap. rewrite Hc. exact HL. }
    destruct (conn_account x) as [name|] eqn:Hx.
    + destruct (proj1 HL c x name Hc Hx) as (a & Ha & _).
      rewrite (logout_run c m x name a Hc Hx Ha). apply linked_logout; assumption.
    + rewrite (logout_idle c m x Hc Hx). exact HL.
  - intros c1 c2 x1 x2 name H1 H2 N1 N2.
    destruct (proj1 HL c1 x1 name H1 N1) as (a1 & A1 & Hh1 & _).
    destruct (proj1 HL c2 x2 name H2 N2) as (a2 & A2 & Hh2 & _).
    congruence.
  - intros n1 n2 a1 a2 h A1 A2 H1 H2.
    destruct (proj1 (proj2 HL) n1 a1 h A1 H1) as (x1 & X1 & N1).
    destruct (proj1 (proj2 HL) n2 a2 h A2 H2) as (x2 & X2 & N2).
    congruence.
Qed.

(** X10, the theorem at an order request on the session of "bob". *)
Lemma sessions_stay_linked_witness :
  linked (final (Connection_handle (fun s => head (elements s)) 7
                   (OrderRequestMessage (mkOrderRequest 100 5 WireBuy)) example_memory)) /\
  linked (final (Connection_logout 7 example_memory)) /\
  (forall c1 c2 x1 x2 name,
     connections example_memory !! c1 = Some x1 -> connections example_memory !! c2 = Some x2 ->
     conn_account x1 = Some name -> conn_account x2 = Some name -> c1 = c2) /\
  (forall n1 n2 a1 a2 h,
     accounts example_memory !! n1 = Some a1 -> accounts example_memory !! n2 = Some a2 ->
     handler a1 = Some h -> handler a2 = Some h -> n1 = n2).
Proof.
  apply (sessions_stay_linked (fun s => head (elements s)) 7
           (OrderRequestMessage (mkOrderRequest 100 5 WireBuy)) example_memory).
  unfold linked, example_memory, example_accounts. cbn [accounts connections].
  split; [|split].
  - intros c x name Hx Hn. apply lookup_insert_Some in Hx as [[<- <-]|[_ Hx]].
    + injection Hn as <-. eexists. split; [reflexivity|]. split; reflexivity.
    + rewrite lookup_empty in Hx. discriminate.
  - intros name a c Ha Hh. apply lookup_insert_Some in Ha as [[<- <-]|[_ Ha]]; [discriminate|].
    apply lookup_insert_Some in Ha as [[<- <-]|[_ Ha]].
    + injection Hh as <-. eexists. split; reflexivity.
    + rewrite lookup_empty in Ha. discriminate.
  - intros name a Ha. apply lookup_insert_Some in Ha as [[<- <-]|[_ Ha]].
    + cbn. split; [discriminate|intros [? ?]; discriminate].
    + apply lookup_insert_Some in Ha as [[<- <-]|[_ Ha]].
      * cbn. split; eauto.
      * rewrite lookup_empty in Ha. discriminate.
Defined.

(** ** Well-formed books and sessions *)
Lemma wf_same m m' :
  book m' = book m -> accounts m' = accounts m -> book_wf m -> book_wf m'.
Proof.
  destruct m as [b a c], m' as [b' a' c']. cbn [book accounts]. intros -> -> H. exact H.
Qed.

Lemma replied_wf m c x r : book_wf m -> book_wf (replied m c x r).
Proof. apply wf_same; reflexivity. Qed.

Lemma view_connection m m' c x :
  sessions_of m' = sessions_of m -> connections m !! c = Some x ->
  exists x', connections m' !! c = Some x' /\ conn_account x' = conn_account x.
Proof.
  unfold sessions_of. intros Hv Hc. injection Hv as _ E.
  pose proof (f_equal (fun f => f !! c) E) as E'. cbn in E'.
  rewrite !lookup_fmap, Hc in E'. destruct (connections m' !! c) as [x'|]; [|discriminate].
  cbn in E'. injection E' as E1. eauto.
Qed.

(** ** The cancel request *)
Lemma cancel_request_unfold c order_id m x acct :
  connections m !! c = Some x -> conn_account x = Some acct ->
  Connection_handle_CancelRequest c order_id m =
    (if negb (LimitOrderBook_has (book m) order_id)
     then Connection_send c (CancelResponse order_id Rejected)
     else
       let* mine := Connection_owns acct order_id in
       if negb mine
       then Connection_send c (CancelResponse order_id Rejected)
       else do LimitOrderBook_cancel order_id then
            Connection_send c (CancelResponse order_id Accepted)) m.
Proof.
  intros Hc Hx. unfold Connection_handle_CancelRequest, load_connection. unfold bind at 1 2.
  unfold get at 1, unwrap at 1, ret. rewrite Hc, Hx. unfold bind at 1. unfold get at 1.
  reflexivity.
Qed.

Lemma owns_run acct order_id m o owner me :
  order_map (book m) !! order_id = Some o ->
  accounts m !! account o = Some owner -> accounts m !! acct = Some me ->
  Connection_owns acct order_id m = Ok (bool_decide (username owner = username me)) m.
Proof.
  intros Ho Howner Hme.
  unfold Connection_owns, LimitOrderBook_get, UIDOrderMap_at, load_account,
    bind, get, unwrap, ret.
  rewrite Ho, Howner, Hme. reflexivity.
Qed.

(** X11.  The cancel request on the session [c], on a well-formed book.  It
    is refused, with no other effect than the response [Rejected], when the
    session is not logged in, when the book does not hold the order, and when
    the order belongs to another account than the one of the session: a client
    cannot cancel the order of another client.  When the order belongs to the
    account of the session it is canceled, the response is [Accepted], and the
    book is well formed and does not hold the order any more. *)
Theorem cancel_request_cases (c : nat) (order_id : Z) (m : Memory) (x : Connection) :
  authorizer_wf m -> book_wf m -> connections m !! c = Some x ->
  (conn_account x = None \/ order_map (book m) !! order_id = None \/
   (exists acct o, conn_account x = Some acct /\ is_Some (accounts m !! acct) /\
                   order_map (book m) !! order_id = Some o /\ account o <> acct) ->
   Connection_handle_CancelRequest c order_id m
     = Ok tt (replied m c x (CancelResponse order_id Rejected))) /\
  (forall acct o, conn_account x = Some acct ->
     order_map (book m) !! order_id = Some o -> account o = acct ->
     exists m0,
       LimitOrderBook_cancel order_id m = Ok tt m0 /\
       Connection_handle_CancelRequest c order_id m
         = Ok tt (replied m0 c x (CancelResponse order_id Accepted)) /\
       book_wf (replied m0 c x (CancelResponse order_id Accepted)) /\
       LimitOrderBook_has (book m0) order_id = false).
Proof.
  intros Hauth Hwf Hc. split.
  - intros H. destruct (conn_account x) as [acct|] eqn:Hx.
    2:{ unfold Connection_handle_CancelRequest, load_connection, bind, get, unwrap, ret.
        rewrite Hc, Hx. apply send_run, Hc. }
    rewrite (cancel_request_unfold c order_id m x acct Hc Hx). unfold LimitOrderBook_has.
    destruct H as [H|[H|(acct' & o & Hacct & [me Hme] & Ho & Hne)]]; [discriminate| |].
    + rewrite bool_decide_eq_false_2 by (rewrite H; intros [? ?]; discriminate).
      cbn [negb]. apply send_run, Hc.
    + injection Hacct as <-.
      rewrite bool_decide_eq_true_2 by (rewrite Ho; eauto). cbn [negb].
      destruct (wf_order_account m order_id o Hwf Ho) as (owner & Howner & _).
      unfold bind. rewrite (owns_run acct order_id m o owner me Ho Howner Hme).
      rewrite bool_decide_eq_false_2.
      2:{ rewrite (Hauth _ _ Howner), (Hauth _ _ Hme). exact Hne. }
      cbn [negb]. apply send_run, Hc.
  - intros acct o Hx Ho Hown.
    destruct (wf_order_level m order_id o Hwf Ho) as (l & Hl & _).
    destruct (wf_order_account m order_id o Hwf Ho) as (a & Ha & _).
    destruct (wf_order m order_id o Hwf Ho) as (_ & _ & _ & _ & Hlim & _).
    pose proof (cancel_run m order_id o l a Ho Hlim Hl Ha) as Hrun.
    pose proof (canceled_wf m order_id o l a Hwf Ho Hl Ha) as Hwf0.
    destruct (canceled_gone m order_id o l a Hwf Ho Hl Ha) as (Hgone & _).
    set (m0 := canceled m order_id o l a) in *.
    assert (Hc0 : connections m0 !! c = Some x) by exact Hc.
    exists m0. split; [exact Hrun|]. split; [|split].
    + rewrite (cancel_request_unfold c order_id m x acct Hc Hx). unfold LimitOrderBook_has.
      rewrite bool_decide_eq_true_2 by (rewrite Ho; eauto). cbn [negb].
      unfold bind at 1. rewrite (owns_run acct order_id m o a a Ho Ha) by (rewrite <- Hown; exact Ha).
      rewrite bool_decide_eq_true_2 by reflexivity. cbn [negb].
      unfold bind. rewrite Hrun. apply send_run, Hc0.
    + apply replied_wf, Hwf0.
    + unfold LimitOrderBook_has. apply bool_decide_eq_false. rewrite Hgone.
      intros [? ?]; discriminate.
Qed.

(** ** The order request *)
(** X12.  The order request on the session [c], on a well-formed book with
    room for one more order.  On a session that is not logged in the request
    is refused (order id 0, [Rejected]) and nothing else changes.  On a session
    logged in to [acct] a request with the price 0 is a market order: it is
    answered with the order id 0 and [Accepted]; any other price makes a limit
    order, answered with the uid [limit] returns; in both cases the handler
    returns and the book is well formed again.  An order request cannot enter
    a limit order at the price 0. *)
Theorem order_request_cases (c : nat) (request : OrderRequest) (m : Memory) (x : Connection) :
  book_wf m -> sessions_ok m -> connections m !! c = Some x ->
  0 <= order_quantity request < 2 ^ 32 -> 0 <= order_price request < 2 ^ 64 ->
  has_room m 1 ->
  (conn_account x = None ->
     Connection_handle_OrderRequest c request m
       = Ok tt (replied m c x (OrderResponse 0 Rejected))) /\
  (forall acct, conn_account x = Some acct -> is_Some (accounts m !! acct) ->
     exists u m1 x1,
       (if order_price request =? 0
        then LimitOrderBook_market acct (side_to_LOB_side (order_side request))
                                   (order_quantity request) m = Ok tt m1 /\ u = 0
        else LimitOrderBook_limit acct (side_to_LOB_side (order_side request))
                                  (order_quantity request) (order_price request) m
             = Ok u m1) /\
       connections m1 !! c = Some x1 /\ conn_account x1 = Some acct /\
       Connection_handle_OrderRequest c request m
         = Ok tt (replied m1 c x1 (OrderResponse u Accepted)) /\
       book_wf (replied m1 c x1 (OrderResponse u Accepted))).
Proof.
  intros Hwf Hs Hc Hq Hp Hroom. split.
  - intros Hx. unfold Connection_handle_OrderRequest, load_connection, bind, get, unwrap, ret.
    rewrite Hc, Hx. apply send_run, Hc.
  - intros acct Hx Hacct.
    assert (Hh : Connection_handle_OrderRequest c request m =
      (if order_price request =? ORDER_PRICE_MARKET
       then do LimitOrderBook_market acct (side_to_LOB_side (order_side request))
                                     (order_quantity request) then
            Connection_send c (OrderResponse ORDER_ID_MARKET Accepted)
       else let* u := LimitOrderBook_limit acct (side_to_LOB_side (order_side request))
                                           (order_quantity request) (order_price request) in
            Connection_send c (OrderResponse u Accepted)) m).
    { unfold Connection_handle_OrderRequest, load_connection. unfold bind at 1.
      unfold bind at 1. unfold get at 1, unwrap at 1, ret. rewrite Hc, Hx. reflexivity. }
    rewrite Hh. unfold ORDER_PRICE_MARKET, ORDER_ID_MARKET.
    destruct (order_price request =? 0) eqn:Hz.
    + destruct (market_wf m acct (side_to_LOB_side (order_side request))
                  (order_quantity request) Hwf Hs Hacct ltac:(lia))
        as (m1 & E & Hwf1 & _).
      pose proof (ses_market acct (side_to_LOB_side (order_side request))
                    (order_quantity request) m) as Hv. rewrite E in Hv. cbn [final] in Hv.
      destruct (view_connection m m1 c x Hv Hc) as (x1 & Hc1 & Hx1).
      exists 0, m1, x1. split; [split; [exact E|reflexivity]|].
      split; [exact Hc1|]. split; [congruence|]. split.
      * unfold bind. rewrite E. apply send_run, Hc1.
      * apply replied_wf, Hwf1.
    + destruct Hroom as (R1 & R2 & R3).
      destruct (limit_wf m acct (side_to_LOB_side (order_side request))
                  (order_quantity request) (order_price request) Hwf Hs Hacct Hq Hp)
        as (u & m1 & E & Hwf1 & _).
      { destruct (side_to_LOB_side (order_side request)); cbn [tree_of]; lia. }
      { lia. }
      pose proof (ses_limit acct (side_to_LOB_side (order_side request))
                    (order_quantity request) (order_price request) m) as Hv.
      rewrite E in Hv. cbn [final] in Hv.
      destruct (view_connection m m1 c x Hv Hc) as (x1 & Hc1 & Hx1).
      exists u, m1, x1. split; [exact E|].
      split; [exact Hc1|]. split; [congruence|]. split.
      * unfold bind. rewrite E. apply send_run, Hc1.
      * apply replied_wf, Hwf1.
Qed.

(** ** The purge request *)
Lemma orders_of_others_delete acct om u o :
  om !! u = Some o -> account o = acct ->
  orders_of_others acct (delete u om) = orders_of_others acct om.
Proof.
  intros Ho Ha. unfold orders_of_others. rewrite map_filter_delete. apply delete_id.
  apply map_lookup_filter_None. right. intros o' Ho' Hne. cbn in Hne. congruence.
Qed.

Lemma purge_loop_run first (Hfirst : picks first) (fuel : nat) : forall m acct a,
  book_wf m -> accounts m !! acct = Some a ->
  (size (orders (base a)) < fuel)%nat ->
  exists m',
    Connection_purge_loop first fuel acct m = Ok tt m' /\ book_wf m' /\
    accounts m' = <[acct := set_base a (mkAccount (shares (base a)) (capital (base a)) ∅)]>
                    (accounts m) /\
    order_map (book m') = orders_of_others acct (order_map (book m)) /\
    connections m' = connections m /\
    sequence (book m') = sequence (book m).
Proof.
  induction fuel as [|fuel IH]; intros m acct a Hwf Ha Hfuel; [lia|].
  cbn [Connection_purge_loop]. unfold load_account at 1. unfold bind at 1 2.
  unfold get at 1, unwrap at 1, ret. rewrite Ha.
  destruct (decide (orders (base a) = ∅)) as [He|Hne].
  - rewrite bool_decide_eq_true_2 by (rewrite He; apply size_empty).
    exists m. split; [reflexivity|]. split; [exact Hwf|]. split; [|split; [|split]].
    + symmetry. apply insert_id. rewrite Ha. f_equal. destruct a as [[] ? ? ? ?].
      cbn in *. rewrite He. reflexivity.
    + unfold orders_of_others. symmetry. apply map_filter_id. intros u o Ho Heq.
      cbn in Heq. destruct (wf_order_account m u o Hwf Ho) as (a' & Ha' & Hin).
      rewrite Heq, Ha in Ha'. injection Ha' as <-. rewrite He in Hin.
      apply elem_of_empty in Hin. contradiction.
    + reflexivity.
    + reflexivity.
  - rewrite bool_decide_eq_false_2.
    2:{ intros Hz. apply size_empty_iff in Hz. apply leibniz_equiv in Hz. contradiction. }
    destruct (Hfirst _ Hne) as (ptr & Hptr & Hin).
    unfold bind at 1. unfold unwrap at 1. rewrite Hptr.
    assert (Hacc : account_wf m acct a).
    { destruct Hwf as (_ & _ & _ & _ & Hall). exact (Hall acct a Ha). }
    pose proof (Hacc ptr Hin) as Hold. apply holds_inv in Hold as (o & Ho & Hown).
    destruct (wf_order m ptr o Hwf Ho) as (Hu & _ & _ & _ & Hlim & _).
    destruct (wf_order_level m ptr o Hwf Ho) as (l & Hl & _).
    assert (Ha' : accounts m !! account o = Some a) by (rewrite Hown; exact Ha).
    unfold ret at 1. unfold bind at 1. unfold load_order at 1. unfold bind at 1.
    unfold get at 1, unwrap at 1. rewrite Ho. unfold ret at 1. rewrite Hu.
    unfold bind at 1. rewrite (cancel_run m ptr o l a Ho Hlim Hl Ha').
    pose proof (canceled_wf m ptr o l a Hwf Ho Hl Ha') as Hwf1.
    pose proof (canceled_frame m ptr o l a Hwf Ho Hl Ha') as (F1 & F2 & F3 & F4 & F5 & F6 & F7 & F8).
    set (m1 := canceled m ptr o l a) in *.
    rewrite Hown in F3.
    set (a1 := mkSystemAccount (mkAccount (shares (base a)) (capital (base a))
                                          (orders (base a) ∖ {[ptr]}))
                               (username a) (password a) (handler a) (is_connected a)) in *.
    assert (Hsize : (size (orders (base a1)) < fuel)%nat).
    { unfold a1. cbn [base orders]. rewrite size_difference.
      - rewrite size_singleton. assert (size (orders (base a)) <> 0%nat); [|lia].
        intros Hz. apply size_empty_iff in Hz. apply leibniz_equiv in Hz. contradiction.
      - intros y Hy. apply elem_of_singleton in Hy. subst y. exact Hin. }
    destruct (IH m1 acct a1 Hwf1 F3 Hsize) as (m' & E & Hwf' & Hacc' & Hom' & Hconn' & Hseq').
    exists m'. split; [exact E|]. split; [exact Hwf'|]. split; [|split; [|split]].
    + rewrite Hacc'. unfold a1. cbn [set_base base shares capital username password handler
        is_connected]. apply map_eq. intros n. destruct (decide (n = acct)) as [->|Hn].
      * rewrite !lookup_insert_eq. reflexivity.
      * rewrite !lookup_insert_ne by congruence. apply F2. congruence.
    + rewrite Hom'. assert (Hom1 : order_map (book m1) = delete ptr (order_map (book m))).
      { unfold m1, canceled. cbn [book]. destruct (side o); reflexivity. }
      rewrite Hom1. apply (orders_of_others_delete acct _ ptr o Ho Hown).
    + rewrite Hconn'. exact F8.
    + rewrite Hseq'. exact F7.
Qed.

(** X13.  The purge request on the session [c], on a well-formed book, with
    any order in which the order set of the account is traversed.  On a session
    that is not logged in it is refused and nothing else changes.  On a session
    logged in to [acct] the loop ends, every order of the account is canceled
    and only those: the uid map keeps exactly the orders of the other accounts,
    the order set of the account is empty, its balances and its session are as
    before, the other accounts are not touched, no uid is consumed, the book is
    well formed, and the only message sent is the response [Accepted]. *)
Theorem purge_request_cancels_own_orders (first : gset Z -> option Z) (c : nat) (m : Memory)
    (x : Connection) :
  picks first -> book_wf m -> connections m !! c = Some x ->
  (conn_account x = None ->
     Connection_handle_PurgeRequest first c m
       = Ok tt (replied m c x (PurgeResponse Rejected))) /\
  (forall acct a, conn_account x = Some acct -> accounts m !! acct = Some a ->
     exists m0,
       Connection_handle_PurgeRequest first c m
         = Ok tt (replied m0 c x (PurgeResponse Accepted)) /\
       book_wf (replied m0 c x (PurgeResponse Accepted)) /\
       order_map (book m0) = orders_of_others acct (order_map (book m)) /\
       accounts m0
         = <[acct := set_base a (mkAccount (shares (base a)) (capital (base a)) ∅)]>
             (accounts m) /\
       connections m0 = connections m /\
       sequence (book m0) = sequence (book m)).
Proof.
  intros Hfirst Hwf Hc. split.
  - intros Hx. unfold Connection_handle_PurgeRequest, load_connection, bind, get, unwrap, ret.
    rewrite Hc, Hx. apply send_run, Hc.
  - intros acct a Hx Ha.
    destruct (purge_loop_run first Hfirst (S (size (orders (base a)))) m acct a Hwf Ha
                ltac:(lia)) as (m0 & E & Hwf0 & Hacc & Hom & Hconn & Hseq).
    assert (Hc0 : connections m0 !! c = Some x) by (rewrite Hconn; exact Hc).
    exists m0. split; [|split; [|split; [|split; [|split]]]];
      [|apply replied_wf, Hwf0|exact Hom|exact Hacc|exact Hconn|exact Hseq].
    unfold Connection_handle_PurgeRequest, load_connection. unfold bind at 1 2.
    unfold get at 1, unwrap at 1, ret. rewrite Hc, Hx.
    unfold bind at 1. unfold load_account at 1. unfold bind at 1. unfold get at 1, unwrap at 1.
    rewrite Ha. unfold ret. unfold bind. rewrite E. apply send_run, Hc0.
Qed.

Lemma least_picks : picks least.
Proof.
  intros s Hne. unfold least. destruct (elements s) as [|u l] eqn:E.
  - apply elements_empty_inv in E. apply leibniz_equiv in E. contradiction.
  - exists u. split; [reflexivity|]. apply elem_of_elements. rewrite E. left.
Qed.

(** ** The turns of the matching loop, with the states they leave *)
Lemma consumed_run fuel s order m p l u mo :
  best (tree_of s (book m)) = Some p ->
  (quantity order =? 0) || negb (can_match s p (price order)) = false ->
  limits (tree_of s (book m)) !! p = Some l ->
  head (fifo l) = Some u ->
  order_map (book m) !! u = Some mo ->
  limit mo = Some p ->
  quantity mo <= quantity order ->
  is_Some (accounts m !! account mo) -> is_Some (accounts m !! account order) ->
  sessions_ok m ->
  LimitTree_market_loop (S fuel) s UIDOrderMap_erase order m
  = LimitTree_market_loop fuel s UIDOrderMap_erase
      (set_quantity order (quantity order - quantity mo)) (consumed m s u mo p l order).
Proof.
  intros Hbest Hgo Hl Hhead Ho Hlim Hle Ham Hat Hs.
  set (order' := set_quantity order (quantity order - quantity mo)).
  assert (Hstep : forall F1 r1 F2 r2 (cb : M Memory unit),
    cb m = Ok tt (filled m (account mo) F1 r1 (account order) F2 r2) ->
    (do cb then
     do LimitTree_remove s u then
     do UIDOrderMap_erase u then
     LimitTree_market_loop fuel s UIDOrderMap_erase order') m
    = LimitTree_market_loop fuel s UIDOrderMap_erase order'
        (drop u (removed (filled m (account mo) F1 r1 (account order) F2 r2) s u mo p l))).
  { intros F1 r1 F2 r2 cb Hcb. rewrite (bind_run _ _ _ _ _ Hcb).
    assert (Hb : book (filled m (account mo) F1 r1 (account order) F2 r2) = book m)
      by (apply filled_book; assumption).
    rewrite (bind_run _ _ _ _ _ (remove_run s u _ mo p l
               ltac:(rewrite Hb; exact Ho) Hlim ltac:(rewrite Hb; exact Hl))).
    reflexivity. }
  assert (Hloop : LimitTree_market_loop (S fuel) s UIDOrderMap_erase order m
    = (do (if quantity order' =? 0
           then do SystemAccount_limit_fill (account mo) mo order then
                SystemAccount_market_fill (account order) mo order
           else do SystemAccount_limit_fill (account mo) mo order' then
                SystemAccount_market_partial (account order') mo order') then
       do LimitTree_remove s u then
       do UIDOrderMap_erase u then
       LimitTree_market_loop fuel s UIDOrderMap_erase order') m).
  { cbn [LimitTree_market_loop]. unfold load_tree at 1. unfold bind at 1 2. unfold get, ret.
    rewrite Hbest, Hgo. unfold bind at 1. unfold unwrap at 1. rewrite Hl. unfold ret.
    unfold bind at 1. unfold unwrap at 1. rewrite Hhead. unfold ret.
    unfold bind at 1. unfold load_order, bind at 1, get, unwrap at 1. rewrite Ho. unfold ret.
    rewrite (proj2 (Z.leb_le _ _) Hle). reflexivity. }
  rewrite Hloop. unfold consumed. fold order'.
  assert (Hmid : forall F r, is_Some (accounts (notified m (account mo) F r) !! account order) /\
                             sessions_ok (notified m (account mo) F r)).
  { intros F r. destruct Ham as [a1 Ha1]. split.
    - apply (notified_dom m _ _ _ a1 Ha1). exact Hat.
    - apply (notified_sessions m _ _ _ a1 Ha1). exact Hs. }
  destruct (quantity order' =? 0).
  - apply Hstep.
    rewrite (bind_run _ _ _ _ _ (limit_fill_run _ mo order m Ham Hs)).
    rewrite market_fill_run; [reflexivity|apply Hmid|apply Hmid].
  - apply Hstep.
    rewrite (bind_run _ _ _ _ _ (limit_fill_run _ mo order' m Ham Hs)).
    rewrite market_partial_run; [reflexivity|apply Hmid|apply Hmid].
Qed.

Lemma partly_run fuel s order m p l u mo :
  best (tree_of s (book m)) = Some p ->
  (quantity order =? 0) || negb (can_match s p (price order)) = false ->
  limits (tree_of s (book m)) !! p = Some l ->
  head (fifo l) = Some u ->
  order_map (book m) !! u = Some mo ->
  quantity order < quantity mo ->
  is_Some (accounts m !! account mo) -> is_Some (accounts m !! account order) ->
  sessions_ok m ->
  LimitTree_market_loop (S fuel) s UIDOrderMap_erase order m
  = Ok (set_quantity order 0) (partly m s u mo p l order).
Proof.
  intros Hbest Hgo Hl Hhead Ho Hlt Ham Hat Hs.
  set (mo' := set_quantity mo (quantity mo - quantity order)).
  set (m1 := shrunk m s u mo p l (quantity order)).
  assert (Hloop : LimitTree_market_loop (S fuel) s UIDOrderMap_erase order m
    = (do SystemAccount_limit_partial (account mo') mo' order then
       do SystemAccount_market_fill (account order) mo' order then
       ret (set_quantity order 0)) m1).
  { cbn [LimitTree_market_loop]. unfold load_tree at 1. unfold bind at 1 2. unfold get, ret.
    rewrite Hbest, Hgo. unfold bind at 1. unfold unwrap at 1. rewrite Hl. unfold ret.
    unfold bind at 1. unfold unwrap at 1. rewrite Hhead. unfold ret.
    unfold bind at 1. unfold load_order, bind at 1, get, unwrap at 1. rewrite Ho. unfold ret.
    rewrite (proj2 (Z.leb_gt _ _) Hlt).
    unfold bind at 1. unfold store_order at 1, modify at 1.
    unfold bind at 1. unfold store_tree at 1, modify at 1.
    subst m1 mo'. unfold shrunk. rewrite Hbest. reflexivity. }
  rewrite Hloop.
  assert (Ham1 : is_Some (accounts m1 !! account mo')) by exact Ham.
  assert (Hat1 : is_Some (accounts m1 !! account order)) by exact Hat.
  assert (Hs1 : sessions_ok m1) by exact Hs.
  pose proof (limit_partial_run _ mo' order m1 Ham1 Hs1) as E1.
  match type of E1 with _ = Ok tt ?x => set (m2 := x) in * end.
  assert (Hat2 : is_Some (accounts m2 !! account order)).
  { destruct Ham1 as [a1 Ha1]. unfold m2. apply (notified_dom m1 _ _ _ a1 Ha1). exact Hat1. }
  assert (Hs2 : sessions_ok m2).
  { destruct Ham1 as [a1 Ha1]. unfold m2. apply (notified_sessions m1 _ _ _ a1 Ha1). exact Hs1. }
  pose proof (market_fill_run (account order) mo' order m2 Hat2 Hs2) as E2.
  rewrite (bind_run _ _ _ _ _ E1), (bind_run _ _ _ _ _ E2). reflexivity.
Qed.

(** ** The loop runs as the relation says *)
Lemma consumed_step_wf m n s u mo p l order :
  book_wf (drop n m) -> u <> n ->
  order_map (book m) !! u = Some mo ->
  side mo = s -> price mo = p ->
  limits (tree_of s (book m)) !! p = Some l ->
  is_Some (accounts m !! account mo) -> is_Some (accounts m !! account order) ->
  sessions_ok m ->
  book_wf (drop n (consumed m s u mo p l order)) /\
  sessions_ok (consumed m s u mo p l order) /\
  book (consumed m s u mo p l order)
  = book (drop u (removed m s u mo p l)) /\
  (forall x, is_Some (accounts m !! x) -> is_Some (accounts (consumed m s u mo p l order) !! x)).
Proof.
  intros Hwf Hun Ho Hside Hprice Hl Ham Hat Hs. unfold consumed.
  destruct (quantity (set_quantity order (quantity order - quantity mo)) =? 0).
  - split; [|split; [|split]].
    + apply consumed_wf; try assumption.
      * intros b. unfold Account_limit_fill. rewrite fill_orders. reflexivity.
      * intros b. unfold Account_market_fill. apply fill_orders.
    + eapply sessions_ok_same; [| |apply filled_sessions; [exact Ham|exact Hat|exact Hs]];
        reflexivity.
    + unfold drop, removed. cbn [book set_book].
      rewrite (filled_book m _ _ _ _ _ _ Ham Hat). reflexivity.
    + intros x Hx. exact (filled_dom m _ _ _ _ _ _ Ham Hat x Hx).
  - split; [|split; [|split]].
    + apply consumed_wf; try assumption.
      * intros b. unfold Account_limit_fill. rewrite fill_orders. reflexivity.
      * intros b. unfold Account_market_partial. apply fill_orders.
    + eapply sessions_ok_same; [| |apply filled_sessions; [exact Ham|exact Hat|exact Hs]];
        reflexivity.
    + unfold drop, removed. cbn [book set_book].
      rewrite (filled_book m _ _ _ _ _ _ Ham Hat). reflexivity.
    + intros x Hx. exact (filled_dom m _ _ _ _ _ _ Ham Hat x Hx).
Qed.

Lemma market_loop_matching fuel : forall s n order m,
  book_wf (drop n m) -> sessions_ok m -> is_Some (accounts m !! account order) ->
  0 <= quantity order ->
  (tree_size (tree_of s (book m)) < fuel)%nat ->
  exists order' m',
    LimitTree_market_loop fuel s UIDOrderMap_erase order m = Ok order' m' /\
    matching s n order m order' m'.
Proof.
  induction fuel as [|fuel IH]; intros s n order m Hwf Hs Hat Hq Hfuel; [lia|].
  pose proof (wf_tree (drop n m) s Hwf) as Htw.
  change (tree_of s (book (drop n m))) with (tree_of s (book m)) in Htw.
  change (order_map (book (drop n m))) with (delete n (order_map (book m))) in Htw.
  destruct (best (tree_of s (book m))) as [p|] eqn:Hbest.
  2:{ exists order, m. split.
      - apply loop_stop. rewrite Hbest. exact I.
      - apply matching_stop; try assumption. unfold stops. rewrite Hbest. exact I. }
  destruct ((quantity order =? 0) || negb (can_match s p (price order))) eqn:Hgo.
  { exists order, m. split.
    - apply loop_stop. rewrite Hbest. exact Hgo.
    - apply matching_stop; try assumption. unfold stops. rewrite Hbest. exact Hgo. }
  assert (Hl : is_Some (limits (tree_of s (book m)) !! p)).
  { destruct Htw as (_ & Hb & _). rewrite Hbest in Hb. symmetry in Hb.
    apply find_best_Some in Hb as [Hp _]. exact Hp. }
  destruct Hl as [l Hl].
  pose proof (proj1 Htw p l Hl) as Hlw.
  destruct (fifo l) as [|u f] eqn:Ef; [destruct Hlw as (_ & Hne & _); congruence|].
  assert (Hhead : head (fifo l) = Some u) by (rewrite Ef; reflexivity).
  assert (Hu : u ∈ fifo l) by (rewrite Ef; left).
  destruct (level_wf_in _ _ _ _ _ Hlw Hu) as (mo & Ho' & Hside & Hprice).
  apply lookup_delete_Some in Ho' as [Hnu Ho].
  assert (Hun : u <> n) by congruence.
  assert (Hod : order_map (book (drop n m)) !! u = Some mo).
  { unfold drop. cbn [book set_book set_order_map order_map].
    rewrite lookup_delete_ne by congruence. exact Ho. }
  destruct (wf_order _ u mo Hwf Hod) as (_ & _ & Hqm & _ & Hlim & _ & Hacc).
  rewrite Hprice in Hlim.
  apply holds_inv in Hacc as (am & Ham & _).
  change (accounts (drop n m)) with (accounts m) in Ham.
  assert (Ham' : is_Some (accounts m !! account mo)) by eauto.
  pose proof (tree_size_count _ _ _ Htw) as Hsize.
  pose proof (level_wf_count _ _ _ _ Hlw) as Hlc.
  destruct (Z_le_gt_dec (quantity mo) (quantity order)) as [Hle|Hgt].
  - pose proof (consumed_run fuel s order m p l u mo Hbest Hgo Hl Hhead Ho Hlim Hle Ham' Hat Hs)
      as E.
    destruct (consumed_step_wf m n s u mo p l order Hwf Hun Ho Hside Hprice Hl Ham' Hat Hs)
      as (Hwf4 & Hs4 & Hb4 & Hdom4).
    set (m4 := consumed m s u mo p l order) in *.
    assert (Ht4 : tree_count (tree_of s (book m4)) = tree_count (tree_of s (book m)) - 1).
    { rewrite Hb4. unfold drop, removed. cbn [book set_book]. rewrite tree_of_set_order_map.
      rewrite tree_of_set_tree. cbn [tree_count]. apply wrap32_small.
      destruct Htw as (_ & _ & Hc & Hcb & _).
      assert (count l <= tree_count (tree_of s (book m))); [|lia].
      rewrite Hc. apply (sum_over_ge count _ p l); [|exact Hl].
      eapply tree_wf_counts. exact (wf_tree _ s Hwf). }
    pose proof (wf_tree (drop n m4) s Hwf4) as Htw4.
    change (tree_of s (book (drop n m4))) with (tree_of s (book m4)) in Htw4.
    pose proof (tree_size_count _ _ _ Htw4) as Hsize4.
    destruct (IH s n (set_quantity order (quantity order - quantity mo)) m4)
      as (order' & m' & E' & Hrun); try assumption.
    + apply Hdom4. exact Hat.
    + cbn [set_quantity quantity]. lia.
    + lia.
    + exists order', m'. split; [rewrite E; exact E'|].
      eapply matching_consumed; eassumption.
  - pose proof (partly_run fuel s order m p l u mo Hbest Hgo Hl Hhead Ho ltac:(lia) Ham' Hat Hs)
      as E.
    exists (set_quantity order 0), (partly m s u mo p l order). split; [exact E|].
    apply (matching_partial s n order m p l u mo); try assumption; [lia| |].
    + unfold partly. apply (partial_wf m n s u mo p l (quantity order)); try assumption.
      * lia.
      * intros b. unfold Account_limit_partial. apply fill_orders.
      * intros b. unfold Account_market_fill. apply fill_orders.
    + unfold partly. apply filled_sessions; assumption.
Qed.

Lemma matching_wf s n order m order' m' :
  matching s n order m order' m' -> book_wf (drop n m') /\ sessions_ok m'.
Proof. induction 1; auto. Qed.

(** ** What a run of the matching loop leaves *)
Lemma consumed_book m s u mo p l order :
  is_Some (accounts m !! account mo) -> is_Some (accounts m !! account order) ->
  book (consumed m s u mo p l order) = book (drop u (removed m s u mo p l)).
Proof.
  intros Ham Hat. unfold consumed.
  destruct (quantity (set_quantity order (quantity order - quantity mo)) =? 0);
    unfold drop, removed; cbn [book set_book];
    rewrite (filled_book m _ _ _ _ _ _ Ham Hat); reflexivity.
Qed.

Lemma partly_book m s u mo p l order :
  is_Some (accounts m !! account mo) -> is_Some (accounts m !! account order) ->
  book (partly m s u mo p l order) = book (shrunk m s u mo p l (quantity order)).
Proof.
  intros Ham Hat. unfold partly.
  apply (filled_book (shrunk m s u mo p l (quantity order))); assumption.
Qed.

Lemma matching_maker s n m p l u mo :
  book_wf (drop n m) -> limits (tree_of s (book m)) !! p = Some l ->
  head (fifo l) = Some u -> u <> n -> order_map (book m) !! u = Some mo ->
  side mo = s /\ price mo = p /\ uid mo = u /\ 0 < u /\ 0 <= quantity mo /\
  limit mo = Some p /\ is_Some (accounts m !! account mo).
Proof.
  intros Hwf Hl Hhead Hun Ho.
  pose proof (wf_tree (drop n m) s Hwf) as Htw.
  change (tree_of s (book (drop n m))) with (tree_of s (book m)) in Htw.
  change (order_map (book (drop n m))) with (delete n (order_map (book m))) in Htw.
  pose proof (proj1 Htw p l Hl) as Hlw.
  assert (Hu : u ∈ fifo l).
  { destruct (fifo l) as [|x f]; [discriminate|]. injection Hhead as ->. left. }
  destruct (level_wf_in _ _ _ _ _ Hlw Hu) as (mo' & Ho' & Hside & Hprice).
  apply lookup_delete_Some in Ho' as [_ Ho']. rewrite Ho in Ho'. injection Ho' as <-.
  assert (Hod : order_map (book (drop n m)) !! u = Some mo).
  { unfold drop. cbn [book set_book set_order_map order_map].
    rewrite lookup_delete_ne by congruence. exact Ho. }
  destruct (wf_order _ u mo Hwf Hod) as (Hu1 & Hu2 & Hqm & _ & Hlim & _ & Hacc).
  apply holds_inv in Hacc as (am & Ham & _).
  change (accounts (drop n m)) with (accounts m) in Ham.
  rewrite Hprice in Hlim. split; [exact Hside|]. split; [exact Hprice|].
  split; [exact Hu1|]. split; [lia|]. split; [lia|]. split; [exact Hlim|]. eauto.
Qed.

Lemma matching_stops s n order m order' m' :
  matching s n order m order' m' -> stops s order' m'.
Proof.
  induction 1 as [order m _ _ Hstop| |]; [exact Hstop|assumption|].
  unfold stops.
  match goal with |- match ?b with _ => _ end => destruct b end; [reflexivity|exact I].
Qed.

Lemma matching_levels s n order m order' m' :
  matching s n order m order' m' ->
  levels_of (tree_of s (book m')) (tree_of s (book m)).
Proof.
  induction 1 as [order m _ _ _
                 |order m p l u mo order' m' Hwf Hs Hat Hbest Hgo Hl Hhead Hun Ho Hle _ IH
                 |order m p l u mo Hwf Hs Hat Hbest Hgo Hl Hhead Hun Ho Hlt _ _].
  - intros k Hk. exact Hk.
  - destruct (matching_maker s n m p l u mo Hwf Hl Hhead Hun Ho) as (_ & _ & _ & _ & _ & _ & Ham).
    intros k Hk. apply IH in Hk. rewrite (consumed_book m s u mo p l order Ham Hat) in Hk.
    unfold drop, removed in Hk. cbn [book set_book] in Hk.
    rewrite tree_of_set_order_map, tree_of_set_tree in Hk. cbn [limits] in Hk.
    destruct (_ =? 0) in Hk.
    + destruct Hk as [x Hx]. apply lookup_delete_Some in Hx as [_ Hx]. eauto.
    + destruct Hk as [x Hx]. apply lookup_insert_Some in Hx as [[<- _]|[_ Hx]]; eauto.
  - destruct (matching_maker s n m p l u mo Hwf Hl Hhead Hun Ho) as (_ & _ & _ & _ & _ & _ & Ham).
    intros k Hk. rewrite (partly_book m s u mo p l order Ham Hat) in Hk.
    unfold shrunk in Hk. cbn [book set_book] in Hk.
    rewrite tree_of_set_tree in Hk. cbn [limits] in Hk.
    destruct Hk as [x Hx]. apply lookup_insert_Some in Hx as [[<- _]|[_ Hx]]; eauto.
Qed.

Lemma tree_market_matching s n order m :
  book_wf (drop n m) -> sessions_ok m -> is_Some (accounts m !! account order) ->
  0 <= quantity order ->
  exists order' m',
    LimitTree_market s UIDOrderMap_erase order m = Ok order' m' /\
    matching s n order m order' m' /\ loop_post s n order m order' m'.
Proof.
  intros Hwf Hs Ha Hq.
  destruct (market_loop_matching (S (tree_size (tree_of s (book m)))) s n order m Hwf Hs Ha Hq)
    as (order' & m' & E & Hrun); [lia|].
  destruct (market_loop_wf (S (tree_size (tree_of s (book m)))) s n order m Hwf Hs Ha Hq)
    as (order2 & m2 & E2 & Hpost); [lia|].
  rewrite E in E2. injection E2 as <- <-.
  exists order', m'. split; [exact E|]. split; assumption.
Qed.

(** ** The best price after orders have left a side *)
Lemma best_shrinks s om om' t t' k' :
  tree_wf s om t -> tree_wf s om' t' -> levels_of t' t ->
  best t' = Some k' ->
  exists k, best t = Some k /\ better s k' k = false.
Proof.
  intros (_ & Hb & _) (_ & Hb' & _) Hsub Hk'.
  rewrite Hb' in Hk'. apply find_best_Some in Hk' as [Hin _].
  apply Hsub in Hin.
  destruct (find_best s (limits t)) as [k|] eqn:Hfb.
  - exists k. split; [congruence|]. apply find_best_Some in Hfb as [_ Hmax]. apply Hmax, Hin.
  - apply find_best_None in Hfb. rewrite Hfb in Hin. destruct Hin as [x Hx].
    rewrite lookup_empty in Hx. discriminate.
Qed.

Lemma uncrossed_shrinks m m' :
  book_wf m -> book_wf m' ->
  levels_of (sells (book m')) (sells (book m)) ->
  levels_of (buys (book m')) (buys (book m)) ->
  uncrossed (book m) -> uncrossed (book m').
Proof.
  intros Hwf Hwf' Hs Hb Hun. unfold uncrossed in *.
  destruct (best (sells (book m'))) as [a'|] eqn:Ea'; [|exact I].
  destruct (best (buys (book m'))) as [k'|] eqn:Ek'; [|exact I].
  destruct (best_shrinks Sell _ _ _ _ a' (wf_tree m Sell Hwf) (wf_tree m' Sell Hwf') Hs Ea')
    as (a & Ea & Ha).
  destruct (best_shrinks Buy _ _ _ _ k' (wf_tree m Buy Hwf) (wf_tree m' Buy Hwf') Hb Ek')
    as (k & Ek & Hk).
  cbn [tree_of] in Ea, Ek. rewrite Ea, Ek in Hun. cbn [better] in Ha, Hk.
  apply Z.ltb_ge in Ha, Hk. lia.
Qed.

Lemma rested_uncrossed m acct s q p a :
  uncrossed (book m) -> no_cross s p (book m) -> uncrossed (book (rested m acct s q p a)).
Proof.
  intros Hun Hno. unfold uncrossed, no_cross in *. unfold rested. cbn [book].
  destruct s; cbn [set_tree set_order_map set_sequence sells buys tree_of Side_not best] in *;
    destruct (limits _ !! p);
    destruct (best (sells (book m))) as [b|];
    destruct (best (buys (book m))) as [k|];
    cbn [set_best better];
    try match goal with |- context [if ?c then _ else _] => destruct c end;
    solve [exact I | exact Hun | exact Hno].
Qed.

Lemma stops_no_cross s n o o' m1 :
  stops (Side_not s) o' m1 -> quantity o' <> 0 -> price o' = price o ->
  no_cross s (price o) (book (drop n m1)).
Proof.
  unfold stops, no_cross. intros Hstop Hq Hp. unfold drop. cbn [book set_book].
  rewrite tree_of_set_order_map.
  destruct (best (tree_of (Side_not s) (book m1))) as [k|]; [|exact I].
  rewrite (proj2 (Z.eqb_neq _ _) Hq) in Hstop. cbn [orb] in Hstop.
  apply negb_true_iff in Hstop. rewrite Hp in Hstop. unfold can_match in Hstop.
  apply orb_false_iff in Hstop as [_ Hstop].
  destruct s; cbn [Side_not] in Hstop; apply Z.leb_gt in Hstop; exact Hstop.
Qed.

(** ** What a limit order does *)
Lemma limit_outcome m acct s q p a :
  book_wf m -> sessions_ok m -> accounts m !! acct = Some a ->
  0 <= q ->
  let n := sequence (book m) in
  let o := mkOrder n s q p None acct in
  (crosses s p (book m) = false /\
   LimitOrderBook_limit acct s q p m = Ok n (rested m acct s q p a)) \/
  (crosses s p (book m) = true /\
   exists o' m1 a1,
     matching (Side_not s) n o (emplaced m o) o' m1 /\
     loop_post (Side_not s) n o (emplaced m o) o' m1 /\
     accounts m1 !! acct = Some a1 /\
     LimitOrderBook_limit acct s q p m
     = if quantity o' =? 0 then Ok 0 (drop n m1)
       else Ok n (rested (drop n m1) acct s (quantity o') p a1)).
Proof.
  intros Hwf Hs Ha Hq n o.
  pose proof (wf_fresh m Hwf) as Hfresh.
  rewrite (limit_cases acct s q p m Hfresh). cbn zeta. fold n. fold o.
  set (m0 := emplaced m o).
  assert (Hm0 : drop n m0 = m) by (apply drop_emplaced; exact Hfresh).
  assert (Ho0 : order_map (book m0) !! n = Some o) by apply lookup_insert_eq.
  destruct (crosses s p (book m)).
  2:{ left. split; [reflexivity|].
      pose proof (rest_run m0 s q p acct a Ho0 Ha) as E.
      change (sequence (book m0)) with n in E. rewrite Hm0 in E. exact E. }
  right. split; [reflexivity|].
  destruct (tree_market_matching (Side_not s) n o m0) as (o' & m1 & E & Hrun & Hpost).
  { rewrite Hm0. exact Hwf. }
  { exact Hs. }
  { exists a. exact Ha. }
  { cbn. lia. }
  destruct Hpost as (P1 & P2 & P3 & P4 & P5 & P6 & P7 & P8 & P9).
  destruct (P6 acct ltac:(eauto)) as [a1 Ha1].
  exists o', m1, a1. split; [exact Hrun|]. split.
  { repeat (split; [assumption|]). assumption. }
  split; [exact Ha1|].
  set (m2 := set_book (set_order_map (<[n := o']> (order_map (book m1))) (book m1)) m1).
  assert (Ecross : LimitOrderBook_cross (Side_not s) n m0 = Ok o' m2).
  { unfold LimitOrderBook_cross, UIDOrderMap_at.
    unfold bind at 1 2. unfold get, unwrap. rewrite Ho0. unfold ret.
    rewrite (bind_run _ _ _ _ _ E). unfold store_order, modify, bind. fold m2.
    unfold m2. cbn [book set_book set_order_map order_map]. rewrite lookup_insert_eq.
    reflexivity. }
  rewrite (bind_run _ _ _ _ _ Ecross).
  assert (Hd2 : drop n m2 = drop n m1).
  { apply memory_eq; try reflexivity. unfold drop, m2. cbn. apply delete_insert_eq. }
  destruct (quantity o' =? 0).
  - unfold bind, UIDOrderMap_erase, modify, ret. f_equal. exact Hd2.
  - assert (Hn2 : sequence (book m2) = n) by exact P4.
    assert (Ho2 : order_map (book m2) !! sequence (book m2)
                  = Some (mkOrder (sequence (book m2)) s (quantity o') p None acct)).
    { rewrite Hn2. unfold m2. cbn [book set_book set_order_map order_map].
      rewrite lookup_insert_eq. rewrite P7. reflexivity. }
    pose proof (rest_run m2 s (quantity o') p acct a1 Ho2 Ha1) as E2.
    rewrite Hn2, Hd2 in E2. exact E2.
Qed.

Lemma crosses_no_cross s p b : crosses s p b = false -> no_cross s p b.
Proof.
  unfold crosses, no_cross. destruct (best (tree_of (Side_not s) b)) as [k|]; [|intros; exact I].
  destruct s; intros H; apply Z.leb_gt in H; exact H.
Qed.

Lemma limit_uncrossed m acct s q p u m' :
  book_wf m -> sessions_ok m -> is_Some (accounts m !! acct) -> 0 <= q ->
  uncrossed (book m) ->
  LimitOrderBook_limit acct s q p m = Ok u m' -> uncrossed (book m').
Proof.
  intros Hwf Hs [a Ha] Hq Hun E.
  destruct (limit_outcome m acct s q p a Hwf Hs Ha Hq) as [[Hc E1]|[Hc (o' & m1 & a1 & Hrun & Hpost & Ha1 & E1)]].
  - rewrite E1 in E. injection E as _ <-. apply rested_uncrossed; [exact Hun|].
    apply crosses_no_cross, Hc.
  - set (n := sequence (book m)) in *.
    set (o := mkOrder n s q p None acct) in *.
    pose proof (matching_stops _ _ _ _ _ _ Hrun) as Hstop.
    pose proof (matching_levels _ _ _ _ _ _ Hrun) as Hlev.
    destruct Hpost as (P1 & P2 & P3 & P4 & P5 & P6 & P7 & P8 & P9).
    rewrite Side_not_involutive in P5.
    assert (Hlv : forall s', levels_of (tree_of s' (book (drop n m1))) (tree_of s' (book m))).
    { intros s' k Hk. unfold drop in Hk. cbn [book set_book] in Hk.
      rewrite tree_of_set_order_map in Hk.
      destruct (Side_eq_or_not s' s) as [->|Hne].
      - rewrite P5 in Hk. unfold emplaced in Hk. cbn [book set_book] in Hk.
        rewrite tree_of_set_order_map in Hk. exact Hk.
      - rewrite (Side_other s s' Hne) in Hk. apply Hlev in Hk.
        unfold emplaced in Hk. cbn [book set_book] in Hk.
        rewrite tree_of_set_order_map in Hk. rewrite (Side_other s s' Hne). exact Hk. }
    assert (Hun1 : uncrossed (book (drop n m1)))
      by exact (uncrossed_shrinks m _ Hwf P1 (Hlv Sell) (Hlv Buy) Hun).
    destruct (Z.eqb_spec (quantity o') 0) as [E0|E0].
    + rewrite E1 in E. injection E as _ <-. exact Hun1.
    + rewrite E1 in E. injection E as _ <-. apply rested_uncrossed; [exact Hun1|].
      apply (stops_no_cross s n o o' m1 Hstop E0). rewrite P7. reflexivity.
Qed.

Lemma market_uncrossed m acct s q m' :
  book_wf m -> sessions_ok m -> is_Some (accounts m !! acct) -> 0 <= q ->
  uncrossed (book m) ->
  LimitOrderBook_market acct s q m = Ok tt m' -> uncrossed (book m').
Proof.
  intros Hwf Hs Hacct Hq Hun E.
  pose proof (wf_fresh m Hwf) as Hfresh.
  set (n := sequence (book m)) in *.
  destruct (tree_market_matching (Side_not s) n (mkOrder n s q 0 None acct) m)
    as (o' & m1 & E1 & Hrun & Hpost); try assumption.
  { rewrite drop_fresh by exact Hfresh. exact Hwf. }
  assert (Em : LimitOrderBook_market acct s q m = Ok tt m1).
  { destruct s; unfold LimitOrderBook_market, LimitOrderBook_market_sell,
      LimitOrderBook_market_buy, LimitOrderBook_get_sequence;
      unfold bind at 1 2; unfold get, ret; fold n; cbn [Side_not] in E1;
      rewrite (bind_run _ _ _ _ _ E1); reflexivity. }
  rewrite Em in E. injection E as <-.
  pose proof (matching_levels _ _ _ _ _ _ Hrun) as Hlev.
  destruct Hpost as (P1 & P2 & P3 & P4 & P5 & P6 & P7 & P8 & P9).
  rewrite Side_not_involutive in P5.
  rewrite drop_fresh in P1 by (rewrite P3; exact Hfresh).
  assert (Hlv : forall s', levels_of (tree_of s' (book m1)) (tree_of s' (book m))).
  { intros s' k Hk. destruct (Side_eq_or_not s' s) as [->|Hne].
    - rewrite P5 in Hk. exact Hk.
    - rewrite (Side_other s s' Hne) in Hk. apply Hlev in Hk.
      rewrite (Side_other s s' Hne). exact Hk. }
  exact (uncrossed_shrinks m m1 Hwf P1 (Hlv Sell) (Hlv Buy) Hun).
Qed.

Lemma canceled_levels m u o l a s :
  limits (tree_of (side o) (book m)) !! price o = Some l ->
  levels_of (tree_of s (book (canceled m u o l a))) (tree_of s (book m)).
Proof.
  intros Hl k Hk. unfold canceled in Hk. cbn [book] in Hk. rewrite tree_of_set_order_map in Hk.
  destruct (decide (s = side o)) as [->|Hne].
  - rewrite tree_of_set_tree in Hk. cbn [limits] in Hk. destruct (_ =? 0) in Hk.
    + destruct Hk as [x Hx]. apply lookup_delete_Some in Hx as [_ Hx]. eauto.
    + destruct Hk as [x Hx]. apply lookup_insert_Some in Hx as [[<- _]|[_ Hx]]; eauto.
  - rewrite tree_of_set_tree_other in Hk by exact Hne. exact Hk.
Qed.

Lemma cancel_uncrossed m u m' :
  book_wf m -> uncrossed (book m) ->
  LimitOrderBook_cancel u m = Ok tt m' -> uncrossed (book m').
Proof.
  intros Hwf Hun E.
  destruct (order_map (book m) !! u) as [o|] eqn:Ho.
  2:{ unfold LimitOrderBook_cancel, bind in E. rewrite (at_missing m u Ho) in E. discriminate. }
  destruct (wf_order_level m u o Hwf Ho) as (l & Hl & _).
  destruct (wf_order_account m u o Hwf Ho) as (a & Ha & _).
  destruct (wf_order m u o Hwf Ho) as (_ & _ & _ & _ & Hlim & _).
  rewrite (cancel_run m u o l a Ho Hlim Hl Ha) in E. injection E as <-.
  apply (uncrossed_shrinks m _ Hwf (canceled_wf m u o l a Hwf Ho Hl Ha)); [| |exact Hun].
  - exact (canceled_levels m u o l a Sell Hl).
  - exact (canceled_levels m u o l a Buy Hl).
Qed.

Lemma reduce_uncrossed m u q m' :
  book_wf m -> uncrossed (book m) -> 0 <= q ->
  LimitOrderBook_reduce u q m = Ok tt m' -> uncrossed (book m').
Proof.
  intros Hwf Hun Hq E.
  destruct (order_map (book m) !! u) as [o|] eqn:Ho.
  2:{ unfold LimitOrderBook_reduce, bind in E. rewrite (at_missing m u Ho) in E. discriminate. }
  destruct (wf_order_level m u o Hwf Ho) as (l & Hl & _).
  destruct (wf_order_account m u o Hwf Ho) as (a & Ha & _).
  destruct (wf_order m u o Hwf Ho) as (_ & _ & _ & _ & Hlim & _).
  destruct (Z.lt_trichotomy q (quantity o)) as [Hlt|[Heq|Hgt]].
  - destruct (reduce_partial m u q o Hwf Ho ltac:(lia)) as (l' & Hl' & E').
    rewrite E' in E. injection E as <-.
    assert (l' = l) by congruence. subst l'.
    apply (uncrossed_shrinks m _ Hwf (reduced_wf m u q o l Hwf Ho Hl ltac:(lia))); [| |exact Hun].
    + intros k Hk. unfold reduced in Hk. cbn [book set_book] in Hk.
      destruct (side o) eqn:Hs; cbn [set_tree sells tree_of limits] in *; [|exact Hk].
      destruct Hk as [x Hx]. apply lookup_insert_Some in Hx as [[<- _]|[_ Hx]]; eauto.
    + intros k Hk. unfold reduced in Hk. cbn [book set_book] in Hk.
      destruct (side o) eqn:Hs; cbn [set_tree buys tree_of limits] in *; [exact Hk|].
      destruct Hk as [x Hx]. apply lookup_insert_Some in Hx as [[<- _]|[_ Hx]]; eauto.
  - subst q. rewrite (reduce_full_run m u o l a Ho Hlim Hl Ha) in E. injection E as <-.
    apply (uncrossed_shrinks m _ Hwf (canceled_wf m u o l a Hwf Ho Hl Ha)); [| |exact Hun].
    + exact (canceled_levels m u o l a Sell Hl).
    + exact (canceled_levels m u o l a Buy Hl).
  - rewrite (reduce_excess m u q o Ho Hgt) in E. discriminate.
Qed.

(** X14.  A book that is well formed and not crossed is not crossed after
    any operation: after a limit order, which returns, even when it is matched
    on entry and its rest is queued; after a market order, which returns; after
    a cancel and after a reduction, when they return.  The new book of the
    constructor is not crossed.  So the best bid of the book is always below
    its best ask. *)
Theorem book_never_crossed (m : Memory) :
  book_wf m -> sessions_ok m -> uncrossed (book m) ->
  uncrossed LimitOrderBook_new /\
  (forall acct s q p, is_Some (accounts m !! acct) ->
     0 <= q < 2 ^ 32 -> 0 <= p < 2 ^ 64 -> has_room m 1 ->
     exists u m', LimitOrderBook_limit acct s q p m = Ok u m' /\
                  book_wf m' /\ sessions_ok m' /\ uncrossed (book m')) /\
  (forall acct s q, is_Some (accounts m !! acct) -> 0 <= q ->
     exists m', LimitOrderBook_market acct s q m = Ok tt m' /\
                book_wf m' /\ sessions_ok m' /\ uncrossed (book m')) /\
  (forall u m', LimitOrderBook_cancel u m = Ok tt m' -> uncrossed (book m')) /\
  (forall u q m', 0 <= q -> LimitOrderBook_reduce u q m = Ok tt m' -> uncrossed (book m')).
Proof.
  intros Hwf Hs Hun. split; [exact I|]. split; [|split; [|split]].
  - intros acct s q p Hacct Hq Hp Hroom.
    destruct (limit_wf m acct s q p Hwf Hs Hacct Hq Hp) as (u & m' & E & Hwf' & Hs' & _).
    { apply has_room_tree, Hroom. }
    { destruct Hroom as (_ & _ & R). exact R. }
    exists u, m'. split; [exact E|]. split; [exact Hwf'|]. split; [exact Hs'|].
    apply (limit_uncrossed m acct s q p u m' Hwf Hs Hacct ltac:(lia) Hun E).
  - intros acct s q Hacct Hq.
    destruct (market_wf m acct s q Hwf Hs Hacct Hq) as (m' & E & Hwf' & Hs' & _).
    exists m'. split; [exact E|]. split; [exact Hwf'|]. split; [exact Hs'|].
    apply (market_uncrossed m acct s q m' Hwf Hs Hacct Hq Hun E).
  - intros u m' E. exact (cancel_uncrossed m u m' Hwf Hun E).
  - intros u q m' Hq E. exact (reduce_uncrossed m u q m' Hwf Hun Hq E).
Qed.

(** X15.  What [limit] returns tells whether the order rests.  On a
    well-formed book with room for one more order, a limit order returns; when
    it returns 0 the order was matched entirely on entry and the book holds no
    order under the sequence number, which is not consumed; otherwise it
    returns the sequence number, which is consumed, and the book holds under it
    an order of that account, side and price whose open quantity is what is
    left of the quantity asked, queued on its side. *)
Theorem limit_returns_uid_iff_rests (m : Memory) (acct : string) (s : Side) (q p : Z) :
  book_wf m -> sessions_ok m -> is_Some (accounts m !! acct) ->
  0 <= q < 2 ^ 32 -> 0 <= p < 2 ^ 64 -> has_room m 1 ->
  let n := sequence (book m) in
  exists u m',
    LimitOrderBook_limit acct s q p m = Ok u m' /\ book_wf m' /\
    ((u = 0 /\ crosses s p (book m) = true /\
      order_map (book m') !! n = None /\ sequence (book m') = n) \/
     (u = n /\ sequence (book m') = n + 1 /\
      exists q', 0 <= q' <= q /\ (crosses s p (book m) = true -> 0 < q') /\
        (crosses s p (book m) = false -> q' = q) /\
        order_map (book m') !! n = Some (mkOrder n s q' p (Some p) acct) /\
        rests m' s n)).
Proof.
  intros Hwf Hs Hacct Hq Hp Hroom n.
  destruct (limit_wf m acct s q p Hwf Hs Hacct Hq Hp) as (u & m' & E & Hwf' & Hs' & _).
  { apply has_room_tree, Hroom. }
  { destruct Hroom as (_ & _ & R). exact R. }
  exists u, m'. split; [exact E|]. split; [exact Hwf'|].
  destruct Hacct as [a Ha].
  pose proof (proj1 Hwf) as Hseq. destruct Hroom as (_ & _ & Hroom).
  assert (Hrested : forall m1 q1 a1, sequence (book m1) = n ->
            let r := rested m1 acct s q1 p a1 in
            sequence (book r) = n + 1 /\
            order_map (book r) !! n = Some (mkOrder n s q1 p (Some p) acct) /\
            rests r s n).
  { intros m1 q1 a1 Hn r. unfold r, rested. cbn [book]. rewrite Hn. split; [|split].
    - destruct s; cbn [set_tree set_order_map set_sequence sequence];
        apply wrap64_small; unfold n in *; lia.
    - destruct s; cbn [set_tree set_order_map set_sequence order_map];
        rewrite lookup_insert_eq; reflexivity.
    - unfold rests. cbn [book]. rewrite tree_of_seq_same. cbn [limits].
      destruct (limits (tree_of s (book m1)) !! p) as [l0|].
      + eexists p, _. rewrite lookup_insert_eq. split; [reflexivity|]. cbn [fifo].
        apply elem_of_app. right. left.
      + eexists p, _. rewrite lookup_insert_eq. split; [reflexivity|].
        unfold Limit_of_order. cbn [fifo]. left. }
  destruct (limit_outcome m acct s q p a Hwf Hs Ha ltac:(lia))
    as [[Hc E1]|[Hc (o' & m1 & a1 & Hrun & Hpost & Ha1 & E1)]]; fold n in E1.
  - right. rewrite E1 in E. injection E as <- <-.
    destruct (Hrested m q a eq_refl) as (R1 & R2 & R3).
    split; [reflexivity|]. split; [exact R1|]. exists q.
    split; [lia|]. split; [congruence|]. split; [reflexivity|]. split; assumption.
  - destruct Hpost as (P1 & P2 & P3 & P4 & P5 & P6 & P7 & P8 & P9).
    cbn [quantity] in P8. change (sequence (book (emplaced m _))) with n in P4.
    destruct (Z.eqb_spec (quantity o') 0) as [E0|E0].
    + left. rewrite E1 in E. injection E as <- <-. split; [reflexivity|]. split; [exact Hc|].
      split; [|exact P4]. unfold drop. cbn [book set_book set_order_map order_map].
      apply lookup_delete_eq.
    + right. rewrite E1 in E. injection E as <- <-.
      destruct (Hrested (drop n m1) (quantity o') a1 P4) as (R1 & R2 & R3).
      split; [reflexivity|]. split; [exact R1|]. exists (quantity o').
      split; [lia|]. split; [intros _; lia|]. split; [congruence|]. split; assumption.
Qed.

(** ** 32 and 64 bits *)
Lemma swrap32_step x d : swrap32 (swrap32 x + d) = swrap32 (swrap64 (x + d)).
Proof.
  unfold swrap32, swrap64.
  assert (E : forall a b, (a - b) mod 2 ^ 32 = 0 -> a mod 2 ^ 32 = b mod 2 ^ 32).
  { intros a b H. replace a with (b + (a - b)) by lia.
    rewrite Z.add_mod by lia. rewrite H, Z.add_0_r. apply Z.mod_mod. lia. }
  f_equal. apply E.
  pose proof (Z.div_mod (x + 2 ^ 31) (2 ^ 32) ltac:(lia)) as H1.
  pose proof (Z.div_mod (x + d + 2 ^ 63) (2 ^ 64) ltac:(lia)) as H2.
  replace ((x + 2 ^ 31) mod 2 ^ 32 - 2 ^ 31 + d + 2 ^ 31
           - ((x + d + 2 ^ 63) mod 2 ^ 64 - 2 ^ 63 + 2 ^ 31))
    with ((2 ^ 32 * ((x + d + 2 ^ 63) / 2 ^ 64) - (x + 2 ^ 31) / 2 ^ 32) * 2 ^ 32)
    by (change (2 ^ 64) with (2 ^ 32 * 2 ^ 32) in *; lia).
  apply Z.mod_mul. lia.
Qed.

(** ** The four callbacks and the client *)
Lemma in_step_but_empty k a : in_step_but ∅ k a <-> in_step k a.
Proof.
  unfold in_step_but, in_step. rewrite difference_empty_L. reflexivity.
Qed.

Lemma difference_swap (A P : gset Z) (u : Z) : (A ∖ {[u]}) ∖ P = (A ∖ P) ∖ {[u]}.
Proof.
  apply leibniz_equiv. intros x. rewrite !elem_of_difference. tauto.
Qed.

Lemma mirrors_limit_fill P lim mkt :
  uid lim <> 0 ->
  mirrors P P (fun b => Account_limit_fill b lim mkt) (maker_message lim (quantity lim) 0).
Proof.
  intros Hu k b (Hc & Hs & Ho). unfold maker_message. cbn [Client_handle].
  unfold Client_handle_TradeResponse, bind, modify, ret.
  rewrite (proj2 (Z.eqb_neq _ _) Hu). cbn [negb Z.eqb].
  eexists. split; [reflexivity|].
  unfold in_step_but, Account_limit_fill, Account_fill, Account_cancel.
  destruct (side lim); cbn [Side_to_bool bool_to_side set_balance set_active_orders
    client_capital client_shares active_orders capital shares orders];
    rewrite Hc, Hs, difference_swap, Ho; (split; [reflexivity|split; [|reflexivity]]).
  - exact (swrap32_step (shares b) (- quantity lim)).
  - apply swrap32_step.
Qed.

Lemma mirrors_limit_partial P lim mkt :
  quantity lim <> 0 ->
  mirrors P P (fun b => Account_limit_partial b lim mkt)
          (maker_message lim (quantity mkt) (quantity lim)).
Proof.
  intros Hq k b (Hc & Hs & Ho). unfold maker_message. cbn [Client_handle].
  unfold Client_handle_TradeResponse, bind, modify, ret.
  rewrite (proj2 (Z.eqb_neq _ _) Hq).
  eexists. split; [destruct (negb (uid lim =? 0)); reflexivity|].
  unfold in_step_but, Account_limit_partial, Account_fill.
  destruct (side lim); cbn [Side_to_bool bool_to_side set_balance set_active_orders
    client_capital client_shares active_orders capital shares orders];
    rewrite Hc, Hs, Ho; (split; [reflexivity|split; [|reflexivity]]).
  - exact (swrap32_step (shares b) (- quantity mkt)).
  - apply swrap32_step.
Qed.

Lemma mirrors_market_fill P lim mkt :
  mirrors P P (fun b => Account_market_fill b lim mkt) (taker_message lim mkt (quantity mkt) 0).
Proof.
  intros k b (Hc & Hs & Ho). unfold taker_message. cbn [Client_handle].
  unfold Client_handle_TradeResponse, bind, modify, ret. cbn [Z.eqb negb].
  eexists. split; [reflexivity|].
  unfold in_step_but, Account_market_fill, Account_fill.
  destruct (side mkt); cbn [Side_to_bool bool_to_side set_balance set_active_orders
    client_capital client_shares active_orders capital shares orders];
    rewrite Hc, Hs, Ho; (split; [reflexivity|split; [|reflexivity]]).
  - exact (swrap32_step (shares b) (- quantity mkt)).
  - apply swrap32_step.
Qed.

Lemma mirrors_market_partial P lim mkt :
  mirrors P P (fun b => Account_market_partial b lim mkt)
          (taker_message lim mkt (quantity lim) (quantity mkt)).
Proof.
  intros k b (Hc & Hs & Ho). unfold taker_message. cbn [Client_handle].
  unfold Client_handle_TradeResponse, bind, modify, ret. cbn [Z.eqb negb].
  eexists. split; [reflexivity|].
  unfold in_step_but, Account_market_partial, Account_fill.
  destruct (side mkt); cbn [Side_to_bool bool_to_side set_balance set_active_orders
    client_capital client_shares active_orders capital shares orders];
    rewrite Hc, Hs, Ho; (split; [reflexivity|split; [|reflexivity]]).
  - exact (swrap32_step (shares b) (- quantity lim)).
  - apply swrap32_step.
Qed.

(** ** Steps that keep a client in step *)
Lemma receive_app rs1 rs2 k k1 :
  Client_receive rs1 k = Ok tt k1 ->
  Client_receive (rs1 ++ rs2) k = Client_receive rs2 k1.
Proof.
  revert k. induction rs1 as [|r rs1 IH]; intros k E; cbn [Client_receive app] in *.
  - injection E as <-. reflexivity.
  - unfold bind in *. destruct (Client_handle r.2 k) as [[] k0|e k0]; [|discriminate].
    apply IH, E.
Qed.

Lemma follows_trans P Q R name m1 m2 m3 :
  follows P Q name m1 m2 -> follows Q R name m2 m3 -> follows P R name m1 m3.
Proof.
  intros H12 H23 a h x Ha Hh Hx.
  destruct (H12 a h x Ha Hh Hx) as (a2 & x2 & n1 & Ha2 & Hh2 & Hx2 & Hb2 & Hk2).
  destruct (H23 a2 h x2 Ha2 Hh2 Hx2) as (a3 & x3 & n2 & Ha3 & Hh3 & Hx3 & Hb3 & Hk3).
  exists a3, x3, (n1 ++ n2). split; [exact Ha3|]. split; [exact Hh3|]. split; [exact Hx3|].
  split; [rewrite Hb3, Hb2, app_assoc; reflexivity|].
  intros k Hk. destruct (Hk2 k Hk) as (k2 & E2 & S2). destruct (Hk3 k2 S2) as (k3 & E3 & S3).
  exists k3. split; [|exact S3]. rewrite (receive_app n1 n2 k k2 E2). exact E3.
Qed.

(** Nothing happens to the account nor to its session. *)
Lemma follows_idle P name m m' :
  accounts m' !! name = accounts m !! name ->
  (forall a h, accounts m !! name = Some a -> handler a = Some h ->
     connections m' !! h = connections m !! h) ->
  follows P P name m m'.
Proof.
  intros Ea Ec a h x Ha Hh Hx. exists a, x, []. rewrite app_nil_r, Ea, (Ec a h Ha Hh).
  repeat (split; [assumption || reflexivity|]). intros k Hk. exists k. split; [reflexivity|exact Hk].
Qed.

(** The account changes its [LOB::Account] part and nothing is sent. *)
Lemma follows_silent P P' name m m' a0 b' :
  accounts m !! name = Some a0 ->
  accounts m' !! name = Some (set_base a0 b') ->
  (forall h, handler a0 = Some h -> connections m' !! h = connections m !! h) ->
  (forall k, in_step_but P k (base a0) -> in_step_but P' k b') ->
  follows P P' name m m'.
Proof.
  intros Ha0 Ha' Ec Hstep a h x Ha Hh Hx. rewrite Ha0 in Ha. injection Ha as <-.
  exists (set_base a0 b'), x, []. rewrite app_nil_r, (Ec h Hh).
  split; [exact Ha'|]. split; [exact Hh|]. split; [exact Hx|]. split; [reflexivity|].
  intros k Hk. exists k. split; [reflexivity|]. apply Hstep, Hk.
Qed.

(** The account changes its [LOB::Account] part and its session receives one
    message. *)
Lemma follows_message P P' name m m' a0 F r :
  accounts m !! name = Some a0 ->
  accounts m' !! name = Some (set_base a0 (F (base a0))) ->
  (forall h x, handler a0 = Some h -> connections m !! h = Some x ->
     connections m' !! h = Some (sent x r)) ->
  mirrors P P' F r ->
  follows P P' name m m'.
Proof.
  intros Ha0 Ha' Ec Hmir a h x Ha Hh Hx. rewrite Ha0 in Ha. injection Ha as <-.
  exists (set_base a0 (F (base a0))), (sent x r), [(conn_sequence x, r)].
  split; [exact Ha'|]. split; [exact Hh|]. split; [exact (Ec h x Hh Hx)|].
  split; [reflexivity|].
  intros k Hk. destruct (Hmir k (base a0) Hk) as (k' & E & S).
  exists k'. split; [|exact S]. cbn [Client_receive snd]. unfold bind. rewrite E. reflexivity.
Qed.

Lemma follows_notified P name m name0 a0 F r :
  exclusive m -> accounts m !! name0 = Some a0 -> mirrors P P F r ->
  follows P P name m (notified m name0 F r).
Proof.
  intros Hex Ha0 Hmir.
  destruct (decide (name = name0)) as [->|Hne].
  - apply (follows_message P P name0 m _ a0 F r Ha0); [| |exact Hmir].
    + rewrite (notified_accounts m name0 F r a0 Ha0). apply lookup_insert_eq.
    + intros h x Hh Hx. unfold notified. rewrite Ha0, Hh.
      cbn [connections set_accounts]. rewrite Hx.
      cbn [connections set_connections]. apply lookup_insert_eq.
  - apply follows_idle.
    + rewrite (notified_accounts m name0 F r a0 Ha0). apply lookup_insert_ne. congruence.
    + intros a h Ha Hh. unfold notified. rewrite Ha0.
      destruct (handler a0) as [h0|] eqn:Hh0; [|reflexivity].
      cbn [connections set_accounts].
      destruct (connections m !! h0) as [x0|] eqn:Hx0; [|reflexivity].
      cbn [connections set_connections]. apply lookup_insert_ne.
      intros ->. apply Hne. exact (Hex name name0 a a0 h Ha Ha0 Hh Hh0).
Qed.

Lemma exclusive_view m m' : sessions_of m' = sessions_of m -> exclusive m -> exclusive m'.
Proof.
  unfold sessions_of. intros Hv Hex n1 n2 a1 a2 h H1 H2 Hh1 Hh2.
  injection Hv as Ha _.
  assert (HA : forall name a', accounts m' !! name = Some a' ->
            exists a, accounts m !! name = Some a /\ handler a = handler a').
  { intros name a' H. pose proof (f_equal (fun f => f !! name) Ha) as E. cbn in E.
    rewrite !lookup_fmap, H in E. destruct (accounts m !! name) as [a|]; [|discriminate].
    cbn in E. injection E as E1 E2 E3. eauto. }
  destruct (HA n1 a1 H1) as (b1 & B1 & E1). destruct (HA n2 a2 H2) as (b2 & B2 & E2).
  apply (Hex n1 n2 b1 b2 h B1 B2); congruence.
Qed.

Lemma notified_view m name F r a :
  accounts m !! name = Some a -> sessions_of (notified m name F r) = sessions_of m.
Proof.
  intros Ha. unfold sessions_of. f_equal.
  - rewrite (notified_accounts m name F r a Ha), fmap_insert. apply insert_id.
    rewrite lookup_fmap, Ha. reflexivity.
  - unfold notified. rewrite Ha. destruct (handler a) as [h|]; [|reflexivity].
    destruct (connections m !! h) as [x|] eqn:Hx; [|reflexivity].
    cbn [connections set_connections set_accounts]. rewrite fmap_insert. apply insert_id.
    rewrite lookup_fmap, Hx. reflexivity.
Qed.

Lemma follows_filled P name m n1 F1 r1 n2 F2 r2 :
  exclusive m -> is_Some (accounts m !! n1) -> is_Some (accounts m !! n2) ->
  mirrors P P F1 r1 -> mirrors P P F2 r2 ->
  follows P P name m (filled m n1 F1 r1 n2 F2 r2) /\
  sessions_of (filled m n1 F1 r1 n2 F2 r2) = sessions_of m.
Proof.
  intros Hex [a1 Ha1] H2 M1 M2. unfold filled.
  pose proof (notified_view m n1 F1 r1 a1 Ha1) as V1.
  destruct (notified_dom m n1 F1 r1 a1 Ha1 n2 H2) as [a2 Ha2].
  pose proof (notified_view _ n2 F2 r2 a2 Ha2) as V2.
  split; [|rewrite V2; exact V1].
  apply (follows_trans P P P name _ (notified m n1 F1 r1)).
  - apply (follows_notified P name m n1 a1 F1 r1 Hex Ha1 M1).
  - apply (follows_notified P name _ n2 a2 F2 r2 (exclusive_view _ _ V1 Hex) Ha2 M2).
Qed.

Lemma follows_same P name m m' :
  accounts m' = accounts m -> connections m' = connections m -> follows P P name m m'.
Proof.
  intros Ea Ec. apply follows_idle; [rewrite Ea; reflexivity|]. intros. rewrite Ec. reflexivity.
Qed.

(** ** The matching loop keeps the clients in step *)
Lemma matching_follows P name s n order m order' m' :
  matching s n order m order' m' -> exclusive m ->
  follows P P name m m' /\ sessions_of m' = sessions_of m.
Proof.
  induction 1 as [order m _ _ _
                 |order m p l u mo order' m' Hwf Hs Hat Hbest Hgo Hl Hhead Hun Ho Hle _ IH
                 |order m p l u mo Hwf Hs Hat Hbest Hgo Hl Hhead Hun Ho Hlt _ _];
    intros Hex.
  - split; [apply follows_same; reflexivity|reflexivity].
  - destruct (matching_maker s n m p l u mo Hwf Hl Hhead Hun Ho)
      as (_ & _ & Hu & Hpos & _ & _ & Ham).
    assert (Hstep : follows P P name m (consumed m s u mo p l order) /\
                    sessions_of (consumed m s u mo p l order) = sessions_of m).
    { unfold consumed.
      destruct (quantity (set_quantity order (quantity order - quantity mo)) =? 0).
      - destruct (follows_filled P name m (account mo) (fun b => Account_limit_fill b mo order)
                    (maker_message mo (quantity mo) 0)
                    (account order) (fun b => Account_market_fill b mo order)
                    (taker_message mo order (quantity order) 0) Hex Ham Hat) as [T V].
        + apply mirrors_limit_fill. lia.
        + apply mirrors_market_fill.
        + split; [|exact V]. eapply follows_trans; [exact T|]. apply follows_same; reflexivity.
      - set (order1 := set_quantity order (quantity order - quantity mo)).
        destruct (follows_filled P name m (account mo) (fun b => Account_limit_fill b mo order1)
                    (maker_message mo (quantity mo) 0)
                    (account order1) (fun b => Account_market_partial b mo order1)
                    (taker_message mo order1 (quantity mo) (quantity order1)) Hex Ham Hat)
          as [T V].
        + apply mirrors_limit_fill. lia.
        + apply mirrors_market_partial.
        + split; [|exact V]. eapply follows_trans; [exact T|]. apply follows_same; reflexivity. }
    destruct Hstep as [T V].
    destruct (IH (exclusive_view _ _ V Hex)) as [T' V'].
    split; [exact (follows_trans _ _ _ _ _ _ _ T T')|rewrite V'; exact V].
  - destruct (matching_maker s n m p l u mo Hwf Hl Hhead Hun Ho)
      as (_ & _ & Hu & Hpos & _ & _ & Ham).
    unfold partly.
    set (mo' := set_quantity mo (quantity mo - quantity order)).
    set (m1 := shrunk m s u mo p l (quantity order)).
    assert (Hex1 : exclusive m1) by exact Hex.
    destruct (follows_filled P name m1 (account mo') (fun b => Account_limit_partial b mo' order)
                (maker_message mo' (quantity order) (quantity mo'))
                (account order) (fun b => Account_market_fill b mo' order)
                (taker_message mo' order (quantity order) 0) Hex1 Ham Hat) as [T V].
    + apply mirrors_limit_partial. unfold mo'. cbn [set_quantity quantity]. lia.
    + apply mirrors_market_fill.
    + split; [|exact V]. eapply follows_trans; [|exact T]. apply follows_same; reflexivity.
Qed.

(** ** Linked sessions *)
Lemma linked_exclusive m : linked m -> exclusive m.
Proof.
  intros (L1 & L2 & _) n1 n2 a1 a2 h A1 A2 H1 H2.
  destruct (L2 n1 a1 h A1 H1) as (x1 & X1 & N1).
  destruct (L2 n2 a2 h A2 H2) as (x2 & X2 & N2).
  congruence.
Qed.

Lemma linked_sessions_ok m : linked m -> sessions_ok m.
Proof.
  intros (_ & L2 & _). apply sessions_ok_intro. intros n a h Ha Hh.
  destruct (L2 n a h Ha Hh) as (x & Hx & _). eauto.
Qed.

Lemma view_account m m' name a :
  sessions_of m' = sessions_of m -> accounts m !! name = Some a ->
  exists a', accounts m' !! name = Some a' /\ handler a' = handler a /\
             username a' = username a.
Proof.
  unfold sessions_of. intros Hv Ha. injection Hv as E _.
  pose proof (f_equal (fun f => f !! name) E) as E'. cbn in E'.
  rewrite !lookup_fmap, Ha in E'. destruct (accounts m' !! name) as [a'|]; [|discriminate].
  cbn in E'. injection E' as E1 E2 E3. eauto.
Qed.

Lemma authorizer_view m m' :
  sessions_of m' = sessions_of m -> authorizer_wf m -> authorizer_wf m'.
Proof.
  unfold sessions_of. intros Hv Hwf name a' Ha'. injection Hv as E _.
  pose proof (f_equal (fun f => f !! name) E) as E'. cbn in E'.
  rewrite !lookup_fmap, Ha' in E'. destruct (accounts m !! name) as [a|] eqn:Ha; [|discriminate].
  cbn in E'. injection E' as E1 E2 E3. rewrite E3. exact (Hwf name a Ha).
Qed.

Lemma replied_view m c x r :
  connections m !! c = Some x -> sessions_of (replied m c x r) = sessions_of m.
Proof.
  intros Hc. unfold sessions_of, replied. cbn [accounts connections set_connections]. f_equal.
  rewrite fmap_insert. cbn [conn_account]. apply insert_id. rewrite lookup_fmap, Hc. reflexivity.
Qed.

(** ** Responses that keep a client in step *)
Lemma mirrors_log P line k b :
  in_step_but P k b ->
  exists k', Client_log line k = Ok tt k' /\ in_step_but P k' b.
Proof. intros H. eexists. split; [reflexivity|exact H]. Qed.

Lemma mirrors_rejected P r :
  (exists u, r = OrderResponse u Rejected) \/ (exists u, r = CancelResponse u Rejected) \/
  (exists u v, r = ReplaceResponse u v Rejected) \/ r = PurgeResponse Rejected ->
  mirrors P P (fun b => b) r.
Proof.
  intros [(u & ->)|[(u & ->)|[(u & v & ->)| ->]]] k b H; cbn [Client_handle];
    apply mirrors_log, H.
Qed.

Lemma mirrors_order_zero P : mirrors P P (fun b => b) (OrderResponse 0 Accepted).
Proof. intros k b H. exists k. split; [reflexivity|exact H]. Qed.

Lemma mirrors_order_uid o :
  uid o <> 0 -> mirrors ∅ ∅ (fun b => Account_limit b o) (OrderResponse (uid o) Accepted).
Proof.
  intros Hu k b (Hc & Hs & Ho). cbn [Client_handle]. unfold Client_handle_OrderResponse.
  rewrite (proj2 (Z.eqb_neq _ _) Hu). eexists. split; [reflexivity|].
  unfold in_step_but, Account_limit. cbn. rewrite difference_empty_L in *.
  rewrite Ho. auto.
Qed.

Lemma good_order_reply : good_reply ∅ (fun u => OrderResponse u Accepted).
Proof. split; [apply mirrors_order_zero|]. intros o Hu. apply mirrors_order_uid, Hu. Qed.

Lemma mirrors_cancel o :
  mirrors ∅ ∅ (fun b => Account_cancel b o) (CancelResponse (uid o) Accepted).
Proof.
  intros k b (Hc & Hs & Ho). cbn [Client_handle]. unfold Client_handle_CancelResponse.
  eexists. split; [reflexivity|].
  unfold in_step_but, Account_cancel. cbn. rewrite difference_empty_L in *.
  rewrite Ho. auto.
Qed.

Lemma mirrors_purge :
  mirrors ∅ ∅ (fun b => mkAccount (shares b) (capital b) ∅) (PurgeResponse Accepted).
Proof.
  intros k b (Hc & Hs & Ho). cbn [Client_handle]. unfold Client_handle_PurgeResponse.
  eexists. split; [reflexivity|].
  unfold in_step_but. cbn. rewrite difference_empty_L. auto.
Qed.

Lemma good_replace_reply id :
  id <> 0 -> good_reply {[id]} (fun u => ReplaceResponse id u Accepted).
Proof.
  intros Hid. split.
  - intros k b (Hc & Hs & Ho). cbn [Client_handle]. unfold Client_handle_ReplaceResponse.
    rewrite (proj2 (Z.eqb_neq _ _) Hid). cbn [negb Z.eqb]. eexists. split; [reflexivity|].
    unfold in_step_but. cbn. rewrite difference_empty_L. auto.
  - intros o Hu k b (Hc & Hs & Ho). cbn [Client_handle]. unfold Client_handle_ReplaceResponse.
    rewrite (proj2 (Z.eqb_neq _ _) Hid), (proj2 (Z.eqb_neq _ _) Hu). cbn [negb].
    eexists. split; [reflexivity|].
    unfold in_step_but, Account_limit. cbn. rewrite difference_empty_L, Ho. auto.
Qed.

Lemma good_replace_new : good_reply ∅ (fun u => ReplaceResponse 0 u Accepted).
Proof.
  split.
  - intros k b H. exists k. split; [reflexivity|exact H].
  - intros o Hu k b (Hc & Hs & Ho). cbn [Client_handle]. unfold Client_handle_ReplaceResponse.
    rewrite (proj2 (Z.eqb_neq _ _) Hu). cbn [negb Z.eqb]. eexists. split; [reflexivity|].
    unfold in_step_but, Account_limit. cbn. rewrite difference_empty_L in *. rewrite Ho. auto.
Qed.

(** ** The owner of a session and the others *)
Lemma follows_owner P P' m m1 acct a c x F r :
  accounts m !! acct = Some a -> handler a = Some c -> connections m !! c = Some x ->
  accounts m1 !! acct = Some (set_base a (F (base a))) ->
  connections m1 !! c = Some x ->
  mirrors P P' F r ->
  follows P P' acct m (replied m1 c x r).
Proof.
  intros Ha Hh Hx Ha1 Hx1 Hmir.
  apply (follows_message P P' acct m _ a F r Ha); [exact Ha1| |exact Hmir].
  intros h x0 Hh0 Hx0. assert (h = c) by congruence. subst h.
  assert (x0 = x) by congruence. subst x0.
  unfold replied. cbn [connections set_connections]. apply lookup_insert_eq.
Qed.

Lemma set_base_same a : set_base a (base a) = a.
Proof. destruct a; reflexivity. Qed.

Lemma follows_owner_reply P P' m acct a c x r :
  accounts m !! acct = Some a -> handler a = Some c -> connections m !! c = Some x ->
  mirrors P P' (fun b => b) r ->
  follows P P' acct m (replied m c x r).
Proof.
  intros Ha Hh Hx Hmir.
  apply (follows_owner P P' m m acct a c x (fun b => b) r Ha Hh Hx); [|exact Hx|exact Hmir].
  rewrite set_base_same. exact Ha.
Qed.

Lemma follows_bystander Q m m1 name c x r :
  accounts m1 !! name = accounts m !! name ->
  connections m1 = connections m ->
  (forall a, accounts m !! name = Some a -> handler a <> Some c) ->
  follows Q Q name m (replied m1 c x r).
Proof.
  intros Ea Ec Hne. apply follows_idle; [exact Ea|].
  intros a h Ha Hh. unfold replied. cbn [connections set_connections]. rewrite Ec.
  apply lookup_insert_ne. intros ->. exact (Hne a Ha Hh).
Qed.

Lemma not_owner m name acct a c :
  exclusive m -> accounts m !! acct = Some a -> handler a = Some c -> name <> acct ->
  forall b, accounts m !! name = Some b -> handler b <> Some c.
Proof.
  intros Hex Ha Hh Hne b Hb Hhb. apply Hne. exact (Hex name acct b a c Hb Ha Hhb Hh).
Qed.

Lemma follows_free P m c x r name :
  connections m !! c = Some x -> conn_account x = None -> linked m ->
  follows P P name m (replied m c x r).
Proof.
  intros Hc Hx (_ & L2 & _). apply follows_bystander; [reflexivity|reflexivity|].
  intros a Ha Hh. destruct (L2 name a c Ha Hh) as (x' & Hx' & Hn). congruence.
Qed.

Lemma follows_refusal P m c x r name :
  connections m !! c = Some x -> linked m -> mirrors P P (fun b => b) r ->
  follows P P name m (replied m c x r).
Proof.
  intros Hc HL Hmir. destruct (conn_account x) as [acct|] eqn:Hx.
  2:{ apply follows_free; assumption. }
  destruct (proj1 HL c x acct Hc Hx) as (a & Ha & Hh & _).
  destruct (decide (name = acct)) as [->|Hne].
  - apply (follows_owner_reply P P m acct a c x r Ha Hh Hc Hmir).
  - apply follows_bystander; [reflexivity|reflexivity|].
    exact (not_owner m name acct a c (linked_exclusive m HL) Ha Hh Hne).
Qed.

Lemma tracked_intro m m' : (forall name, follows ∅ ∅ name m m') -> tracked m m'.
Proof.
  intros H name a h x Ha Hh Hx.
  destruct (H name a h x Ha Hh Hx) as (a' & x' & news & A & B & C & D & E).
  exists a', x', news. repeat (split; [assumption|]).
  intros k Hk. apply in_step_but_empty in Hk. destruct (E k Hk) as (k' & E1 & E2).
  exists k'. split; [exact E1|]. apply in_step_but_empty, E2.
Qed.

(** ** A limit order and its response *)
Lemma place_run m acct a c x s q p :
  book_wf m -> sessions_ok m -> exclusive m ->
  accounts m !! acct = Some a -> handler a = Some c -> connections m !! c = Some x ->
  0 <= q < 2 ^ 32 -> 0 <= p < 2 ^ 64 -> has_room m 1 ->
  exists u m1 x1,
    LimitOrderBook_limit acct s q p m = Ok u m1 /\ book_wf m1 /\
    sessions_of m1 = sessions_of m /\
    connections m1 !! c = Some x1 /\ conn_account x1 = conn_account x /\
    (forall P R, good_reply P R -> follows P ∅ acct m (replied m1 c x1 (R u))) /\
    (forall Q name r, name <> acct -> follows Q Q name m (replied m1 c x1 r)).
Proof.
  intros Hwf Hs Hex Ha Hh Hc Hq Hp Hroom.
  destruct (limit_wf m acct s q p Hwf Hs ltac:(eauto) Hq Hp) as (u & m1 & E & Hwf1 & Hs1 & _).
  { apply has_room_tree, Hroom. }
  { destruct Hroom as (_ & _ & R). exact R. }
  pose proof (ses_limit acct s q p m) as Hv. rewrite E in Hv. cbn [final] in Hv.
  destruct (view_connection m m1 c x Hv Hc) as (x1 & Hc1 & Hx1).
  exists u, m1, x1. split; [exact E|]. split; [exact Hwf1|]. split; [exact Hv|].
  split; [exact Hc1|]. split; [exact Hx1|].
  pose proof (proj1 Hwf) as Hseq.
  set (n := sequence (book m)) in *.
  assert (Hn0 : n <> 0) by lia.
  (* the last step: the order rests on the memory [m2] and the response is queued *)
  assert (Hlast : forall m2 a2 x2 q2,
            accounts m2 !! acct = Some a2 -> handler a2 = Some c ->
            connections m2 !! c = Some x2 -> exclusive m2 ->
            sequence (book m2) = n ->
            let r2 := rested m2 acct s q2 p a2 in
            (forall P R, good_reply P R -> follows P ∅ acct m2 (replied r2 c x2 (R n))) /\
            (forall Q name r, name <> acct -> follows Q Q name m2 (replied r2 c x2 r))).
  { intros m2 a2 x2 q2 Ha2 Hh2 Hc2 Hex2 Hn2 r2. split.
    - intros P R [_ HR].
      apply (follows_owner P ∅ m2 r2 acct a2 c x2
               (fun b => Account_limit b (mkOrder (sequence (book m2)) s q2 p None acct))
               (R n) Ha2 Hh2 Hc2).
      + unfold r2, rested. cbn [accounts]. apply lookup_insert_eq.
      + exact Hc2.
      + rewrite Hn2. specialize (HR (mkOrder n s q2 p None acct) Hn0). exact HR.
    - intros Q name r Hne. apply follows_bystander.
      + unfold r2, rested. cbn [accounts]. apply lookup_insert_ne. congruence.
      + reflexivity.
      + exact (not_owner m2 name acct a2 c Hex2 Ha2 Hh2 Hne). }
  destruct (limit_outcome m acct s q p a Hwf Hs Ha ltac:(lia))
    as [[Hcr E1]|[Hcr (o' & mM & aM & Hrun & Hpost & HaM & E1)]]; fold n in E1.
  - rewrite E1 in E. injection E as <- <-.
    assert (x1 = x) by (unfold rested in Hc1; cbn [connections] in Hc1; congruence). subst x1.
    exact (Hlast m a x q Ha Hh Hc Hex eq_refl).
  - set (o := mkOrder n s q p None acct) in *. set (m0 := emplaced m o) in *.
    assert (Hex0 : exclusive m0) by exact Hex.
    destruct Hpost as (P1 & P2 & P3 & P4 & P5 & P6 & P7 & P8 & P9).
    assert (Hfol : forall P name, follows P P name m (drop n mM)).
    { intros P name. destruct (matching_follows P name _ _ _ _ _ _ Hrun Hex0) as [T _].
      apply (follows_trans P P P name m m0); [apply follows_same; reflexivity|].
      apply (follows_trans P P P name m0 mM); [exact T|]. apply follows_same; reflexivity. }
    destruct (matching_follows ∅ acct _ _ _ _ _ _ Hrun Hex0) as [_ VM].
    assert (V2 : sessions_of (drop n mM) = sessions_of m) by exact VM.
    destruct (view_account m (drop n mM) acct a V2 Ha) as (a2 & Ha2 & Hh2 & _).
    destruct (view_connection m (drop n mM) c x V2 Hc) as (x2 & Hc2 & _).
    assert (a2 = aM) by (change (accounts (drop n mM)) with (accounts mM) in Ha2; congruence).
    subst a2.
    assert (Hex2 : exclusive (drop n mM)) by exact (exclusive_view _ _ V2 Hex).
    destruct (Z.eqb_spec (quantity o') 0) as [E0|E0].
    + rewrite E1 in E. injection E as <- <-.
      assert (x1 = x2) by congruence. subst x1. split.
      * intros P R [HR _].
        apply (follows_trans P P ∅ acct m (drop n mM)); [apply Hfol|].
        apply (follows_owner_reply P ∅ (drop n mM) acct aM c x2 (R 0) Ha2); [congruence|exact Hc2|exact HR].
      * intros Q name r Hne.
        apply (follows_trans Q Q Q name m (drop n mM)); [apply Hfol|].
        apply follows_bystander; [reflexivity|reflexivity|].
        apply (not_owner (drop n mM) name acct aM c Hex2 Ha2); [congruence|exact Hne].
    + rewrite E1 in E. injection E as <- <-.
      assert (x1 = x2) by (unfold rested in Hc1; cbn [connections] in Hc1; congruence).
      subst x1.
      destruct (Hlast (drop n mM) aM x2 (quantity o') Ha2 ltac:(congruence) Hc2 Hex2 P4)
        as [L1 L2].
      split.
      * intros P R HR.
        apply (follows_trans P P ∅ acct m (drop n mM)); [apply Hfol|]. apply L1, HR.
      * intros Q name r Hne.
        apply (follows_trans Q Q Q name m (drop n mM)); [apply Hfol|]. apply L2, Hne.
Qed.

(** ** A market order *)
Lemma market_follows m acct s q :
  book_wf m -> sessions_ok m -> exclusive m -> is_Some (accounts m !! acct) -> 0 <= q ->
  exists m1, LimitOrderBook_market acct s q m = Ok tt m1 /\ book_wf m1 /\
    sessions_of m1 = sessions_of m /\ forall P name, follows P P name m m1.
Proof.
  intros Hwf Hs Hex Hacct Hq.
  destruct (market_wf m acct s q Hwf Hs Hacct Hq) as (m' & E & Hwf' & _).
  pose proof (wf_fresh m Hwf) as Hfresh.
  set (n := sequence (book m)) in *.
  destruct (tree_market_matching (Side_not s) n (mkOrder n s q 0 None acct) m)
    as (o' & m1 & E1 & Hrun & Hpost); try assumption.
  { rewrite drop_fresh by exact Hfresh. exact Hwf. }
  assert (Em : LimitOrderBook_market acct s q m = Ok tt m1).
  { destruct s; unfold LimitOrderBook_market, LimitOrderBook_market_sell,
      LimitOrderBook_market_buy, LimitOrderBook_get_sequence;
      unfold bind at 1 2; unfold get, ret; fold n; cbn [Side_not] in E1;
      rewrite (bind_run _ _ _ _ _ E1); reflexivity. }
  rewrite Em in E. injection E as <-.
  exists m1. split; [exact Em|]. split; [exact Hwf'|].
  split.
  - exact (proj2 (matching_follows ∅ acct _ _ _ _ _ _ Hrun Hex)).
  - intros P name. exact (proj1 (matching_follows P name _ _ _ _ _ _ Hrun Hex)).
Qed.

(** ** A cancellation by the owner *)
Lemma cancel_follows m id o :
  book_wf m -> order_map (book m) !! id = Some o ->
  exists m0 a, accounts m !! account o = Some a /\
    LimitOrderBook_cancel id m = Ok tt m0 /\ book_wf m0 /\ uid o = id /\ id <> 0 /\
    accounts m0 !! account o = Some (set_base a (Account_cancel (base a) o)) /\
    (forall name, name <> account o -> accounts m0 !! name = accounts m !! name) /\
    connections m0 = connections m /\
    (forall k, has_room m k -> has_room m0 k).
Proof.
  intros Hwf Ho.
  destruct (wf_order_level m id o Hwf Ho) as (l & Hl & _).
  destruct (wf_order_account m id o Hwf Ho) as (a & Ha & _).
  destruct (wf_order m id o Hwf Ho) as (Hu & Hid & _ & _ & Hlim & _).
  pose proof (cancel_run m id o l a Ho Hlim Hl Ha) as Hrun.
  pose proof (canceled_wf m id o l a Hwf Ho Hl Ha) as Hwf0.
  destruct (canceled_frame m id o l a Hwf Ho Hl Ha) as (_ & F2 & _ & F4 & F5 & _ & F7 & F8).
  exists (canceled m id o l a), a. split; [exact Ha|]. split; [exact Hrun|].
  split; [exact Hwf0|]. split; [exact Hu|]. split; [lia|]. split.
  { unfold canceled. cbn [accounts]. apply lookup_insert_eq. }
  split; [exact F2|]. split; [exact F8|].
  intros k (R1 & R2 & R3).
  assert (Hs : forall s, tree_count (tree_of s (book (canceled m id o l a)))
                         <= tree_count (tree_of s (book m))).
  { intros s. destruct (Side_eq_or_not s (side o)) as [->|Hne].
    - rewrite F5. lia.
    - rewrite (Side_other (side o) s Hne), F4. lia. }
  pose proof (Hs Sell) as H1. pose proof (Hs Buy) as H2. cbn [tree_of] in H1, H2.
  unfold has_room. rewrite F7. lia.
Qed.

(** ** The handlers *)
Lemma limit_by_wire_side acct ws q p :
  match ws with
  | WireSell => LimitOrderBook_limit_sell acct q p
  | WireBuy => LimitOrderBook_limit_buy acct q p
  end = LimitOrderBook_limit acct (side_to_LOB_side ws) q p.
Proof. destruct ws; reflexivity. Qed.

Lemma order_request_follows c request m x :
  book_wf m -> linked m -> has_room m 1 -> connections m !! c = Some x ->
  0 <= order_quantity request < 2 ^ 32 -> 0 <= order_price request < 2 ^ 64 ->
  exists m', Connection_handle_OrderRequest c request m = Ok tt m' /\ book_wf m' /\
             forall name, follows ∅ ∅ name m m'.
Proof.
  intros Hwf HL Hroom Hc Hq Hp.
  pose proof (linked_sessions_ok m HL) as Hs. pose proof (linked_exclusive m HL) as Hex.
  destruct (conn_account x) as [acct|] eqn:Hx.
  2:{ exists (replied m c x (OrderResponse 0 Rejected)). split; [|split].
      - unfold Connection_handle_OrderRequest, load_connection, bind, get, unwrap, ret.
        rewrite Hc, Hx. apply send_run, Hc.
      - apply replied_wf, Hwf.
      - intros name. apply follows_free; assumption. }
  destruct (proj1 HL c x acct Hc Hx) as (a & Ha & Hh & _).
  assert (Hrun : Connection_handle_OrderRequest c request m =
    (if order_price request =? ORDER_PRICE_MARKET
     then do LimitOrderBook_market acct (side_to_LOB_side (order_side request))
                                   (order_quantity request) then
          Connection_send c (OrderResponse ORDER_ID_MARKET Accepted)
     else let* u := LimitOrderBook_limit acct (side_to_LOB_side (order_side request))
                                         (order_quantity request) (order_price request) in
          Connection_send c (OrderResponse u Accepted)) m).
  { unfold Connection_handle_OrderRequest, load_connection. unfold bind at 1.
    unfold bind at 1. unfold get at 1, unwrap at 1, ret. rewrite Hc, Hx. reflexivity. }
  rewrite Hrun. unfold ORDER_PRICE_MARKET, ORDER_ID_MARKET.
  destruct (order_price request =? 0) eqn:Hz.
  - destruct (market_follows m acct (side_to_LOB_side (order_side request))
                (order_quantity request) Hwf Hs Hex ltac:(eauto) ltac:(lia))
      as (m1 & E & Hwf1 & Hv & Hfol).
    destruct (view_connection m m1 c x Hv Hc) as (x1 & Hc1 & Hx1).
    destruct (view_account m m1 acct a Hv Ha) as (a1 & Ha1 & Hh1 & _).
    exists (replied m1 c x1 (OrderResponse 0 Accepted)). split; [|split].
    + unfold bind. rewrite E. apply send_run, Hc1.
    + apply replied_wf, Hwf1.
    + intros name. apply (follows_trans ∅ ∅ ∅ name m m1); [apply Hfol|].
      apply follows_refusal; [exact Hc1|exact (linked_view m m1 Hv HL)|].
      apply mirrors_order_zero.
  - destruct (place_run m acct a c x (side_to_LOB_side (order_side request))
                (order_quantity request) (order_price request)
                Hwf Hs Hex Ha Hh Hc Hq Hp Hroom)
      as (u & m1 & x1 & E & Hwf1 & Hv & Hc1 & Hx1 & Hown & Hoth).
    exists (replied m1 c x1 (OrderResponse u Accepted)). split; [|split].
    + unfold bind. rewrite E. apply send_run, Hc1.
    + apply replied_wf, Hwf1.
    + intros name. destruct (decide (name = acct)) as [->|Hne].
      * exact (Hown ∅ (fun u => OrderResponse u Accepted) good_order_reply).
      * apply Hoth, Hne.
Qed.

Lemma cancel_request_follows c order_id m x :
  book_wf m -> linked m -> authorizer_wf m -> connections m !! c = Some x ->
  exists m', Connection_handle_CancelRequest c order_id m = Ok tt m' /\ book_wf m' /\
             forall name, follows ∅ ∅ name m m'.
Proof.
  intros Hwf HL Hauth Hc.
  pose proof (linked_exclusive m HL) as Hex.
  assert (Hrej : forall name,
            follows ∅ ∅ name m (replied m c x (CancelResponse order_id Rejected))).
  { intros name. apply follows_refusal; [exact Hc|exact HL|].
    apply mirrors_rejected. right. left. eauto. }
  destruct (conn_account x) as [acct|] eqn:Hx.
  2:{ exists (replied m c x (CancelResponse order_id Rejected)). split; [|split].
      - unfold Connection_handle_CancelRequest, load_connection, bind, get, unwrap, ret.
        rewrite Hc, Hx. apply send_run, Hc.
      - apply replied_wf, Hwf.
      - exact Hrej. }
  destruct (proj1 HL c x acct Hc Hx) as (me & Hme & Hh & _).
  rewrite (cancel_request_unfold c order_id m x acct Hc Hx). unfold LimitOrderBook_has.
  destruct (order_map (book m) !! order_id) as [o|] eqn:Ho.
  2:{ rewrite bool_decide_eq_false_2 by (intros [? ?]; discriminate). cbn [negb].
      exists (replied m c x (CancelResponse order_id Rejected)).
      split; [apply send_run, Hc|]. split; [apply replied_wf, Hwf|exact Hrej]. }
  rewrite bool_decide_eq_true_2 by eauto. cbn [negb].
  destruct (cancel_follows m order_id o Hwf Ho)
    as (m0 & owner & Howner & E & Hwf0 & Hu & _ & Ha0 & Hoth & Hconn & _).
  unfold bind at 1. rewrite (owns_run acct order_id m o owner me Ho Howner Hme).
  rewrite (Hauth _ _ Howner), (Hauth _ _ Hme).
  destruct (decide (account o = acct)) as [Hown|Hown].
  2:{ rewrite bool_decide_eq_false_2 by exact Hown. cbn [negb].
      exists (replied m c x (CancelResponse order_id Rejected)).
      split; [apply send_run, Hc|]. split; [apply replied_wf, Hwf|exact Hrej]. }
  rewrite bool_decide_eq_true_2 by exact Hown. cbn [negb].
  assert (owner = me) by congruence. subst owner.
  assert (Hc0 : connections m0 !! c = Some x) by (rewrite Hconn; exact Hc).
  exists (replied m0 c x (CancelResponse order_id Accepted)). split; [|split].
  - unfold bind. rewrite E. apply send_run, Hc0.
  - apply replied_wf, Hwf0.
  - intros name. destruct (decide (name = acct)) as [->|Hne].
    + apply (follows_owner ∅ ∅ m m0 acct me c x (fun b => Account_cancel b o)
               (CancelResponse order_id Accepted) Hme Hh Hc).
      * rewrite <- Hown. exact Ha0.
      * exact Hc0.
      * rewrite <- Hu. apply mirrors_cancel.
    + apply follows_bystander.
      * apply Hoth. congruence.
      * exact Hconn.
      * exact (not_owner m name acct me c Hex Hme Hh Hne).
Qed.

Lemma replace_place_follows c acct canceled request m a x :
  book_wf m -> sessions_ok m -> exclusive m ->
  accounts m !! acct = Some a -> handler a = Some c -> connections m !! c = Some x ->
  0 <= replace_quantity request < 2 ^ 32 -> 0 <= replace_price request < 2 ^ 64 ->
  has_room m 1 ->
  exists m', Connection_replace_place c acct canceled request m = Ok tt m' /\ book_wf m' /\
    (forall P, good_reply P (fun u => ReplaceResponse canceled u Accepted) ->
               follows P ∅ acct m m') /\
    (forall Q name, name <> acct -> follows Q Q name m m').
Proof.
  intros Hwf Hs Hex Ha Hh Hc Hq Hp Hroom.
  destruct (place_run m acct a c x (side_to_LOB_side (replace_side request))
              (replace_quantity request) (replace_price request)
              Hwf Hs Hex Ha Hh Hc Hq Hp Hroom)
    as (u & m1 & x1 & E & Hwf1 & Hv & Hc1 & Hx1 & Hown & Hoth).
  exists (replied m1 c x1 (ReplaceResponse canceled u Accepted)). split; [|split; [|split]].
  - unfold Connection_replace_place. rewrite limit_by_wire_side.
    unfold bind. rewrite E. apply send_run, Hc1.
  - apply replied_wf, Hwf1.
  - intros P HR. exact (Hown P (fun u => ReplaceResponse canceled u Accepted) HR).
  - intros Q name Hne. apply Hoth, Hne.
Qed.

Lemma replace_request_unfold c request m x acct :
  connections m !! c = Some x -> conn_account x = Some acct ->
  Connection_handle_ReplaceRequest c request m
  = (if LimitOrderBook_has (book m) (replace_order_id request) then
       let* mine := Connection_owns acct (replace_order_id request) in
       if negb mine then
         Connection_send c
           (ReplaceResponse (replace_order_id request) ORDER_ID_REJECTED Rejected)
       else
         do LimitOrderBook_cancel (replace_order_id request) then
         Connection_replace_place c acct (replace_order_id request) request
     else
       Connection_replace_place c acct ORDER_ID_REJECTED request) m.
Proof.
  intros Hc Hx. unfold Connection_handle_ReplaceRequest, load_connection.
  unfold bind at 1. unfold bind at 1. unfold get at 1, unwrap at 1, ret.
  rewrite Hc, Hx. unfold bind at 1. unfold get at 1. reflexivity.
Qed.

Lemma replace_request_follows c request m x :
  book_wf m -> linked m -> authorizer_wf m -> has_room m 1 -> connections m !! c = Some x ->
  0 <= replace_quantity request < 2 ^ 32 -> 0 <= replace_price request < 2 ^ 64 ->
  exists m', Connection_handle_ReplaceRequest c request m = Ok tt m' /\ book_wf m' /\
             forall name, follows ∅ ∅ name m m'.
Proof.
  intros Hwf HL Hauth Hroom Hc Hq Hp.
  pose proof (linked_sessions_ok m HL) as Hs. pose proof (linked_exclusive m HL) as Hex.
  set (id := replace_order_id request).
  assert (Hrej : forall name,
            follows ∅ ∅ name m (replied m c x (ReplaceResponse id 0 Rejected))).
  { intros name. apply follows_refusal; [exact Hc|exact HL|].
    apply mirrors_rejected. right. right. left. eauto. }
  destruct (conn_account x) as [acct|] eqn:Hx.
  2:{ exists (replied m c x (ReplaceResponse id 0 Rejected)). split; [|split].
      - unfold Connection_handle_ReplaceRequest, load_connection, bind, get, unwrap, ret.
        rewrite Hc, Hx. apply send_run, Hc.
      - apply replied_wf, Hwf.
      - exact Hrej. }
  destruct (proj1 HL c x acct Hc Hx) as (me & Hme & Hh & _).
  rewrite (replace_request_unfold c request m x acct Hc Hx). fold id.
  unfold LimitOrderBook_has, ORDER_ID_REJECTED.
  destruct (order_map (book m) !! id) as [o|] eqn:Ho.
  2:{ rewrite bool_decide_eq_false_2 by (intros [? ?]; discriminate).
      destruct (replace_place_follows c acct 0 request m me x Hwf Hs Hex Hme Hh Hc Hq Hp Hroom)
        as (m' & E & Hwf' & Hown & Hoth).
      exists m'. split; [exact E|]. split; [exact Hwf'|].
      intros name. destruct (decide (name = acct)) as [->|Hne].
      - apply Hown, good_replace_new.
      - apply Hoth, Hne. }
  rewrite bool_decide_eq_true_2 by eauto.
  destruct (cancel_follows m id o Hwf Ho)
    as (m0 & owner & Howner & E & Hwf0 & Hu & Hid & Ha0 & Hoth0 & Hconn & Hroom0).
  unfold bind at 1. rewrite (owns_run acct id m o owner me Ho Howner Hme).
  rewrite (Hauth _ _ Howner), (Hauth _ _ Hme).
  destruct (decide (account o = acct)) as [Hown|Hown].
  2:{ rewrite bool_decide_eq_false_2 by exact Hown. cbn [negb].
      exists (replied m c x (ReplaceResponse id 0 Rejected)).
      split; [apply send_run, Hc|]. split; [apply replied_wf, Hwf|exact Hrej]. }
  rewrite bool_decide_eq_true_2 by exact Hown. cbn [negb].
  assert (owner = me) by congruence. subst owner. rewrite Hown in Ha0, Hoth0.
  assert (Hc0 : connections m0 !! c = Some x) by (rewrite Hconn; exact Hc).
  pose proof (ses_cancel id m) as Hv. rewrite E in Hv. cbn [final] in Hv.
  destruct (replace_place_follows c acct id request m0 _ x Hwf0
              (linked_sessions_ok m0 (linked_view m m0 Hv HL))
              (exclusive_view m m0 Hv Hex) Ha0 Hh Hc0 Hq Hp (Hroom0 1 Hroom))
    as (m' & E' & Hwf' & Hown' & Hoth').
  exists m'. split; [|split].
  - unfold bind. rewrite E. exact E'.
  - exact Hwf'.
  - intros name. destruct (decide (name = acct)) as [->|Hne].
    + apply (follows_trans ∅ {[id]} ∅ acct m m0).
      * apply (follows_silent ∅ {[id]} acct m m0 me (Account_cancel (base me) o) Hme Ha0).
        { intros h _. rewrite Hconn. reflexivity. }
        intros k (K1 & K2 & K3). unfold in_step_but, Account_cancel. cbn.
        rewrite difference_empty_L in K3. rewrite K3, Hu. auto.
      * apply Hown', good_replace_reply, Hid.
    + apply (follows_trans ∅ ∅ ∅ name m m0).
      * apply follows_idle; [apply Hoth0, Hne|]. intros a h _ _. rewrite Hconn. reflexivity.
      * apply Hoth', Hne.
Qed.

Lemma purge_request_follows first c m x :
  picks first -> book_wf m -> linked m -> connections m !! c = Some x ->
  exists m', Connection_handle_PurgeRequest first c m = Ok tt m' /\ book_wf m' /\
             forall name, follows ∅ ∅ name m m'.
Proof.
  intros Hfirst Hwf HL Hc.
  pose proof (linked_exclusive m HL) as Hex.
  destruct (conn_account x) as [acct|] eqn:Hx.
  2:{ exists (replied m c x (PurgeResponse Rejected)). split; [|split].
      - unfold Connection_handle_PurgeRequest, load_connection, bind, get, unwrap, ret.
        rewrite Hc, Hx. apply send_run, Hc.
      - apply replied_wf, Hwf.
      - intros name. apply follows_free; assumption. }
  destruct (proj1 HL c x acct Hc Hx) as (a & Ha & Hh & _).
  destruct (purge_loop_run first Hfirst (S (size (orders (base a)))) m acct a Hwf Ha
              ltac:(lia)) as (m0 & E & Hwf0 & Hacc & Hom & Hconn & Hseq).
  assert (Hc0 : connections m0 !! c = Some x) by (rewrite Hconn; exact Hc).
  exists (replied m0 c x (PurgeResponse Accepted)). split; [|split].
  - unfold Connection_handle_PurgeRequest, load_connection. unfold bind at 1 2.
    unfold get at 1, unwrap at 1, ret. rewrite Hc, Hx.
    unfold bind at 1. unfold load_account at 1. unfold bind at 1. unfold get at 1, unwrap at 1.
    rewrite Ha. unfold ret. unfold bind. rewrite E. apply send_run, Hc0.
  - apply replied_wf, Hwf0.
  - intros name. destruct (decide (name = acct)) as [->|Hne].
    + apply (follows_owner ∅ ∅ m m0 acct a c x
               (fun b => mkAccount (shares b) (capital b) ∅)
               (PurgeResponse Accepted) Ha Hh Hc).
      * rewrite Hacc. apply lookup_insert_eq.
      * exact Hc0.
      * apply mirrors_purge.
    + apply follows_bystander.
      * rewrite Hacc. apply lookup_insert_ne. congruence.
      * exact Hconn.
      * exact (not_owner m name acct a c Hex Ha Hh Hne).
Qed.

(** X16.  Clients stay in step with the server.  On a well-formed server
    whose sessions are linked to their accounts, a trading request (an order, a
    cancellation, a replacement or a purge, with the quantity and the price of
    the wire types) is always served, whatever session sends it: the handler
    returns, and the book stays well formed and the sessions linked.  Every
    account that is logged in gets new messages appended to the output of its
    own session, and a client ([client.hpp]) that agreed with the account on
    shares, capital and open orders before the request agrees with it again
    once it has handled exactly these messages.  This covers the maker of every
    fill, notified through the session of its account.  The matching runs on
    the limit tree, which is modelled from the specification. *)
Theorem clients_stay_in_step (first : gset Z -> option Z) (c : nat) (msg : ClientMessage)
    (m : Memory) :
  picks first -> book_wf m -> linked m -> authorizer_wf m -> has_room m 1 ->
  is_Some (connections m !! c) -> trading msg ->
  exists m', Connection_handle first c msg m = Ok tt m' /\
             book_wf m' /\ linked m' /\ authorizer_wf m' /\ tracked m m'.
Proof.
  intros Hfirst Hwf HL Hauth Hroom [x Hc] Hmsg.
  assert (H : exists m', Connection_handle first c msg m = Ok tt m' /\ book_wf m' /\
                         sessions_of m' = sessions_of m /\
                         forall name, follows ∅ ∅ name m m').
  { destruct msg as [u p| |request|order_id|request| |]; cbn [trading] in Hmsg;
      try contradiction; cbn [Connection_handle].
    - destruct Hmsg as [Hq Hp].
      destruct (order_request_follows c request m x Hwf HL Hroom Hc Hq Hp)
        as (m' & E & Hwf' & Hfol).
      exists m'. split; [exact E|]. split; [exact Hwf'|]. split; [|exact Hfol].
      pose proof (ses_order_request c request m) as Hv. rewrite E in Hv. exact Hv.
    - destruct (cancel_request_follows c order_id m x Hwf HL Hauth Hc)
        as (m' & E & Hwf' & Hfol).
      exists m'. split; [exact E|]. split; [exact Hwf'|]. split; [|exact Hfol].
      pose proof (ses_cancel_request c order_id m) as Hv. rewrite E in Hv. exact Hv.
    - destruct Hmsg as [Hq Hp].
      destruct (replace_request_follows c request m x Hwf HL Hauth Hroom Hc Hq Hp)
        as (m' & E & Hwf' & Hfol).
      exists m'. split; [exact E|]. split; [exact Hwf'|]. split; [|exact Hfol].
      pose proof (ses_replace_request c request m) as Hv. rewrite E in Hv. exact Hv.
    - destruct (purge_request_follows first c m x Hfirst Hwf HL Hc)
        as (m' & E & Hwf' & Hfol).
      exists m'. split; [exact E|]. split; [exact Hwf'|]. split; [|exact Hfol].
      pose proof (ses_purge_request first c m) as Hv. rewrite E in Hv. exact Hv. }
  destruct H as (m' & E & Hwf' & Hv & Hfol).
  exists m'. split; [exact E|]. split; [exact Hwf'|].
  split; [exact (linked_view m m' Hv HL)|].
  split; [exact (authorizer_view m m' Hv Hauth)|].
  apply tracked_intro, Hfol.
Qed.

(** ** The requests at the sessions of a concrete book *)

(** The sessions of the example are linked. *)
Lemma example_linked : linked example_memory.
Proof.
  unfold linked, example_memory, example_accounts. cbn [accounts connections].
  split; [|split].
  - intros c x name Hx Hn. apply lookup_insert_Some in Hx as [[<- <-]|[_ Hx]].
    + injection Hn as <-. eexists. split; [reflexivity|]. split; reflexivity.
    + rewrite lookup_empty in Hx. discriminate.
  - intros name a c Ha Hh. apply lookup_insert_Some in Ha as [[<- <-]|[_ Ha]]; [discriminate|].
    apply lookup_insert_Some in Ha as [[<- <-]|[_ Ha]].
    + injection Hh as <-. eexists. split; reflexivity.
    + rewrite lookup_empty in Ha. discriminate.
  - intros name a Ha. apply lookup_insert_Some in Ha as [[<- <-]|[_ Ha]].
    + cbn. split; [discriminate|intros [? ?]; discriminate].
    + apply lookup_insert_Some in Ha as [[<- <-]|[_ Ha]].
      * cbn. split; eauto.
      * rewrite lookup_empty in Ha. discriminate.
Qed.

Lemma resting_linked : linked resting_memory.
Proof.
  apply (linked_view example_memory resting_memory); [|exact example_linked].
  vm_compute. reflexivity.
Qed.

(** X11, the theorem at the session of "bob", who cancels the order 2. *)
Lemma cancel_request_cases_witness :
  exists m0,
    LimitOrderBook_cancel 2 resting_memory = Ok tt m0 /\
    Connection_handle_CancelRequest 7 2 resting_memory
      = Ok tt (replied m0 7 (mkConnection (Some "bob") [] 0) (CancelResponse 2 Accepted)) /\
    book_wf (replied m0 7 (mkConnection (Some "bob") [] 0) (CancelResponse 2 Accepted)) /\
    LimitOrderBook_has (book m0) 2 = false.
Proof.
  refine (proj2 (cancel_request_cases 7 2 resting_memory (mkConnection (Some "bob") [] 0)
                   _ _ _) "bob" (mkOrder 2 Sell 30 100 (Some 100) "bob") _ _ _).
  - unfold authorizer_wf. apply (bool_decide_unpack _). vm_compute. exact I.
  - apply (bool_decide_unpack _). vm_compute. exact I.
  - vm_compute. reflexivity.
  - reflexivity.
  - vm_compute. reflexivity.
  - reflexivity.
Defined.

(** X12, the theorem at the session of "bob", who bids 60 at 100 against the
    80 offered at that price. *)
Lemma order_request_cases_witness :
  exists u m1 x1,
    LimitOrderBook_limit "bob" Buy 60 100 resting_memory = Ok u m1 /\
    connections m1 !! 7%nat = Some x1 /\ conn_account x1 = Some "bob" /\
    Connection_handle_OrderRequest 7 (mkOrderRequest 100 60 WireBuy) resting_memory
      = Ok tt (replied m1 7 x1 (OrderResponse u Accepted)) /\
    book_wf (replied m1 7 x1 (OrderResponse u Accepted)).
Proof.
  refine (proj2 (order_request_cases 7 (mkOrderRequest 100 60 WireBuy) resting_memory
                   (mkConnection (Some "bob") [] 0) _ _ _ _ _ _) "bob" _ _).
  - apply (bool_decide_unpack _). vm_compute. exact I.
  - apply (bool_decide_unpack _). vm_compute. exact I.
  - vm_compute. reflexivity.
  - cbn. lia.
  - cbn. lia.
  - repeat split; vm_compute; reflexivity.
  - reflexivity.
  - vm_compute. eauto.
Defined.

(** X13, the theorem at the session of "bob", who has two orders in a book
    of four, with the least uid picked first. *)
Lemma purge_request_cancels_own_orders_witness :
  exists a m0,
    accounts resting_memory !! "bob" = Some a /\
    Connection_handle_PurgeRequest least 7 resting_memory
      = Ok tt (replied m0 7 (mkConnection (Some "bob") [] 0) (PurgeResponse Accepted)) /\
    book_wf (replied m0 7 (mkConnection (Some "bob") [] 0) (PurgeResponse Accepted)) /\
    order_map (book m0) = orders_of_others "bob" (order_map (book resting_memory)) /\
    accounts m0
      = <["bob" := set_base a (mkAccount (shares (base a)) (capital (base a)) ∅)]>
          (accounts resting_memory) /\
    connections m0 = connections resting_memory /\
    sequence (book m0) = sequence (book resting_memory).
Proof.
  assert (Ha : exists a, accounts resting_memory !! "bob" = Some a) by (vm_compute; eauto).
  destruct Ha as [a Ha]. exists a.
  assert (H : exists m0,
    Connection_handle_PurgeRequest least 7 resting_memory
      = Ok tt (replied m0 7 (mkConnection (Some "bob") [] 0) (PurgeResponse Accepted)) /\
    book_wf (replied m0 7 (mkConnection (Some "bob") [] 0) (PurgeResponse Accepted)) /\
    order_map (book m0) = orders_of_others "bob" (order_map (book resting_memory)) /\
    accounts m0
      = <["bob" := set_base a (mkAccount (shares (base a)) (capital (base a)) ∅)]>
          (accounts resting_memory) /\
    connections m0 = connections resting_memory /\
    sequence (book m0) = sequence (book resting_memory)).
  { refine (proj2 (purge_request_cancels_own_orders least 7 resting_memory
                     (mkConnection (Some "bob") [] 0) least_picks _ _) "bob" a _ Ha).
    - apply (bool_decide_unpack _). vm_compute. exact I.
    - vm_compute. reflexivity.
    - reflexivity. }
  destruct H as [m0 H]. exists m0. split; [exact Ha|exact H].
Defined.

(** X14, the theorem at a bid of 60 at 100 on a book whose best ask is
    100. *)
Lemma book_never_crossed_witness :
  exists u m', LimitOrderBook_limit "bob" Buy 60 100 resting_memory = Ok u m' /\
               book_wf m' /\ sessions_ok m' /\ uncrossed (book m').
Proof.
  refine (proj1 (proj2 (book_never_crossed resting_memory _ _ _)) "bob" Buy 60 100 _ _ _ _).
  - apply (bool_decide_unpack _). vm_compute. exact I.
  - apply (bool_decide_unpack _). vm_compute. exact I.
  - vm_compute. reflexivity.
  - vm_compute. eauto.
  - lia.
  - lia.
  - repeat split; vm_compute; reflexivity.
Defined.

(** X15, the theorem at a bid of 100 at 100 on a book that offers 80 at that
    price. *)
Lemma limit_returns_uid_iff_rests_witness :
  let n := sequence (book resting_memory) in
  exists u m',
    LimitOrderBook_limit "bob" Buy 100 100 resting_memory = Ok u m' /\ book_wf m' /\
    ((u = 0 /\ crosses Buy 100 (book resting_memory) = true /\
      order_map (book m') !! n = None /\ sequence (book m') = n) \/
     (u = n /\ sequence (book m') = n + 1 /\
      exists q', 0 <= q' <= 100 /\ (crosses Buy 100 (book resting_memory) = true -> 0 < q') /\
        (crosses Buy 100 (book resting_memory) = false -> q' = 100) /\
        order_map (book m') !! n = Some (mkOrder n Buy q' 100 (Some 100) "bob") /\
        rests m' Buy n)).
Proof.
  apply (limit_returns_uid_iff_rests resting_memory "bob" Buy 100 100).
  - apply (bool_decide_unpack _). vm_compute. exact I.
  - apply (bool_decide_unpack _). vm_compute. exact I.
  - vm_compute. eauto.
  - lia.
  - lia.
  - repeat split; vm_compute; reflexivity.
Defined.

(** X16, the theorem at the session of "bob", who bids 60 at 100 against an
    order of "ann" and one of his own. *)
Lemma clients_stay_in_step_witness :
  exists m',
    Connection_handle least 7 (OrderRequestMessage (mkOrderRequest 100 60 WireBuy))
                      resting_memory = Ok tt m' /\
    book_wf m' /\ linked m' /\ authorizer_wf m' /\ tracked resting_memory m'.
Proof.
  apply (clients_stay_in_step least 7 (OrderRequestMessage (mkOrderRequest 100 60 WireBuy))
           resting_memory).
  - exact least_picks.
  - apply (bool_decide_unpack _). vm_compute. exact I.
  - exact resting_linked.
  - unfold authorizer_wf. apply (bool_decide_unpack _). vm_compute. exact I.
  - repeat split; vm_compute; reflexivity.
  - vm_compute. eauto.
  - cbn. lia.
Defined.






Lemma ledger_same m m' : accounts m' = accounts m -> ledger m' = ledger m.
Proof. unfold ledger. intros ->. reflexivity. Qed.













End OrderEntryFacts.

(** * The market-data receiver *)

Module DataFeedFacts.
Import DataFeed.
Local Open Scope monad_scope.

Lemma handle_view msg r r' :
  view r = view r' ->
  outcome (Receiver_handle msg r) = outcome (Receiver_handle msg r') /\
  last_sequence (final (Receiver_handle msg r)) = last_sequence r.
Proof.
  unfold view. intros [= Hb Hs Hd].
  destruct r as [b a n d c], r' as [b' a' n' d' c']; cbn in Hb, Hs, Hd; subst b' a' d'.
  destruct msg; cbn [Receiver_handle];
    unfold bind, on_book, did_receive, log, modify, get, ret, raise; cbn;
    repeat match goal with
    | |- context [match ?op b with _ => _ end] => destruct (op b); cbn
    | |- context [if ?c then _ else _] => destruct c; cbn
    end; auto.
Qed.

Lemma read_message_resync pkt r :
  Receiver_read_message pkt r = Receiver_handle (body pkt) (resync pkt r).
Proof.
  unfold Receiver_read_message, resync, bind, get, log, modify.
  destruct (decide (header_sequence pkt = wrap32 (last_sequence r + 1))) as [E|E].
  - rewrite <- E. reflexivity.
  - reflexivity.
Qed.

Lemma resync_view pkt r :
  view (resync pkt r) = view r /\ last_sequence (resync pkt r) = header_sequence pkt.
Proof. unfold resync. destruct (decide _); split; reflexivity. Qed.

Lemma read_message_view pkt r r' :
  view r = view r' ->
  outcome (Receiver_read_message pkt r) = outcome (Receiver_handle (body pkt) r') /\
  last_sequence (final (Receiver_read_message pkt r)) = header_sequence pkt.
Proof.
  intros Hv. rewrite read_message_resync.
  destruct (resync_view pkt r) as [Hr Hl].
  destruct (handle_view (body pkt) (resync pkt r) r') as [-> ->]; [congruence|].
  split; [reflexivity|exact Hl].
Qed.

Lemma run_outcome (pkts : list Packet) (r : Receiver) :
  outcome (Receiver_run pkts r) = outcome (Receiver_apply (map body pkts) r).
Proof.
  assert (H : forall r r', view r = view r' ->
     outcome (Receiver_run pkts r) = outcome (Receiver_apply (map body pkts) r')).
  { induction pkts as [|pkt pkts IH]; intros r1 r2 Hv.
    - cbn. unfold ret. cbn. rewrite Hv. reflexivity.
    - cbn [Receiver_run Receiver_apply map]. unfold bind.
      destruct (read_message_view pkt r1 r2 Hv) as [Ho _].
      destruct (Receiver_read_message pkt r1) as [[] r1'|e r1'],
               (Receiver_handle (body pkt) r2) as [[] r2'|e' r2']; cbn in Ho;
        try discriminate.
      + apply IH. congruence.
      + exact Ho. }
  apply H. reflexivity.
Qed.

Lemma handle_applied msg r : applied msg r (Receiver_handle msg r).
Proof.
  destruct r as [b a n d c].
  destruct msg as [|u p q s|u|u p q s| | |]; cbn [applied Receiver_handle book].
  - unfold book_applied, bind, on_book, did_receive, modify. cbn [book].
    destruct (LimitOrderBook_clear b) as [[] b'|e b']; cbn; auto.
  - unfold book_applied, bind, on_book, did_receive, modify. cbn [book].
    destruct (LimitOrderBook_limit (side_to_LOB_side s) u q p b) as [[] b'|e b']; cbn; auto.
  - destruct (LimitOrderBook_has b u) eqn:Hh;
      unfold book_applied, passed_over, view, bind, on_book, did_receive, log, modify, get;
      cbn [book]; rewrite Hh; cbn [negb book].
    + destruct (LimitOrderBook_cancel u b) as [[] b'|e b'] eqn:E; rewrite ?E; cbn; auto.
    + cbn. auto.
  - destruct (LimitOrderBook_has b u) eqn:Hh;
      unfold book_applied, passed_over, view, bind, on_book, did_receive, log, modify, get;
      cbn [book]; rewrite Hh; cbn [negb book].
    + destruct (LimitOrderBook_reduce u q b) as [[] b'|e b'] eqn:E; rewrite ?E; cbn; auto.
    + cbn. auto.
  - cbn. auto.
  - cbn. auto.
  - split; [eexists; reflexivity|reflexivity].
Qed.

Lemma handle_cerr msg r :
  cerr (final (Receiver_handle msg r)) = cerr r ++ uid_lines msg r.
Proof.
  destruct r as [b a n d c].
  destruct msg as [|u p q s|u|u p q s| | |]; cbn [uid_lines Receiver_handle book];
    try destruct (LimitOrderBook_has b u) eqn:Hh;
    unfold bind, on_book, did_receive, log, modify, get, raise; cbn [book];
    rewrite ?Hh; cbn [negb book];
    repeat match goal with
    | |- context [match ?op b with _ => _ end] =>
        let E := fresh "E" in destruct (op b) as [[] ?|? ?] eqn:E; rewrite ?E; cbn
    end; cbn; rewrite ?app_nil_r; reflexivity.
Qed.

Lemma applied_view msg r0 r res :
  view r0 = view r -> applied msg r res -> applied msg r0 res.
Proof.
  unfold view. intros [= Hb Hs Hd]. unfold applied, book_applied, passed_over, view.
  rewrite Hb, Hs, Hd. auto.
Qed.

Lemma clear_has b u : LimitOrderBook_has (final (LimitOrderBook_clear b)) u = false.
Proof. reflexivity. Qed.

Lemma cancel_gone u b b' :
  LimitOrderBook_cancel u b = Ok tt b' -> LimitOrderBook_has b' u = false.
Proof.
  unfold LimitOrderBook_cancel. unfold bind at 1.
  destruct (UIDOrderMap_at u b) as [o b1|e b1]; [|discriminate].
  unfold bind. destruct (LimitTree_cancel (side o) u b1) as [[] b2|e b2]; [|discriminate].
  unfold UIDOrderMap_erase, modify. intros [= <-]. unfold LimitOrderBook_has.
  cbn [order_map set_order_map]. apply bool_decide_eq_false. rewrite lookup_delete_eq.
  intros [? ?]. discriminate.
Qed.

Lemma mirror_rest_run s u o b :
  order_map b !! u = Some o ->
  exists b', LimitOrderBook_rest s u b = Ok tt b' /\
             order_map b' !! u = Some (set_limit o (Some (price o))).
Proof.
  intros Ho. unfold LimitOrderBook_rest, UIDOrderMap_at, LimitTree_limit, load_order, load_tree,
    store_tree, store_order, bind, get, unwrap, ret, modify. rewrite Ho. cbn.
  assert (H : forall t, order_map (set_tree s t b) = order_map b) by (destruct s; reflexivity).
  rewrite Ho. eexists. split; [reflexivity|]. cbn. apply lookup_insert_eq.
Qed.

Lemma add_rests u p q s b :
  LimitOrderBook_has b u = false -> rests_on_entry s p b ->
  exists b', LimitOrderBook_limit (side_to_LOB_side s) u q p b = Ok tt b' /\
             order_map b' !! u = Some (mkOrder u (side_to_LOB_side s) q p (Some p)).
Proof.
  intros Hhas Hq.
  assert (Hno : order_map b !! u = None).
  { unfold LimitOrderBook_has in Hhas. apply bool_decide_eq_false in Hhas.
    destruct (order_map b !! u); [exfalso; apply Hhas; eauto|reflexivity]. }
  set (o := mkOrder u (side_to_LOB_side s) q p None).
  set (b0 := set_order_map (<[u := o]> (order_map b)) b).
  assert (Ho : order_map b0 !! u = Some o) by apply lookup_insert_eq.
  destruct (mirror_rest_run (side_to_LOB_side s) u o b0 Ho) as (b' & E & Hb').
  exists b'. split; [|exact Hb'].
  destruct s; cbn [side_to_LOB_side LimitOrderBook_limit] in *;
    unfold LimitOrderBook_limit_sell, LimitOrderBook_limit_buy, UIDOrderMap_emplace, load_tree;
    unfold bind at 1; unfold modify; rewrite Hno; fold o; fold b0;
    unfold bind at 1; unfold bind at 1; unfold get, ret; cbn [tree_of];
    change (buys b0) with (buys b); change (sells b0) with (sells b);
    cbn [rests_on_entry] in Hq.
  - destruct (best (buys b)) as [k|] eqn:Hk; [|exact E].
    specialize (Hq k eq_refl). destruct (Z.leb_spec p k); [lia|exact E].
  - destruct (best (sells b)) as [k|] eqn:Hk; [|exact E].
    specialize (Hq k eq_refl). destruct (Z.leb_spec k p); [lia|exact E].
Qed.

Lemma run_numbers (pkts pkts' : list Packet) (r : Receiver) :
  map body pkts = map body pkts' ->
  outcome (Receiver_run pkts r) = outcome (Receiver_run pkts' r).
Proof. intros E. rewrite !run_outcome, E. reflexivity. Qed.

(** C9.  The receiver expects the last sequence number plus one (as a
    32-bit number).  A packet with another number adds one line to the log;
    in both cases the number of the packet becomes the last one and the
    packet is applied: the session flag is set or reset, the mirror book is
    cleared (it holds no order afterwards), the order of an [AddOrder] is
    entered under the uid of the feed (when it does not cross it rests, with
    its side, quantity and price), the order of a [DeleteOrder] the mirror
    holds is canceled and gone, the order of a [Trade] is reduced, and the
    message is passed on to the handler.  So two feeds with the same messages
    have the same effect, whatever their sequence numbers are. *)
Theorem sequence_gap_tolerated (pkts pkts' : list Packet) (pkt : Packet) (r : Receiver) :
  let res := Receiver_read_message pkt r in
  (* the check: the gap is logged and the number of the packet adopted *)
  last_sequence (final res) = header_sequence pkt /\
  cerr (final res) = cerr r ++ gap_lines pkt r ++ uid_lines (body pkt) r /\
  (* the packet is applied, whatever its number *)
  applied (body pkt) r res /\
  (body pkt = Clear -> forall u, LimitOrderBook_has (book (final res)) u = false) /\
  (forall u p q s, body pkt = AddOrder u p q s ->
     LimitOrderBook_has (book r) u = false -> rests_on_entry s p (book r) ->
     res = Ok tt (final res) /\
     order_map (book (final res)) !! u
       = Some (mkOrder u (side_to_LOB_side s) q p (Some p)) /\
     delivered (final res) = delivered r ++ [AddOrder u p q s]) /\
  (forall u, body pkt = DeleteOrder u -> LimitOrderBook_has (book r) u = true ->
     res = Ok tt (final res) ->
     LimitOrderBook_has (book (final res)) u = false /\
     delivered (final res) = delivered r ++ [DeleteOrder u]) /\
  (* a feed: so are the packets after it *)
  (map body pkts = map body pkts' ->
   outcome (Receiver_run pkts r) = outcome (Receiver_run pkts' r)) /\
  outcome (Receiver_run pkts r) = outcome (Receiver_apply (map body pkts) r).
Proof.
  intros res. unfold res. rewrite read_message_resync.
  destruct (resync_view pkt r) as [Hv Hl].
  pose proof (handle_applied (body pkt) (resync pkt r)) as Happ.
  apply (applied_view _ r) in Happ; [|symmetry; exact Hv].
  assert (Hbook : book (resync pkt r) = book r) by (injection Hv; auto).
  split.
  { destruct (handle_view (body pkt) (resync pkt r) (resync pkt r) eq_refl) as [_ ->].
    exact Hl. }
  split.
  { rewrite handle_cerr. rewrite app_assoc. f_equal.
    - unfold resync, gap_lines. destruct (decide _); cbn; rewrite ?app_nil_r; reflexivity.
    - unfold uid_lines. rewrite Hbook. reflexivity. }
  split; [exact Happ|].
  split.
  { intros Hm u. rewrite Hm in Happ |- *. destruct Happ as (-> & _). apply clear_has. }
  split.
  { intros u p q s Hm Hhas Hq. rewrite Hm in Happ |- *. cbn [applied] in Happ.
    destruct Happ as (Hb & _ & Hres).
    destruct (add_rests u p q s (book r) Hhas Hq) as (b' & E & Hb').
    rewrite E in Hb, Hres. cbn [final] in Hb. destruct Hres as [Hres Hd].
    split; [exact Hres|]. rewrite Hb. split; [exact Hb'|exact Hd]. }
  split.
  { intros u Hm Hhas Hok. rewrite Hm in Happ, Hok |- *. cbn [applied] in Happ.
    rewrite Hhas in Happ. destruct Happ as (Hb & _ & Hres).
    destruct (LimitOrderBook_cancel u (book r)) as [[] b'|e b'] eqn:E.
    - destruct Hres as [_ Hd]. split; [|exact Hd].
      rewrite Hb. exact (cancel_gone u (book r) b' E).
    - destruct Hres as [Hres _]. rewrite Hok in Hres. discriminate. }
  split; [apply run_numbers|apply run_outcome].
Qed.

(** The scenario of the specification: an [AddOrder] with the number 1, then a
    [DeleteOrder] of an order that was never seen, with the number 3. *)
Lemma gap_scenario :
  exists r,
    Receiver_run [mkPacket 1 (AddOrder 1 100 10 WireSell); mkPacket 3 (DeleteOrder 2)]
                 Receiver_new = Ok tt r /\
    last_sequence r = 3 /\
    cerr r = [OutOfSequence 3 1; DeleteNonExistent 2] /\
    LimitOrderBook_has (book r) 1 = true /\
    delivered r = [AddOrder 1 100 10 WireSell].
Proof. eexists. vm_compute. repeat split; reflexivity. Qed.

(** ** The sender and the receiver agree on the sequence numbers *)
Lemma send_all_run msgs : forall s,
  Sender_send_all msgs s
  = Ok tt (mkSender (sequence_after (sender_sequence s) msgs)
                    (sender_output s ++ packets_from (sender_sequence s) msgs)).
Proof.
  induction msgs as [|msg rest IH]; intros s.
  - cbn. unfold ret. rewrite app_nil_r. destruct s; reflexivity.
  - cbn [Sender_send_all sequence_after packets_from]. unfold bind, Sender_send, modify.
    rewrite IH. cbn [sender_sequence sender_output]. rewrite <- app_assoc. reflexivity.
Qed.

Lemma packets_body n msgs : map body (packets_from n msgs) = msgs.
Proof.
  revert n. induction msgs as [|msg rest IH]; intros n; [reflexivity|].
  cbn. rewrite IH. reflexivity.
Qed.

Lemma handle_in_sequence msg r :
  in_sequence r -> in_sequence (final (Receiver_handle msg r)).
Proof.
  unfold in_sequence. intros H. destruct r as [b a n d c]. cbn in H.
  destruct msg; cbn [Receiver_handle];
    unfold bind, on_book, did_receive, log, modify, get, ret, raise; cbn;
    repeat match goal with
    | |- context [match ?op b with _ => _ end] => destruct (op b); cbn
    | |- context [if ?c then _ else _] => destruct c; cbn
    end; try exact H; rewrite existsb_app, H; reflexivity.
Qed.

Lemma in_sequence_run msgs : forall r,
  in_sequence r ->
  let n := wrap32 (last_sequence r + 1) in
  in_sequence (final (Receiver_run (packets_from n msgs) r)) /\
  forall r', Receiver_run (packets_from n msgs) r = Ok tt r' ->
             wrap32 (last_sequence r' + 1) = sequence_after n msgs.
Proof.
  induction msgs as [|msg rest IH]; intros r Hr n.
  - cbn. unfold ret. split; [exact Hr|]. intros r' [= <-]. reflexivity.
  - cbn [packets_from sequence_after Receiver_run]. unfold bind.
    rewrite read_message_resync. cbn [body].
    assert (Hre : resync (mkPacket n msg) r = set_last_sequence n r).
    { unfold resync. cbn [header_sequence]. fold n. rewrite decide_True by reflexivity.
      reflexivity. }
    rewrite Hre.
    pose proof (handle_in_sequence msg (set_last_sequence n r) Hr) as H1.
    destruct (handle_view msg (set_last_sequence n r) (set_last_sequence n r) eq_refl)
      as [_ H2]. cbn [last_sequence set_last_sequence] in H2.
    destruct (Receiver_handle msg (set_last_sequence n r)) as [[] r1|e r1]; cbn [final] in *.
    + specialize (IH r1 H1). cbn zeta in IH. rewrite H2 in IH. exact IH.
    + split; [exact H1|]. intros r' [=].
Qed.

(** X17.  The sender and the receiver of the feed agree on the sequence
    numbers.  When the next number of the sender is the one the receiver
    expects (as for a new sender, which starts at 1, and a new receiver, whose
    last number is 0), the packets of any messages sent, received in order,
    are never reported out of sequence, also when the 32-bit numbers wrap
    around; the run of the receiver has the outcome of the messages applied in
    order, and if it ends without an exception the sender and the receiver
    agree again. *)
Theorem feed_stays_in_sequence (msgs : list Message) (s : Sender) (r : Receiver) :
  sender_sequence s = wrap32 (last_sequence r + 1) -> sender_output s = [] ->
  in_sequence r ->
  exists s',
    Sender_send_all msgs s = Ok tt s' /\ map body (sender_output s') = msgs /\
    in_sequence (final (Receiver_run (sender_output s') r)) /\
    outcome (Receiver_run (sender_output s') r) = outcome (Receiver_apply msgs r) /\
    forall r', Receiver_run (sender_output s') r = Ok tt r' ->
               sender_sequence s' = wrap32 (last_sequence r' + 1).
Proof.
  intros Hs Ho Hr. eexists. split; [apply send_all_run|].
  cbn [sender_output sender_sequence]. rewrite Ho, Hs. cbn [app].
  destruct (in_sequence_run msgs r Hr) as [H1 H2]. cbn zeta in H1, H2.
  split; [apply packets_body|]. split; [exact H1|]. split.
  - rewrite run_outcome, packets_body. reflexivity.
  - intros r' E. symmetry. apply H2, E.
Qed.

(** X17, the theorem at three messages of a new sender, read by a new
    receiver. *)
Lemma feed_stays_in_sequence_witness :
  exists s',
    Sender_send_all [StartOfSession; AddOrder 1 100 10 WireSell; DeleteOrder 1] Sender_new
      = Ok tt s' /\
    map body (sender_output s') = [StartOfSession; AddOrder 1 100 10 WireSell; DeleteOrder 1] /\
    in_sequence (final (Receiver_run (sender_output s') Receiver_new)) /\
    outcome (Receiver_run (sender_output s') Receiver_new)
      = outcome (Receiver_apply [StartOfSession; AddOrder 1 100 10 WireSell; DeleteOrder 1]
                                Receiver_new) /\
    forall r', Receiver_run (sender_output s') Receiver_new = Ok tt r' ->
               sender_sequence s' = wrap32 (last_sequence r' + 1).
Proof.
  apply (feed_stays_in_sequence [StartOfSession; AddOrder 1 100 10 WireSell; DeleteOrder 1]
           Sender_new Receiver_new); reflexivity.
Defined.

(** ** The mirror holds only orders the feed has added *)
Lemma keeps_ret {A} K (a : A) : keeps K (ret a).
Proof. intros b H. exact H. Qed.

Lemma keeps_raise {A} K e : keeps K (@raise LimitOrderBook A e).
Proof. intros b H. exact H. Qed.

Lemma keeps_unwrap {A} K e (o : option A) : keeps K (unwrap e o).
Proof. destruct o; intros b H; exact H. Qed.

Lemma keeps_bind {A B} K (p : M LimitOrderBook A) (k : A -> M LimitOrderBook B) :
  keeps K p -> (forall a, keeps K (k a)) -> keeps K (bind p k).
Proof.
  intros Hp Hk b Hb. unfold bind. specialize (Hp b Hb).
  destruct (p b) as [a b'|e b']; cbn [final] in *; [apply Hk, Hp|exact Hp].
Qed.

Lemma keeps_if {A} K (c : bool) (p q : M LimitOrderBook A) :
  keeps K p -> keeps K q -> keeps K (if c then p else q).
Proof. destruct c; auto. Qed.

Lemma keeps_load_tree K s : keeps K (load_tree s).
Proof. intros b H. exact H. Qed.

Lemma keeps_store_tree K s t : keeps K (store_tree s t).
Proof. intros b H. destruct s; exact H. Qed.

Lemma keeps_store_order K u o : u ∈ K -> keeps K (store_order u o).
Proof.
  intros Hu b H. unfold within, store_order, modify in *. cbn.
  rewrite dom_insert. intros x Hx. apply elem_of_union in Hx as [Hx|Hx].
  - apply elem_of_singleton in Hx. subst x. exact Hu.
  - exact (H x Hx).
Qed.

Lemma keeps_erase K u : keeps K (UIDOrderMap_erase u).
Proof.
  intros b H. unfold within, UIDOrderMap_erase, modify in *. cbn.
  rewrite dom_delete. intros x Hx. apply elem_of_difference in Hx as [Hx _].
  exact (H x Hx).
Qed.

Lemma keeps_emplace K u o : u ∈ K -> keeps K (UIDOrderMap_emplace u o).
Proof.
  intros Hu b H. unfold within, UIDOrderMap_emplace, modify in *. cbn.
  destruct (order_map b !! u); [exact H|]. cbn. rewrite dom_insert.
  intros x Hx. apply elem_of_union in Hx as [Hx|Hx].
  - apply elem_of_singleton in Hx. subst x. exact Hu.
  - exact (H x Hx).
Qed.

(** A uid that is looked up with success is a uid of the book. *)
Lemma keeps_load_order_then {B} K u (k : Order -> M LimitOrderBook B) :
  (u ∈ K -> forall o, keeps K (k o)) -> keeps K (bind (load_order u) k).
Proof.
  intros Hk b H. unfold load_order, get, unwrap, ret, raise, bind.
  destruct (order_map b !! u) as [o|] eqn:E; cbn [final]; [|exact H].
  apply Hk; [|exact H]. apply H, elem_of_dom. eauto.
Qed.

Lemma keeps_at_then {B} K u (k : Order -> M LimitOrderBook B) :
  (u ∈ K -> forall o, keeps K (k o)) -> keeps K (bind (UIDOrderMap_at u) k).
Proof.
  intros Hk b H. unfold UIDOrderMap_at, get, unwrap, ret, raise, bind.
  destruct (order_map b !! u) as [o|] eqn:E; cbn [final]; [|exact H].
  apply Hk; [|exact H]. apply H, elem_of_dom. eauto.
Qed.

Lemma keeps_at K u : keeps K (UIDOrderMap_at u).
Proof.
  intros b H. unfold UIDOrderMap_at, bind, get, unwrap.
  destruct (order_map b !! u); exact H.
Qed.

Lemma keeps_tree_limit K s u : keeps K (LimitTree_limit s u).
Proof.
  unfold LimitTree_limit. apply keeps_load_order_then. intros Hu o.
  apply keeps_bind; [apply keeps_load_tree|]. intros t. cbn zeta.
  apply keeps_bind; [apply keeps_store_tree|]. intros _.
  apply keeps_store_order, Hu.
Qed.

Lemma keeps_tree_cancel K s u : keeps K (LimitTree_cancel s u).
Proof.
  unfold LimitTree_cancel. apply keeps_load_order_then. intros Hu o.
  apply keeps_bind; [apply keeps_unwrap|]. intros p.
  apply keeps_bind; [apply keeps_load_tree|]. intros t.
  apply keeps_bind; [apply keeps_unwrap|]. intros l. cbn zeta.
  apply keeps_store_tree.
Qed.

Lemma keeps_market_loop K (did_fill : Z -> M LimitOrderBook unit) fuel :
  (forall u, keeps K (did_fill u)) ->
  forall s order, keeps K (LimitTree_market_loop fuel s did_fill order).
Proof.
  intros Hfill. induction fuel as [|fuel IH]; intros s order; cbn [LimitTree_market_loop].
  - apply keeps_raise.
  - apply keeps_bind; [apply keeps_load_tree|]. intros t.
    destruct (best t) as [p|]; [|apply keeps_ret].
    apply keeps_if; [apply keeps_ret|].
    apply keeps_bind; [apply keeps_unwrap|]. intros l.
    apply keeps_bind; [apply keeps_unwrap|]. intros u.
    apply keeps_load_order_then. intros Hu m.
    apply keeps_if.
    + apply keeps_bind; [apply keeps_tree_cancel|]. intros _.
      apply keeps_bind; [apply Hfill|]. intros _. apply IH.
    + apply keeps_bind; [apply keeps_store_order, Hu|]. intros _.
      apply keeps_bind; [apply keeps_store_tree|]. intros _. apply keeps_ret.
Qed.

Lemma keeps_tree_market K s order : keeps K (LimitTree_market s UIDOrderMap_erase order).
Proof.
  unfold LimitTree_market. apply keeps_bind; [apply keeps_load_tree|]. intros t.
  apply keeps_market_loop. intros u. apply keeps_erase.
Qed.

Lemma keeps_rest K s u : keeps K (LimitOrderBook_rest s u).
Proof.
  unfold LimitOrderBook_rest. apply keeps_bind; [apply keeps_at|]. intros _.
  apply keeps_tree_limit.
Qed.

Lemma keeps_cross K s u : keeps K (LimitOrderBook_cross s u).
Proof.
  unfold LimitOrderBook_cross. apply keeps_at_then. intros Hu o.
  apply keeps_bind; [apply keeps_tree_market|]. intros o'.
  apply keeps_bind; [apply keeps_store_order, Hu|]. intros _. apply keeps_at.
Qed.

Lemma keeps_limit K s u q p : u ∈ K -> keeps K (LimitOrderBook_limit s u q p).
Proof.
  intros Hu.
  destruct s; unfold LimitOrderBook_limit, LimitOrderBook_limit_sell, LimitOrderBook_limit_buy;
    (apply keeps_bind; [apply keeps_emplace, Hu|]; intros _;
     apply keeps_bind; [apply keeps_load_tree|]; intros t;
     destruct (best t) as [k|]; [|apply keeps_rest];
     apply keeps_if; [|apply keeps_rest];
     apply keeps_bind; [apply keeps_cross|]; intros o;
     apply keeps_if; [apply keeps_erase|apply keeps_rest]).
Qed.

Lemma keeps_cancel K u : keeps K (LimitOrderBook_cancel u).
Proof.
  unfold LimitOrderBook_cancel. apply keeps_bind; [apply keeps_at|]. intros o.
  apply keeps_bind; [apply keeps_tree_cancel|]. intros _. apply keeps_erase.
Qed.

Lemma keeps_reduce K u q : keeps K (LimitOrderBook_reduce u q).
Proof.
  unfold LimitOrderBook_reduce. apply keeps_at_then. intros Hu o.
  apply keeps_if; [apply keeps_raise|].
  apply keeps_bind; [apply keeps_store_order, Hu|]. intros _.
  apply keeps_bind; [apply keeps_unwrap|]. intros p.
  apply keeps_bind; [apply keeps_load_tree|]. intros t.
  apply keeps_bind; [apply keeps_unwrap|]. intros l.
  apply keeps_bind; [apply keeps_store_tree|]. intros _.
  apply keeps_if; [|apply keeps_ret].
  apply keeps_bind; [apply keeps_tree_cancel|]. intros _. apply keeps_erase.
Qed.

Lemma clear_empties b : order_map (final (LimitOrderBook_clear b)) = ∅.
Proof. reflexivity. Qed.

Lemma on_book_final {A} (op : M LimitOrderBook A) r :
  book (final (on_book op r)) = final (op (book r)).
Proof. unfold on_book. destruct (op (book r)); reflexivity. Qed.

Lemma then_receive_book (op : M LimitOrderBook unit) msg r :
  book (final ((do on_book op then did_receive msg) r)) = final (op (book r)).
Proof.
  unfold bind, on_book, did_receive, modify. destruct (op (book r)); reflexivity.
Qed.

Lemma handle_within K msg r :
  within K (book r) -> added [msg] ⊆ K ->
  within K (book (final (Receiver_handle msg r))).
Proof.
  intros H Hadd. destruct msg; cbn [Receiver_handle added] in *.
  - rewrite then_receive_book. unfold within. rewrite clear_empties, dom_empty. set_solver.
  - rewrite then_receive_book. apply keeps_limit; [set_solver|exact H].
  - unfold bind at 1. unfold get. destruct (negb _).
    + exact H.
    + rewrite then_receive_book. apply keeps_cancel, H.
  - unfold bind at 1. unfold get. destruct (negb _).
    + exact H.
    + rewrite then_receive_book. apply keeps_reduce, H.
  - exact H.
  - exact H.
  - exact H.
Qed.

Lemma added_cons msg rest : added (msg :: rest) = added [msg] ∪ added rest.
Proof.
  destruct msg; cbn [added]; rewrite ?(right_id_L ∅ (∪)), ?(left_id_L ∅ (∪)); reflexivity.
Qed.

(** X18.  The mirror book of the receiver holds only orders the feed has
    added: whatever packets are received, and however the run ends, the uids
    of the book are uids it held before or uids of [AddOrder] messages of the
    packets.  ([Trade] and [DeleteOrder] messages never create an order.)  The
    matching inside the book runs on the limit tree, which is modelled from
    the specification. *)
Theorem mirror_holds_only_added_orders (pkts : list Packet) (r : Receiver) :
  dom (order_map (book (final (Receiver_run pkts r))))
    ⊆ dom (order_map (book r)) ∪ added (map body pkts).
Proof.
  assert (H : forall K r, within K (book r) -> added (map body pkts) ⊆ K ->
                          within K (book (final (Receiver_run pkts r)))).
  { clear r. induction pkts as [|pkt rest IH]; intros K r Hr Hadd.
    - exact Hr.
    - cbn [Receiver_run map] in *. rewrite added_cons in Hadd. unfold bind.
      rewrite read_message_resync.
      assert (Hb : book (resync pkt r) = book r).
      { unfold resync. destruct (decide _); reflexivity. }
      pose proof (handle_within K (body pkt) (resync pkt r)) as H1.
      rewrite Hb in H1. specialize (H1 Hr ltac:(set_solver)).
      destruct (Receiver_handle (body pkt) (resync pkt r)) as [[] r1|e r1]; cbn [final] in *.
      + apply IH; [exact H1|set_solver].
      + exact H1. }
  apply H; unfold within; set_solver.
Qed.

End DataFeedFacts.
